(** * stream-schema: a shallow embedding of the streaming tokenizer, the
    parser state machine and the schema validator, with the properties of
    the specification stated and settled against the embedded code.

    Conventions of the model.
    - Text (chunks, the tokenizer's carry buffer) is a [list ascii]: one
      element per code unit.  Keys, paths and messages are [string]s.
    - JSON numbers are exact rationals ([Q], kept reduced); floating-point
      rounding is outside the model.
    - A JS object used as a map is the association list of its own
      members in insertion order, with unique keys; assignment replaces
      in place or appends, except that assigning to [__proto__] adds no
      member.  Members inherited from [Object.prototype] are outside the
      model: [key in value] and [object[key]] see own members only.
    - The host's regular-expression engine, [JSON.stringify], number
      printing and the depth of the call stack are taken from a [Runtime]
      record.  Recursion that the source leaves unbounded ([resolveRef],
      [validateValue]) is driven by a fuel argument; running out of fuel is
      the model of the host's stack overflow.
    - A [pattern] that is not a regular expression makes the host throw;
      the model takes the engine as total.
    - Event callbacks ([options.events]) are observers and are not
      modelled. *)

From Stdlib Require Import List String Ascii ZArith QArith Bool Lia Arith.
From Stdlib Require Import DecimalString DecimalNat.
Import ListNotations.
Set Warnings "-register-all".
Local Open Scope nat_scope.
Local Open Scope string_scope.
Local Open Scope list_scope.

(* ================================================================== *)
(** * Small utilities *)

Definition obind {A B : Type} (m : option A) (k : A -> option B) : option B :=
  match m with
  | Some a => k a
  | None => None
  end.

Notation "x <- m ;; k" := (obind m (fun x => k))
  (at level 61, m at next level, right associativity).

(** String concatenation, kept apart from list append. *)
Infix "+++" := String.append (right associativity, at level 60).

(** [for (x of l) errors.push(...f(x))] *)
Fixpoint collect {A E : Type} (f : A -> option (list E)) (l : list A)
  : option (list E) :=
  match l with
  | [] => Some []
  | x :: r => e <- f x ;; es <- collect f r ;; Some (e ++ es)
  end.

(** [l.some(f)], stopping at the first hit as the host does. *)
Fixpoint someM {A : Type} (f : A -> option bool) (l : list A) : option bool :=
  match l with
  | [] => Some false
  | x :: r => b <- f x ;; if b then Some true else someM f r
  end.

(** [l.filter(f).length] *)
Fixpoint countM {A : Type} (f : A -> option bool) (l : list A) : option nat :=
  match l with
  | [] => Some 0
  | x :: r => b <- f x ;; n <- countM f r ;; Some (if b then S n else n)
  end.

Definition isEmpty {A : Type} (l : list A) : bool :=
  match l with [] => true | _ => false end.

Definition str_in (s : string) (l : list string) : bool :=
  existsb (String.eqb s) l.

(** [String(n)] for a non-negative integer. *)
Definition string_of_nat (n : nat) : string :=
  NilEmpty.string_of_uint (Nat.to_uint n).

(** [path.join('.')] *)
Definition join_path (path : list string) : string := String.concat "." path.

(** Association lists standing for JS objects. *)
Fixpoint assoc_get {A : Type} (k : string) (l : list (string * A)) : option A :=
  match l with
  | [] => None
  | (k', v) :: r => if String.eqb k k' then Some v else assoc_get k r
  end.

Fixpoint assoc_set {A : Type} (k : string) (v : A) (l : list (string * A))
  : list (string * A) :=
  match l with
  | [] => [(k, v)]
  | (k', v') :: r =>
      if String.eqb k k' then (k, v) :: r else (k', v') :: assoc_set k v r
  end.

(** [{...a, ...b}] *)
Definition spread {A : Type} (a b : list (string * A)) : list (string * A) :=
  fold_left (fun acc kv => assoc_set (fst kv) (snd kv) acc) b a.

Definition Qlt_bool (a b : Q) : bool := negb (Qle_bool b a).

Definition isInteger (q : Q) : bool := Pos.eqb (Qden (Qred q)) 1.

(** [a % b !== 0] on numbers: the remainder of a zero divisor is NaN. *)
Definition rem_nonzero (a b : Q) : bool :=
  if Qeq_bool b 0 then true else negb (isInteger (a / b)).

Definition Qlen {A : Type} (l : list A) : Q := inject_Z (Z.of_nat (List.length l)).
Definition Qstrlen (s : string) : Q := inject_Z (Z.of_nat (String.length s)).

(* ================================================================== *)
(** * Data model (types.ts) *)

Inductive Value : Type :=
| VNull
| VBool (b : bool)
| VNum (q : Q)
| VStr (s : string)
| VArr (xs : list Value)
| VObj (kvs : list (string * Value)).

Inductive JSONSchemaType : Type :=
| TString | TNumber | TInteger | TBoolean | TObject | TArray | TNull.

Definition type_eqb (a b : JSONSchemaType) : bool :=
  match a, b with
  | TString, TString | TNumber, TNumber | TInteger, TInteger
  | TBoolean, TBoolean | TObject, TObject | TArray, TArray
  | TNull, TNull => true
  | _, _ => false
  end.

Definition type_name (t : JSONSchemaType) : string :=
  match t with
  | TString => "string" | TNumber => "number" | TInteger => "integer"
  | TBoolean => "boolean" | TObject => "object" | TArray => "array"
  | TNull => "null"
  end.

Inductive JSONSchema : Type := mkSchema {
  s_ref : option string;
  s_defs : option (list (string * JSONSchema));
  s_definitions : option (list (string * JSONSchema));
  s_type : option (JSONSchemaType + list JSONSchemaType);
  s_enum : option (list Value);
  s_const : option Value;
  s_multipleOf : option Q;
  s_maximum : option Q;
  s_exclusiveMaximum : option Q;
  s_minimum : option Q;
  s_exclusiveMinimum : option Q;
  s_maxLength : option Q;
  s_minLength : option Q;
  s_pattern : option string;
  s_format : option string;
  s_items : option (JSONSchema + list JSONSchema);
  s_additionalItems : option (JSONSchema + bool);
  s_maxItems : option Q;
  s_minItems : option Q;
  s_uniqueItems : option bool;
  s_contains : option JSONSchema;
  s_maxProperties : option Q;
  s_minProperties : option Q;
  s_required : option (list string);
  s_properties : option (list (string * JSONSchema));
  s_patternProperties : option (list (string * JSONSchema));
  s_additionalProperties : option (JSONSchema + bool);
  s_propertyNames : option JSONSchema;
  s_if : option JSONSchema;
  s_then : option JSONSchema;
  s_else : option JSONSchema;
  s_allOf : option (list JSONSchema);
  s_anyOf : option (list JSONSchema);
  s_oneOf : option (list JSONSchema);
  s_not : option JSONSchema
}.

(** The schema [{}]. *)
Definition emptySchema : JSONSchema :=
  mkSchema None None None None None None None None None None None None None
           None None None None None None None None None None None None None
           None None None None None None None None None.

Record ValidationError : Type := mkError {
  e_path : list string;
  e_message : string;
  e_keyword : string;
  e_schema : JSONSchema;
  e_value : option Value
}.

(** What the validator and the parser take from the host. *)
Record Runtime : Type := mkRuntime {
  (** [new RegExp(pattern, ignoreCase ? 'i' : '').test(subject)] *)
  regexp_test : string -> bool -> string -> bool;
  json_stringify : Value -> string;
  number_toString : Q -> string;
  (** how deep the validator may recurse before the stack overflows *)
  stack_limit : nat
}.

(* ================================================================== *)
(** * Schema validator (validator.ts) *)

Record ValidatorOptions : Type := mkValidatorOptions {
  earlyReject : bool;
  allErrors : bool
}.

Record ValidationContext : Type := mkCtx {
  c_path : list string;
  c_schema : JSONSchema;
  c_root : JSONSchema;
  c_definitions : list (string * JSONSchema)
}.

Record SchemaValidator : Type := mkValidator {
  v_rt : Runtime;
  v_schema : JSONSchema;
  v_options : ValidatorOptions;
  v_definitions : list (string * JSONSchema)
}.

Definition opt_list {A : Type} (o : option (list A)) : list A :=
  match o with Some l => l | None => [] end.

(** [new SchemaValidator(schema, options)]; an absent option is [None]. *)
Definition newSchemaValidator (rt : Runtime) (schema : JSONSchema)
    (o_earlyReject o_allErrors : option bool) : SchemaValidator :=
  {| v_rt := rt;
     v_schema := schema;
     v_options := {| earlyReject := match o_earlyReject with Some b => b | None => true end;
                     allErrors := match o_allErrors with Some b => b | None => false end |};
     v_definitions := spread (opt_list (s_defs schema)) (opt_list (s_definitions schema)) |}.

(** [ref.split('/').pop()]: the text after the last slash. *)
Fixpoint last_segment_aux (acc : string) (s : string) : string :=
  match s with
  | EmptyString => acc
  | String c r =>
      if Ascii.eqb c "/"%char then last_segment_aux EmptyString r
      else last_segment_aux (acc +++ String c EmptyString) r
  end.

Definition last_segment (s : string) : string := last_segment_aux EmptyString s.

Definition is_local_ref (ref : string) : bool :=
  String.prefix "#/$defs/" ref || String.prefix "#/definitions/" ref.

(** [resolveRef]: follows a chain of same-document pointers.  [None] when
    the fuel runs out. *)
Fixpoint resolveRef (fuel : nat) (defs : list (string * JSONSchema))
    (schema : JSONSchema) : option JSONSchema :=
  match fuel with
  | O => None
  | S f =>
      match s_ref schema with
      | None => Some schema
      | Some ref =>
          if String.eqb ref "" then Some schema
          else if is_local_ref ref then
            let name := last_segment ref in
            if String.eqb name "" then Some schema
            else match assoc_get name defs with
                 | Some d => resolveRef f defs d
                 | None => Some schema
                 end
          else Some schema
      end
  end.

Definition getJSONType (value : Value) : JSONSchemaType :=
  match value with
  | VNull => TNull
  | VArr _ => TArray
  | VObj _ => TObject
  | VStr _ => TString
  | VNum _ => TNumber
  | VBool _ => TBoolean
  end.

Definition createError (ctx : ValidationContext) (keyword message : string)
    (value : option Value) : ValidationError :=
  {| e_path := c_path ctx; e_message := message; e_keyword := keyword;
     e_schema := c_schema ctx; e_value := value |}.

Definition type_list (ty : JSONSchemaType + list JSONSchemaType)
  : list JSONSchemaType :=
  match ty with inl t => [t] | inr ts => ts end.

Definition value_isInteger (value : Value) : bool :=
  match value with VNum q => isInteger q | _ => false end.

(** The loop of [validateType]: does some listed type accept the value? *)
Definition type_accepts (value : Value) (t : JSONSchemaType) : bool :=
  type_eqb t (getJSONType value)
  || (type_eqb t TInteger && type_eqb (getJSONType value) TNumber
      && value_isInteger value).

Definition validateType (value : Value)
    (ty : JSONSchemaType + list JSONSchemaType) (ctx : ValidationContext)
  : list ValidationError :=
  let types := type_list ty in
  if existsb (type_accepts value) types then []
  else [createError ctx "type"
          ("Expected " +++ String.concat " or " (map type_name types)
           +++ ", got " +++ type_name (getJSONType value)) (Some value)].

(** Own enumerable keys and property read of a value whose [typeof] is
    ['object'] (arrays answer to their indices and to [length]). *)
Definition own_keys (v : Value) : list string :=
  match v with
  | VArr xs => map string_of_nat (seq 0 (List.length xs))
  | VObj kvs => map fst kvs
  | _ => []
  end.

Fixpoint index_get (k : string) (i : nat) (xs : list Value) : option Value :=
  match xs with
  | [] => None
  | x :: r => if String.eqb k (string_of_nat i) then Some x else index_get k (S i) r
  end.

Definition prop_get (v : Value) (k : string) : option Value :=
  match v with
  | VArr xs =>
      if String.eqb k "length" then Some (VNum (Qlen xs)) else index_get k 0 xs
  | VObj kvs => assoc_get k kvs
  | _ => None
  end.

Definition is_objectish (v : Value) : bool :=
  match v with VArr _ | VObj _ => true | _ => false end.

Fixpoint deepEqual (a b : Value) {struct a} : bool :=
  match a with
  | VNull => match b with VNull => true | _ => false end
  | VBool x => match b with VBool y => Bool.eqb x y | _ => false end
  | VNum x => match b with VNum y => Qeq_bool x y | _ => false end
  | VStr x => match b with VStr y => String.eqb x y | _ => false end
  | VArr xs =>
      is_objectish b
      && Nat.eqb (List.length xs) (List.length (own_keys b))
      && (fix every (l : list Value) (i : nat) {struct l} : bool :=
            match l with
            | [] => true
            | v :: r =>
                match prop_get b (string_of_nat i) with
                | Some w => deepEqual v w
                | None => false
                end && every r (S i)
            end) xs 0
  | VObj kvs =>
      is_objectish b
      && Nat.eqb (List.length kvs) (List.length (own_keys b))
      && (fix every (l : list (string * Value)) {struct l} : bool :=
            match l with
            | [] => true
            | (k, v) :: r =>
                match prop_get b k with
                | Some w => deepEqual v w
                | None => false
                end && every r
            end) kvs
  end.

(** The table of [validateFormat]: pattern and case-insensitivity. *)
Definition format_regex (format : string) : option (string * bool) :=
  if String.eqb format "date-time" then
    Some ("^\d{4}-\d{2}-\d{2}T\d{2}:\d{2}:\d{2}(\.\d+)?(Z|[+-]\d{2}:\d{2})$", false)
  else if String.eqb format "date" then Some ("^\d{4}-\d{2}-\d{2}$", false)
  else if String.eqb format "time" then
    Some ("^\d{2}:\d{2}:\d{2}(\.\d+)?(Z|[+-]\d{2}:\d{2})?$", false)
  else if String.eqb format "email" then Some ("^[^\s@]+@[^\s@]+\.[^\s@]+$", false)
  else if String.eqb format "uri" then Some ("^[a-zA-Z][a-zA-Z0-9+.-]*:", false)
  else if String.eqb format "uuid" then
    Some ("^[0-9a-f]{8}-[0-9a-f]{4}-[0-9a-f]{4}-[0-9a-f]{4}-[0-9a-f]{12}$", true)
  else if String.eqb format "ipv4" then Some ("^(\d{1,3}\.){3}\d{1,3}$", false)
  else if String.eqb format "ipv6" then Some ("^([0-9a-f]{1,4}:){7}[0-9a-f]{1,4}$", true)
  else None.

Definition validateFormat (rt : Runtime) (value format : string) : option string :=
  match format_regex format with
  | Some (re, icase) =>
      if regexp_test rt re icase value then None
      else Some ("Invalid " +++ format +++ " format")
  | None => None
  end.

(** [cond ? [error] : []] for an optional numeric bound. *)
Definition check_bound (bound : option Q) (violated : Q -> bool)
    (mk : Q -> ValidationError) : list ValidationError :=
  match bound with
  | Some b => if violated b then [mk b] else []
  | None => []
  end.

Definition validateString (rt : Runtime) (value : string) (schema : JSONSchema)
    (ctx : ValidationContext) : list ValidationError :=
  check_bound (s_minLength schema) (fun b => Qlt_bool (Qstrlen value) b)
    (fun b => createError ctx "minLength"
       ("String must be at least " +++ number_toString rt b +++ " characters")
       (Some (VStr value)))
  ++ check_bound (s_maxLength schema) (fun b => Qlt_bool b (Qstrlen value))
    (fun b => createError ctx "maxLength"
       ("String must be at most " +++ number_toString rt b +++ " characters")
       (Some (VStr value)))
  ++ match s_pattern schema with
     | Some p =>
         if regexp_test rt p false value then []
         else [createError ctx "pattern" ("String must match pattern: " +++ p)
                 (Some (VStr value))]
     | None => []
     end
  ++ match s_format schema with
     | Some f =>
         match validateFormat rt value f with
         | Some msg => [createError ctx "format" msg (Some (VStr value))]
         | None => []
         end
     | None => []
     end.

Definition validateNumber (rt : Runtime) (value : Q) (schema : JSONSchema)
    (ctx : ValidationContext) : list ValidationError :=
  check_bound (s_minimum schema) (fun b => Qlt_bool value b)
    (fun b => createError ctx "minimum"
       ("Value must be >= " +++ number_toString rt b) (Some (VNum value)))
  ++ check_bound (s_maximum schema) (fun b => Qlt_bool b value)
    (fun b => createError ctx "maximum"
       ("Value must be <= " +++ number_toString rt b) (Some (VNum value)))
  ++ check_bound (s_exclusiveMinimum schema) (fun b => Qle_bool value b)
    (fun b => createError ctx "exclusiveMinimum"
       ("Value must be > " +++ number_toString rt b) (Some (VNum value)))
  ++ check_bound (s_exclusiveMaximum schema) (fun b => Qle_bool b value)
    (fun b => createError ctx "exclusiveMaximum"
       ("Value must be < " +++ number_toString rt b) (Some (VNum value)))
  ++ check_bound (s_multipleOf schema) (fun b => rem_nonzero value b)
    (fun b => createError ctx "multipleOf"
       ("Value must be a multiple of " +++ number_toString rt b) (Some (VNum value))).

Definition with_schema (ctx : ValidationContext) (s : JSONSchema) : ValidationContext :=
  {| c_path := c_path ctx; c_schema := s; c_root := c_root ctx;
     c_definitions := c_definitions ctx |}.

Definition with_segment (ctx : ValidationContext) (seg : string) (s : JSONSchema)
  : ValidationContext :=
  {| c_path := c_path ctx ++ [seg]; c_schema := s; c_root := c_root ctx;
     c_definitions := c_definitions ctx |}.

Fixpoint nodup_strings (l : list string) : bool :=
  match l with
  | [] => true
  | x :: r => negb (str_in x r) && nodup_strings r
  end.

Definition indexed {A : Type} (l : list A) : list (nat * A) :=
  combine (seq 0 (List.length l)) l.

(** The bodies of [validateArray] and [validateObject], with the recursive
    call to [validateValue] taken as [rec]. *)
Section ValidateContainers.
Variable rt : Runtime.
Variable rec : Value -> ValidationContext -> option (list ValidationError).

Definition passes (value : Value) (ctx : ValidationContext) (s : JSONSchema)
  : option bool :=
  e <- rec value (with_schema ctx s) ;; Some (isEmpty e).

Definition validateArray (value : list Value) (schema : JSONSchema)
    (ctx : ValidationContext) : option (list ValidationError) :=
  let e1 :=
    check_bound (s_minItems schema) (fun b => Qlt_bool (Qlen value) b)
      (fun b => createError ctx "minItems"
         ("Array must have at least " +++ number_toString rt b +++ " items")
         (Some (VArr value)))
    ++ check_bound (s_maxItems schema) (fun b => Qlt_bool b (Qlen value))
      (fun b => createError ctx "maxItems"
         ("Array must have at most " +++ number_toString rt b +++ " items")
         (Some (VArr value)))
    ++ match s_uniqueItems schema with
       | Some true =>
           if nodup_strings (map (json_stringify rt) value) then []
           else [createError ctx "uniqueItems" "Array items must be unique"
                   (Some (VArr value))]
       | _ => []
       end in
  e2 <- match s_items schema with
        | Some (inr tuple) =>
            collect (fun iv : nat * Value =>
              let (i, v) := iv in
              let itemSchema :=
                match nth_error tuple i with
                | Some s => Some s
                | None => match s_additionalItems schema with
                          | Some (inl s) => Some s
                          | _ => None
                          end
                end in
              match itemSchema with
              | Some s => rec v (with_segment ctx (string_of_nat i) s)
              | None =>
                  match s_additionalItems schema with
                  | Some (inr false) =>
                      if Nat.leb (List.length tuple) i then
                        Some [createError ctx "additionalItems"
                                ("No additional items allowed at index "
                                 +++ string_of_nat i) (Some v)]
                      else Some []
                  | _ => Some []
                  end
              end) (indexed value)
        | Some (inl s) =>
            collect (fun iv : nat * Value =>
              rec (snd iv) (with_segment ctx (string_of_nat (fst iv)) s))
              (indexed value)
        | None => Some []
        end ;;
  e3 <- match s_contains schema with
        | Some c =>
            ok <- someM (fun item => passes item ctx c) value ;;
            Some (if ok then []
                  else [createError ctx "contains"
                          "Array must contain at least one matching item" None])
        | None => Some []
        end ;;
  Some (e1 ++ e2 ++ e3).

Definition has_key (kvs : list (string * Value)) (k : string) : bool :=
  match assoc_get k kvs with Some _ => true | None => false end.

Definition validateObject (value : list (string * Value)) (schema : JSONSchema)
    (ctx : ValidationContext) : option (list ValidationError) :=
  let keys := map fst value in
  let e1 :=
    check_bound (s_minProperties schema) (fun b => Qlt_bool (Qlen keys) b)
      (fun b => createError ctx "minProperties"
         ("Object must have at least " +++ number_toString rt b +++ " properties")
         None)
    ++ check_bound (s_maxProperties schema) (fun b => Qlt_bool b (Qlen keys))
      (fun b => createError ctx "maxProperties"
         ("Object must have at most " +++ number_toString rt b +++ " properties")
         None)
    ++ flat_map (fun r =>
         if has_key value r then []
         else [createError ctx "required" ("Missing required property: " +++ r) None])
         (opt_list (s_required schema)) in
  let props := opt_list (s_properties schema) in
  let pats := opt_list (s_patternProperties schema) in
  let validatedKeys :=
    filter (has_key value) (map fst props)
    ++ flat_map (fun ps => filter (regexp_test rt (fst ps) false) keys) pats in
  e2 <- collect (fun kp : string * JSONSchema =>
          match assoc_get (fst kp) value with
          | Some v => rec v (with_segment ctx (fst kp) (snd kp))
          | None => Some []
          end) props ;;
  e3 <- collect (fun ps : string * JSONSchema =>
          collect (fun key =>
            if regexp_test rt (fst ps) false key then
              match assoc_get key value with
              | Some v => rec v (with_segment ctx key (snd ps))
              | None => Some []
              end
            else Some []) keys) pats ;;
  let additionalKeys := filter (fun k => negb (str_in k validatedKeys)) keys in
  e4 <- match s_additionalProperties schema with
        | Some (inr false) =>
            Some (map (fun key =>
                    createError ctx "additionalProperties"
                      ("Additional property not allowed: " +++ key) None)
                    additionalKeys)
        | Some (inl s) =>
            collect (fun key =>
              match assoc_get key value with
              | Some v => rec v (with_segment ctx key s)
              | None => Some []
              end) additionalKeys
        | _ => Some []
        end ;;
  e5 <- match s_propertyNames schema with
        | Some pn =>
            collect (fun key =>
              ok <- passes (VStr key) ctx pn ;;
              Some (if ok then []
                    else [createError ctx "propertyNames"
                            ("Invalid property name: " +++ key) None])) keys
        | None => Some []
        end ;;
  Some (e1 ++ e2 ++ e3 ++ e4 ++ e5).
End ValidateContainers.

(** [validateValue]: one unit of fuel per level of recursion. *)
Fixpoint validateValue (V : SchemaValidator) (fuel : nat) (value : Value)
    (ctx : ValidationContext) {struct fuel} : option (list ValidationError) :=
  match fuel with
  | O => None
  | S f =>
      let rt := v_rt V in
      let rec := validateValue V f in
      schema <- resolveRef f (v_definitions V) (c_schema ctx) ;;
      let typeErrors :=
        match s_type schema with
        | Some ty => validateType value ty ctx
        | None => []
        end in
      if negb (isEmpty typeErrors) && earlyReject (v_options V) then Some typeErrors
      else
        let e_const :=
          match s_const schema with
          | Some c =>
              if deepEqual value c then []
              else [createError ctx "const"
                      ("Value must be " +++ json_stringify rt c) None]
          | None => []
          end in
        let e_enum :=
          match s_enum schema with
          | Some en =>
              if existsb (deepEqual value) en then []
              else [createError ctx "enum"
                      ("Value must be one of: "
                       ++ String.concat ", " (map (json_stringify rt) en)) None]
          | None => []
          end in
        e_kind <- match value with
                  | VStr s => Some (validateString rt s schema ctx)
                  | VNum q => Some (validateNumber rt q schema ctx)
                  | VArr xs => validateArray rt rec xs schema ctx
                  | VObj kvs => validateObject rt rec kvs schema ctx
                  | _ => Some []
                  end ;;
        e_all <- match s_allOf schema with
                 | Some subs => collect (fun s => rec value (with_schema ctx s)) subs
                 | None => Some []
                 end ;;
        e_any <- match s_anyOf schema with
                 | Some subs =>
                     ok <- someM (passes rec value ctx) subs ;;
                     Some (if ok then []
                           else [createError ctx "anyOf"
                                   "Value must match at least one schema in anyOf" None])
                 | None => Some []
                 end ;;
        e_one <- match s_oneOf schema with
                 | Some subs =>
                     n <- countM (passes rec value ctx) subs ;;
                     Some (if Nat.eqb n 1 then []
                           else [createError ctx "oneOf"
                                   ("Value must match exactly one schema in oneOf (matched "
                                    +++ string_of_nat n +++ ")") None])
                 | None => Some []
                 end ;;
        e_not <- match s_not schema with
                 | Some s =>
                     ok <- passes rec value ctx s ;;
                     Some (if ok
                           then [createError ctx "not"
                                   "Value must not match schema in not" None]
                           else [])
                 | None => Some []
                 end ;;
        e_if <- match s_if schema with
                | Some s =>
                    ifValid <- passes rec value ctx s ;;
                    if ifValid then
                      match s_then schema with
                      | Some t => rec value (with_schema ctx t)
                      | None => Some []
                      end
                    else
                      match s_else schema with
                      | Some t => rec value (with_schema ctx t)
                      | None => Some []
                      end
                | None => Some []
                end ;;
        Some (typeErrors ++ e_const ++ e_enum ++ e_kind ++ e_all ++ e_any
              ++ e_one ++ e_not ++ e_if)
  end.

(** [\s] of the host's regular expressions, on one code unit. *)
Definition isWhitespace (c : ascii) : bool :=
  let n := nat_of_ascii c in
  (Nat.leb 9 n && Nat.leb n 13) || Nat.eqb n 32 || Nat.eqb n 160.

Definition isDigit (c : ascii) : bool :=
  let n := nat_of_ascii c in Nat.leb 48 n && Nat.leb n 57.

Definition digit_value (c : ascii) : Z := Z.of_nat (nat_of_ascii c - 48).

(** Longest run of decimal digits at the head, with its value. *)
Fixpoint take_digits (acc : Z) (s : list ascii) : Z * list ascii :=
  match s with
  | c :: r => if isDigit c then take_digits (10 * acc + digit_value c)%Z r
              else (acc, s)
  | [] => (acc, s)
  end.

Fixpoint skip_spaces (s : list ascii) : list ascii :=
  match s with
  | c :: r => if isWhitespace c then skip_spaces r else s
  | [] => []
  end.

Definition starts_with_digit (s : list ascii) : bool :=
  match s with c :: _ => isDigit c | [] => false end.

(** [parseInt(text, 10)]; [None] is NaN. *)
Definition parseInt (text : string) : option Z :=
  let s := skip_spaces (list_ascii_of_string text) in
  let (neg, body) :=
    match s with
    | c :: r => if Ascii.eqb c "-"%char then (true, r)
                else if Ascii.eqb c "+"%char then (false, r)
                else (false, s)
    | [] => (false, s)
    end in
  if starts_with_digit body then
    let n := fst (take_digits 0 body) in
    Some (if neg then (- n)%Z else n)
  else None.

Definition tuple_item (items : list JSONSchema) (index : Z) : option JSONSchema :=
  if (index <? 0)%Z then None else nth_error items (Z.to_nat index).

(** The loop of [getSchemaAtPath].  Outer [None]: out of fuel; inner
    [None]: the source's [undefined]. *)
Fixpoint getSchemaAtPath_from (fuel : nat) (defs : list (string * JSONSchema))
    (current : JSONSchema) (path : list string) : option (option JSONSchema) :=
  match path with
  | [] => r <- resolveRef fuel defs current ;; Some (Some r)
  | segment :: rest =>
      cur <- resolveRef fuel defs current ;;
      match assoc_get segment (opt_list (s_properties cur)) with
      | Some next => getSchemaAtPath_from fuel defs next rest
      | None =>
          match s_additionalProperties cur with
          | Some (inl next) => getSchemaAtPath_from fuel defs next rest
          | _ =>
              match s_items cur with
              | Some (inr tuple) =>
                  let byIndex :=
                    match parseInt segment with
                    | Some index => tuple_item tuple index
                    | None => None
                    end in
                  match byIndex with
                  | Some next => getSchemaAtPath_from fuel defs next rest
                  | None =>
                      match s_additionalItems cur with
                      | Some (inl next) => getSchemaAtPath_from fuel defs next rest
                      | _ => Some None
                      end
                  end
              | Some (inl next) => getSchemaAtPath_from fuel defs next rest
              | None => Some None
              end
          end
      end
  end.

Definition getSchemaAtPath (V : SchemaValidator) (fuel : nat) (path : list string)
  : option (option JSONSchema) :=
  getSchemaAtPath_from fuel (v_definitions V) (v_schema V) path.

Definition canBeType (V : SchemaValidator) (fuel : nat) (type : JSONSchemaType)
    (path : list string) : option bool :=
  sub <- getSchemaAtPath V fuel path ;;
  match sub with
  | None => Some true
  | Some subSchema =>
      resolved <- resolveRef fuel (v_definitions V) subSchema ;;
      match s_type resolved with
      | None =>
          match s_properties resolved, s_required resolved with
          | None, None =>
              match s_items resolved with
              | Some _ => Some (type_eqb type TArray)
              | None => Some true
              end
          | _, _ => Some (type_eqb type TObject)
          end
      | Some (inr types) => Some (existsb (type_eqb type) types)
      | Some (inl t) =>
          if type_eqb t TInteger && type_eqb type TNumber then Some true
          else Some (type_eqb t type)
      end
  end.

Definition validate (V : SchemaValidator) (fuel : nat) (value : Value)
    (path : list string) : option (list ValidationError) :=
  schemaAtPath <- (if isEmpty path then Some (Some (v_schema V))
                   else getSchemaAtPath V fuel path) ;;
  match schemaAtPath with
  | None => Some []
  | Some s =>
      validateValue V fuel value
        {| c_path := path; c_schema := s; c_root := v_schema V;
           c_definitions := v_definitions V |}
  end.

Definition validatePartial (V : SchemaValidator) (fuel : nat) (value : Value)
    (completedPaths : list string) (path : list string)
  : option (list ValidationError) :=
  let pathStr := join_path path in
  if str_in pathStr completedPaths || String.eqb pathStr "" then
    validateValue V fuel value
      {| c_path := path; c_schema := v_schema V; c_root := v_schema V;
         c_definitions := v_definitions V |}
  else Some [].

Definition getRequiredFields (V : SchemaValidator) (fuel : nat)
    (path : list string) : option (list string) :=
  s <- getSchemaAtPath V fuel path ;;
  Some (match s with Some schema => opt_list (s_required schema) | None => [] end).

Definition isRequired (V : SchemaValidator) (fuel : nat) (fieldName : string)
    (parentPath : list string) : option bool :=
  s <- getSchemaAtPath V fuel parentPath ;;
  Some (match s with
        | Some schema => str_in fieldName (opt_list (s_required schema))
        | None => false
        end).

(* ================================================================== *)
(** * Tokens (types.ts) *)

Inductive TokenType : Type :=
| TkObjectStart | TkObjectEnd | TkArrayStart | TkArrayEnd
| TkString | TkNumber | TkBoolean | TkNull
| TkColon | TkComma | TkKey
| TkPartialString | TkPartialNumber | TkPartialKey
| TkError.

Definition tokenType_name (t : TokenType) : string :=
  match t with
  | TkObjectStart => "OBJECT_START" | TkObjectEnd => "OBJECT_END"
  | TkArrayStart => "ARRAY_START" | TkArrayEnd => "ARRAY_END"
  | TkString => "STRING" | TkNumber => "NUMBER" | TkBoolean => "BOOLEAN"
  | TkNull => "NULL" | TkColon => "COLON" | TkComma => "COMMA" | TkKey => "KEY"
  | TkPartialString => "PARTIAL_STRING" | TkPartialNumber => "PARTIAL_NUMBER"
  | TkPartialKey => "PARTIAL_KEY" | TkError => "ERROR"
  end.

(** [value] is [VNull] where the source stores [null]. *)
Record Token : Type := mkToken {
  tk_type : TokenType;
  tk_value : Value;
  tk_raw : list ascii;
  tk_position : nat;
  tk_isPartial : bool
}.

(* ================================================================== *)
(** * Streaming tokenizer (tokenizer.ts)

    [state.buffer] and [state.position] are kept as the position together
    with the text from that position on: the characters before the
    position are never read again. *)

Record TokenizerOptions : Type := mkTokenizerOptions {
  to_allowTrailingCommas : bool;
  to_allowUnquotedKeys : bool;
  to_allowSingleQuotes : bool;
  to_llmMode : bool
}.

Record StreamingTokenizer : Type := mkTokenizer {
  t_options : TokenizerOptions;
  t_position : nat;
  t_buffer : list ascii;
  t_inString : bool;
  t_stringQuote : option ascii;
  t_tokens : list Token;
  t_expectingKey : bool
}.

(** [a ?? b ?? false] *)
Definition nullish (a b : option bool) : bool :=
  match a with
  | Some x => x
  | None => match b with Some y => y | None => false end
  end.

(** [new StreamingTokenizer(options)]; an absent option is [None]. *)
Definition newStreamingTokenizer
    (llmMode allowTrailingCommas allowUnquotedKeys allowSingleQuotes : option bool)
  : StreamingTokenizer :=
  {| t_options :=
       {| to_allowTrailingCommas := nullish llmMode allowTrailingCommas;
          to_allowUnquotedKeys := nullish llmMode allowUnquotedKeys;
          to_allowSingleQuotes := nullish llmMode allowSingleQuotes;
          to_llmMode := nullish llmMode None |};
     t_position := 0;
     t_buffer := [];
     t_inString := false;
     t_stringQuote := None;
     t_tokens := [];
     t_expectingKey := false |}.

Definition tokenizer_reset (t : StreamingTokenizer) : StreamingTokenizer :=
  {| t_options := t_options t; t_position := 0; t_buffer := [];
     t_inString := false; t_stringQuote := None; t_tokens := [];
     t_expectingKey := false |}.

Definition setExpectingKey (expecting : bool) (t : StreamingTokenizer)
  : StreamingTokenizer :=
  {| t_options := t_options t; t_position := t_position t;
     t_buffer := t_buffer t; t_inString := t_inString t;
     t_stringQuote := t_stringQuote t; t_tokens := t_tokens t;
     t_expectingKey := expecting |}.

(** Move to [pos] with [rest] the text from there on. *)
Definition seek (pos : nat) (rest : list ascii) (t : StreamingTokenizer)
  : StreamingTokenizer :=
  {| t_options := t_options t; t_position := pos; t_buffer := rest;
     t_inString := t_inString t; t_stringQuote := t_stringQuote t;
     t_tokens := t_tokens t; t_expectingKey := t_expectingKey t |}.

Definition pushToken (type : TokenType) (value : Value) (raw : list ascii)
    (position : nat) (t : StreamingTokenizer) : StreamingTokenizer :=
  {| t_options := t_options t; t_position := t_position t;
     t_buffer := t_buffer t; t_inString := t_inString t;
     t_stringQuote := t_stringQuote t;
     t_tokens := t_tokens t ++ [mkToken type value raw position false];
     t_expectingKey := t_expectingKey t |}.

(** [pushErrorToken]: [first] is [buffer[position] ?? ''], the character
    at the token's start; the position then advances by one from wherever
    it stands. *)
Definition pushErrorToken (message : string) (position : nat)
    (first : list ascii) (t : StreamingTokenizer) : StreamingTokenizer :=
  {| t_options := t_options t; t_position := S (t_position t);
     t_buffer := tl (t_buffer t); t_inString := t_inString t;
     t_stringQuote := t_stringQuote t;
     t_tokens := t_tokens t ++ [mkToken TkError (VStr message) first position false];
     t_expectingKey := t_expectingKey t |}.

Definition markInString (quote : ascii) (t : StreamingTokenizer)
  : StreamingTokenizer :=
  {| t_options := t_options t; t_position := t_position t;
     t_buffer := t_buffer t; t_inString := true;
     t_stringQuote := Some quote; t_tokens := t_tokens t;
     t_expectingKey := t_expectingKey t |}.

Definition isNumberStart (c : ascii) : bool :=
  Ascii.eqb c "-"%char || isDigit c.

Definition isNumberChar (c : ascii) : bool :=
  Ascii.eqb c "-"%char || Ascii.eqb c "+"%char || isDigit c
  || Ascii.eqb c "."%char || Ascii.eqb c "e"%char || Ascii.eqb c "E"%char.

Definition isLetter (c : ascii) : bool :=
  let n := nat_of_ascii c in
  (Nat.leb 97 n && Nat.leb n 122) || (Nat.leb 65 n && Nat.leb n 90).

(** [/[a-zA-Z0-9_]/] *)
Definition isWordChar (c : ascii) : bool :=
  isLetter c || isDigit c || Ascii.eqb c "_"%char.

(** [/[a-zA-Z0-9_$]/] *)
Definition isUnquotedKeyChar (c : ascii) : bool :=
  isWordChar c || Ascii.eqb c "$"%char.

Definition getEscapedChar (c : ascii) : ascii :=
  if Ascii.eqb c "n"%char then "010"%char
  else if Ascii.eqb c "r"%char then "013"%char
  else if Ascii.eqb c "t"%char then "009"%char
  else if Ascii.eqb c "b"%char then "008"%char
  else if Ascii.eqb c "f"%char then "012"%char
  else c.

Definition backslash : ascii := "\"%char.
Definition dquote : ascii := ascii_of_nat 34.
Definition squote : ascii := "'"%char.

Fixpoint unescapeString (str : list ascii) : list ascii :=
  match str with
  | [] => []
  | c :: r =>
      if Ascii.eqb c backslash then
        match r with
        | n :: r' => getEscapedChar n :: unescapeString r'
        | [] => [c]
        end
      else c :: unescapeString r
  end.

(** Longest prefix of characters satisfying [p], and what follows. *)
Fixpoint span (p : ascii -> bool) (s : list ascii) : list ascii * list ascii :=
  match s with
  | c :: r => if p c then let (a, b) := span p r in (c :: a, b) else ([], s)
  | [] => ([], [])
  end.

(** The scanning loop of [processString], after the opening quote.
    [None]: the buffer ended inside the string. *)
Fixpoint scanString (quote : ascii) (value raw : list ascii) (escaped : bool)
    (rest : list ascii) : option (list ascii * list ascii * list ascii) :=
  match rest with
  | [] => None
  | c :: r =>
      let raw' := raw ++ [c] in
      if escaped then scanString quote (value ++ [getEscapedChar c]) raw' false r
      else if Ascii.eqb c backslash then scanString quote value raw' true r
      else if Ascii.eqb c quote then Some (value, raw', r)
      else scanString quote (value ++ [c]) raw' false r
  end.

Definition processString (quote : ascii) (t : StreamingTokenizer)
  : bool * StreamingTokenizer :=
  let startPos := t_position t in
  match scanString quote [] [quote] false (tl (t_buffer t)) with
  | Some (value, raw, rest) =>
      let tokenType := if t_expectingKey t then TkKey else TkString in
      let t1 := seek (startPos + List.length raw) rest t in
      let t2 := pushToken tokenType (VStr (string_of_list_ascii value)) raw startPos t1 in
      (true, match tokenType with
             | TkKey => setExpectingKey false t2
             | _ => t2
             end)
  | None => (false, markInString quote t)
  end.

(** A signed run of digits as the host reads an exponent. *)
Definition read_exponent (s : list ascii) : Z :=
  match s with
  | c :: r =>
      if Ascii.eqb c "e"%char || Ascii.eqb c "E"%char then
        let (neg, digits) :=
          match r with
          | d :: r' => if Ascii.eqb d "-"%char then (true, r')
                       else if Ascii.eqb d "+"%char then (false, r')
                       else (false, r)
          | [] => (false, r)
          end in
        if starts_with_digit digits then
          let n := fst (take_digits 0 digits) in if neg then (- n)%Z else n
        else 0%Z
      else 0%Z
  | [] => 0%Z
  end.

(** [parseFloat] on text without leading blanks: the longest prefix that
    is a decimal literal; [None] is NaN. *)
Definition parseFloat (text : list ascii) : option Q :=
  let (neg, body) :=
    match text with
    | c :: r => if Ascii.eqb c "-"%char then (true, r)
                else if Ascii.eqb c "+"%char then (false, r)
                else (false, text)
    | [] => (false, text)
    end in
  let (ip, afterInt) := take_digits 0 body in
  let intDigits := List.length body - List.length afterInt in
  let '(mant, fracDigits, afterFrac) :=
    match afterInt with
    | c :: r =>
        if Ascii.eqb c "."%char then
          let (m, r') := take_digits ip r in
          (m, List.length r - List.length r', r')
        else (ip, 0, afterInt)
    | [] => (ip, 0, afterInt)
    end in
  if Nat.eqb (intDigits + fracDigits) 0 then None
  else
    let e := (read_exponent afterFrac - Z.of_nat fracDigits)%Z in
    let q := Qred (inject_Z mant * Qpower (inject_Z 10) e) in
    Some (if neg then Qred (- q) else q).

Definition isIncompleteNumberEnd (c : ascii) : bool :=
  Ascii.eqb c "e"%char || Ascii.eqb c "E"%char || Ascii.eqb c "."%char
  || Ascii.eqb c "-"%char || Ascii.eqb c "+"%char.

Definition processNumber (t : StreamingTokenizer) : bool * StreamingTokenizer :=
  let startPos := t_position t in
  let (raw, rest) := span isNumberChar (t_buffer t) in
  match rest with
  | [] => (false, t)
  | _ =>
      if negb (isEmpty raw) && isIncompleteNumberEnd (last raw "0"%char)
      then (false, t)
      else
        let t1 := seek (startPos + List.length raw) rest t in
        match parseFloat raw with
        | None =>
            (true, pushErrorToken ("Invalid number: " +++ string_of_list_ascii raw)
                     startPos (firstn 1 (t_buffer t)) t1)
        | Some value => (true, pushToken TkNumber (VNum value) raw startPos t1)
        end
  end.

Fixpoint starts_with (prefix s : list ascii) : bool :=
  match prefix, s with
  | [], _ => true
  | p :: ps, c :: cs => Ascii.eqb p c && starts_with ps cs
  | _ :: _, [] => false
  end.

Definition keywords : list (list ascii * (TokenType * Value)) :=
  [ (list_ascii_of_string "true", (TkBoolean, VBool true));
    (list_ascii_of_string "false", (TkBoolean, VBool false));
    (list_ascii_of_string "null", (TkNull, VNull)) ].

(** The first loop of [processKeyword]: a keyword at the head that is not
    followed by a word character. *)
Fixpoint matchKeyword (kws : list (list ascii * (TokenType * Value)))
    (rest : list ascii) : option (list ascii * (TokenType * Value)) :=
  match kws with
  | [] => None
  | (keyword, info) :: more =>
      if starts_with keyword rest then
        match skipn (List.length keyword) rest with
        | nextChar :: _ =>
            if isWordChar nextChar then matchKeyword more rest
            else Some (keyword, info)
        | [] => Some (keyword, info)
        end
      else matchKeyword more rest
  end.

(** The second loop: the text up to the end of the buffer is a strict
    prefix of a keyword. *)
Definition isPartialKeyword (rest : list ascii) : bool :=
  Nat.leb (List.length rest) 4
  && existsb (fun kw => starts_with rest (fst kw)
                        && Nat.ltb (List.length rest) (List.length (fst kw)))
       keywords.

Definition processUnquotedKey (t : StreamingTokenizer) : bool * StreamingTokenizer :=
  let startPos := t_position t in
  let (key, rest) := span isUnquotedKeyChar (t_buffer t) in
  let t1 := seek (startPos + List.length key) rest t in
  let emit :=
    (true, setExpectingKey false
             (pushToken TkKey (VStr (string_of_list_ascii key)) key startPos t1)) in
  if negb (isEmpty key) then
    match rest with
    | [] => emit
    | nextChar :: _ =>
        if Ascii.eqb nextChar ":"%char || isWhitespace nextChar then emit
        else emit
    end
  else (false, t1).

Definition processKeyword (t : StreamingTokenizer) : bool * StreamingTokenizer :=
  let startPos := t_position t in
  match matchKeyword keywords (t_buffer t) with
  | Some (keyword, (type, value)) =>
      let t1 := seek (startPos + List.length keyword)
                     (skipn (List.length keyword) (t_buffer t)) t in
      (true, pushToken type value keyword startPos t1)
  | None =>
      if isPartialKeyword (t_buffer t) then (false, t)
      else if to_allowUnquotedKeys (t_options t) && t_expectingKey t then
        processUnquotedKey t
      else
        (true, pushErrorToken ("Invalid keyword at position " +++ string_of_nat startPos)
                 startPos (firstn 1 (t_buffer t)) t)
  end.

Definition skipWhitespace (t : StreamingTokenizer) : StreamingTokenizer :=
  let rest := skip_spaces (t_buffer t) in
  seek (t_position t + (List.length (t_buffer t) - List.length rest)) rest t.

Definition structural (type : TokenType) (c : ascii) (t : StreamingTokenizer)
  : StreamingTokenizer :=
  pushToken type VNull [c] (t_position t)
    (seek (S (t_position t)) (tl (t_buffer t)) t).

Definition processNextToken (t0 : StreamingTokenizer) : bool * StreamingTokenizer :=
  let t := skipWhitespace t0 in
  match t_buffer t with
  | [] => (false, t)
  | char :: _ =>
      let startPos := t_position t in
      if Ascii.eqb char "{"%char then
        (true, setExpectingKey true (structural TkObjectStart char t))
      else if Ascii.eqb char "}"%char then
        (true, setExpectingKey false (structural TkObjectEnd char t))
      else if Ascii.eqb char "["%char then
        (true, setExpectingKey false (structural TkArrayStart char t))
      else if Ascii.eqb char "]"%char then
        (true, setExpectingKey false (structural TkArrayEnd char t))
      else if Ascii.eqb char ":"%char then
        (true, setExpectingKey false (structural TkColon char t))
      else if Ascii.eqb char ","%char then
        (true, structural TkComma char t)
      else if Ascii.eqb char dquote || Ascii.eqb char squote then
        if Ascii.eqb char squote && negb (to_allowSingleQuotes (t_options t)) then
          (true, pushErrorToken ("Unexpected character: " +++ String char EmptyString)
                   startPos [char] t)
        else processString char t
      else if isNumberStart char then processNumber t
      else if Ascii.eqb char "t"%char || Ascii.eqb char "f"%char
              || Ascii.eqb char "n"%char then processKeyword t
      else if to_allowUnquotedKeys (t_options t) && t_expectingKey t
              && isUnquotedKeyChar char then processUnquotedKey t
      else if to_llmMode (t_options t) then
        (true, seek (S (t_position t)) (tl (t_buffer t)) t)
      else
        (true, pushErrorToken ("Unexpected character: " +++ String char EmptyString)
                 startPos [char] t)
  end.

(** The [while] loop of [feed]. *)
Fixpoint feed_loop (fuel : nat) (t : StreamingTokenizer) : StreamingTokenizer :=
  match fuel with
  | O => t
  | S f =>
      if isEmpty (t_buffer t) then t
      else
        let (processed, t') := processNextToken t in
        if processed then feed_loop f t' else t'
  end.

(** [tokenizer.feed(chunk)]: the tokens are left in [t_tokens].  Every
    round of the loop that goes on consumes a character, so the length of
    the buffer bounds the number of rounds. *)
Definition tokenizer_feed (chunk : list ascii) (t : StreamingTokenizer)
  : StreamingTokenizer :=
  let t1 :=
    {| t_options := t_options t; t_position := t_position t;
       t_buffer := t_buffer t ++ chunk; t_inString := t_inString t;
       t_stringQuote := t_stringQuote t; t_tokens := [];
       t_expectingKey := t_expectingKey t |} in
  let t2 := feed_loop (S (List.length (t_buffer t1))) t1 in
  seek 0 (t_buffer t2) t2.

(** [text.trim()] *)
Definition trim (s : list ascii) : list ascii :=
  rev (skip_spaces (rev (skip_spaces s))).

Definition toLower (c : ascii) : ascii :=
  let n := nat_of_ascii c in
  if Nat.leb 65 n && Nat.leb n 90 then ascii_of_nat (n + 32) else c.

(** [/^(t(r(u(e)?)?)?|f(a(l(s(e)?)?)?)?|n(u(l(l)?)?)?)$/i] *)
Definition looksLikeKeywordPrefix (s : list ascii) : bool :=
  negb (isEmpty s)
  && existsb (fun kw => starts_with (map toLower s) (fst kw)) keywords.

Definition getPartialToken (t : StreamingTokenizer) : option Token :=
  let remaining := trim (t_buffer t) in
  match remaining with
  | [] => None
  | first :: afterFirst =>
      let startsWithQuote :=
        Ascii.eqb first dquote
        || (to_allowSingleQuotes (t_options t) && Ascii.eqb first squote) in
      if t_inString t || startsWithQuote then
        let content := if startsWithQuote then afterFirst else remaining in
        Some (mkToken (if t_expectingKey t then TkPartialKey else TkPartialString)
                (VStr (string_of_list_ascii (unescapeString content)))
                remaining (t_position t) true)
      else if isNumberStart first then
        Some (mkToken TkPartialNumber (VStr (string_of_list_ascii remaining))
                remaining (t_position t) true)
      else if looksLikeKeywordPrefix remaining then
        Some (mkToken TkPartialString (VStr (string_of_list_ascii remaining))
                remaining (t_position t) true)
      else if to_allowUnquotedKeys (t_options t) && t_expectingKey t
              && isUnquotedKeyChar first then
        Some (mkToken TkPartialKey (VStr (string_of_list_ascii remaining))
                remaining (t_position t) true)
      else None
  end.

(* ================================================================== *)
(** * Streaming parser (parser.ts) *)

Inductive ParserState : Type :=
| Initial | InObject | InArray | ExpectingKey | ExpectingColon
| ExpectingValue | ExpectingCommaOrEnd | Complete | Error.

Definition state_eqb (a b : ParserState) : bool :=
  match a, b with
  | Initial, Initial | InObject, InObject | InArray, InArray
  | ExpectingKey, ExpectingKey | ExpectingColon, ExpectingColon
  | ExpectingValue, ExpectingValue
  | ExpectingCommaOrEnd, ExpectingCommaOrEnd
  | Complete, Complete | Error, Error => true
  | _, _ => false
  end.

Inductive FrameType : Type := FObject | FArray.

Record StackFrame : Type := mkFrame {
  f_type : FrameType;
  f_data : Value;
  f_currentKey : option string;
  f_schema : option JSONSchema;
  f_completedKeys : list string;
  f_arrayIndex : nat
}.

Record ParseResult : Type := mkResult {
  r_complete : bool;
  r_valid : bool;
  r_data : option Value;
  r_completedFields : list string;
  r_pendingFields : list string;
  r_errors : list ValidationError;
  r_depth : nat;
  r_bytesProcessed : nat
}.

(** A JS number where the code compares it as one: a finite value, an
    infinity or NaN. *)
Inductive JSNumber : Type :=
| Finite (q : Q)
| PlusInfinity
| MinusInfinity
| NotANumber.

(** [length >= limit] *)
Definition lengthReaches (len : nat) (limit : JSNumber) : bool :=
  match limit with
  | Finite q => Qle_bool q (inject_Z (Z.of_nat len))
  | PlusInfinity => false
  | MinusInfinity => true
  | NotANumber => false
  end.

(** The options as the caller passes them: an absent field is [None]. *)
Record ParserOptions : Type := mkParserOptions {
  schema : option JSONSchema;
  llmMode : option bool;
  allowTrailingCommas : option bool;
  allowUnquotedKeys : option bool;
  allowSingleQuotes : option bool;
  maxDepth : option JSNumber
}.

(** [this.options]: the defaults overridden by the caller's fields. *)
Record MergedOptions : Type := mkMergedOptions {
  o_schema : option JSONSchema;
  o_maxDepth : JSNumber;
  o_llmMode : bool;
  o_allowTrailingCommas : bool;
  o_allowUnquotedKeys : bool;
  o_allowSingleQuotes : bool
}.

Definition orDefault {A : Type} (d : A) (o : option A) : A :=
  match o with Some a => a | None => d end.

Definition mergeOptions (options : ParserOptions) : MergedOptions :=
  {| o_schema := schema options;
     o_maxDepth := orDefault (Finite (100 # 1)) (maxDepth options);
     o_llmMode := orDefault false (llmMode options);
     o_allowTrailingCommas := orDefault false (allowTrailingCommas options);
     o_allowUnquotedKeys := orDefault false (allowUnquotedKeys options);
     o_allowSingleQuotes := orDefault false (allowSingleQuotes options) |}.

(** The parser object.  The stack is kept top first: the source's
    [stack[stack.length - 1]] is the head. *)
Record StreamingJSONParser : Type := mkParser {
  p_rt : Runtime;
  p_tokenizer : StreamingTokenizer;
  p_validator : option SchemaValidator;
  p_options : MergedOptions;
  p_state : ParserState;
  p_stack : list StackFrame;
  p_result : option Value;
  p_errors : list ValidationError;
  p_bytesProcessed : nat;
  p_completedPaths : list string;
  p_pendingPaths : list string
}.

(** [new StreamingJSONParser(options)] *)
Definition newStreamingJSONParser (rt : Runtime) (options : ParserOptions)
  : StreamingJSONParser :=
  let o := mergeOptions options in
  {| p_rt := rt;
     p_tokenizer :=
       newStreamingTokenizer (Some (o_llmMode o)) (Some (o_allowTrailingCommas o))
         (Some (o_allowUnquotedKeys o)) (Some (o_allowSingleQuotes o));
     p_validator :=
       match o_schema o with
       | Some s => Some (newSchemaValidator rt s None None)
       | None => None
       end;
     p_options := o;
     p_state := Initial;
     p_stack := [];
     p_result := None;
     p_errors := [];
     p_bytesProcessed := 0;
     p_completedPaths := [];
     p_pendingPaths := [] |}.

(** [createStreamParser(schema, options)]: the schema argument replaces
    the options' own. *)
Definition createStreamParser (rt : Runtime) (s : option JSONSchema)
    (options : ParserOptions) : StreamingJSONParser :=
  newStreamingJSONParser rt
    {| schema := s; llmMode := llmMode options;
       allowTrailingCommas := allowTrailingCommas options;
       allowUnquotedKeys := allowUnquotedKeys options;
       allowSingleQuotes := allowSingleQuotes options;
       maxDepth := maxDepth options |}.

Definition createLLMParser (rt : Runtime) (s : option JSONSchema)
    (options : ParserOptions) : StreamingJSONParser :=
  newStreamingJSONParser rt
    {| schema := s; llmMode := Some true;
       allowTrailingCommas := allowTrailingCommas options;
       allowUnquotedKeys := allowUnquotedKeys options;
       allowSingleQuotes := allowSingleQuotes options;
       maxDepth := maxDepth options |}.

Definition noOptions : ParserOptions :=
  {| schema := None; llmMode := None; allowTrailingCommas := None;
     allowUnquotedKeys := None; allowSingleQuotes := None; maxDepth := None |}.

(** Field updates. *)
Definition set_state (s : ParserState) (p : StreamingJSONParser) :=
  mkParser (p_rt p) (p_tokenizer p) (p_validator p) (p_options p) s (p_stack p)
    (p_result p) (p_errors p) (p_bytesProcessed p) (p_completedPaths p)
    (p_pendingPaths p).

Definition set_tokenizer (t : StreamingTokenizer) (p : StreamingJSONParser) :=
  mkParser (p_rt p) t (p_validator p) (p_options p) (p_state p) (p_stack p)
    (p_result p) (p_errors p) (p_bytesProcessed p) (p_completedPaths p)
    (p_pendingPaths p).

Definition set_stack (st : list StackFrame) (p : StreamingJSONParser) :=
  mkParser (p_rt p) (p_tokenizer p) (p_validator p) (p_options p) (p_state p) st
    (p_result p) (p_errors p) (p_bytesProcessed p) (p_completedPaths p)
    (p_pendingPaths p).

Definition set_result (r : option Value) (p : StreamingJSONParser) :=
  mkParser (p_rt p) (p_tokenizer p) (p_validator p) (p_options p) (p_state p)
    (p_stack p) r (p_errors p) (p_bytesProcessed p) (p_completedPaths p)
    (p_pendingPaths p).

Definition set_errors (e : list ValidationError) (p : StreamingJSONParser) :=
  mkParser (p_rt p) (p_tokenizer p) (p_validator p) (p_options p) (p_state p)
    (p_stack p) (p_result p) e (p_bytesProcessed p) (p_completedPaths p)
    (p_pendingPaths p).

Definition set_bytesProcessed (n : nat) (p : StreamingJSONParser) :=
  mkParser (p_rt p) (p_tokenizer p) (p_validator p) (p_options p) (p_state p)
    (p_stack p) (p_result p) (p_errors p) n (p_completedPaths p)
    (p_pendingPaths p).

Definition set_completedPaths (c : list string) (p : StreamingJSONParser) :=
  mkParser (p_rt p) (p_tokenizer p) (p_validator p) (p_options p) (p_state p)
    (p_stack p) (p_result p) (p_errors p) (p_bytesProcessed p) c
    (p_pendingPaths p).

Definition set_pendingPaths (c : list string) (p : StreamingJSONParser) :=
  mkParser (p_rt p) (p_tokenizer p) (p_validator p) (p_options p) (p_state p)
    (p_stack p) (p_result p) (p_errors p) (p_bytesProcessed p)
    (p_completedPaths p) c.

(** [Set.add] and [Set.delete] on a set kept in insertion order. *)
Definition set_add (x : string) (s : list string) : list string :=
  if str_in x s then s else s ++ [x].

Definition set_delete (x : string) (s : list string) : list string :=
  filter (fun y => negb (String.eqb x y)) s.

(** What a call can throw. *)
Inductive Exn : Type :=
| ParseError (message : string)
| RangeError.

(** A method of the parser: the object after the call, and the exception
    if the call threw (the object keeps what was written before). *)
Definition Action : Type := StreamingJSONParser -> StreamingJSONParser * option Exn.

Definition done : Action := fun p => (p, None).

Definition andThen (a b : Action) : Action :=
  fun p => match a p with
           | (p', None) => b p'
           | (p', Some e) => (p', Some e)
           end.

Infix ">>" := andThen (at level 62, left associativity).

Definition modify (f : StreamingJSONParser -> StreamingJSONParser) : Action :=
  fun p => (f p, None).

Definition setError (message : string) : Action :=
  fun p =>
    let p' := set_state Error p in
    if o_llmMode (p_options p) then (p', None)
    else (p', Some (ParseError message)).

Definition currentFrame (p : StreamingJSONParser) : option StackFrame :=
  hd_error (p_stack p).

Definition truthy_key (k : option string) : option string :=
  match k with
  | Some s => if String.eqb s "" then None else Some s
  | None => None
  end.

(** What one frame adds to the path in [getCurrentPath]. *)
Definition frame_segment (isLastFrame includeCurrentKey : bool) (frame : StackFrame)
  : list string :=
  match f_type frame with
  | FObject =>
      match truthy_key (f_currentKey frame) with
      | Some k => if negb isLastFrame || includeCurrentKey then [k] else []
      | None => []
      end
  | FArray => [string_of_nat (f_arrayIndex frame)]
  end.

Definition getCurrentPath (includeCurrentKey : bool) (p : StreamingJSONParser)
  : list string :=
  match p_stack p with
  | [] => []
  | top :: below =>
      flat_map (frame_segment false includeCurrentKey) (rev below)
      ++ frame_segment true includeCurrentKey top
  end.

(** [this.validateValue(value, path)] of the parser. *)
Definition parser_validateValue (value : Value) (path : list string) : Action :=
  fun p =>
    match p_validator p with
    | None => (p, None)
    | Some V =>
        match validate V (stack_limit (p_rt p)) value path with
        | Some errs => (set_errors (p_errors p ++ errs) p, None)
        | None => (p, Some RangeError)
        end
    end.

Definition replace_top (frame : StackFrame) (p : StreamingJSONParser)
  : StreamingJSONParser :=
  set_stack (frame :: tl (p_stack p)) p.

(** [frame.data[key] = value]; frames of type object hold an object
    created by [{}].  The key [__proto__] is an accessor inherited from
    [Object.prototype]: assigning to it adds no own member (the object
    whose prototype has been set to [null] this way, and which a second
    [__proto__] then reaches as a plain key, is outside the model). *)
Definition data_set (key : string) (value : Value) (data : Value) : Value :=
  match data with
  | VObj kvs =>
      if String.eqb key "__proto__" then VObj kvs
      else VObj (assoc_set key value kvs)
  | other => other
  end.

(** [frame.data.push(value)]; frames of type array hold an array. *)
Definition data_push (value : Value) (data : Value) : Value :=
  match data with
  | VArr xs => VArr (xs ++ [value])
  | other => other
  end.

Definition frame_assign (key : string) (value : Value) (frame : StackFrame)
  : StackFrame :=
  {| f_type := f_type frame; f_data := data_set key value (f_data frame);
     f_currentKey := None; f_schema := f_schema frame;
     f_completedKeys := set_add key (f_completedKeys frame);
     f_arrayIndex := f_arrayIndex frame |}.

Definition frame_push (value : Value) (frame : StackFrame) : StackFrame :=
  {| f_type := f_type frame; f_data := data_push value (f_data frame);
     f_currentKey := f_currentKey frame; f_schema := f_schema frame;
     f_completedKeys := f_completedKeys frame;
     f_arrayIndex := S (f_arrayIndex frame) |}.

Definition frame_setKey (key : string) (frame : StackFrame) : StackFrame :=
  {| f_type := f_type frame; f_data := f_data frame;
     f_currentKey := Some key; f_schema := f_schema frame;
     f_completedKeys := f_completedKeys frame;
     f_arrayIndex := f_arrayIndex frame |}.

Definition markComplete (pathStr : string) (p : StreamingJSONParser)
  : StreamingJSONParser :=
  set_pendingPaths (set_delete pathStr (p_pendingPaths p))
    (set_completedPaths (set_add pathStr (p_completedPaths p)) p).

Definition addPending (pathStr : string) (p : StreamingJSONParser)
  : StreamingJSONParser :=
  set_pendingPaths (set_add pathStr (p_pendingPaths p)) p.

(** [this.stack.length >= (this.options.maxDepth ?? 100)] *)
Definition depthExceeded (p : StreamingJSONParser) : bool :=
  lengthReaches (List.length (p_stack p)) (o_maxDepth (p_options p)).

(** [startObject] and [startArray] differ in the frame's kind only. *)
Definition startContainer (kind : FrameType) : Action :=
  fun p =>
    if depthExceeded p then setError "Maximum depth exceeded" p
    else
      let path := getCurrentPath false p in
      let fuel := stack_limit (p_rt p) in
      let jsonType := match kind with FObject => TObject | FArray => TArray end in
      let typeLabel := match kind with FObject => "object" | FArray => "array" end in
      let lookup :=
        match p_validator p with
        | Some V =>
            s <- getSchemaAtPath V fuel path ;;
            ok <- canBeType V fuel jsonType path ;;
            Some (s, ok)
        | None => Some (None, true)
        end in
      match lookup with
      | None => (p, Some RangeError)
      | Some (frameSchema, ok) =>
          let p1 :=
            if ok then p
            else set_errors
                   (p_errors p
                    ++ [mkError path ("Expected different type, got " +++ typeLabel)
                          "type" (orDefault emptySchema frameSchema) None]) p in
          let frame :=
            {| f_type := kind;
               f_data := match kind with FObject => VObj [] | FArray => VArr [] end;
               f_currentKey := None; f_schema := frameSchema;
               f_completedKeys := []; f_arrayIndex := 0 |} in
          (addPending (join_path path) (set_stack (frame :: p_stack p1) p1), None)
      end.

Definition startObject : Action := startContainer FObject.
Definition startArray : Action := startContainer FArray.

Definition assignValue (value : Value) : Action :=
  fun p =>
    match currentFrame p with
    | None => (set_result (Some value) p, None)
    | Some frame =>
        match f_type frame with
        | FObject =>
            match truthy_key (f_currentKey frame) with
            | None => setError "No current key for value" p
            | Some key =>
                let p1 := replace_top
                            {| f_type := f_type frame;
                               f_data := data_set key value (f_data frame);
                               f_currentKey := f_currentKey frame;
                               f_schema := f_schema frame;
                               f_completedKeys := set_add key (f_completedKeys frame);
                               f_arrayIndex := f_arrayIndex frame |} p in
                let path := getCurrentPath false p1 ++ [key] in
                let p2 := set_completedPaths
                            (set_add (join_path path) (p_completedPaths p1)) p1 in
                (replace_top (frame_assign key value frame) p2, None)
            end
        | FArray => (replace_top (frame_push value frame) p, None)
        end
    end.

Definition frameType_eqb (a b : FrameType) : bool :=
  match a, b with
  | FObject, FObject | FArray, FArray => true
  | _, _ => false
  end.

(** [endObject] and [endArray] differ in the expected kind and in the
    message only. *)
Definition endContainer (kind : FrameType) : Action :=
  fun p =>
    match p_stack p with
    | [] => setError (match kind with FObject => "Mismatched }" | FArray => "Mismatched ]" end) p
    | frame :: below =>
        let p1 := set_stack below p in
        if negb (frameType_eqb (f_type frame) kind) then
          setError (match kind with FObject => "Mismatched }" | FArray => "Mismatched ]" end) p1
        else
          let path := getCurrentPath false p1 in
          (modify (markComplete (join_path path))
           >> parser_validateValue (f_data frame) path
           >> assignValue (f_data frame)
           >> (fun q => if isEmpty (p_stack q)
                        then (set_state Complete q, None)
                        else (set_state ExpectingCommaOrEnd q, None))) p1
    end.

Definition endObject : Action := endContainer FObject.
Definition endArray : Action := endContainer FArray.

Definition pushArrayValue (value : Value) : Action :=
  fun p =>
    match currentFrame p with
    | Some frame =>
        match f_type frame with
        | FArray =>
            let path := getCurrentPath false p ++ [string_of_nat (f_arrayIndex frame)] in
            let p1 := replace_top
                        {| f_type := f_type frame;
                           f_data := data_push value (f_data frame);
                           f_currentKey := f_currentKey frame;
                           f_schema := f_schema frame;
                           f_completedKeys := f_completedKeys frame;
                           f_arrayIndex := f_arrayIndex frame |} p in
            (modify (markComplete (join_path path))
             >> parser_validateValue value path
             >> modify (fun q => match currentFrame q with
                                 | Some fr =>
                                     replace_top
                                       {| f_type := f_type fr; f_data := f_data fr;
                                          f_currentKey := f_currentKey fr;
                                          f_schema := f_schema fr;
                                          f_completedKeys := f_completedKeys fr;
                                          f_arrayIndex := S (f_arrayIndex fr) |} q
                                 | None => q
                                 end)) p1
        | FObject => setError "Not in array" p
        end
    | None => setError "Not in array" p
    end.

Definition setValue (value : Value) : Action :=
  fun p =>
    match currentFrame p with
    | None => parser_validateValue value [] (set_result (Some value) p)
    | Some frame =>
        match f_type frame with
        | FObject =>
            match truthy_key (f_currentKey frame) with
            | None => setError "No current key for value" p
            | Some key =>
                let path := getCurrentPath false p ++ [key] in
                let p1 := replace_top
                            {| f_type := f_type frame;
                               f_data := data_set key value (f_data frame);
                               f_currentKey := f_currentKey frame;
                               f_schema := f_schema frame;
                               f_completedKeys := set_add key (f_completedKeys frame);
                               f_arrayIndex := f_arrayIndex frame |} p in
                (modify (markComplete (join_path path))
                 >> parser_validateValue value path
                 >> modify (fun q => match currentFrame q with
                                     | Some fr =>
                                         replace_top
                                           {| f_type := f_type fr; f_data := f_data fr;
                                              f_currentKey := None;
                                              f_schema := f_schema fr;
                                              f_completedKeys := f_completedKeys fr;
                                              f_arrayIndex := f_arrayIndex fr |} q
                                     | None => q
                                     end)) p1
            end
        | FArray => pushArrayValue value p
        end
    end.

Definition isScalarToken (t : TokenType) : bool :=
  match t with
  | TkString | TkNumber | TkBoolean | TkNull => true
  | _ => false
  end.

(** [token.value as string] *)
Definition token_string (token : Token) : string :=
  match tk_value token with VStr s => s | _ => "" end.

Definition handleInitialState (token : Token) : Action :=
  match tk_type token with
  | TkObjectStart => startObject >> modify (set_state ExpectingKey)
  | TkArrayStart => startArray >> modify (set_state InArray)
  | TkString | TkNumber | TkBoolean | TkNull =>
      modify (set_result (Some (tk_value token)))
      >> parser_validateValue (tk_value token) []
      >> modify (set_state Complete)
  | other => setError ("Unexpected token at start: " +++ tokenType_name other)
  end.

Definition handleObjectState (token : Token) : Action :=
  fun p =>
    match currentFrame p with
    | Some frame =>
        match f_type frame with
        | FObject =>
            match tk_type token with
            | TkKey | TkString =>
                let p1 := replace_top (frame_setKey (token_string token) frame) p in
                (set_state ExpectingColon
                   (addPending (join_path (getCurrentPath false p1)) p1), None)
            | TkObjectEnd => endObject p
            | TkComma =>
                (set_tokenizer (setExpectingKey true (p_tokenizer p))
                   (set_state ExpectingKey p), None)
            | other =>
                setError ("Expected key or }, got " +++ tokenType_name other) p
            end
        | FArray => setError "Invalid state: not in object" p
        end
    | None => setError "Invalid state: not in object" p
    end.

Definition handleValueState (token : Token) : Action :=
  fun p =>
    let frame := currentFrame p in
    match tk_type token with
    | TkObjectStart => (startObject >> modify (set_state ExpectingKey)) p
    | TkArrayStart => (startArray >> modify (set_state InArray)) p
    | TkString | TkNumber | TkBoolean | TkNull =>
        (setValue (tk_value token) >> modify (set_state ExpectingCommaOrEnd)) p
    | TkObjectEnd =>
        match frame with
        | Some fr =>
            if o_llmMode (p_options p) then
              match f_type fr with
              | FObject => endObject p
              | FArray => (p, None)
              end
            else setError "Unexpected } when expecting value" p
        | None => setError "Unexpected } when expecting value" p
        end
    | TkArrayEnd =>
        match frame with
        | Some fr =>
            if o_llmMode (p_options p) then
              match f_type fr with
              | FArray => endArray p
              | FObject => (p, None)
              end
            else setError "Unexpected ] when expecting value" p
        | None => setError "Unexpected ] when expecting value" p
        end
    | other =>
        setError ("Unexpected token when expecting value: " +++ tokenType_name other) p
    end.

Definition handleColonState (token : Token) : Action :=
  fun p =>
    match tk_type token with
    | TkColon => (set_state ExpectingValue p, None)
    | other =>
        if o_llmMode (p_options p) then
          handleValueState token (set_state ExpectingValue p)
        else setError ("Expected :, got " +++ tokenType_name other) p
    end.

Definition handleArrayState (token : Token) : Action :=
  fun p =>
    match currentFrame p with
    | Some frame =>
        match f_type frame with
        | FArray =>
            match tk_type token with
            | TkObjectStart => (startObject >> modify (set_state ExpectingKey)) p
            | TkArrayStart => (startArray >> modify (set_state InArray)) p
            | TkArrayEnd => endArray p
            | TkString | TkNumber | TkBoolean | TkNull =>
                (pushArrayValue (tk_value token)
                 >> modify (set_state ExpectingCommaOrEnd)) p
            | TkComma =>
                if o_allowTrailingCommas (p_options p) || o_llmMode (p_options p)
                then (p, None)
                else setError "Unexpected comma in array" p
            | other =>
                setError ("Unexpected token in array: " +++ tokenType_name other) p
            end
        | FObject => setError "Invalid state: not in array" p
        end
    | None => setError "Invalid state: not in array" p
    end.

Definition handleCommaOrEndState (token : Token) : Action :=
  fun p =>
    match currentFrame p with
    | None => (set_state Complete p, None)
    | Some frame =>
        match tk_type token with
        | TkComma =>
            match f_type frame with
            | FObject =>
                (set_tokenizer (setExpectingKey true (p_tokenizer p))
                   (set_state ExpectingKey p), None)
            | FArray => (set_state InArray p, None)
            end
        | TkObjectEnd =>
            match f_type frame with
            | FObject => endObject p
            | FArray => setError "Unexpected } in array" p
            end
        | TkArrayEnd =>
            match f_type frame with
            | FArray => endArray p
            | FObject => setError "Unexpected ] in object" p
            end
        | other =>
            if o_llmMode (p_options p) then
              match f_type frame with
              | FObject => handleObjectState token (set_state ExpectingKey p)
              | FArray => handleArrayState token (set_state InArray p)
              end
            else
              setError ("Expected , or end of container, got " +++ tokenType_name other) p
        end
    end.

Definition handlePartialToken (token : Token) (p : StreamingJSONParser)
  : StreamingJSONParser :=
  let path := getCurrentPath false p in
  match tk_type token with
  | TkPartialString | TkPartialNumber =>
      match currentFrame p with
      | Some frame =>
          match f_type frame with
          | FObject =>
              match truthy_key (f_currentKey frame) with
              | Some key => addPending (join_path (path ++ [key])) p
              | None => p
              end
          | FArray =>
              addPending (join_path (path ++ [string_of_nat (f_arrayIndex frame)])) p
          end
      | None => p
      end
  | _ => p
  end.

Definition handleError (token : Token) : Action :=
  fun p =>
    if o_llmMode (p_options p) then
      (set_errors
         (p_errors p
          ++ [mkError (getCurrentPath false p) (token_string token) "syntax"
                (orDefault emptySchema (o_schema (p_options p))) None]) p, None)
    else setError (token_string token) p.

(** [tryRecover]: its call back into [processToken] arrives, with the
    state just set and a closing token, at [handleCommaOrEndState]. *)
Definition tryRecover (token : Token) : Action :=
  fun p =>
    match tk_type token with
    | TkObjectStart => (startObject >> modify (set_state ExpectingKey)) p
    | TkArrayStart => (startArray >> modify (set_state InArray)) p
    | TkObjectEnd | TkArrayEnd =>
        if negb (isEmpty (p_stack p)) then
          handleCommaOrEndState token (set_state ExpectingCommaOrEnd p)
        else (p, None)
    | _ => (p, None)
    end.

Definition processToken (token : Token) : Action :=
  fun p =>
    match tk_type token with
    | TkError => handleError token p
    | _ =>
        match p_state p with
        | Initial => handleInitialState token p
        | InObject | ExpectingKey => handleObjectState token p
        | ExpectingColon => handleColonState token p
        | ExpectingValue => handleValueState token p
        | InArray => handleArrayState token p
        | ExpectingCommaOrEnd => handleCommaOrEndState token p
        | Complete => (p, None)
        | Error =>
            if o_llmMode (p_options p) then tryRecover token p else (p, None)
        end
    end.

(** [for (const token of tokens) this.processToken(token)] *)
Fixpoint processTokens (tokens : list Token) : Action :=
  match tokens with
  | [] => done
  | token :: rest => processToken token >> processTokens rest
  end.

Definition getCurrentData (p : StreamingJSONParser) : option Value :=
  match rev (p_stack p) with
  | [] => p_result p
  | rootFrame :: _ => Some (f_data rootFrame)
  end.

Definition buildResult (p : StreamingJSONParser) : ParseResult :=
  {| r_complete := state_eqb (p_state p) Complete;
     r_valid := isEmpty (p_errors p);
     r_data := getCurrentData p;
     r_completedFields := p_completedPaths p;
     r_pendingFields := p_pendingPaths p;
     r_errors := p_errors p;
     r_depth := List.length (p_stack p);
     r_bytesProcessed := p_bytesProcessed p |}.

(** [feed(chunk)]: the parser after the call, and the snapshot returned
    or the exception thrown. *)
Definition feed (chunk : list ascii) (p : StreamingJSONParser)
  : StreamingJSONParser * (ParseResult + Exn) :=
  let p1 := set_bytesProcessed (p_bytesProcessed p + List.length chunk) p in
  let expecting :=
    state_eqb (p_state p1) ExpectingKey
    || (state_eqb (p_state p1) Initial && isEmpty (p_stack p1)) in
  let tk := tokenizer_feed chunk (setExpectingKey expecting (p_tokenizer p1)) in
  let p2 := set_tokenizer tk p1 in
  match processTokens (t_tokens tk) p2 with
  | (p3, Some e) => (p3, inr e)
  | (p3, None) =>
      let p4 :=
        match getPartialToken (p_tokenizer p3) with
        | Some partialToken => handlePartialToken partialToken p3
        | None => p3
        end in
      (p4, inl (buildResult p4))
  end.

(** [reset()] *)
Definition reset (p : StreamingJSONParser) : StreamingJSONParser :=
  {| p_rt := p_rt p; p_tokenizer := tokenizer_reset (p_tokenizer p);
     p_validator := p_validator p; p_options := p_options p;
     p_state := Initial; p_stack := []; p_result := None; p_errors := [];
     p_bytesProcessed := 0; p_completedPaths := []; p_pendingPaths := [] |}.

Definition getState (p : StreamingJSONParser) : ParserState := p_state p.

Definition isComplete (p : StreamingJSONParser) : bool :=
  state_eqb (p_state p) Complete.

Definition getResult (p : StreamingJSONParser) : option Value + Exn :=
  if isComplete p then inl (p_result p)
  else inr (ParseError "Parsing is not complete").

(** Feeding a sequence of chunks; the snapshots returned so far and the
    exception that stopped the caller, if any. *)
Fixpoint feedAll (chunks : list (list ascii)) (p : StreamingJSONParser)
  : StreamingJSONParser * list ParseResult * option Exn :=
  match chunks with
  | [] => (p, [], None)
  | c :: rest =>
      match feed c p with
      | (p', inl r) =>
          let '(q, rs, e) := feedAll rest p' in (q, r :: rs, e)
      | (p', inr e) => (p', [], Some e)
      end
  end.

(* ================================================================== *)
(** * Definitions used to state the properties *)

(** A host for closed examples.  Its regular expressions accept every
    subject and its printers return the empty string; no example below
    uses [pattern], [patternProperties], [format] or [uniqueItems]. *)
Definition plain_runtime : Runtime :=
  {| regexp_test := fun _ _ _ => true;
     json_stringify := fun _ => "";
     number_toString := fun _ => "";
     stack_limit := 64 |}.

(** Schema literals: [{type: t}], [{...s, k: v}] for the keywords the
    examples use. *)
Definition schema_type (t : JSONSchemaType) : JSONSchema :=
  mkSchema None None None (Some (inl t)) None None None None None None None None
           None None None None None None None None None None None None None
           None None None None None None None None None None.

Definition schema_types (ts : list JSONSchemaType) : JSONSchema :=
  mkSchema None None None (Some (inr ts)) None None None None None None None None
           None None None None None None None None None None None None None
           None None None None None None None None None None.

Definition schema_ref (ref : string) : JSONSchema :=
  mkSchema (Some ref) None None None None None None None None None None None
           None None None None None None None None None None None None None
           None None None None None None None None None None.

Definition with_properties (props : list (string * JSONSchema)) (s : JSONSchema)
  : JSONSchema :=
  mkSchema (s_ref s) (s_defs s) (s_definitions s) (s_type s) (s_enum s)
    (s_const s) (s_multipleOf s) (s_maximum s) (s_exclusiveMaximum s)
    (s_minimum s) (s_exclusiveMinimum s) (s_maxLength s) (s_minLength s)
    (s_pattern s) (s_format s) (s_items s) (s_additionalItems s) (s_maxItems s)
    (s_minItems s) (s_uniqueItems s) (s_contains s) (s_maxProperties s)
    (s_minProperties s) (s_required s) (Some props) (s_patternProperties s)
    (s_additionalProperties s) (s_propertyNames s) (s_if s) (s_then s)
    (s_else s) (s_allOf s) (s_anyOf s) (s_oneOf s) (s_not s).

Definition with_required (req : list string) (s : JSONSchema) : JSONSchema :=
  mkSchema (s_ref s) (s_defs s) (s_definitions s) (s_type s) (s_enum s)
    (s_const s) (s_multipleOf s) (s_maximum s) (s_exclusiveMaximum s)
    (s_minimum s) (s_exclusiveMinimum s) (s_maxLength s) (s_minLength s)
    (s_pattern s) (s_format s) (s_items s) (s_additionalItems s) (s_maxItems s)
    (s_minItems s) (s_uniqueItems s) (s_contains s) (s_maxProperties s)
    (s_minProperties s) (Some req) (s_properties s) (s_patternProperties s)
    (s_additionalProperties s) (s_propertyNames s) (s_if s) (s_then s)
    (s_else s) (s_allOf s) (s_anyOf s) (s_oneOf s) (s_not s).

Definition with_defs (defs : list (string * JSONSchema)) (s : JSONSchema)
  : JSONSchema :=
  mkSchema (s_ref s) (Some defs) (s_definitions s) (s_type s) (s_enum s)
    (s_const s) (s_multipleOf s) (s_maximum s) (s_exclusiveMaximum s)
    (s_minimum s) (s_exclusiveMinimum s) (s_maxLength s) (s_minLength s)
    (s_pattern s) (s_format s) (s_items s) (s_additionalItems s) (s_maxItems s)
    (s_minItems s) (s_uniqueItems s) (s_contains s) (s_maxProperties s)
    (s_minProperties s) (s_required s) (s_properties s) (s_patternProperties s)
    (s_additionalProperties s) (s_propertyNames s) (s_if s) (s_then s)
    (s_else s) (s_allOf s) (s_anyOf s) (s_oneOf s) (s_not s).

(** Text literals. *)
Definition text (s : string) : list ascii := list_ascii_of_string s.

(** [q s] is [s] between double quotes. *)
Definition q (s : string) : string :=
  String dquote EmptyString +++ s +++ String dquote EmptyString.

Definition hasKeyword (keyword : string) (errs : list ValidationError) : bool :=
  existsb (fun e => String.eqb (e_keyword e) keyword) errs.

(** ** Validator *)

(** The name [resolveRef] looks up for a schema, when its [$ref] is a
    same-document pointer with a name. *)
Definition ref_name (s : JSONSchema) : option string :=
  match s_ref s with
  | None => None
  | Some ref =>
      if String.eqb ref "" then None
      else if is_local_ref ref then
        let name := last_segment ref in
        if String.eqb name "" then None else Some name
      else None
  end.

(** The definition [resolveRef] moves to from a schema, if any. *)
Definition ref_target (defs : list (string * JSONSchema)) (s : JSONSchema)
  : option JSONSchema :=
  match ref_name s with
  | Some name => assoc_get name defs
  | None => None
  end.

(** A ranking of the definitions that decreases along every [$ref] from
    one definition to another: the chains of pointers have no cycle. *)
Definition ref_ranked (defs : list (string * JSONSchema)) (rank : string -> nat)
  : Prop :=
  forall name d name' d',
    assoc_get name defs = Some d ->
    ref_name d = Some name' ->
    assoc_get name' defs = Some d' ->
    rank name' < rank name.

(** [follows defs n s r]: from [s], a chain of [n] pointers leads to [r],
    and [r] has no definition to move to. *)
Inductive follows (defs : list (string * JSONSchema))
  : nat -> JSONSchema -> JSONSchema -> Prop :=
| follows_end : forall s,
    ref_target defs s = None -> follows defs 0 s s
| follows_link : forall n s d r,
    ref_target defs s = Some d -> follows defs n d r -> follows defs (S n) s r.

(** The [type] keyword of the schema that [canBeType] and [validate]
    consult at a path: outer [None] out of fuel, then no schema at the
    path, then no keyword. *)
Definition declaredTypeAt (V : SchemaValidator) (fuel : nat) (path : list string)
  : option (option (option (JSONSchemaType + list JSONSchemaType))) :=
  sub <- getSchemaAtPath V fuel path ;;
  match sub with
  | None => Some None
  | Some s => Some (Some (s_type s))
  end.

(** The one case in which [validateType] accepts a number although the
    list of types does not name [number]. *)
Definition integerInTypeList (ty : JSONSchemaType + list JSONSchemaType)
    (value : Value) : bool :=
  match ty with
  | inl _ => false
  | inr ts => existsb (type_eqb TInteger) ts && value_isInteger value
  end.

(** The cases in which a number passes under the other numeric name: it
    is counted as a [number], is integral and the keyword is a list that
    names [integer]; or it is counted as an [integer] and the keyword
    names [number]. *)
Definition otherNumericName (ty : JSONSchemaType + list JSONSchemaType)
    (t : JSONSchemaType) (value : Value) : bool :=
  (type_eqb t TNumber && integerInTypeList ty value)
  || (type_eqb t TInteger && existsb (type_eqb TNumber) (type_list ty)).

(** Two schemas that point at one another. *)
Definition cyclic_defs : list (string * JSONSchema) :=
  [ ("a", schema_ref "#/$defs/b"); ("b", schema_ref "#/$defs/a") ].

Definition cyclic_schema : JSONSchema :=
  with_defs cyclic_defs (schema_ref "#/$defs/a").

(** A chain of pointers that ends: a -> b -> {type: string}. *)
Definition chain_defs : list (string * JSONSchema) :=
  [ ("a", schema_ref "#/$defs/b"); ("b", schema_type TString) ].

Definition chain_rank (name : string) : nat :=
  if String.eqb name "a" then 1 else 0.

(** [{properties: {a: {}}}]: no [type] keyword, a structural hint only. *)
Definition hinted_schema : JSONSchema :=
  with_properties [("a", emptySchema)] emptySchema.

(** ** Parser *)

(** The states a parser object goes through: created, fed, reset. *)
Inductive Reachable (rt : Runtime) (options : ParserOptions)
  : StreamingJSONParser -> Prop :=
| reach_new : Reachable rt options (newStreamingJSONParser rt options)
| reach_feed : forall p chunk,
    Reachable rt options p -> Reachable rt options (fst (feed chunk p))
| reach_reset : forall p,
    Reachable rt options p -> Reachable rt options (reset p).

(** The tokens [feed] hands to [processToken] for a chunk. *)
Definition chunkTokens (chunk : list ascii) (p : StreamingJSONParser) : list Token :=
  let expecting :=
    state_eqb (p_state p) ExpectingKey
    || (state_eqb (p_state p) Initial && isEmpty (p_stack p)) in
  t_tokens (tokenizer_feed chunk (setExpectingKey expecting (p_tokenizer p))).

Definition noErrorToken (tokens : list Token) : Prop :=
  Forall (fun t => tk_type t <> TkError) tokens.

Definition isOpeningToken (token : Token) : bool :=
  match tk_type token with
  | TkObjectStart | TkArrayStart => true
  | _ => false
  end.

(** The situations in which an opening token reaches [startObject] or
    [startArray]. *)
Definition opensContainer (p : StreamingJSONParser) : bool :=
  match p_state p with
  | Initial | ExpectingValue => true
  | InArray =>
      match currentFrame p with
      | Some frame => frameType_eqb (f_type frame) FArray
      | None => false
      end
  | _ => false
  end.

Definition strictOptions (depth : Z) : ParserOptions :=
  {| schema := None; llmMode := None; allowTrailingCommas := None;
     allowUnquotedKeys := None; allowSingleQuotes := None;
     maxDepth := Some (Finite (inject_Z depth)) |}.

Definition lenientOptions (depth : Z) : ParserOptions :=
  {| schema := None; llmMode := Some true; allowTrailingCommas := None;
     allowUnquotedKeys := None; allowSingleQuotes := None;
     maxDepth := Some (Finite (inject_Z depth)) |}.

(** [{"a":{"b":1}}] *)
Definition nested_text : list ascii :=
  text ("{" +++ q "a" +++ ":{" +++ q "b" +++ ":1}}").

(** [{type: "object", required: ["a"], properties: {a: {type: "object"}}}] *)
Definition outer_schema : JSONSchema :=
  with_required ["a"]
    (with_properties [("a", schema_type TObject)] (schema_type TObject)).

(** A relation between the parser before and after a call is kept by an
    action when it holds whether the action returns or throws. *)
Definition keeps (R : StreamingJSONParser -> StreamingJSONParser -> Prop)
    (a : Action) : Prop :=
  forall p, R p (fst (a p)).

(** The completed paths only grow. *)
Definition completedGrows (p p' : StreamingJSONParser) : Prop :=
  incl (p_completedPaths p) (p_completedPaths p').

(** The options stay, and so does the bound on the depth: every frame
    was pushed on a stack that had not reached [maxDepth]. *)
Definition depthBounded (p : StreamingJSONParser) : Prop :=
  forall k, k < List.length (p_stack p) ->
            lengthReaches k (o_maxDepth (p_options p)) = false.

(** [depth <= maxDepth] as the host compares numbers. *)
Definition depthWithin (depth : nat) (limit : JSNumber) : bool :=
  match limit with
  | Finite q => Qle_bool (inject_Z (Z.of_nat depth)) q
  | PlusInfinity => true
  | MinusInfinity | NotANumber => false
  end.

(** A bound that counts levels: a non-negative integer, or no bound at
    all. *)
Definition wholeLimit (limit : JSNumber) : bool :=
  match limit with
  | Finite q => isInteger q && Qle_bool 0 q
  | PlusInfinity => true
  | MinusInfinity | NotANumber => false
  end.

(** Options with the given [maxDepth] and nothing else. *)
Definition depthOptions (limit : JSNumber) : ParserOptions :=
  {| schema := None; llmMode := None; allowTrailingCommas := None;
     allowUnquotedKeys := None; allowSingleQuotes := None;
     maxDepth := Some limit |}.

Definition depthKept (p p' : StreamingJSONParser) : Prop :=
  p_options p' = p_options p /\ (depthBounded p -> depthBounded p').

(** Outside a document the stack is empty: in the states Initial and
    Complete no frame is open. *)
Definition settled (p : StreamingJSONParser) : Prop :=
  match p_state p with
  | Initial | Complete => p_stack p = []
  | _ => True
  end.

(** States inside a document. *)
Definition busy (s : ParserState) : bool :=
  match s with
  | Initial | Complete => false
  | _ => true
  end.

(** How a call made inside a document leaves the parser: still inside,
    or Complete with no frame left. *)
Definition wellEnded (p : StreamingJSONParser) : Prop :=
  busy (p_state p) = true \/ (p_state p = Complete /\ p_stack p = []).

(** The state stays or becomes Error. *)
Definition sticky (p p' : StreamingJSONParser) : Prop :=
  p_state p' = p_state p \/ p_state p' = Error.

(** [{"a":1,] and ["b":2}] *)
Definition first_chunk : list ascii := text ("{" +++ q "a" +++ ":1,").
Definition second_chunk : list ascii := text (q "b" +++ ":2}").

(** The stack and the root value are the same in both. *)
Definition sameTree (p p' : StreamingJSONParser) : Prop :=
  p_stack p' = p_stack p /\ p_result p' = p_result p.

(** [{"a":] : an object open at depth 1, a value expected. *)
Definition open_chunk : list ascii := text ("{" +++ q "a" +++ ":").

(** [{"b":1}}] : the rest of [{"a":{"b":1}}]. *)
Definition rest_chunk : list ascii := text ("{" +++ q "b" +++ ":1}}").

(** Everything of the document is the same in both: the stack, the root
    value, both sets of paths and the byte count. *)
Definition sameDocument (p p' : StreamingJSONParser) : Prop :=
  p_stack p' = p_stack p /\ p_result p' = p_result p
  /\ p_completedPaths p' = p_completedPaths p
  /\ p_pendingPaths p' = p_pendingPaths p
  /\ p_bytesProcessed p' = p_bytesProcessed p.

(** A snapshot with its byte count advanced. *)
Definition advanceBytes (n : nat) (r : ParseResult) : ParseResult :=
  mkResult (r_complete r) (r_valid r) (r_data r) (r_completedFields r)
    (r_pendingFields r) (r_errors r) (r_depth r) (r_bytesProcessed r + n).

(** A strict parser that has read [{}]. *)
Definition completed_parser : StreamingJSONParser :=
  fst (feed (text "{}") (newStreamingJSONParser plain_runtime noOptions)).

(** A lenient parser that has read [{}]. *)
Definition completed_lenient_parser : StreamingJSONParser :=
  fst (feed (text "{}")
         (newStreamingJSONParser plain_runtime (lenientOptions 100))).

(** [{llmMode: true, allowTrailingCommas: false, allowUnquotedKeys: false,
    allowSingleQuotes: false}] *)
Definition lenient_but_flags_off : ParserOptions :=
  {| schema := None; llmMode := Some true; allowTrailingCommas := Some false;
     allowUnquotedKeys := Some false; allowSingleQuotes := Some false;
     maxDepth := None |}.

(** [{name:'x'}] : an unquoted key and a single-quoted string. *)
Definition relaxed_text : list ascii := text "{name:'x'}".

(** [[1,,2]] : a comma where an element is expected. *)
Definition double_comma_text : list ascii := text "[1,,2]".

(** A strict parser with [outer_schema]. *)
Definition schema_parser : StreamingJSONParser :=
  createStreamParser plain_runtime (Some outer_schema) noOptions.

(** [{"a":{}] : the inner object closed, the root still open. *)
Definition inner_closed_text : list ascii := text ("{" +++ q "a" +++ ":{}").

(* ------------------------------------------------------------------ *)
(** ** JSON documents (RFC 8259) as syntax trees

    The standard parse of a JSON text is given on its syntax tree: a text
    is the rendering of a tree, with blanks where the grammar allows
    them, and [denote] is the value the grammar assigns to it.  Escapes
    [\u] are not part of these trees. *)

(** One element of a string literal: a character standing for itself,
    or a backslash followed by the character [e]. *)
Inductive StrItem : Type :=
| SChar (c : ascii)
| SEscape (e : ascii).

(** A number literal: sign, integer digits, fraction digits, exponent
    (its letter, its sign if written: [true] for minus, and its
    digits). *)
Record NumberLit : Type := mkNumberLit {
  n_neg : bool;
  n_int : list ascii;
  n_frac : option (list ascii);
  n_exp : option (ascii * option bool * list ascii)
}.

(** Elements carry the blanks before and after the value; members the
    blanks around the name and around the value.  [pad] is the blank
    text between the brackets of an empty container. *)
Inductive Json : Type :=
| JNull
| JBool (b : bool)
| JNumber (lit : NumberLit)
| JString (items : list StrItem)
| JArray (pad : list ascii) (elements : list (list ascii * Json * list ascii))
| JObject (pad : list ascii)
    (members : list (list ascii * list StrItem * list ascii
                     * list ascii * Json * list ascii)).

Definition isJsonSpace (c : ascii) : bool :=
  let n := nat_of_ascii c in
  Nat.eqb n 32 || Nat.eqb n 9 || Nat.eqb n 10 || Nat.eqb n 13.

Definition isBlank (w : list ascii) : bool := forallb isJsonSpace w.

(** What an escape stands for. *)
Definition escapeValue (e : ascii) : option ascii :=
  if Ascii.eqb e dquote then Some dquote
  else if Ascii.eqb e backslash then Some backslash
  else if Ascii.eqb e "/"%char then Some "/"%char
  else if Ascii.eqb e "b"%char then Some (ascii_of_nat 8)
  else if Ascii.eqb e "f"%char then Some (ascii_of_nat 12)
  else if Ascii.eqb e "n"%char then Some (ascii_of_nat 10)
  else if Ascii.eqb e "r"%char then Some (ascii_of_nat 13)
  else if Ascii.eqb e "t"%char then Some (ascii_of_nat 9)
  else None.

Definition wf_item (it : StrItem) : bool :=
  match it with
  | SChar c =>
      Nat.leb 32 (nat_of_ascii c) && negb (Ascii.eqb c dquote)
      && negb (Ascii.eqb c backslash)
  | SEscape e => match escapeValue e with Some _ => true | None => false end
  end.

Definition render_item (it : StrItem) : list ascii :=
  match it with
  | SChar c => [c]
  | SEscape e => [backslash; e]
  end.

Definition decode_item (it : StrItem) : ascii :=
  match it with
  | SChar c => c
  | SEscape e => match escapeValue e with Some c => c | None => e end
  end.

Definition render_string (items : list StrItem) : list ascii :=
  dquote :: flat_map render_item items ++ [dquote].

Definition string_value (items : list StrItem) : string :=
  string_of_list_ascii (map decode_item items).

Definition isDigits (ds : list ascii) : bool :=
  negb (isEmpty ds) && forallb isDigit ds.

Definition wf_number (lit : NumberLit) : bool :=
  isDigits (n_int lit)
  && match n_int lit with
     | c :: _ :: _ => negb (Ascii.eqb c "0"%char)
     | _ => true
     end
  && match n_frac lit with Some ds => isDigits ds | None => true end
  && match n_exp lit with
     | Some (letter, _, ds) =>
         (Ascii.eqb letter "e"%char || Ascii.eqb letter "E"%char) && isDigits ds
     | None => true
     end.

Definition render_sign (s : option bool) : list ascii :=
  match s with
  | Some true => ["-"%char]
  | Some false => ["+"%char]
  | None => []
  end.

Definition render_number (lit : NumberLit) : list ascii :=
  (if n_neg lit then ["-"%char] else [])
  ++ n_int lit
  ++ match n_frac lit with Some ds => "."%char :: ds | None => [] end
  ++ match n_exp lit with
     | Some (letter, s, ds) => letter :: render_sign s ++ ds
     | None => []
     end.

Definition digits_value (ds : list ascii) : Z :=
  fold_left (fun acc c => (10 * acc + digit_value c)%Z) ds 0%Z.

(** The number a literal denotes: mantissa times a power of ten. *)
Definition number_value (lit : NumberLit) : Q :=
  let frac := match n_frac lit with Some ds => ds | None => [] end in
  let mantissa := digits_value (n_int lit ++ frac) in
  let exponent :=
    match n_exp lit with
    | Some (_, s, ds) =>
        match s with
        | Some true => (- digits_value ds)%Z
        | _ => digits_value ds
        end
    | None => 0%Z
    end in
  let m := Qred (inject_Z mantissa
                 * Qpower (inject_Z 10) (exponent - Z.of_nat (List.length frac))) in
  if n_neg lit then Qred (- m) else m.

(** [parts] joined by [sep]. *)
Fixpoint join {A : Type} (sep : list A) (parts : list (list A)) : list A :=
  match parts with
  | [] => []
  | [x] => x
  | x :: rest => x ++ sep ++ join sep rest
  end.

Fixpoint render (j : Json) : list ascii :=
  match j with
  | JNull => text "null"
  | JBool true => text "true"
  | JBool false => text "false"
  | JNumber lit => render_number lit
  | JString items => render_string items
  | JArray pad elements =>
      "["%char
      :: match elements with
         | [] => pad
         | _ => join [","%char]
                  (map (fun e => match e with
                                 | (before, v, after) => before ++ render v ++ after
                                 end) elements)
         end
      ++ ["]"%char]
  | JObject pad members =>
      "{"%char
      :: match members with
         | [] => pad
         | _ => join [","%char]
                  (map (fun m => match m with
                                 | (w1, name, w2, w3, v, w4) =>
                                     w1 ++ render_string name ++ w2 ++ [":"%char]
                                     ++ w3 ++ render v ++ w4
                                 end) members)
         end
      ++ ["}"%char]
  end.

(** The standard parse: members are assigned in order, a later member
    replacing an earlier one of the same name. *)
Fixpoint denote (j : Json) : Value :=
  match j with
  | JNull => VNull
  | JBool b => VBool b
  | JNumber lit => VNum (number_value lit)
  | JString items => VStr (string_value items)
  | JArray _ elements =>
      VArr (map (fun e => match e with (_, v, _) => denote v end) elements)
  | JObject _ members =>
      VObj (fold_left (fun acc kv => assoc_set (fst kv) (snd kv) acc)
              (map (fun m => match m with
                             | (_, name, _, _, v, _) => (string_value name, denote v)
                             end) members) [])
  end.

(** Blanks are blanks, literals follow the grammar. *)
Fixpoint wf (j : Json) : bool :=
  match j with
  | JNull | JBool _ => true
  | JNumber lit => wf_number lit
  | JString items => forallb wf_item items
  | JArray pad elements =>
      isBlank pad
      && forallb (fun e => match e with
                           | (before, v, after) =>
                               isBlank before && wf v && isBlank after
                           end) elements
  | JObject pad members =>
      isBlank pad
      && forallb (fun m => match m with
                           | (w1, name, w2, w3, v, w4) =>
                               isBlank w1 && forallb wf_item name && isBlank w2
                               && isBlank w3 && wf v && isBlank w4
                           end) members
  end.

(** A name under which [frame.data[key] = value] stores the value: not
    the empty string, which the handlers take for no key, and not
    [__proto__]. *)
Definition assignable (key : string) : bool :=
  negb (String.eqb key "") && negb (String.eqb key "__proto__").

(** Every member has such a name.  *)
Fixpoint namesAssignable (j : Json) : bool :=
  match j with
  | JArray _ elements =>
      forallb (fun e => match e with (_, v, _) => namesAssignable v end) elements
  | JObject _ members =>
      forallb (fun m => match m with
                        | (_, name, _, _, v, _) =>
                            assignable (string_value name) && namesAssignable v
                        end) members
  | _ => true
  end.

(** How deep containers nest. *)
Fixpoint nesting (j : Json) : nat :=
  match j with
  | JArray _ elements =>
      S (list_max (map (fun e => match e with (_, v, _) => nesting v end) elements))
  | JObject _ members =>
      S (list_max (map (fun m => match m with
                                 | (_, _, _, _, v, _) => nesting v
                                 end) members))
  | _ => 0
  end.

Definition isContainer (j : Json) : bool :=
  match j with
  | JArray _ _ | JObject _ _ => true
  | _ => false
  end.

(** The documents the parser takes at the root: not a string; a number
    only with a blank after it. *)
Definition rootParses (j : Json) (trail : list ascii) : Prop :=
  match j with
  | JString _ => False
  | JNumber _ => trail <> []
  | _ => True
  end.

(** A document that nests [n] deep opens its containers on stacks of
    length below [n]. *)
Definition fitsDepth (n : nat) (limit : JSNumber) : bool :=
  match n with
  | O => true
  | S k => negb (lengthReaches k limit)
  end.

(** The token stream of a document: type and value of each token, a
    member's name as the string it is written as. *)
Definition Core : Type := (TokenType * Value)%type.

Fixpoint tokensOf (j : Json) : list Core :=
  match j with
  | JNull => [(TkNull, VNull)]
  | JBool b => [(TkBoolean, VBool b)]
  | JNumber lit => [(TkNumber, VNum (number_value lit))]
  | JString items => [(TkString, VStr (string_value items))]
  | JArray _ elements =>
      (TkArrayStart, VNull)
      :: join [(TkComma, VNull)]
           (map (fun e => match e with (_, v, _) => tokensOf v end) elements)
      ++ [(TkArrayEnd, VNull)]
  | JObject _ members =>
      (TkObjectStart, VNull)
      :: join [(TkComma, VNull)]
           (map (fun m => match m with
                          | (_, name, _, _, v, _) =>
                              (TkString, VStr (string_value name))
                              :: (TkColon, VNull) :: tokensOf v
                          end) members)
      ++ [(TkObjectEnd, VNull)]
  end.

(* ------------------------------------------------------------------ *)
(** ** The strict tokenizer as a function of the buffer

    What [processNextToken] does with a buffer that begins at a
    non-blank character when no lenient flag is set, the expecting-key
    hint left aside: a string is reported as [TkString]. *)

Inductive LexStep : Type :=
| LexToken (type : TokenType) (value : Value) (rest : list ascii)
| LexMore
| LexError.

Definition lexStep (s : list ascii) : LexStep :=
  match s with
  | [] => LexMore
  | char :: r =>
      if Ascii.eqb char "{"%char then LexToken TkObjectStart VNull r
      else if Ascii.eqb char "}"%char then LexToken TkObjectEnd VNull r
      else if Ascii.eqb char "["%char then LexToken TkArrayStart VNull r
      else if Ascii.eqb char "]"%char then LexToken TkArrayEnd VNull r
      else if Ascii.eqb char ":"%char then LexToken TkColon VNull r
      else if Ascii.eqb char ","%char then LexToken TkComma VNull r
      else if Ascii.eqb char dquote || Ascii.eqb char squote then
        if Ascii.eqb char squote then LexError
        else
          match scanString char [] [char] false r with
          | Some (value, _, rest) =>
              LexToken TkString (VStr (string_of_list_ascii value)) rest
          | None => LexMore
          end
      else if isNumberStart char then
        let (raw, rest) := span isNumberChar s in
        match rest with
        | [] => LexMore
        | _ =>
            if negb (isEmpty raw) && isIncompleteNumberEnd (last raw "0"%char)
            then LexMore
            else match parseFloat raw with
                 | Some value => LexToken TkNumber (VNum value) rest
                 | None => LexError
                 end
        end
      else if Ascii.eqb char "t"%char || Ascii.eqb char "f"%char
              || Ascii.eqb char "n"%char then
        match matchKeyword keywords s with
        | Some (keyword, (type, value)) =>
            LexToken type value (skipn (List.length keyword) s)
        | None => if isPartialKeyword s then LexMore else LexError
        end
      else LexError
  end.

(** [Lexes s toks carry]: the tokenizer's loop turns the buffer [s] into
    the tokens [toks] without an Error token and leaves [carry]. *)
Inductive Lexes : list ascii -> list Core -> list ascii -> Prop :=
| lexes_end : forall s,
    skip_spaces s = [] -> Lexes s [] []
| lexes_more : forall s,
    skip_spaces s <> [] ->
    lexStep (skip_spaces s) = LexMore ->
    Lexes s [] (skip_spaces s)
| lexes_token : forall s type value rest toks carry,
    lexStep (skip_spaces s) = LexToken type value rest ->
    Lexes rest toks carry ->
    Lexes s ((type, value) :: toks) carry.

Definition strictTokenizer (t : StreamingTokenizer) : Prop :=
  to_allowUnquotedKeys (t_options t) = false
  /\ to_allowSingleQuotes (t_options t) = false
  /\ to_llmMode (t_options t) = false.

(** The type a token gets under the expecting-key hint, and the hint
    after the token. *)
Definition actualType (expecting : bool) (type : TokenType) : TokenType :=
  match type with
  | TkString => if expecting then TkKey else TkString
  | other => other
  end.

Definition flagAfter (expecting : bool) (type : TokenType) : bool :=
  match type with
  | TkObjectStart => true
  | TkObjectEnd | TkArrayStart | TkArrayEnd | TkColon | TkString => false
  | _ => expecting
  end.

(** The character after a keyword, if any, is not a word character. *)
Definition keywordEnds (keyword s : list ascii) : Prop :=
  match skipn (List.length keyword) s with
  | nextChar :: _ => isWordChar nextChar = false
  | [] => True
  end.

(** The tokens the tokenizer emits for a lexed buffer: each string is a
    key or a string by the hint at that point. *)
Fixpoint retype (expecting : bool) (toks : list Core) : list Core :=
  match toks with
  | [] => []
  | (type, value) :: rest =>
      (actualType expecting type, value) :: retype (flagAfter expecting type) rest
  end.

Definition coreOf (token : Token) : Core := (tk_type token, tk_value token).

(** What can follow a value: a blank, a comma or a closing bracket. *)
Definition isDelimiter (c : ascii) : bool :=
  isJsonSpace c || Ascii.eqb c ","%char || Ascii.eqb c "}"%char
  || Ascii.eqb c "]"%char.

Definition delimited (rest : list ascii) : Prop :=
  match rest with
  | c :: _ => isDelimiter c = true
  | [] => False
  end.

(** The exponent part of a number literal on its own. *)
Definition render_exp (e : option (ascii * option bool * list ascii)) : list ascii :=
  match e with
  | Some (letter, s, ds) => letter :: render_sign s ++ ds
  | None => []
  end.

Definition wf_exp (e : option (ascii * option bool * list ascii)) : bool :=
  match e with
  | Some (letter, _, ds) =>
      (Ascii.eqb letter "e"%char || Ascii.eqb letter "E"%char) && isDigits ds
  | None => true
  end.

Definition exp_value (e : option (ascii * option bool * list ascii)) : Z :=
  match e with
  | Some (_, s, ds) =>
      match s with
      | Some true => (- digits_value ds)%Z
      | _ => digits_value ds
      end
  | None => 0%Z
  end.


(** An element and a member whose value nests at most [n] deep. *)
Definition wf_element (n : nat) (e : list ascii * Json * list ascii) : Prop :=
  match e with
  | (before, v, after) =>
      isBlank before = true /\ wf v = true /\ isBlank after = true /\ nesting v <= n
  end.

Definition wf_member (n : nat)
    (m : list ascii * list StrItem * list ascii * list ascii * Json * list ascii)
  : Prop :=
  match m with
  | (w1, name, w2, w3, v, w4) =>
      isBlank w1 = true /\ forallb wf_item name = true /\ isBlank w2 = true
      /\ isBlank w3 = true /\ wf v = true /\ isBlank w4 = true /\ nesting v <= n
  end.

(* ------------------------------------------------------------------ *)
(** ** What the validator is asked while a document is parsed

    The parser asks the validator about every value at the path that
    [getCurrentPath] gives at that moment.  The frame on top of the stack
    leaves its pending key out of that path and an array frame adds its
    index, so a scalar under a key is checked at its own path, a scalar
    in an array at its path with the index repeated, and a container at
    the path of the frame that holds it (with the index, in an array) both
    when it opens ([canBeType]) and when it closes ([validate]). *)

(** Where a value stands in the frame that holds it. *)
Inductive Place : Type :=
| AtKey (key : string)
| AtIndex (index : nat).

(** What a frame adds to [getCurrentPath]. *)
Definition place_segment (isLastFrame : bool) (place : Place) : list string :=
  match place with
  | AtKey key => if isLastFrame then [] else [key]
  | AtIndex index => [string_of_nat index]
  end.

(** [getCurrentPath()] with the frames of [places] on the stack, the
    innermost first. *)
Definition framesPath (places : list Place) : list string :=
  match places with
  | [] => []
  | top :: below =>
      flat_map (place_segment false) (rev below) ++ place_segment true top
  end.

(** The path at which [setValue] and [pushArrayValue] validate. *)
Definition scalarPath (places : list Place) : list string :=
  match places with
  | [] => []
  | AtKey key :: _ => framesPath places ++ [key]
  | AtIndex index :: _ => framesPath places ++ [string_of_nat index]
  end.

Section Reports.
Variable validator : option SchemaValidator.
Variable fuel : nat.

(** [this.validateValue(value, path)]: the new errors; [None] is the
    stack overflow of the validator. *)
Definition checkValue (value : Value) (path : list string)
  : option (list ValidationError) :=
  match validator with
  | Some V => validate V fuel value path
  | None => Some []
  end.

(** The early type check of [startObject] and [startArray]. *)
Definition checkOpening (kind : FrameType) (path : list string)
  : option (list ValidationError) :=
  match validator with
  | Some V =>
      s <- getSchemaAtPath V fuel path ;;
      ok <- canBeType V fuel
              (match kind with FObject => TObject | FArray => TArray end) path ;;
      Some (if ok then []
            else [mkError path
                    ("Expected different type, got "
                     +++ match kind with FObject => "object" | FArray => "array" end)
                    "type" (orDefault emptySchema s) None])
  | None => Some []
  end.

Definition elementReports
    (rec : list Place -> Json -> option (list ValidationError))
    (places : list Place)
  : list (list ascii * Json * list ascii) -> nat -> option (list ValidationError) :=
  fix go es index :=
    match es with
    | [] => Some []
    | (_, v, _) :: rest =>
        e <- rec (AtIndex index :: places) v ;;
        more <- go rest (S index) ;;
        Some (e ++ more)
    end.

Definition memberReports
    (rec : list Place -> Json -> option (list ValidationError))
    (places : list Place)
  : list (list ascii * list StrItem * list ascii * list ascii * Json * list ascii)
    -> option (list ValidationError) :=
  fix go ms :=
    match ms with
    | [] => Some []
    | (_, name, _, _, v, _) :: rest =>
        e <- rec (AtKey (string_value name) :: places) v ;;
        more <- go rest ;;
        Some (e ++ more)
    end.

(** The errors reported while the document [j] is parsed in the place
    [places], in the order in which they are reported. *)
Fixpoint reports (places : list Place) (j : Json) {struct j}
  : option (list ValidationError) :=
  match j with
  | JArray _ elements =>
      opening <- checkOpening FArray (framesPath places) ;;
      inner <- elementReports reports places elements 0 ;;
      closing <- checkValue (denote j) (framesPath places) ;;
      Some (opening ++ inner ++ closing)
  | JObject _ members =>
      opening <- checkOpening FObject (framesPath places) ;;
      inner <- memberReports reports places members ;;
      closing <- checkValue (denote j) (framesPath places) ;;
      Some (opening ++ inner ++ closing)
  | _ => checkValue (denote j) (scalarPath places)
  end.

End Reports.

(** The errors a fresh parser with these options reports for the
    document, if the validator does not run out of stack. *)
Definition documentReports (rt : Runtime) (options : ParserOptions) (j : Json)
  : option (list ValidationError) :=
  reports (p_validator (newStreamingJSONParser rt options)) (stack_limit rt) [] j.

(* ------------------------------------------------------------------ *)
(** ** The parser on the tokens of a document

    What the token handlers do to the state, to the type, data, pending
    key and index of each frame, to the root value and to the errors, on
    the transitions that the tokens of a document take in strict mode.
    Strings are taken as the lexer reads them, a name being a string met
    where a key is expected.  [None] stands for everything else. *)

Record Shape : Type := mkShape {
  sh_type : FrameType;
  sh_data : Value;
  sh_key : option string;
  sh_index : nat
}.

Record View : Type := mkView {
  v_state : ParserState;
  v_stack : list Shape;
  v_result : option Value;
  v_errors : list ValidationError
}.

Definition shape_of (frame : StackFrame) : Shape :=
  mkShape (f_type frame) (f_data frame) (f_currentKey frame) (f_arrayIndex frame).

Definition view (p : StreamingJSONParser) : View :=
  mkView (p_state p) (map shape_of (p_stack p)) (p_result p) (p_errors p).

(** What the handlers are given: the validator, the depth of the host's
    stack and [maxDepth]. *)
Record Setup : Type := mkSetup {
  su_validator : option SchemaValidator;
  su_fuel : nat;
  su_limit : JSNumber
}.

(** What a handler leaves alone. *)
Definition sameSetup (p p' : StreamingJSONParser) : Prop :=
  p_validator p' = p_validator p
  /\ p_options p' = p_options p
  /\ p_rt p' = p_rt p
  /\ t_buffer (p_tokenizer p') = t_buffer (p_tokenizer p)
  /\ t_options (p_tokenizer p') = t_options (p_tokenizer p).

(** What a frame adds to [getCurrentPath], and the path. *)
Definition shape_segment (isLastFrame : bool) (shape : Shape) : list string :=
  match sh_type shape with
  | FObject =>
      match truthy_key (sh_key shape) with
      | Some k => if negb isLastFrame then [k] else []
      | None => []
      end
  | FArray => [string_of_nat (sh_index shape)]
  end.

Definition shapesPath (stack : list Shape) : list string :=
  match stack with
  | [] => []
  | top :: below =>
      flat_map (shape_segment false) (rev below) ++ shape_segment true top
  end.

Definition withErrors (new : list ValidationError) (v : View) : View :=
  mkView (v_state v) (v_stack v) (v_result v) (v_errors v ++ new).

(** [startObject] and [startArray], followed by the new state. *)
Definition openV (su : Setup) (kind : FrameType) (next : ParserState) (v : View)
  : option View :=
  if lengthReaches (List.length (v_stack v)) (su_limit su) then None
  else
    match checkOpening (su_validator su) (su_fuel su) kind (shapesPath (v_stack v)) with
    | Some new =>
        Some (mkView next
                (mkShape kind
                   (match kind with FObject => VObj [] | FArray => VArr [] end)
                   None 0
                 :: v_stack v)
                (v_result v) (v_errors v ++ new))
    | None => None
    end.

(** [assignValue]: the value goes under the pending key, to the end of
    the array, or to the root. *)
Definition assignV (value : Value) (stack : list Shape) (result : option Value)
  : option (list Shape * option Value) :=
  match stack with
  | [] => Some ([], Some value)
  | frame :: below =>
      match sh_type frame with
      | FObject =>
          match truthy_key (sh_key frame) with
          | Some key =>
              Some (mkShape FObject (data_set key value (sh_data frame)) None
                      (sh_index frame)
                    :: below, result)
          | None => None
          end
      | FArray =>
          Some (mkShape FArray (data_push value (sh_data frame)) (sh_key frame)
                  (S (sh_index frame))
                :: below, result)
      end
  end.

(** The path at which [setValue] and [pushArrayValue] validate. *)
Definition valuePath (stack : list Shape) : list string :=
  match stack with
  | [] => []
  | frame :: _ =>
      shapesPath stack
      ++ match sh_type frame with
         | FObject => match truthy_key (sh_key frame) with
                      | Some key => [key]
                      | None => []
                      end
         | FArray => [string_of_nat (sh_index frame)]
         end
  end.

(** [setValue] and [pushArrayValue], followed by the new state. *)
Definition scalarV (su : Setup) (value : Value) (v : View) : option View :=
  match assignV value (v_stack v) (v_result v),
        checkValue (su_validator su) (su_fuel su) value (valuePath (v_stack v)) with
  | Some (stack, result), Some new =>
      Some (mkView ExpectingCommaOrEnd stack result (v_errors v ++ new))
  | _, _ => None
  end.

(** [endObject] and [endArray]. *)
Definition closeV (su : Setup) (kind : FrameType) (v : View) : option View :=
  match v_stack v with
  | [] => None
  | frame :: below =>
      if frameType_eqb (sh_type frame) kind then
        match checkValue (su_validator su) (su_fuel su) (sh_data frame)
                (shapesPath below),
              assignV (sh_data frame) below (v_result v) with
        | Some new, Some (stack, result) =>
            Some (mkView (if isEmpty stack then Complete else ExpectingCommaOrEnd)
                    stack result (v_errors v ++ new))
        | _, _ => None
        end
      else None
  end.

Definition core_string (value : Value) : string :=
  match value with VStr s => s | _ => "" end.

Definition idealStep (su : Setup) (v : View) (token : Core) : option View :=
  let (type, value) := token in
  match v_state v with
  | Initial =>
      match type with
      | TkObjectStart => openV su FObject ExpectingKey v
      | TkArrayStart => openV su FArray InArray v
      | TkNumber | TkBoolean | TkNull =>
          match checkValue (su_validator su) (su_fuel su) value [] with
          | Some new =>
              Some (mkView Complete (v_stack v) (Some value) (v_errors v ++ new))
          | None => None
          end
      | _ => None
      end
  | ExpectingKey =>
      match v_stack v with
      | frame :: below =>
          match sh_type frame with
          | FObject =>
              match type with
              | TkString =>
                  Some (mkView ExpectingColon
                          (mkShape FObject (sh_data frame) (Some (core_string value))
                             (sh_index frame)
                           :: below)
                          (v_result v) (v_errors v))
              | TkObjectEnd => closeV su FObject v
              | _ => None
              end
          | FArray => None
          end
      | [] => None
      end
  | ExpectingColon =>
      match type with
      | TkColon => Some (mkView ExpectingValue (v_stack v) (v_result v) (v_errors v))
      | _ => None
      end
  | ExpectingValue =>
      match type with
      | TkObjectStart => openV su FObject ExpectingKey v
      | TkArrayStart => openV su FArray InArray v
      | TkString | TkNumber | TkBoolean | TkNull => scalarV su value v
      | _ => None
      end
  | InArray =>
      match v_stack v with
      | frame :: _ =>
          match sh_type frame with
          | FArray =>
              match type with
              | TkObjectStart => openV su FObject ExpectingKey v
              | TkArrayStart => openV su FArray InArray v
              | TkArrayEnd => closeV su FArray v
              | TkString | TkNumber | TkBoolean | TkNull => scalarV su value v
              | _ => None
              end
          | FObject => None
          end
      | [] => None
      end
  | ExpectingCommaOrEnd =>
      match v_stack v with
      | frame :: _ =>
          match type with
          | TkComma =>
              Some (mkView (match sh_type frame with
                            | FObject => ExpectingKey
                            | FArray => InArray
                            end) (v_stack v) (v_result v) (v_errors v))
          | TkObjectEnd =>
              match sh_type frame with
              | FObject => closeV su FObject v
              | FArray => None
              end
          | TkArrayEnd =>
              match sh_type frame with
              | FArray => closeV su FArray v
              | FObject => None
              end
          | _ => None
          end
      | [] => None
      end
  | _ => None
  end.

Fixpoint idealRun (su : Setup) (v : View) (tokens : list Core) : option View :=
  match tokens with
  | [] => Some v
  | token :: rest =>
      match idealStep su v token with
      | Some v' => idealRun su v' rest
      | None => None
      end
  end.

(** The hint of the tokenizer is set only where a key, or the first
    token, is expected, or once the document is complete. *)
Definition hintFits (expecting : bool) (v : View) : Prop :=
  expecting = true ->
  v_state v = ExpectingKey \/ v_state v = Initial \/ v_state v = Complete.

Definition strictSetup (su : Setup) (p : StreamingJSONParser) : Prop :=
  p_validator p = su_validator su
  /\ stack_limit (p_rt p) = su_fuel su
  /\ o_llmMode (p_options p) = false
  /\ o_maxDepth (p_options p) = su_limit su.

(** The view once a whole value has been taken in and [new] errors have
    been reported for it. *)
Definition afterValue (new : list ValidationError) (value : Value) (v : View)
  : option View :=
  match assignV value (v_stack v) (v_result v) with
  | Some (stack, result) =>
      Some (mkView (if isEmpty stack then Complete else ExpectingCommaOrEnd)
              stack result (v_errors v ++ new))
  | None => None
  end.

(** The place of the value that a frame is waiting for. *)
Definition place_of (shape : Shape) : Place :=
  match sh_type shape with
  | FObject => AtKey (match sh_key shape with Some k => k | None => "" end)
  | FArray => AtIndex (sh_index shape)
  end.

(** Every object frame has a key pending. *)
Definition keyed (stack : list Shape) : Prop :=
  Forall (fun shape => sh_type shape = FObject ->
                       truthy_key (sh_key shape) = sh_key shape
                       /\ sh_key shape <> None) stack.

(** Where a value may begin. *)
Definition ready (j : Json) (v : View) : Prop :=
  keyed (v_stack v)
  /\ match v_state v with
     | Initial => v_stack v = [] /\ match j with JString _ => False | _ => True end
     | ExpectingValue =>
         match v_stack v with
         | frame :: _ => sh_type frame = FObject
         | [] => False
         end
     | InArray =>
         match v_stack v with
         | frame :: _ => sh_type frame = FArray
         | [] => False
         end
     | _ => False
     end.

Definition named_element (n : nat) (e : list ascii * Json * list ascii) : Prop :=
  match e with
  | (_, v, _) => namesAssignable v = true /\ nesting v <= n
  end.

Definition named_member (n : nat)
    (m : list ascii * list StrItem * list ascii * list ascii * Json * list ascii)
  : Prop :=
  match m with
  | (_, name, _, _, v, _) =>
      assignable (string_value name) = true
      /\ namesAssignable v = true /\ nesting v <= n
  end.

(** ** Chunked documents *)

(** The snapshot returned by the last [feed]. *)
Definition finalSnapshot (snapshots : list ParseResult) : option ParseResult :=
  last (map Some snapshots) None.

(** Options of a strict parser without schema. *)
Definition strictNoSchema (options : ParserOptions) : Prop :=
  schema options = None /\ llmMode options <> Some true.

(** Options of a strict parser, with or without schema. *)
Definition strictMode (options : ParserOptions) : Prop :=
  llmMode options <> Some true.

(** A fresh strict parser without schema, and the inputs of the examples
    on chunked documents. *)
Definition strict_parser : StreamingJSONParser :=
  newStreamingJSONParser plain_runtime noOptions.

(** [{"a":[1, true]}] as a tree, cut after the first comma. *)
Definition sample_document : Json :=
  JObject []
    [([], [SChar "a"%char], [], [],
      JArray []
        [([], JNumber (mkNumberLit false ["1"%char] None None), []);
         ([" "%char], JBool true, [])],
      [])].

Definition sample_chunks : list (list ascii) :=
  [text ("{" +++ q "a" +++ ":[1,"); text " true]}"].

(** Options with a schema and nothing else. *)
Definition schemaOptions (s : JSONSchema) : ParserOptions :=
  {| schema := Some s; llmMode := None; allowTrailingCommas := None;
     allowUnquotedKeys := None; allowSingleQuotes := None; maxDepth := None |}.

(** [{type: "object", properties: {a: {type: "number"}, b: {type: "number"}}}] *)
Definition numbers_schema : JSONSchema :=
  with_properties [("a", schema_type TNumber); ("b", schema_type TNumber)]
    (schema_type TObject).

(** [{"a":1, "b":2.5}] as a tree, cut inside the second number. *)
Definition flat_document : Json :=
  JObject []
    [([], [SChar "a"%char], [], [],
      JNumber (mkNumberLit false ["1"%char] None None), []);
     ([" "%char], [SChar "b"%char], [], [],
      JNumber (mkNumberLit false ["2"%char] (Some ["5"%char]) None), [])].

Definition flat_chunks : list (list ascii) :=
  [text ("{" +++ q "a" +++ ":1, " +++ q "b" +++ ":2"); text ".5}"].

(* ------------------------------------------------------------------ *)
(** ** What the token handlers leave alone, and how they fail *)

(** From [p] to [q] the runtime, the options, the validator, the byte
    count and the tokenizer's options are the same, and the errors of [q]
    are those of [p] followed by new ones; new errors come from the
    validator or from lenient mode only. *)
Definition calm (p q : StreamingJSONParser) : Prop :=
  p_rt q = p_rt p
  /\ p_options q = p_options p
  /\ p_validator q = p_validator p
  /\ p_bytesProcessed q = p_bytesProcessed p
  /\ t_options (p_tokenizer q) = t_options (p_tokenizer p)
  /\ exists extra,
       p_errors q = p_errors p ++ extra
       /\ (extra <> [] ->
           p_validator p <> None \/ o_llmMode (p_options p) = true).

(** The result of a call made on [p]: what it leaves alone; a
    [ParseError] is thrown in strict mode only and with the state set to
    Error; a [RangeError] comes from the validator. *)
Definition outcome (p : StreamingJSONParser)
    (x : StreamingJSONParser * option Exn) : Prop :=
  calm p (fst x)
  /\ (forall m, snd x = Some (ParseError m) ->
                p_state (fst x) = Error /\ o_llmMode (p_options p) = false)
  /\ (snd x = Some RangeError -> p_validator p <> None).

Definition behaves (a : Action) : Prop := forall p, outcome p (a p).

(** A parser with its parts as [newStreamingJSONParser] sets them. *)
Definition configuredAs (rt : Runtime) (options : ParserOptions)
    (p : StreamingJSONParser) : Prop :=
  p_rt p = rt
  /\ p_options p = mergeOptions options
  /\ p_validator p = p_validator (newStreamingJSONParser rt options)
  /\ t_options (p_tokenizer p)
     = t_options (p_tokenizer (newStreamingJSONParser rt options)).

(** Options of a lenient parser without schema. *)
Definition lenientNoSchema (options : ParserOptions) : Prop :=
  schema options = None /\ llmMode options = Some true.

(** A lenient parser and a parser with a schema, for the examples. *)
Definition lenient_parser : StreamingJSONParser :=
  newStreamingJSONParser plain_runtime (lenientOptions 100).

(** [{"a":"x"}] against a schema that wants a number under [a], cut
    after the first value. *)
Definition number_schema_parser : StreamingJSONParser :=
  createStreamParser plain_runtime
    (Some (with_properties [("a", schema_type TNumber); ("b", schema_type TNumber)]
             (schema_type TObject)))
    noOptions.

Definition wrong_type_chunk : list ascii := text ("{" +++ q "a" +++ ":" +++ q "x" +++ ",").
Definition wrong_type_rest : list ascii := text (q "b" +++ ":" +++ q "y" +++ "}").

(** The sample document fed in its two chunks. *)
Definition sample_run : StreamingJSONParser * list ParseResult * option Exn :=
  feedAll sample_chunks strict_parser.

(* ------------------------------------------------------------------ *)
(** ** The tokenizer on its own *)

(** What a round of the tokenizer's loop, started on [t], may give:
    when it asks for another round at least one character of the buffer
    is gone, the buffer never grows, and at most one token is added. *)
Definition roundOf (t : StreamingTokenizer) (x : bool * StreamingTokenizer) : Prop :=
  (fst x = true ->
   List.length (t_buffer (snd x)) < List.length (t_buffer t))
  /\ List.length (t_buffer (snd x)) <= List.length (t_buffer t)
  /\ exists added,
       t_tokens (snd x) = t_tokens t ++ added /\ List.length added <= 1.

(** [state.buffer += chunk; this.tokens = []], the start of [feed]. *)
Definition appended (chunk : list ascii) (t : StreamingTokenizer)
  : StreamingTokenizer :=
  {| t_options := t_options t; t_position := t_position t;
     t_buffer := t_buffer t ++ chunk; t_inString := t_inString t;
     t_stringQuote := t_stringQuote t; t_tokens := [];
     t_expectingKey := t_expectingKey t |}.

(** A lenient tokenizer that expects a key, and a strict one. *)
Definition lenient_tokenizer : StreamingTokenizer :=
  setExpectingKey true (newStreamingTokenizer (Some true) None None None).

Definition strict_tokenizer : StreamingTokenizer :=
  newStreamingTokenizer None None None None.

(** The expecting-key hint after the tokens [toks]. *)
Definition hintAfter (expecting : bool) (toks : list Core) : bool :=
  fold_left (fun hint tok => flagAfter hint (fst tok)) toks expecting.

(* ------------------------------------------------------------------ *)
(** ** The validator on its own *)

(** The error is attributed to [path] or to a place below it. *)
Definition underPath (path : list string) (e : ValidationError) : Prop :=
  exists below, e_path e = path ++ below.

(** No object of the value has the same key twice, as for every value
    of the host. *)
Fixpoint uniqueKeys (v : Value) : bool :=
  match v with
  | VArr xs => forallb uniqueKeys xs
  | VObj kvs =>
      nodup_strings (map fst kvs)
      && forallb (fun kv => match kv with (_, w) => uniqueKeys w end) kvs
  | _ => true
  end.

(** The object that has the indices of an array as its keys. *)
Definition indexObject (xs : list Value) : Value :=
  VObj (combine (map string_of_nat (seq 0 (List.length xs))) xs).

(** The schema [{const: c}]. *)
Definition const_schema (c : Value) : JSONSchema :=
  mkSchema None None None None None (Some c) None None None None None None
    None None None None None None None None None
    None None None None None None None None None None None None None None.

(** A validator for [{items: {items: {type: "number"}}}], which reports
    every error, and a value for one row. *)
Definition items_schema (item : JSONSchema) : JSONSchema :=
  mkSchema None None None None None None None None None None None None
    None None None (Some (inl item)) None None None None None
    None None None None None None None None None None None None None None.

Definition rows_validator : SchemaValidator :=
  newSchemaValidator plain_runtime
    (items_schema (items_schema (schema_type TNumber))) None (Some true).

Definition items_value : Value := VArr [VNum 1; VStr "x"; VBool true].

(* ================================================================== *)
(** * Properties of the validator *)

Lemma obind_some : forall (A B : Type) (m : option A) (k : A -> option B) (b : B),
    obind m k = Some b -> exists a, m = Some a /\ k a = Some b.
Proof.
  intros A B [a|] k b H; simpl in H; [eauto | discriminate].
Qed.

Lemma resolveRef_step : forall f defs s,
    resolveRef (S f) defs s =
    match ref_target defs s with
    | Some d => resolveRef f defs d
    | None => Some s
    end.
Proof.
  intros f defs s. unfold ref_target, ref_name. simpl.
  destruct (s_ref s) as [ref|]; [|reflexivity].
  destruct (String.eqb ref ""); [reflexivity|].
  destruct (is_local_ref ref); [|reflexivity].
  destruct (String.eqb (last_segment ref) ""); [reflexivity|].
  destruct (assoc_get (last_segment ref) defs); reflexivity.
Qed.

Lemma resolveRef_mono : forall f defs s r,
    resolveRef f defs s = Some r ->
    forall f', f <= f' -> resolveRef f' defs s = Some r.
Proof.
  induction f as [|f IH]; intros defs s r H f' Hle; [discriminate|].
  destruct f' as [|f']; [lia|].
  rewrite resolveRef_step in *.
  destruct (ref_target defs s) as [d|]; [|assumption].
  apply IH; [assumption | lia].
Qed.

(** What [resolveRef] returns has no further definition to move to. *)
Lemma resolveRef_fixed : forall f defs s r,
    resolveRef f defs s = Some r -> ref_target defs r = None.
Proof.
  induction f as [|f IH]; intros defs s r H; [discriminate|].
  rewrite resolveRef_step in H.
  destruct (ref_target defs s) as [d|] eqn:E.
  - eapply IH; eassumption.
  - inversion H; subst; assumption.
Qed.

Lemma resolveRef_of_fixed : forall f defs r,
    ref_target defs r = None -> resolveRef (S f) defs r = Some r.
Proof.
  intros f defs r H. rewrite resolveRef_step, H. reflexivity.
Qed.

Lemma getSchemaAtPath_from_mono : forall path f defs cur x,
    getSchemaAtPath_from f defs cur path = Some x ->
    forall f', f <= f' -> getSchemaAtPath_from f' defs cur path = Some x.
Proof.
  induction path as [|seg rest IH]; intros f defs cur x H f' Hle; simpl in *.
  - apply obind_some in H. destruct H as [r [Hr Hx]].
    rewrite (resolveRef_mono _ _ _ _ Hr _ Hle). assumption.
  - apply obind_some in H. destruct H as [c [Hc Hx]].
    rewrite (resolveRef_mono _ _ _ _ Hc _ Hle). simpl.
    destruct (assoc_get seg (opt_list (s_properties c))); [eauto|].
    destruct (s_additionalProperties c) as [[ap|b]|]; [eauto| |].
    all: destruct (s_items c) as [[it|tuple]|]; try assumption; eauto.
    all: destruct (match parseInt seg with
                   | Some index => tuple_item tuple index
                   | None => None
                   end); [eauto|].
    all: destruct (s_additionalItems c) as [[ai|b']|]; try assumption; eauto.
Qed.

Lemma getSchemaAtPath_from_fixed : forall path f defs cur s,
    getSchemaAtPath_from f defs cur path = Some (Some s) ->
    ref_target defs s = None.
Proof.
  induction path as [|seg rest IH]; intros f defs cur s H; simpl in *.
  - apply obind_some in H. destruct H as [r [Hr Hx]].
    inversion Hx; subst. eapply resolveRef_fixed; eassumption.
  - apply obind_some in H. destruct H as [c [Hc Hx]].
    destruct (assoc_get seg (opt_list (s_properties c))); [eauto|].
    destruct (s_additionalProperties c) as [[ap|b]|]; [eauto| |].
    all: destruct (s_items c) as [[it|tuple]|]; try discriminate; eauto.
    all: destruct (match parseInt seg with
                   | Some index => tuple_item tuple index
                   | None => None
                   end); [eauto|].
    all: destruct (s_additionalItems c) as [[ai|b']|]; try discriminate; eauto.
Qed.

(** C10.  For every value and every non-empty path at which
    [getSchemaAtPath] finds no schema, [validate] returns the empty list
    of errors: a value at an unaddressed path is accepted. *)
Theorem validate_unaddressed_path :
  forall (V : SchemaValidator) (fuel : nat) (value : Value) (path : list string),
    path <> [] ->
    getSchemaAtPath V fuel path = Some None ->
    validate V fuel value path = Some [].
Proof.
  intros V fuel value path Hne Hnone.
  unfold validate.
  destruct path as [|seg rest]; [contradiction|].
  simpl isEmpty. cbv iota.
  rewrite Hnone. reflexivity.
Qed.

Lemma validate_unaddressed_path_witness :
  validate (newSchemaValidator plain_runtime outer_schema None None) 8
    (VStr "anything") ["b"; "c"] = Some [].
Proof.
  apply validate_unaddressed_path.
  - discriminate.
  - reflexivity.
Defined.

(** ** Termination of [$ref] resolution *)

Lemma ref_target_name : forall defs s d,
    ref_target defs s = Some d ->
    exists name, ref_name s = Some name /\ assoc_get name defs = Some d.
Proof.
  intros defs s d H. unfold ref_target in H.
  destruct (ref_name s) as [name|]; [eauto | discriminate].
Qed.

Lemma ranked_definition_chain : forall defs rank,
    ref_ranked defs rank ->
    forall k name d,
      assoc_get name defs = Some d ->
      rank name < k ->
      exists n r, follows defs n d r.
Proof.
  intros defs rank Hrk.
  induction k as [|k IH]; intros name d Hd Hlt; [lia|].
  destruct (ref_target defs d) as [d'|] eqn:E.
  - destruct (ref_target_name _ _ _ E) as [name' [Hn Hd']].
    pose proof (Hrk _ _ _ _ Hd Hn Hd') as Hdec.
    destruct (IH name' d' Hd') as (n & r & Hf); [lia|].
    exists (S n), r. eapply follows_link; eassumption.
  - exists 0, d. apply follows_end. exact E.
Qed.

(** Along a chain [resolveRef] makes one call per pointer and one more at
    the end. *)
Lemma follows_resolveRef : forall defs n s r,
    follows defs n s r ->
    forall fuel,
      resolveRef fuel defs s = if Nat.ltb n fuel then Some r else None.
Proof.
  intros defs n s r H. induction H as [s E|n s d r E H IH]; intros [|f];
    try reflexivity.
  - rewrite resolveRef_step, E. reflexivity.
  - rewrite resolveRef_step, E, IH. reflexivity.
Qed.

Lemma cyclic_definitions_loop : forall fuel,
    resolveRef fuel cyclic_defs (schema_ref "#/$defs/a") = None
    /\ resolveRef fuel cyclic_defs (schema_ref "#/$defs/b") = None.
Proof.
  induction fuel as [|f [IHa IHb]]; [split; reflexivity|].
  split; rewrite resolveRef_step.
  - change (ref_target cyclic_defs (schema_ref "#/$defs/a"))
      with (Some (schema_ref "#/$defs/b")).
    exact IHb.
  - change (ref_target cyclic_defs (schema_ref "#/$defs/b"))
      with (Some (schema_ref "#/$defs/a")).
    exact IHa.
Qed.



Lemma chain_defs_ranked : ref_ranked chain_defs chain_rank.
Proof.
  intros name d name' d' Hd Hn Hd'.
  unfold chain_defs in *. simpl in Hd.
  destruct (String.eqb name "a") eqn:Ea.
  - inversion Hd; subst d. vm_compute in Hn. inversion Hn; subst name'.
    apply String.eqb_eq in Ea. subst name. vm_compute. lia.
  - destruct (String.eqb name "b") eqn:Eb; [|discriminate].
    inversion Hd; subst d. vm_compute in Hn. discriminate.
Qed.


(** ** [canBeType] against [validate] *)

Lemma type_eqb_eq : forall a b, type_eqb a b = true <-> a = b.
Proof.
  intros a b; split; [|intros ->; destruct b; reflexivity].
  destruct a, b; simpl; intros H; try discriminate; reflexivity.
Qed.

Lemma type_eqb_sym : forall a b, type_eqb a b = type_eqb b a.
Proof. intros a b; destruct a, b; reflexivity. Qed.

Lemma getJSONType_not_integer : forall v, type_eqb TInteger (getJSONType v) = false.
Proof. intros v; destruct v; reflexivity. Qed.

(** A list of types that [canBeType] rejects is rejected by the loop of
    [validateType], the integer case apart. *)
Lemma rejected_list_not_accepted : forall v types,
    existsb (type_eqb (getJSONType v)) types = false ->
    existsb (type_eqb TInteger) types && value_isInteger v = false ->
    existsb (type_accepts v) types = false.
Proof.
  intros v types. induction types as [|t ts IH]; intros Hno Hint; [reflexivity|].
  simpl in *. apply orb_false_iff in Hno. destruct Hno as [Ht Hts].
  apply orb_false_iff. split.
  - unfold type_accepts. rewrite type_eqb_sym, Ht. simpl.
    destruct (type_eqb t TInteger) eqn:Ei; [|reflexivity].
    apply type_eqb_eq in Ei. subst t. simpl in Hint.
    simpl. rewrite Hint. apply andb_false_r.
  - apply IH; [assumption|].
    destruct (value_isInteger v); [|apply andb_false_r].
    rewrite andb_true_r in *. apply orb_false_iff in Hint. tauto.
Qed.

Lemma validateType_rejects : forall v ty ctx,
    existsb (type_accepts v) (type_list ty) = false ->
    exists e, validateType v ty ctx = [e] /\ e_keyword e = "type".
Proof.
  intros v ty ctx H. unfold validateType. rewrite H.
  eexists; split; reflexivity.
Qed.

(** What [canBeType] answers once the schema at the path is known. *)
Lemma canBeType_declared : forall V fuel t p ty,
    declaredTypeAt V fuel p = Some (Some (Some ty)) ->
    canBeType V fuel t p = Some false ->
    existsb (type_eqb t) (type_list ty) = false
    /\ match ty with
       | inl t0 => type_eqb t0 TInteger && type_eqb t TNumber = false
       | inr _ => True
       end.
Proof.
  intros V fuel t p ty Hdecl Hcan.
  unfold declaredTypeAt in Hdecl.
  apply obind_some in Hdecl. destruct Hdecl as [sub [Hsub Hdecl]].
  destruct sub as [sub|]; [|discriminate].
  inversion Hdecl as [Htype]; clear Hdecl.
  pose proof (getSchemaAtPath_from_fixed _ _ _ _ _ Hsub) as Hfix.
  assert (Hfuel : exists f0, fuel = S f0).
  { destruct fuel as [|f0]; [|eauto].
    unfold getSchemaAtPath in Hsub. destruct p; simpl in Hsub; discriminate. }
  destruct Hfuel as [f0 ->].
  unfold canBeType in Hcan. rewrite Hsub in Hcan. cbn [obind] in Hcan.
  rewrite (resolveRef_of_fixed f0 _ _ Hfix) in Hcan. cbn [obind] in Hcan.
  rewrite Htype in Hcan.
  destruct ty as [t0|types]; cbn [type_list existsb].
  - destruct (type_eqb t0 TInteger && type_eqb t TNumber) eqn:Es; [discriminate|].
    injection Hcan as Hneq. rewrite type_eqb_sym, Hneq. auto.
  - injection Hcan as Hno. auto.
Qed.

(** A value of type [t] that [canBeType] rejects is rejected by the loop
    of [validateType], the two numeric cases apart. *)
Lemma rejected_type_not_accepted : forall v t ty,
    type_accepts v t = true ->
    existsb (type_eqb t) (type_list ty) = false ->
    match ty with
    | inl t0 => type_eqb t0 TInteger && type_eqb t TNumber = false
    | inr _ => True
    end ->
    otherNumericName ty t v = false ->
    existsb (type_accepts v) (type_list ty) = false.
Proof.
  intros v t ty Hof Hno Hsingle Hother.
  unfold otherNumericName in Hother. apply orb_false_iff in Hother.
  destruct Hother as [Hnum Hint].
  unfold type_accepts in Hof. apply orb_true_iff in Hof.
  destruct Hof as [Hown|Hwhole].
  - (* the value's own type *)
    apply type_eqb_eq in Hown. subst t.
    apply rejected_list_not_accepted; [exact Hno|].
    destruct (value_isInteger v) eqn:Hv; [|apply andb_false_r].
    rewrite andb_true_r.
    assert (Hn : getJSONType v = TNumber) by (destruct v; try discriminate; reflexivity).
    rewrite Hn in *. cbn [type_eqb andb] in Hnum.
    destruct ty as [t0|types]; cbn [type_list existsb integerInTypeList] in *.
    + rewrite orb_false_r. rewrite type_eqb_sym.
      rewrite andb_true_r in Hsingle. exact Hsingle.
    + rewrite Hv, andb_true_r in Hnum. exact Hnum.
  - (* an integral number, counted as an integer *)
    apply andb_true_iff in Hwhole. destruct Hwhole as [Hwhole Hv].
    apply andb_true_iff in Hwhole. destruct Hwhole as [Ht Hn].
    apply type_eqb_eq in Ht. subst t.
    apply type_eqb_eq in Hn.
    cbn [type_eqb andb] in Hint.
    apply rejected_list_not_accepted.
    + rewrite Hn. exact Hint.
    + rewrite Hno. reflexivity.
Qed.

(** C6 as stated fails.  With a structural hint and no [type] keyword,
    [canBeType] rejects a string at the root while [validate] reports
    nothing; with the list of types [integer, string], [canBeType]
    rejects [number] while [validate] accepts the number 5; and with the
    type [number], [canBeType] rejects [integer] while [validate] accepts
    the integer 5. *)
Lemma canBeType_false_without_type_error :
  (let V := newSchemaValidator plain_runtime hinted_schema None None in
   canBeType V 4 TString [] = Some false
   /\ type_accepts (VStr "x") TString = true
   /\ validate V 4 (VStr "x") [] = Some [])
  /\ (let V := newSchemaValidator plain_runtime
                 (schema_types [TInteger; TString]) None None in
      canBeType V 4 TNumber [] = Some false
      /\ type_accepts (VNum (5 # 1)) TNumber = true
      /\ validate V 4 (VNum (5 # 1)) [] = Some [])
  /\ (let V := newSchemaValidator plain_runtime (schema_type TNumber) None None in
      canBeType V 4 TInteger [] = Some false
      /\ type_accepts (VNum (5 # 1)) TInteger = true
      /\ validate V 4 (VNum (5 # 1)) [] = Some []).
Proof.
  vm_compute. repeat split; reflexivity.
Qed.

(** C6, amended.  Let [v] be a value of JSON type [t]: [t] is its own
    type, or [t] is [integer] and [v] an integral number.  If
    [canBeType(t, p)] returns false and the schema at [p] carries a
    [type] keyword, then [validate] at [p] of [v] reports an error with
    keyword [type], unless the number passes under the other numeric
    name.  With the default [earlyReject] the answer is that one error;
    in any case an answer of [validate] contains it. *)
Theorem canBeType_false_gives_type_error :
  forall (V : SchemaValidator) (fuel : nat) (t : JSONSchemaType)
         (p : list string) (v : Value)
         (ty : JSONSchemaType + list JSONSchemaType),
    canBeType V fuel t p = Some false ->
    declaredTypeAt V fuel p = Some (Some (Some ty)) ->
    type_accepts v t = true ->
    otherNumericName ty t v = false ->
    forall fuel', fuel < fuel' ->
      (earlyReject (v_options V) = true ->
       exists e, validate V fuel' v p = Some [e] /\ e_keyword e = "type")
      /\ (forall errs, validate V fuel' v p = Some errs ->
                       hasKeyword "type" errs = true).
Proof.
  intros V fuel t p v ty Hcan Hdecl Hty Hother fuel' Hlt.
  destruct (canBeType_declared V fuel t p ty Hdecl Hcan) as [Hno Hsingle].
  pose proof (rejected_type_not_accepted v t ty Hty Hno Hsingle Hother) as Hrej.
  unfold declaredTypeAt in Hdecl.
  apply obind_some in Hdecl. destruct Hdecl as [sub [Hsub Hdecl]].
  destruct sub as [sub|]; [|discriminate].
  inversion Hdecl as [Htype]; clear Hdecl.
  pose proof (getSchemaAtPath_from_fixed _ _ _ _ _ Hsub) as Hfix.
  assert (Hfuel : exists f0, fuel = S f0).
  { destruct fuel as [|f0]; [|eauto].
    unfold getSchemaAtPath in Hsub. destruct p; simpl in Hsub; discriminate. }
  destruct Hfuel as [f0 ->].
  (* the schema [validate] works on resolves to the same one *)
  destruct fuel' as [|f']; [lia|].
  assert (Hval : exists ctx,
             validate V (S f') v p = validateValue V (S f') v ctx
             /\ resolveRef f' (v_definitions V) (c_schema ctx) = Some sub).
  { unfold validate. destruct p as [|seg rest].
    - cbn [isEmpty obind]. eexists; split; [reflexivity|]. cbn [c_schema].
      unfold getSchemaAtPath in Hsub. cbn [getSchemaAtPath_from] in Hsub.
      apply obind_some in Hsub. destruct Hsub as [r [Hr Hs]].
      inversion Hs; subst r.
      apply (resolveRef_mono _ _ _ _ Hr). lia.
    - cbn [isEmpty].
      unfold getSchemaAtPath in *.
      rewrite (getSchemaAtPath_from_mono _ _ _ _ _ Hsub (S f')) by lia.
      cbn [obind]. eexists; split; [reflexivity|]. cbn [c_schema].
      destruct f' as [|f'']; [lia|].
      apply resolveRef_of_fixed; assumption. }
  destruct Hval as [ctx [Hv Hres]]. rewrite Hv.
  destruct (validateType_rejects v ty ctx Hrej) as [e [He Hk]].
  cbn [validateValue]. rewrite Hres. cbn [obind]. rewrite Htype, He.
  cbn [isEmpty negb andb].
  split.
  - intros Hearly. rewrite Hearly. exists e. split; [reflexivity | assumption].
  - intros errs H.
    destruct (earlyReject (v_options V)).
    + inversion H; subst errs. unfold hasKeyword. simpl. rewrite Hk. reflexivity.
    + repeat (apply obind_some in H; destruct H as [? [_ H]]).
      inversion H; subst errs. unfold hasKeyword. simpl. rewrite Hk. reflexivity.
Qed.

(** A string where an object is declared, and the integer 5 where a
    string is declared. *)
Lemma canBeType_false_gives_type_error_witness :
  let V := newSchemaValidator plain_runtime outer_schema None None in
  let W := newSchemaValidator plain_runtime (schema_type TString) None None in
  ((earlyReject (v_options V) = true ->
    exists e, validate V 5 (VStr "x") ["a"] = Some [e] /\ e_keyword e = "type")
   /\ (forall errs, validate V 5 (VStr "x") ["a"] = Some errs ->
                    hasKeyword "type" errs = true))
  /\ ((earlyReject (v_options W) = true ->
       exists e, validate W 5 (VNum (5 # 1)) [] = Some [e] /\ e_keyword e = "type")
      /\ (forall errs, validate W 5 (VNum (5 # 1)) [] = Some errs ->
                       hasKeyword "type" errs = true)).
Proof.
  cbv zeta. split.
  - apply (canBeType_false_gives_type_error
             (newSchemaValidator plain_runtime outer_schema None None)
             4 TString ["a"] (VStr "x") (inl TObject)).
    + reflexivity.
    + reflexivity.
    + reflexivity.
    + reflexivity.
    + lia.
  - apply (canBeType_false_gives_type_error
             (newSchemaValidator plain_runtime (schema_type TString) None None)
             4 TInteger [] (VNum (5 # 1)) (inl TString)).
    + reflexivity.
    + reflexivity.
    + reflexivity.
    + reflexivity.
    + lia.
Defined.

(* ================================================================== *)
(** * Properties of the parser *)

(** ** Relations kept by every call

    A reflexive and transitive relation that each elementary update of
    the parser object respects is kept by [processToken] and by [feed]. *)
Section Kept.
Variable R : StreamingJSONParser -> StreamingJSONParser -> Prop.
Hypothesis R_refl : forall p, R p p.
Hypothesis R_trans : forall a b c, R a b -> R b c -> R a c.
Hypothesis R_error : forall p, R p (set_state Error p).
Hypothesis R_state : forall s p, R p (set_state s p).
Hypothesis R_expecting :
  forall b p, R p (set_tokenizer (setExpectingKey b (p_tokenizer p)) p).
Hypothesis R_tokenized :
  forall chunk b p,
    R p (set_tokenizer (tokenizer_feed chunk (setExpectingKey b (p_tokenizer p))) p).
Hypothesis R_result : forall r p, R p (set_result r p).
Hypothesis R_errors : forall e p, R p (set_errors e p).
Hypothesis R_bytes : forall n p, R p (set_bytesProcessed n p).
Hypothesis R_pending : forall l p, R p (set_pendingPaths l p).
Hypothesis R_completed :
  forall x p, R p (set_completedPaths (set_add x (p_completedPaths p)) p).
Hypothesis R_push :
  forall fr p, depthExceeded p = false -> R p (set_stack (fr :: p_stack p) p).
Hypothesis R_shrink :
  forall st p, List.length st <= List.length (p_stack p) -> R p (set_stack st p).

Lemma keeps_done : keeps R done.
Proof. intros p. apply R_refl. Qed.

Lemma keeps_modify : forall f, (forall p, R p (f p)) -> keeps R (modify f).
Proof. intros f H p. apply H. Qed.

Lemma keeps_andThen : forall a b, keeps R a -> keeps R b -> keeps R (a >> b).
Proof.
  intros a b Ha Hb p. unfold andThen.
  specialize (Ha p). destruct (a p) as [p' [e|]]; simpl in *; [assumption|].
  eapply R_trans; [eassumption | apply Hb].
Qed.

Lemma keeps_setError : forall msg, keeps R (setError msg).
Proof.
  intros msg p. unfold setError.
  destruct (o_llmMode (p_options p)); simpl; apply R_error.
Qed.

Lemma R_replace_top : forall fr p,
    p_stack p <> [] -> R p (replace_top fr p).
Proof.
  intros fr p H. unfold replace_top. apply R_shrink.
  destruct (p_stack p); [contradiction | simpl; lia].
Qed.

Lemma currentFrame_nonempty : forall p fr,
    currentFrame p = Some fr -> p_stack p <> [].
Proof.
  intros p fr H. unfold currentFrame in H.
  destruct (p_stack p); [discriminate | discriminate].
Qed.

Lemma R_markComplete : forall x p, R p (markComplete x p).
Proof.
  intros x p. unfold markComplete.
  eapply R_trans; [apply R_completed | apply R_pending].
Qed.

Lemma R_addPending : forall x p, R p (addPending x p).
Proof. intros x p. apply R_pending. Qed.

Lemma keeps_parser_validateValue : forall v path,
    keeps R (parser_validateValue v path).
Proof.
  intros v path p. unfold parser_validateValue.
  destruct (p_validator p) as [V|]; [|apply R_refl].
  destruct (validate V (stack_limit (p_rt p)) v path); simpl;
    [apply R_errors | apply R_refl].
Qed.

Lemma keeps_startContainer : forall kind, keeps R (startContainer kind).
Proof.
  intros kind p. unfold startContainer.
  destruct (depthExceeded p) eqn:Hd; [apply keeps_setError|].
  match goal with
  | |- R p (fst match ?l with _ => _ end) => destruct l as [[fs ok]|]
  end; simpl; [|apply R_refl].
  eapply R_trans; [|apply R_addPending].
  destruct ok.
  - apply R_push; assumption.
  - eapply R_trans; [apply R_errors|].
    apply (R_push _ (set_errors _ p)). exact Hd.
Qed.

Lemma keeps_assignValue : forall v, keeps R (assignValue v).
Proof.
  intros v p. unfold assignValue.
  destruct (currentFrame p) as [fr|] eqn:Hf; simpl; [|apply R_result].
  pose proof (currentFrame_nonempty _ _ Hf) as Hne.
  destruct (f_type fr).
  - destruct (truthy_key (f_currentKey fr)) as [key|]; [|apply keeps_setError].
    cbv zeta. cbn [fst].
    match goal with
    | |- R p (replace_top ?f2 (set_completedPaths ?c (replace_top ?f1 p))) =>
        apply (R_trans _ (replace_top f1 p));
          [apply (R_replace_top _ p Hne)|];
        apply (R_trans _ (set_completedPaths c (replace_top f1 p)));
          [apply (R_completed _ (replace_top f1 p))|];
        apply R_replace_top; simpl; discriminate
    end.
  - cbn [fst]. apply R_replace_top; assumption.
Qed.

Lemma keeps_endContainer : forall kind, keeps R (endContainer kind).
Proof.
  intros kind p. unfold endContainer.
  destruct (p_stack p) as [|fr below] eqn:Hs; [apply keeps_setError|].
  assert (Hpop : R p (set_stack below p)).
  { apply R_shrink. rewrite Hs. simpl. lia. }
  destruct (negb (frameType_eqb (f_type fr) kind)).
  - eapply R_trans; [exact Hpop | apply keeps_setError].
  - eapply R_trans; [exact Hpop|].
    repeat apply keeps_andThen.
    + apply keeps_modify. apply R_markComplete.
    + apply keeps_parser_validateValue.
    + apply keeps_assignValue.
    + intros q. destruct (isEmpty (p_stack q)); simpl; apply R_state.
Qed.

Lemma keeps_bump : forall f : StackFrame -> StackFrame,
    keeps R (modify (fun q => match currentFrame q with
                              | Some fr => replace_top (f fr) q
                              | None => q
                              end)).
Proof.
  intros f q. unfold modify. simpl.
  destruct (currentFrame q) as [fr|] eqn:Hf; [|apply R_refl].
  apply R_replace_top. eapply currentFrame_nonempty; eassumption.
Qed.

Lemma keeps_pushArrayValue : forall v, keeps R (pushArrayValue v).
Proof.
  intros v p. unfold pushArrayValue.
  destruct (currentFrame p) as [fr|] eqn:Hf; [|apply keeps_setError].
  pose proof (currentFrame_nonempty _ _ Hf) as Hne.
  destruct (f_type fr); [apply keeps_setError|].
  cbv zeta.
  match goal with
  | |- R p (fst (_ ?p1)) => apply (R_trans _ p1); [apply (R_replace_top _ p Hne)|]
  end.
  repeat apply keeps_andThen.
  - apply keeps_modify. apply R_markComplete.
  - apply keeps_parser_validateValue.
  - apply (keeps_bump (fun fr => mkFrame (f_type fr) (f_data fr) (f_currentKey fr)
                                   (f_schema fr) (f_completedKeys fr)
                                   (S (f_arrayIndex fr)))).
Qed.

Lemma keeps_setValue : forall v, keeps R (setValue v).
Proof.
  intros v p. unfold setValue.
  destruct (currentFrame p) as [fr|] eqn:Hf.
  - pose proof (currentFrame_nonempty _ _ Hf) as Hne.
    destruct (f_type fr); [|apply keeps_pushArrayValue].
    destruct (truthy_key (f_currentKey fr)); [|apply keeps_setError].
    cbv zeta.
    match goal with
    | |- R p (fst (_ ?p1)) => apply (R_trans _ p1); [apply (R_replace_top _ p Hne)|]
    end.
    repeat apply keeps_andThen.
    + apply keeps_modify. apply R_markComplete.
    + apply keeps_parser_validateValue.
    + apply (keeps_bump (fun fr => mkFrame (f_type fr) (f_data fr) None
                                     (f_schema fr) (f_completedKeys fr)
                                     (f_arrayIndex fr))).
  - eapply R_trans; [apply R_result | apply keeps_parser_validateValue].
Qed.

Lemma keeps_open : forall kind s,
    keeps R (startContainer kind >> modify (set_state s)).
Proof.
  intros kind s. apply keeps_andThen;
    [apply keeps_startContainer | apply keeps_modify; apply R_state].
Qed.

Lemma keeps_handleInitialState : forall token, keeps R (handleInitialState token).
Proof.
  intros token. unfold handleInitialState.
  destruct (tk_type token); try apply keeps_setError; try apply keeps_open.
  all: repeat apply keeps_andThen;
    [ apply keeps_modify; apply R_result
    | apply keeps_parser_validateValue
    | apply keeps_modify; apply R_state ].
Qed.

Lemma keeps_handleObjectState : forall token, keeps R (handleObjectState token).
Proof.
  intros token p. unfold handleObjectState.
  destruct (currentFrame p) as [fr|] eqn:Hf; [|apply keeps_setError].
  pose proof (currentFrame_nonempty _ _ Hf) as Hne.
  destruct (f_type fr); [|apply keeps_setError].
  destruct (tk_type token); try apply keeps_setError.
  - apply keeps_endContainer.
  - cbv zeta. cbn [fst].
    match goal with
    | |- R p (set_state _ (addPending _ ?p1)) =>
        apply (R_trans _ p1); [apply (R_replace_top _ p Hne)|]
    end.
    eapply R_trans; [apply R_addPending | apply R_state].
  - simpl. eapply R_trans; [apply R_state | apply (R_expecting true (set_state ExpectingKey p))].
  - cbv zeta. cbn [fst].
    match goal with
    | |- R p (set_state _ (addPending _ ?p1)) =>
        apply (R_trans _ p1); [apply (R_replace_top _ p Hne)|]
    end.
    eapply R_trans; [apply R_addPending | apply R_state].
Qed.

Lemma keeps_handleValueState : forall token, keeps R (handleValueState token).
Proof.
  intros token p. unfold handleValueState.
  destruct (tk_type token); try apply keeps_setError; try apply keeps_open.
  - destruct (currentFrame p) as [fr|]; [|apply keeps_setError].
    destruct (o_llmMode (p_options p)); [|apply keeps_setError].
    destruct (f_type fr); [apply keeps_endContainer | apply R_refl].
  - destruct (currentFrame p) as [fr|]; [|apply keeps_setError].
    destruct (o_llmMode (p_options p)); [|apply keeps_setError].
    destruct (f_type fr); [apply R_refl | apply keeps_endContainer].
  - apply keeps_andThen; [apply keeps_setValue | apply keeps_modify; apply R_state].
  - apply keeps_andThen; [apply keeps_setValue | apply keeps_modify; apply R_state].
  - apply keeps_andThen; [apply keeps_setValue | apply keeps_modify; apply R_state].
  - apply keeps_andThen; [apply keeps_setValue | apply keeps_modify; apply R_state].
Qed.

Lemma keeps_handleColonState : forall token, keeps R (handleColonState token).
Proof.
  intros token p. unfold handleColonState.
  destruct (tk_type token); simpl; try apply R_state.
  all: destruct (o_llmMode (p_options p)); [|apply keeps_setError].
  all: eapply R_trans; [apply (R_state ExpectingValue) | apply keeps_handleValueState].
Qed.

Lemma keeps_handleArrayState : forall token, keeps R (handleArrayState token).
Proof.
  intros token p. unfold handleArrayState.
  destruct (currentFrame p) as [fr|] eqn:Hf; [|apply keeps_setError].
  destruct (f_type fr); [apply keeps_setError|].
  destruct (tk_type token); try apply keeps_setError; try apply keeps_open.
  - apply keeps_endContainer.
  - apply keeps_andThen; [apply keeps_pushArrayValue | apply keeps_modify; apply R_state].
  - apply keeps_andThen; [apply keeps_pushArrayValue | apply keeps_modify; apply R_state].
  - apply keeps_andThen; [apply keeps_pushArrayValue | apply keeps_modify; apply R_state].
  - apply keeps_andThen; [apply keeps_pushArrayValue | apply keeps_modify; apply R_state].
  - destruct (o_allowTrailingCommas (p_options p) || o_llmMode (p_options p));
      [apply R_refl | apply keeps_setError].
Qed.

Lemma keeps_handleCommaOrEndState : forall token,
    keeps R (handleCommaOrEndState token).
Proof.
  intros token p. unfold handleCommaOrEndState.
  destruct (currentFrame p) as [fr|] eqn:Hf; [|simpl; apply R_state].
  assert (Hretry :
    R p (fst (if o_llmMode (p_options p)
              then match f_type fr with
                   | FObject => handleObjectState token (set_state ExpectingKey p)
                   | FArray => handleArrayState token (set_state InArray p)
                   end
              else setError ("Expected , or end of container, got "
                             +++ tokenType_name (tk_type token)) p))).
  { destruct (o_llmMode (p_options p)); [|apply keeps_setError].
    destruct (f_type fr);
      (eapply R_trans; [apply R_state|]);
      [apply keeps_handleObjectState | apply keeps_handleArrayState]. }
  destruct (tk_type token) eqn:Ht; try exact Hretry.
  - destruct (f_type fr); [apply keeps_endContainer | apply keeps_setError].
  - destruct (f_type fr); [apply keeps_setError | apply keeps_endContainer].
  - destruct (f_type fr); simpl; [|apply R_state].
    eapply R_trans; [apply R_state | apply (R_expecting true (set_state ExpectingKey p))].
Qed.

Lemma keeps_handleError : forall token, keeps R (handleError token).
Proof.
  intros token p. unfold handleError.
  destruct (o_llmMode (p_options p)); [simpl; apply R_errors | apply keeps_setError].
Qed.

Lemma keeps_tryRecover : forall token, keeps R (tryRecover token).
Proof.
  intros token p. unfold tryRecover.
  destruct (tk_type token); try apply R_refl; try apply keeps_open.
  all: destruct (negb (isEmpty (p_stack p))); [|apply R_refl].
  all: eapply R_trans; [apply (R_state ExpectingCommaOrEnd)
                       | apply keeps_handleCommaOrEndState].
Qed.

Lemma keeps_processToken : forall token, keeps R (processToken token).
Proof.
  intros token p. unfold processToken.
  destruct (tk_type token) eqn:Ht; try apply keeps_handleError.
  all: destruct (p_state p);
    first [ apply keeps_handleInitialState | apply keeps_handleObjectState
          | apply keeps_handleColonState | apply keeps_handleValueState
          | apply keeps_handleArrayState | apply keeps_handleCommaOrEndState
          | apply R_refl | idtac ].
  all: destruct (o_llmMode (p_options p)); [apply keeps_tryRecover | apply R_refl].
Qed.

Lemma keeps_processTokens : forall tokens, keeps R (processTokens tokens).
Proof.
  induction tokens as [|t ts IH]; simpl.
  - apply keeps_done.
  - apply keeps_andThen; [apply keeps_processToken | exact IH].
Qed.

Lemma R_handlePartialToken : forall token p, R p (handlePartialToken token p).
Proof.
  intros token p. unfold handlePartialToken.
  destruct (tk_type token); try apply R_refl.
  all: destruct (currentFrame p) as [fr|]; [|apply R_refl].
  all: destruct (f_type fr); [|apply R_addPending].
  all: destruct (truthy_key (f_currentKey fr)); [apply R_addPending | apply R_refl].
Qed.

Lemma R_feed : forall chunk p, R p (fst (feed chunk p)).
Proof.
  intros chunk p. unfold feed.
  match goal with
  | |- R p (fst match processTokens ?ts ?p2 with _ => _ end) =>
      assert (H2 : R p p2) by
        (eapply R_trans; [apply R_bytes | apply R_tokenized]);
      pose proof (keeps_processTokens ts p2) as H3;
      destruct (processTokens ts p2) as [p3 [e|]]
  end; simpl in *.
  - eapply R_trans; eassumption.
  - eapply R_trans; [eassumption|]. eapply R_trans; [eassumption|].
    destruct (getPartialToken (p_tokenizer p3));
      [apply R_handlePartialToken | apply R_refl].
Qed.

End Kept.

(** ** Completed paths only grow *)

Lemma incl_set_add : forall x s, incl s (set_add x s).
Proof.
  intros x s. unfold set_add. destruct (str_in x s).
  - apply incl_refl.
  - apply incl_appl, incl_refl.
Qed.

Lemma completedGrows_feed : forall chunk p, completedGrows p (fst (feed chunk p)).
Proof.
  apply R_feed; unfold completedGrows; intros; simpl;
    try apply incl_refl; try apply incl_set_add.
  eapply incl_tran; eassumption.
Qed.

Lemma feed_snapshot : forall chunk p p' r,
    feed chunk p = (p', inl r) -> r = buildResult p'.
Proof.
  intros chunk p p' r H. unfold feed in H.
  match type of H with
  | match ?x with _ => _ end = _ => destruct x as [p3 [e|]]
  end; inversion H; reflexivity.
Qed.

Lemma completedGrows_feedAll : forall chunks p p' rs e,
    feedAll chunks p = (p', rs, e) ->
    completedGrows p p'
    /\ forall r, In r rs -> incl (p_completedPaths p) (r_completedFields r).
Proof.
  induction chunks as [|c cs IH]; intros p p' rs e H; simpl in H.
  - inversion H; subst. split; [apply incl_refl | intros r []].
  - pose proof (completedGrows_feed c p) as Hstep.
    destruct (feed c p) as [p1 [r1|e1]] eqn:Hf; simpl in Hstep.
    + destruct (feedAll cs p1) as [[q rs'] e'] eqn:Hrest.
      inversion H; subst. destruct (IH _ _ _ _ Hrest) as [Hq Hrs].
      split; [eapply incl_tran; eassumption|].
      intros r [Hr|Hr].
      * subst r. rewrite (feed_snapshot _ _ _ _ Hf). exact Hstep.
      * eapply incl_tran; [exact Hstep | apply Hrs; assumption].
    + inversion H; subst. split; [exact Hstep | intros r []].
Qed.

(** C7.  Within one parse, every path in the [completedFields] of the
    snapshot returned by one [feed] is in the [completedFields] of the
    snapshot returned by every later [feed] on the same parser. *)
Theorem completedFields_monotone :
  forall (p p1 p2 : StreamingJSONParser) (chunk : list ascii)
         (later : list (list ascii)) (r1 r : ParseResult)
         (rs : list ParseResult) (e : option Exn),
    feed chunk p = (p1, inl r1) ->
    feedAll later p1 = (p2, rs, e) ->
    In r rs ->
    incl (r_completedFields r1) (r_completedFields r).
Proof.
  intros p p1 p2 chunk later r1 r rs e Hfirst Hlater Hin.
  rewrite (feed_snapshot _ _ _ _ Hfirst). simpl.
  destruct (completedGrows_feedAll _ _ _ _ _ Hlater) as [_ H].
  apply H. exact Hin.
Qed.

Lemma completedFields_monotone_witness :
  let p0 := newStreamingJSONParser plain_runtime noOptions in
  let p1 := fst (feed first_chunk p0) in
  let p2 := fst (feed second_chunk p1) in
  incl (r_completedFields (buildResult p1)) (r_completedFields (buildResult p2)).
Proof.
  cbv zeta.
  apply (completedFields_monotone
           (newStreamingJSONParser plain_runtime noOptions)
           (fst (feed first_chunk (newStreamingJSONParser plain_runtime noOptions)))
           (fst (feed second_chunk
                   (fst (feed first_chunk
                           (newStreamingJSONParser plain_runtime noOptions)))))
           first_chunk [second_chunk]
           (buildResult
              (fst (feed first_chunk (newStreamingJSONParser plain_runtime noOptions))))
           (buildResult
              (fst (feed second_chunk
                      (fst (feed first_chunk
                              (newStreamingJSONParser plain_runtime noOptions))))))
           [buildResult
              (fst (feed second_chunk
                      (fst (feed first_chunk
                              (newStreamingJSONParser plain_runtime noOptions)))))]
           None).
  - vm_compute. reflexivity.
  - vm_compute. reflexivity.
  - left. reflexivity.
Defined.

(** ** The depth of the stack *)

Lemma lengthReaches_below : forall limit k k',
    k' <= k -> lengthReaches k limit = false -> lengthReaches k' limit = false.
Proof.
  intros [q| | |] k k' Hle H; cbn [lengthReaches] in *; try assumption.
  destruct (Qle_bool q (inject_Z (Z.of_nat k'))) eqn:E; [|reflexivity].
  apply Qle_bool_iff in E.
  assert (Hk : (q <= inject_Z (Z.of_nat k))%Q).
  { eapply Qle_trans; [exact E|]. rewrite <- Zle_Qle. lia. }
  apply Qle_bool_iff in Hk. congruence.
Qed.

Lemma depthKept_feed : forall chunk p, depthKept p (fst (feed chunk p)).
Proof.
  apply R_feed; unfold depthKept, depthBounded; intros; simpl;
    try (split; [reflexivity | tauto]).
  - destruct H as [H1 H2], H0 as [H3 H4]. split; [congruence|].
    intros Hb. apply H4. apply H2. exact Hb.
  - split; [reflexivity|]. intros Hb k Hk.
    unfold depthExceeded in H.
    apply (lengthReaches_below _ (List.length (p_stack p)) k); [lia|exact H].
  - split; [reflexivity|]. intros Hb k Hk. apply Hb. lia.
Qed.

Lemma reachable_depthBounded : forall rt options p,
    Reachable rt options p ->
    p_options p = mergeOptions options /\ depthBounded p.
Proof.
  intros rt options p Hreach.
  induction Hreach as [|p chunk Hr [IHo IHd]|p Hr [IHo IHd]].
  - split; [reflexivity|]. intros k Hk. simpl in Hk. lia.
  - destruct (depthKept_feed chunk p) as [Ho Hd].
    split; [congruence | auto].
  - split; [exact IHo|]. intros k Hk. simpl in Hk. lia.
Qed.

Lemma isInteger_whole : forall q,
    isInteger q = true -> (q == inject_Z (Qnum (Qred q)))%Q.
Proof.
  intros q H. unfold isInteger in H. apply Pos.eqb_eq in H.
  rewrite <- (Qred_correct q) at 1.
  destruct (Qred q) as [n d]. cbn [Qden Qnum] in *. subst d. reflexivity.
Qed.

(** Below the bound, as the host compares: for a bound that counts
    levels the depth is at most the bound, and for any non-negative
    bound it is less than the bound plus one. *)
Lemma depthBounded_within : forall depth limit,
    (forall k, k < depth -> lengthReaches k limit = false) ->
    (wholeLimit limit = true -> depthWithin depth limit = true)
    /\ (forall q, limit = Finite q -> (0 <= q)%Q ->
                  (inject_Z (Z.of_nat depth) < q + 1)%Q).
Proof.
  intros depth limit Hb. split.
  - intros Hw. destruct limit as [q| | |]; cbn [wholeLimit depthWithin] in *;
      try discriminate; [|reflexivity].
    apply andb_true_iff in Hw. destruct Hw as [Hint Hpos].
    apply Qle_bool_iff. apply Qle_bool_iff in Hpos.
    destruct depth as [|k]; [exact Hpos|].
    specialize (Hb k (Nat.lt_succ_diag_r k)). cbn [lengthReaches] in Hb.
    assert (Hlt : (inject_Z (Z.of_nat k) < q)%Q).
    { apply Qnot_le_lt. intros Hle. apply Qle_bool_iff in Hle. congruence. }
    rewrite (isInteger_whole q Hint) in Hlt |- *.
    rewrite <- Zlt_Qlt in Hlt. rewrite <- Zle_Qle. lia.
  - intros q -> Hpos.
    destruct depth as [|k].
    + cbn. apply Qlt_le_trans with (y := 1%Q); [reflexivity|].
      rewrite <- (Qplus_0_l 1) at 1. apply Qplus_le_l. exact Hpos.
    + specialize (Hb k (Nat.lt_succ_diag_r k)). cbn [lengthReaches] in Hb.
      assert (Hlt : (inject_Z (Z.of_nat k) < q)%Q).
      { apply Qnot_le_lt. intros Hle. apply Qle_bool_iff in Hle. congruence. }
      replace (Z.of_nat (S k)) with (Z.of_nat k + 1)%Z by lia.
      rewrite inject_Z_plus. apply Qplus_lt_l. exact Hlt.
Qed.

Lemma strict_depth_exceeded_throws : forall token p,
    o_llmMode (p_options p) = false ->
    isOpeningToken token = true ->
    opensContainer p = true ->
    depthExceeded p = true ->
    processToken token p
    = (set_state Error p, Some (ParseError "Maximum depth exceeded")).
Proof.
  intros token p Hstrict Hopen Hstate Hdepth.
  unfold isOpeningToken in Hopen. unfold opensContainer in Hstate.
  unfold processToken.
  destruct (tk_type token) eqn:Ht; try discriminate;
    destruct (p_state p) eqn:Hs; try discriminate;
    unfold handleInitialState, handleValueState, handleArrayState;
    rewrite ?Ht;
    try (destruct (currentFrame p) as [fr|]; [|discriminate];
         destruct (f_type fr); [discriminate|]);
    unfold andThen, startObject, startArray, startContainer;
    rewrite Hdepth; unfold setError; rewrite Hstrict; reflexivity.
Qed.

Lemma strict_error_processToken : forall token p,
    o_llmMode (p_options p) = false ->
    p_state p = Error ->
    fst (processToken token p) = p \/ fst (processToken token p) = set_state Error p.
Proof.
  intros token p Hstrict Hs. unfold processToken. rewrite Hs, Hstrict.
  destruct (tk_type token); try (left; reflexivity).
  unfold handleError, setError. rewrite Hstrict. right. reflexivity.
Qed.

Lemma strict_error_processTokens : forall tokens p,
    o_llmMode (p_options p) = false ->
    p_state p = Error ->
    let p' := fst (processTokens tokens p) in
    p_state p' = Error /\ sameTree p p'
    /\ p_options p' = p_options p /\ p_tokenizer p' = p_tokenizer p
    /\ p_pendingPaths p' = p_pendingPaths p.
Proof.
  induction tokens as [|t ts IH]; intros p Hstrict Hs; cbv zeta.
  - simpl. unfold sameTree. auto.
  - cbn [processTokens]. unfold andThen.
    destruct (strict_error_processToken t p Hstrict Hs) as [H|H];
      destruct (processToken t p) as [q [e|]]; cbn [fst] in *; subst q.
    + unfold sameTree. auto.
    + apply IH; assumption.
    + unfold sameTree. simpl. auto.
    + apply (IH (set_state Error p) Hstrict eq_refl).
Qed.

Lemma strict_error_is_final : forall chunk p,
    o_llmMode (p_options p) = false ->
    p_state p = Error ->
    let p' := fst (feed chunk p) in
    p_state p' = Error /\ sameTree p p'
    /\ r_data (buildResult p') = r_data (buildResult p).
Proof.
  intros chunk p Hstrict Hs. cbv zeta. unfold feed.
  match goal with
  | |- context [processTokens ?ts ?p2] =>
      pose proof (strict_error_processTokens ts p2 Hstrict Hs) as H;
      destruct (processTokens ts p2) as [p3 [e|]]
  end; cbv zeta in H; simpl in H; destruct H as [A [[B1 B2] _]]; simpl.
  - unfold sameTree, buildResult, getCurrentData. simpl.
    rewrite B1, B2. auto.
  - assert (Hp : forall tok, p_state (handlePartialToken tok p3) = p_state p3
                  /\ p_stack (handlePartialToken tok p3) = p_stack p3
                  /\ p_result (handlePartialToken tok p3) = p_result p3).
    { intros tok. unfold handlePartialToken.
      destruct (tk_type tok); auto;
        destruct (currentFrame p3) as [fr|]; auto;
        destruct (f_type fr); auto;
        destruct (truthy_key (f_currentKey fr)); auto. }
    destruct (getPartialToken (p_tokenizer p3)) as [tok|].
    + destruct (Hp tok) as [C1 [C2 C3]].
      unfold sameTree, buildResult, getCurrentData. simpl.
      rewrite C1, C2, C3, B1, B2. auto.
    + unfold sameTree, buildResult, getCurrentData. simpl.
      rewrite B1, B2. auto.
Qed.

(** C4 as stated fails.  In lenient mode, with [llmMode] and [maxDepth]
    1, the text [{"a":{"b":1}}] fed as [{"a":] and [{"b":1}}] reaches the
    bound after the first chunk; the second chunk tries to open a second
    container, yet the parser ends Complete, not in Error, and has gone on
    building the tree: the key [b] of the refused container has been
    written into the root object.  And the depth exceeds a [maxDepth]
    that does not count levels: with [maxDepth] 0.5 the first bracket is
    accepted and the depth is 1; with [maxDepth] -1 or NaN the depth 0 of
    a fresh parser is already not within the bound. *)
Lemma maxDepth_not_always_kept_or_fatal :
  (let p0 := newStreamingJSONParser plain_runtime (lenientOptions 1) in
   let p1 := fst (feed open_chunk p0) in
   let p2 := fst (feed rest_chunk p1) in
   open_chunk ++ rest_chunk = nested_text
   /\ o_llmMode (p_options p1) = true
   /\ depthExceeded p1 = true
   /\ p_state p1 = ExpectingValue
   /\ p_state p2 = Complete
   /\ snd (feed rest_chunk p1)
      = inl (mkResult true true (Some (VObj [("b", VNum (1 # 1))]))
               ["b"; ""] [] [] 0 13))
  /\ (let p := newStreamingJSONParser plain_runtime (depthOptions (Finite (1 # 2))) in
      (0 <= 1 # 2)%Q
      /\ map r_depth (snd (fst (feedAll [text "["] p))) = [1]
      /\ depthWithin 1 (o_maxDepth (p_options p)) = false)
  /\ (let p := newStreamingJSONParser plain_runtime (depthOptions (Finite (-1 # 1))) in
      r_depth (buildResult p) = 0
      /\ depthWithin 0 (o_maxDepth (p_options p)) = false)
  /\ (let p := newStreamingJSONParser plain_runtime (depthOptions NotANumber) in
      r_depth (buildResult p) = 0
      /\ depthWithin 0 (o_maxDepth (p_options p)) = false).
Proof.
  vm_compute. repeat split; try reflexivity; discriminate.
Qed.

(** C4, amended.  For a parser created with a [maxDepth] that counts
    levels (a non-negative integer, or Infinity), the depth of every
    snapshot is at most [maxDepth], in both modes; for any non-negative
    [maxDepth] it is less than [maxDepth + 1].  In strict mode an opening
    token that arrives with the stack at the bound makes [processToken]
    throw with the state set to Error, and from the Error state no [feed]
    changes the state, the stack, the root value or the data of the
    snapshot. *)
Theorem depth_bound_and_strict_fatality :
  forall (rt : Runtime) (options : ParserOptions) (p : StreamingJSONParser),
    Reachable rt options p ->
    (wholeLimit (o_maxDepth (mergeOptions options)) = true ->
     depthWithin (r_depth (buildResult p)) (o_maxDepth (mergeOptions options))
     = true)
    /\ (forall limit : Q,
           o_maxDepth (mergeOptions options) = Finite limit ->
           (0 <= limit)%Q ->
           (inject_Z (Z.of_nat (r_depth (buildResult p))) < limit + 1)%Q)
    /\ (o_llmMode (mergeOptions options) = false ->
        (forall token,
            isOpeningToken token = true ->
            opensContainer p = true ->
            depthExceeded p = true ->
            processToken token p
            = (set_state Error p, Some (ParseError "Maximum depth exceeded")))
        /\ (p_state p = Error ->
            forall chunk,
              let p' := fst (feed chunk p) in
              p_state p' = Error /\ sameTree p p'
              /\ r_data (buildResult p') = r_data (buildResult p))).
Proof.
  intros rt options p Hreach.
  destruct (reachable_depthBounded rt options p Hreach) as [Ho Hd].
  unfold depthBounded in Hd. rewrite Ho in Hd.
  destruct (depthBounded_within (List.length (p_stack p))
              (o_maxDepth (mergeOptions options)) Hd) as [Hwhole Hany].
  split; [exact Hwhole|]. split; [exact Hany|].
  intros Hstrict. rewrite <- Ho in Hstrict. split.
  - intros token. apply strict_depth_exceeded_throws. exact Hstrict.
  - intros Hs chunk. apply strict_error_is_final; assumption.
Qed.

(** A strict parser with [maxDepth] 1: after [{"a":] it is at the bound
    and a second opening bracket is fatal; after the chunk [{"a":{] it is
    in the Error state and stays there. *)
Lemma depth_bound_and_strict_fatality_witness :
  let p := fst (feed open_chunk
                  (newStreamingJSONParser plain_runtime (strictOptions 1))) in
  let failed := fst (feed (text "{") p) in
  depthWithin (r_depth (buildResult p)) (Finite (1 # 1)) = true
  /\ (inject_Z (Z.of_nat (r_depth (buildResult p))) < (1 # 1) + 1)%Q
  /\ processToken (mkToken TkObjectStart VNull ["{"%char] 5 false) p
     = (set_state Error p, Some (ParseError "Maximum depth exceeded"))
  /\ p_state failed = Error
  /\ p_state (fst (feed (text "}}") failed)) = Error
  /\ sameTree failed (fst (feed (text "}}") failed))
  /\ r_data (buildResult (fst (feed (text "}}") failed)))
     = r_data (buildResult failed).
Proof.
  cbv zeta.
  pose proof (depth_bound_and_strict_fatality plain_runtime (strictOptions 1)
                (fst (feed open_chunk
                        (newStreamingJSONParser plain_runtime (strictOptions 1))))
                (reach_feed _ _ _ open_chunk (reach_new _ _)))
    as (Hwhole & Hany & Hstrict).
  pose proof (depth_bound_and_strict_fatality plain_runtime (strictOptions 1)
                (fst (feed (text "{")
                        (fst (feed open_chunk
                                (newStreamingJSONParser plain_runtime
                                   (strictOptions 1))))))
                (reach_feed _ _ _ (text "{")
                   (reach_feed _ _ _ open_chunk (reach_new _ _))))
    as (_ & _ & Hfinal).
  split; [exact (Hwhole eq_refl)|].
  split; [apply (Hany (1 # 1) eq_refl); discriminate|].
  split.
  - destruct (Hstrict eq_refl) as [Hthrow _].
    apply Hthrow; reflexivity.
  - split; [reflexivity|].
    destruct (Hfinal eq_refl) as [_ Hstay].
    exact (Hstay eq_refl (text "}}")).
Defined.

(** ** Outside a document the stack is empty *)

Lemma sticky_refl : forall p, sticky p p.
Proof. intros p. left. reflexivity. Qed.

Lemma sticky_trans : forall a b c, sticky a b -> sticky b c -> sticky a c.
Proof.
  unfold sticky. intros a b c [H1|H1] [H2|H2]; rewrite ?H2, ?H1; auto.
Qed.

Ltac sticky_side :=
  first [ exact sticky_refl | exact sticky_trans
        | unfold sticky; intros; simpl; auto ].

Lemma sticky_setError : forall msg, keeps sticky (setError msg).
Proof. intros msg. apply keeps_setError; sticky_side. Qed.

Lemma sticky_startContainer : forall kind, keeps sticky (startContainer kind).
Proof. intros kind. apply keeps_startContainer; sticky_side. Qed.

Lemma sticky_setValue : forall v, keeps sticky (setValue v).
Proof. intros v. apply keeps_setValue; sticky_side. Qed.

Lemma sticky_pushArrayValue : forall v, keeps sticky (pushArrayValue v).
Proof. intros v. apply keeps_pushArrayValue; sticky_side. Qed.

Lemma sticky_assignValue : forall v, keeps sticky (assignValue v).
Proof. intros v. apply keeps_assignValue; sticky_side. Qed.

Lemma sticky_parser_validateValue : forall v path,
    keeps sticky (parser_validateValue v path).
Proof. intros v path. apply keeps_parser_validateValue; sticky_side. Qed.

Lemma wellEnded_sticky : forall p p',
    busy (p_state p) = true -> sticky p p' -> wellEnded p'.
Proof.
  intros p p' Hb [H|H]; left; rewrite H; [assumption | reflexivity].
Qed.

Lemma wellEnded_setError : forall msg p, wellEnded (fst (setError msg p)).
Proof.
  intros msg p. left. unfold setError.
  destruct (o_llmMode (p_options p)); reflexivity.
Qed.

Lemma wellEnded_set_state : forall s p, busy s = true -> wellEnded (set_state s p).
Proof. intros s p H. left. exact H. Qed.

(** An inner operation followed by a move to a state inside the
    document. *)
Lemma wellEnded_then_state : forall a s p,
    keeps sticky a -> busy (p_state p) = true -> busy s = true ->
    wellEnded (fst ((a >> modify (set_state s)) p)).
Proof.
  intros a s p Ha Hb Hs. unfold andThen.
  specialize (Ha p). destruct (a p) as [q [e|]]; simpl in *.
  - eapply wellEnded_sticky; eassumption.
  - left. exact Hs.
Qed.

Lemma wellEnded_endContainer : forall kind p,
    busy (p_state p) = true -> wellEnded (fst (endContainer kind p)).
Proof.
  intros kind p Hb. unfold endContainer.
  destruct (p_stack p) as [|fr below]; [apply wellEnded_setError|].
  destruct (negb (frameType_eqb (f_type fr) kind)); [apply wellEnded_setError|].
  cbv zeta.
  match goal with
  | |- wellEnded (fst ((?a >> ?b) ?p1)) =>
      assert (Ha : keeps sticky a);
      [| unfold andThen at 1; specialize (Ha p1);
         destruct (a p1) as [q [e|]]; cbn [fst] in * ]
  end.
  - repeat apply keeps_andThen; try exact sticky_trans.
    + apply keeps_modify. intros q. left. reflexivity.
    + apply sticky_parser_validateValue.
    + apply sticky_assignValue.
  - apply (wellEnded_sticky (set_stack below p)); assumption.
  - destruct (isEmpty (p_stack q)) eqn:He; cbn [fst].
    + right. split; [reflexivity|]. simpl.
      destruct (p_stack q); [reflexivity | discriminate].
    + left. reflexivity.
Qed.

Lemma wellEnded_handleObjectState : forall token p,
    busy (p_state p) = true -> wellEnded (fst (handleObjectState token p)).
Proof.
  intros token p Hb. unfold handleObjectState.
  destruct (currentFrame p) as [fr|]; [|apply wellEnded_setError].
  destruct (f_type fr); [|apply wellEnded_setError].
  destruct (tk_type token); try apply wellEnded_setError;
    try (left; reflexivity).
  apply wellEnded_endContainer; assumption.
Qed.

Lemma wellEnded_handleValueState : forall token p,
    busy (p_state p) = true -> wellEnded (fst (handleValueState token p)).
Proof.
  intros token p Hb. unfold handleValueState.
  destruct (tk_type token); try apply wellEnded_setError;
    try (apply wellEnded_then_state;
         [ first [apply sticky_startContainer | apply sticky_setValue]
         | assumption | reflexivity ]).
  all: destruct (currentFrame p) as [fr|]; [|apply wellEnded_setError].
  all: destruct (o_llmMode (p_options p)); [|apply wellEnded_setError].
  all: destruct (f_type fr);
    first [ apply wellEnded_endContainer; assumption | left; exact Hb ].
Qed.

Lemma wellEnded_handleColonState : forall token p,
    busy (p_state p) = true -> wellEnded (fst (handleColonState token p)).
Proof.
  intros token p Hb. unfold handleColonState.
  destruct (tk_type token); try (left; reflexivity).
  all: destruct (o_llmMode (p_options p)); [|apply wellEnded_setError].
  all: apply wellEnded_handleValueState; reflexivity.
Qed.

Lemma wellEnded_handleArrayState : forall token p,
    busy (p_state p) = true -> wellEnded (fst (handleArrayState token p)).
Proof.
  intros token p Hb. unfold handleArrayState.
  destruct (currentFrame p) as [fr|]; [|apply wellEnded_setError].
  destruct (f_type fr); [apply wellEnded_setError|].
  destruct (tk_type token); try apply wellEnded_setError;
    try (apply wellEnded_then_state;
         [ first [apply sticky_startContainer | apply sticky_pushArrayValue]
         | assumption | reflexivity ]).
  - apply wellEnded_endContainer; assumption.
  - destruct (o_allowTrailingCommas (p_options p) || o_llmMode (p_options p));
      [left; exact Hb | apply wellEnded_setError].
Qed.

Lemma currentFrame_none : forall p, currentFrame p = None -> p_stack p = [].
Proof.
  intros p H. unfold currentFrame in H. destruct (p_stack p); [reflexivity|discriminate].
Qed.

Lemma wellEnded_handleCommaOrEndState : forall token p,
    busy (p_state p) = true -> wellEnded (fst (handleCommaOrEndState token p)).
Proof.
  intros token p Hb. unfold handleCommaOrEndState.
  destruct (currentFrame p) as [fr|] eqn:Hf.
  - assert (Hretry :
      wellEnded (fst (if o_llmMode (p_options p)
                      then match f_type fr with
                           | FObject => handleObjectState token (set_state ExpectingKey p)
                           | FArray => handleArrayState token (set_state InArray p)
                           end
                      else setError ("Expected , or end of container, got "
                                     +++ tokenType_name (tk_type token)) p))).
    { destruct (o_llmMode (p_options p)); [|apply wellEnded_setError].
      destruct (f_type fr);
        [apply wellEnded_handleObjectState | apply wellEnded_handleArrayState];
        reflexivity. }
    destruct (tk_type token); try exact Hretry.
    + destruct (f_type fr);
        [apply wellEnded_endContainer; assumption | apply wellEnded_setError].
    + destruct (f_type fr);
        [apply wellEnded_setError | apply wellEnded_endContainer; assumption].
    + destruct (f_type fr); left; reflexivity.
  - right. split; [reflexivity|]. simpl. apply currentFrame_none. exact Hf.
Qed.

Lemma wellEnded_tryRecover : forall token p,
    busy (p_state p) = true -> wellEnded (fst (tryRecover token p)).
Proof.
  intros token p Hb. unfold tryRecover.
  destruct (tk_type token); try (left; exact Hb);
    try (apply wellEnded_then_state;
         [apply sticky_startContainer | assumption | reflexivity]).
  all: destruct (negb (isEmpty (p_stack p))); [|left; exact Hb].
  all: apply wellEnded_handleCommaOrEndState; reflexivity.
Qed.

Lemma wellEnded_settled : forall p, wellEnded p -> settled p.
Proof.
  intros p [H|[H1 H2]]; unfold settled.
  - destruct (p_state p); try discriminate; exact I.
  - rewrite H1. exact H2.
Qed.

Lemma settled_handleError : forall token p,
    settled p -> settled (fst (handleError token p)).
Proof.
  intros token p H. unfold handleError.
  destruct (o_llmMode (p_options p)); [exact H|].
  apply wellEnded_settled, wellEnded_setError.
Qed.

Lemma settled_handleInitialState : forall token p,
    p_state p = Initial -> p_stack p = [] ->
    settled (fst (handleInitialState token p)).
Proof.
  intros token p Hs Hst. unfold handleInitialState.
  assert (Hopen : forall kind s, busy s = true ->
             settled (fst ((startContainer kind >> modify (set_state s)) p))).
  { intros kind s Hbs. unfold andThen, startContainer.
    destruct (depthExceeded p).
    - unfold setError. destruct (o_llmMode (p_options p)); simpl.
      + unfold settled. simpl. destruct s; try discriminate; exact I.
      + exact I.
    - match goal with
      | |- context [match ?l with Some _ => _ | None => (p, Some RangeError) end] =>
          destruct l as [[fs ok]|]
      end; simpl.
      + unfold settled. simpl. destruct s; try discriminate; exact I.
      + unfold settled. rewrite Hs. exact Hst. }
  assert (Hscalar :
    settled (fst ((modify (set_result (Some (tk_value token)))
                   >> parser_validateValue (tk_value token) []
                   >> modify (set_state Complete)) p))).
  { unfold andThen, modify, parser_validateValue. simpl.
    destruct (p_validator p) as [V|]; simpl.
    - destruct (validate V (stack_limit (p_rt p)) (tk_value token) []); simpl.
      + exact Hst.
      + unfold settled. simpl. rewrite Hs. exact Hst.
    - exact Hst. }
  destruct (tk_type token);
    try (apply wellEnded_settled, wellEnded_setError);
    try exact Hscalar; apply Hopen; reflexivity.
Qed.

Lemma settled_processToken : forall token p,
    settled p -> settled (fst (processToken token p)).
Proof.
  intros token p H. unfold processToken.
  destruct (tk_type token) eqn:Ht; try (apply settled_handleError; exact H).
  all: destruct (p_state p) eqn:Hs;
    try (apply wellEnded_settled;
         first [ apply wellEnded_handleObjectState
               | apply wellEnded_handleColonState
               | apply wellEnded_handleValueState
               | apply wellEnded_handleArrayState
               | apply wellEnded_handleCommaOrEndState ];
         rewrite Hs; reflexivity);
    try exact H;
    try (apply settled_handleInitialState;
         [exact Hs | unfold settled in H; rewrite Hs in H; exact H]).
  all: destruct (o_llmMode (p_options p)); [|exact H].
  all: apply wellEnded_settled, wellEnded_tryRecover; rewrite Hs; reflexivity.
Qed.

Lemma settled_processTokens : forall tokens p,
    settled p -> settled (fst (processTokens tokens p)).
Proof.
  induction tokens as [|t ts IH]; intros p H; simpl; [exact H|].
  unfold andThen.
  pose proof (settled_processToken t p H) as Ht.
  destruct (processToken t p) as [q [e|]]; simpl in *; [exact Ht|].
  apply IH. exact Ht.
Qed.

Lemma handlePartialToken_frame : forall token p,
    p_state (handlePartialToken token p) = p_state p
    /\ p_stack (handlePartialToken token p) = p_stack p
    /\ p_result (handlePartialToken token p) = p_result p
    /\ p_errors (handlePartialToken token p) = p_errors p
    /\ p_completedPaths (handlePartialToken token p) = p_completedPaths p
    /\ p_bytesProcessed (handlePartialToken token p) = p_bytesProcessed p
    /\ (p_stack p = [] ->
        p_pendingPaths (handlePartialToken token p) = p_pendingPaths p).
Proof.
  intros token p. unfold handlePartialToken.
  destruct (tk_type token); try (repeat split; intros; reflexivity).
  all: unfold currentFrame; destruct (p_stack p) as [|fr st] eqn:Hst; simpl;
    rewrite ?Hst; try (repeat split; intros; reflexivity).
  all: destruct (f_type fr); try destruct (truthy_key (f_currentKey fr));
    simpl; rewrite ?Hst;
    repeat split; try reflexivity; intros; discriminate.
Qed.

Lemma settled_feed : forall chunk p, settled p -> settled (fst (feed chunk p)).
Proof.
  intros chunk p H. unfold feed.
  match goal with
  | |- context [processTokens ?ts ?p2] =>
      pose proof (settled_processTokens ts p2 H) as H3;
      destruct (processTokens ts p2) as [p3 [e|]]
  end; simpl in *; [exact H3|].
  destruct (getPartialToken (p_tokenizer p3)) as [tok|]; [|exact H3].
  destruct (handlePartialToken_frame tok p3) as [A [B _]].
  unfold settled in *. rewrite A, B. exact H3.
Qed.

Lemma reachable_settled : forall rt options p,
    Reachable rt options p -> settled p.
Proof.
  intros rt options p H. induction H.
  - reflexivity.
  - apply settled_feed. assumption.
  - reflexivity.
Qed.

(** ** After completion *)

Lemma complete_processToken : forall token p,
    p_state p = Complete ->
    (tk_type token <> TkError -> processToken token p = (p, None))
    /\ sameDocument p (fst (processToken token p))
    /\ (snd (processToken token p) = None ->
        p_state (fst (processToken token p)) = Complete).
Proof.
  intros token p Hs. unfold processToken. rewrite Hs.
  destruct (tk_type token);
    try (split; [intros _; reflexivity
                | split; [repeat split | intros _; exact Hs]]; fail).
  split; [intros H; exfalso; apply H; reflexivity|].
  unfold handleError, setError.
  destruct (o_llmMode (p_options p)); simpl.
  - split; [repeat split | intros _; exact Hs].
  - split; [repeat split | discriminate].
Qed.

Lemma sameDocument_trans : forall a b c,
    sameDocument a b -> sameDocument b c -> sameDocument a c.
Proof.
  unfold sameDocument. intros a b c [A1 [A2 [A3 [A4 A5]]]] [B1 [B2 [B3 [B4 B5]]]].
  repeat split; congruence.
Qed.

Lemma complete_processTokens : forall tokens p,
    p_state p = Complete ->
    (noErrorToken tokens -> processTokens tokens p = (p, None))
    /\ sameDocument p (fst (processTokens tokens p)).
Proof.
  induction tokens as [|t ts IH]; intros p Hs.
  - split; [reflexivity | repeat split].
  - destruct (complete_processToken t p Hs) as [Hquiet [Hsame Hstay]].
    cbn [processTokens]. unfold andThen. split.
    + intros Hno. inversion Hno; subst.
      rewrite (Hquiet H1). apply IH; assumption.
    + destruct (processToken t p) as [q [e|]]; cbn [fst snd] in *;
        [exact Hsame|].
      eapply sameDocument_trans; [exact Hsame|].
      apply IH. apply Hstay. reflexivity.
Qed.

(** C9 as stated fails.  After completion a chunk that the tokenizer
    cannot read is not ignored: a strict parser moves to Error and [feed]
    throws; a lenient parser adds a syntax error to the error list. *)
Lemma complete_then_unreadable_chunk :
  p_state completed_parser = Complete
  /\ p_state (fst (feed (text "x") completed_parser)) = Error
  /\ snd (feed (text "x") completed_parser)
     = inr (ParseError "Unexpected character: x")
  /\ p_state completed_lenient_parser = Complete
  /\ p_errors completed_lenient_parser = []
  /\ map e_keyword (p_errors (fst (feed (text "tx ") completed_lenient_parser)))
     = ["syntax"].
Proof.
  vm_compute. repeat split; reflexivity.
Qed.

(** C9, amended.  Once the state is Complete, every later [feed] leaves
    the stack, the root value, [completedFields] and [pendingFields]
    unchanged and adds the length of the chunk to [bytesProcessed].  When
    the tokenizer reads the chunk without an Error token, the state and
    the error list are unchanged too, and the snapshot returned differs
    from the one before in [bytesProcessed] only. *)
Theorem complete_feed_frame :
  forall (rt : Runtime) (options : ParserOptions) (p : StreamingJSONParser)
         (chunk : list ascii),
    Reachable rt options p ->
    p_state p = Complete ->
    let p' := fst (feed chunk p) in
    p_stack p' = p_stack p
    /\ p_result p' = p_result p
    /\ p_completedPaths p' = p_completedPaths p
    /\ p_pendingPaths p' = p_pendingPaths p
    /\ p_bytesProcessed p' = p_bytesProcessed p + List.length chunk
    /\ (noErrorToken (chunkTokens chunk p) ->
        p_state p' = Complete
        /\ p_errors p' = p_errors p
        /\ snd (feed chunk p)
           = inl (advanceBytes (List.length chunk) (buildResult p))).
Proof.
  intros rt options p chunk Hreach Hs. cbv zeta.
  pose proof (reachable_settled _ _ _ Hreach) as Hset.
  unfold settled in Hset. rewrite Hs in Hset.
  unfold chunkTokens, feed.
  match goal with
  | |- context [processTokens ?ts ?p2] =>
      destruct (complete_processTokens ts p2 Hs) as [Hquiet Hsame];
      destruct (processTokens ts p2) as [p3 [e|]] eqn:Hrun
  end; cbn [fst snd] in *;
    destruct Hsame as [A1 [A2 [A3 [A4 A5]]]]; simpl in A1, A2, A3, A4, A5.
  - do 5 (split; [assumption|]).
    intros Hno. specialize (Hquiet Hno). discriminate.
  - assert (Hst3 : p_stack p3 = []) by congruence.
    assert (Hpart :
      forall q, q = match getPartialToken (p_tokenizer p3) with
                    | Some partialToken => handlePartialToken partialToken p3
                    | None => p3
                    end ->
      p_state q = p_state p3 /\ p_stack q = p_stack p3
      /\ p_result q = p_result p3 /\ p_errors q = p_errors p3
      /\ p_completedPaths q = p_completedPaths p3
      /\ p_bytesProcessed q = p_bytesProcessed p3
      /\ p_pendingPaths q = p_pendingPaths p3).
    { intros q ->. destruct (getPartialToken (p_tokenizer p3)) as [tok|].
      - destruct (handlePartialToken_frame tok p3)
          as [B1 [B2 [B3 [B4 [B5 [B6 B7]]]]]].
        repeat split; auto.
      - repeat split. }
    destruct (Hpart _ eq_refl) as [C1 [C2 [C3 [C4 [C5 [C6 C7]]]]]].
    do 5 (split; [congruence|]).
    intros Hno. specialize (Hquiet Hno). injection Hquiet as Hp3.
    split; [rewrite C1, Hp3; exact Hs|].
    split; [rewrite C4, Hp3; reflexivity|].
    unfold buildResult, advanceBytes, getCurrentData.
    cbn [r_complete r_valid r_data r_completedFields r_pendingFields r_errors
         r_depth r_bytesProcessed].
    rewrite C1, C2, C3, C4, C5, C6, C7. rewrite Hp3. simpl.
    reflexivity.
Qed.

Lemma complete_feed_frame_witness :
  let p' := fst (feed (text "  ") completed_parser) in
  p_stack p' = p_stack completed_parser
  /\ p_result p' = p_result completed_parser
  /\ p_completedPaths p' = p_completedPaths completed_parser
  /\ p_pendingPaths p' = p_pendingPaths completed_parser
  /\ p_bytesProcessed p' = p_bytesProcessed completed_parser + 2
  /\ (noErrorToken (chunkTokens (text "  ") completed_parser) ->
      p_state p' = Complete
      /\ p_errors p' = p_errors completed_parser
      /\ snd (feed (text "  ") completed_parser)
         = inl (advanceBytes 2 (buildResult completed_parser))).
Proof.
  cbv zeta.
  apply (complete_feed_frame plain_runtime noOptions completed_parser (text "  ")).
  - unfold completed_parser. apply reach_feed. apply reach_new.
  - reflexivity.
Defined.

(** ** Lenient flags *)

Lemma feed_loop_options : forall fuel t,
    t_options (feed_loop fuel t) = t_options t.
Proof.
  induction fuel as [|f IH]; intros t; simpl; [reflexivity|].
  destruct (isEmpty (t_buffer t)); [reflexivity|].
  assert (Hstep : t_options (snd (processNextToken t)) = t_options t).
  { unfold processNextToken.
    destruct (t_buffer (skipWhitespace t)) as [|c r] eqn:Hb; [reflexivity|].
    repeat match goal with
           | |- context [if ?b then _ else _] => destruct b
           end;
      try reflexivity;
      unfold processString, processNumber, processKeyword, processUnquotedKey;
      repeat match goal with
             | |- context [match ?x with _ => _ end] => destruct x
             end; reflexivity. }
  destruct (processNextToken t) as [processed t']. simpl in Hstep.
  destruct processed; [rewrite IH|]; exact Hstep.
Qed.

Lemma tokenizer_feed_options : forall chunk t,
    t_options (tokenizer_feed chunk t) = t_options t.
Proof.
  intros chunk t. unfold tokenizer_feed. cbv zeta. unfold seek.
  cbn [t_options]. rewrite feed_loop_options. reflexivity.
Qed.

(** The tokenizer a parser builds has each lenient flag equal to the
    parser's [llmMode]; the options' own flags do not reach it. *)
Lemma tokenizer_flags_follow_llmMode : forall rt options,
    let t := t_options (p_tokenizer (newStreamingJSONParser rt options)) in
    to_allowTrailingCommas t = orDefault false (llmMode options)
    /\ to_allowUnquotedKeys t = orDefault false (llmMode options)
    /\ to_allowSingleQuotes t = orDefault false (llmMode options)
    /\ to_llmMode t = orDefault false (llmMode options).
Proof.
  intros rt options. simpl. repeat split.
Qed.

(** C5 as stated fails.  With [llmMode] true and the three flags set to
    false, the parser keeps the false values in its own options, but its
    tokenizer has all three flags true, and the parser reads an unquoted
    key, a single-quoted string and a comma in place of an element. *)
Lemma explicit_false_not_honoured :
  let p := newStreamingJSONParser plain_runtime lenient_but_flags_off in
  o_allowSingleQuotes (p_options p) = false
  /\ o_allowUnquotedKeys (p_options p) = false
  /\ o_allowTrailingCommas (p_options p) = false
  /\ to_allowSingleQuotes (t_options (p_tokenizer p)) = true
  /\ to_allowUnquotedKeys (t_options (p_tokenizer p)) = true
  /\ to_allowTrailingCommas (t_options (p_tokenizer p)) = true
  /\ snd (feed relaxed_text p)
     = inl (mkResult true true (Some (VObj [("name", VStr "x")]))
              ["name"; ""] [] [] 0 10)
  /\ snd (feed double_comma_text p)
     = inl (mkResult true true (Some (VArr [VNum (1 # 1); VNum (2 # 1)]))
              ["0.0"; "1.1"; ""] [] [] 0 6).
Proof.
  vm_compute. repeat split; reflexivity.
Qed.

Lemma comma_tokenized : forall t : StreamingTokenizer,
    t_buffer t = [] ->
    exists token,
      t_tokens (tokenizer_feed [","%char] t) = [token]
      /\ tk_type token = TkComma
      /\ t_buffer (tokenizer_feed [","%char] t) = [].
Proof.
  intros [o pos buf ins sq toks ek] Hb. cbn in Hb. subst buf.
  unfold tokenizer_feed. cbv zeta. cbn [t_buffer app List.length feed_loop isEmpty].
  unfold processNextToken, skipWhitespace. cbn.
  eexists. split; [reflexivity|]. split; reflexivity.
Qed.

Lemma comma_in_array_ignored : forall token p frame below,
    o_llmMode (p_options p) = true ->
    p_state p = InArray ->
    p_stack p = frame :: below ->
    f_type frame = FArray ->
    tk_type token = TkComma ->
    processToken token p = (p, None).
Proof.
  intros token p frame below Hllm Hs Hstack Hf Ht.
  unfold processToken. rewrite Ht, Hs.
  unfold handleArrayState, currentFrame. rewrite Hstack. cbn [hd_error].
  rewrite Hf, Ht, Hllm, orb_true_r. reflexivity.
Qed.

Lemma comma_chunk_ignored : forall p frame below,
    o_llmMode (p_options p) = true ->
    p_state p = InArray ->
    p_stack p = frame :: below ->
    f_type frame = FArray ->
    t_buffer (p_tokenizer p) = [] ->
    exists p',
      feed [","%char] p = (p', inl (buildResult p'))
      /\ p_state p' = InArray /\ p_stack p' = p_stack p
      /\ p_result p' = p_result p /\ p_errors p' = p_errors p.
Proof.
  intros p frame below Hllm Hs Hstack Hf Hb.
  unfold feed. cbv zeta.
  cbn [set_bytesProcessed p_state p_stack p_tokenizer]. rewrite Hs, Hstack.
  cbn [state_eqb orb andb isEmpty].
  destruct (comma_tokenized (setExpectingKey false (p_tokenizer p)))
    as (token & Htoks & Hty & Hbuf).
  { destruct (p_tokenizer p); exact Hb. }
  rewrite Htoks. cbn [processTokens]. unfold andThen.
  rewrite (comma_in_array_ignored token _ frame below);
    [|exact Hllm|exact Hs|exact Hstack|exact Hf|exact Hty].
  unfold done. cbn [set_tokenizer p_tokenizer].
  unfold getPartialToken. rewrite Hbuf. cbn [trim skip_spaces rev].
  eexists. split; [reflexivity|]. cbn. auto.
Qed.

(** C5, amended.  Constructing a parser with [llmMode] true makes each
    lenient flag of the tokenizer true, for all later feeds, and makes
    the parser accept a comma where an array element is expected,
    whatever the options give for [allowTrailingCommas],
    [allowUnquotedKeys] and [allowSingleQuotes]: an explicit false is
    overridden.  The comma is ignored: [processToken] returns with the
    parser as it was, and so does a [feed] of the comma alone, the byte
    count apart. *)
Theorem llmMode_forces_lenient_flags :
  forall (rt : Runtime) (options : ParserOptions),
    llmMode options = Some true ->
    let p := newStreamingJSONParser rt options in
    to_allowTrailingCommas (t_options (p_tokenizer p)) = true
    /\ to_allowUnquotedKeys (t_options (p_tokenizer p)) = true
    /\ to_allowSingleQuotes (t_options (p_tokenizer p)) = true
    /\ o_allowTrailingCommas (p_options p) || o_llmMode (p_options p) = true
    /\ forall q, Reachable rt options q ->
         (forall chunk,
             let t := t_options (p_tokenizer (fst (feed chunk q))) in
             to_allowTrailingCommas t = true /\ to_allowUnquotedKeys t = true
             /\ to_allowSingleQuotes t = true)
         /\ (forall frame below,
                p_state q = InArray ->
                p_stack q = frame :: below ->
                f_type frame = FArray ->
                (forall token,
                    tk_type token = TkComma -> processToken token q = (q, None))
                /\ (t_buffer (p_tokenizer q) = [] ->
                    exists q',
                      feed [","%char] q = (q', inl (buildResult q'))
                      /\ p_state q' = InArray /\ p_stack q' = p_stack q
                      /\ p_result q' = p_result q /\ p_errors q' = p_errors q)).
Proof.
  intros rt options Hllm. cbv zeta.
  destruct (tokenizer_flags_follow_llmMode rt options) as [A [B [C _]]].
  cbv zeta in A, B, C. rewrite Hllm in A, B, C. simpl in A, B, C.
  split; [exact A|]. split; [exact B|]. split; [exact C|].
  split; [simpl; rewrite Hllm; apply orb_true_r|].
  intros q Hreach.
  assert (Hopts : forall x, Reachable rt options x ->
            t_options (p_tokenizer x)
            = t_options (p_tokenizer (newStreamingJSONParser rt options))).
  { intros x Hx. induction Hx as [|x c Hx IH|x Hx IH].
    - reflexivity.
    - rewrite <- IH. clear IH Hx.
      apply (R_feed (fun a b => t_options (p_tokenizer b) = t_options (p_tokenizer a)));
        intros;
        first [ exact (tokenizer_feed_options _ _) | reflexivity | congruence ].
    - exact IH. }
  assert (Hmode : o_llmMode (p_options q) = true).
  { destruct (reachable_depthBounded rt options q Hreach) as [Ho _].
    rewrite Ho. simpl. rewrite Hllm. reflexivity. }
  split.
  - intros chunk. rewrite (Hopts _ (reach_feed rt options q chunk Hreach)). auto.
  - intros frame below Hs Hstack Hf. split.
    + intros token Ht.
      apply (comma_in_array_ignored token q frame below); assumption.
    + intros Hb. apply (comma_chunk_ignored q frame below); assumption.
Qed.

(** The parser built with [llmMode] and the three flags set to false,
    after the chunk [[1,]: a second comma is ignored. *)
Lemma llmMode_forces_lenient_flags_witness :
  let p := newStreamingJSONParser plain_runtime lenient_but_flags_off in
  let q := fst (feed (text "[1,") p) in
  to_allowTrailingCommas (t_options (p_tokenizer p)) = true
  /\ to_allowUnquotedKeys (t_options (p_tokenizer p)) = true
  /\ to_allowSingleQuotes (t_options (p_tokenizer p)) = true
  /\ to_allowTrailingCommas (t_options (p_tokenizer (fst (feed (text "x") q)))) = true
  /\ p_state q = InArray
  /\ processToken (mkToken TkComma VNull [","%char] 3 false) q = (q, None)
  /\ exists q',
       feed [","%char] q = (q', inl (buildResult q'))
       /\ p_state q' = InArray /\ p_stack q' = p_stack q
       /\ p_result q' = p_result q /\ p_errors q' = p_errors q.
Proof.
  cbv zeta.
  pose proof (llmMode_forces_lenient_flags plain_runtime lenient_but_flags_off
                eq_refl) as H.
  cbv zeta in H. destruct H as (A & B & C & _ & H).
  split; [exact A|]. split; [exact B|]. split; [exact C|].
  specialize (H (fst (feed (text "[1,")
                        (newStreamingJSONParser plain_runtime lenient_but_flags_off)))
                (reach_feed _ _ _ (text "[1,") (reach_new _ _))).
  destruct H as [Hflags Hcomma].
  split; [exact (proj1 (Hflags (text "x")))|].
  split; [reflexivity|].
  destruct (Hcomma
              {| f_type := FArray; f_data := VArr [VNum (1 # 1)];
                 f_currentKey := None; f_schema := None;
                 f_completedKeys := []; f_arrayIndex := 1 |} []
              eq_refl eq_refl eq_refl) as [Htoken Hfeed].
  split; [exact (Htoken (mkToken TkComma VNull [","%char] 3 false) eq_refl)
        |exact (Hfeed eq_refl)].
Defined.

(** ** Paths of nested containers *)

(** C2 fails on the code.  After the single chunk [{"a":{"b":1}}] a
    strict parser without schema is Complete, and the path [a] is both in
    [completedFields] and in [pendingFields]: the key [b] of the inner
    object put [a] into the pending set, and [assignValue], which
    completes [a] when the inner object closes, does not remove it. *)
Theorem nested_path_completed_and_pending :
  exists r,
    snd (feed nested_text (newStreamingJSONParser plain_runtime noOptions)) = inl r
    /\ r_complete r = true
    /\ r_completedFields r = ["a.b"; ""; "a"]
    /\ r_pendingFields r = ["a"]
    /\ In "a" (r_completedFields r) /\ In "a" (r_pendingFields r).
Proof.
  eexists. split; [vm_compute; reflexivity|].
  simpl. repeat split; auto.
Qed.

(** C3 fails on the code.  With the schema
    [{type: object, required: [a], properties: {a: {type: object}}}] and
    the text [{"a":{}], the inner object closes while the root is open.
    [endObject] computes the empty path for it: the root path enters
    [completedFields] at depth 1, and the inner object is validated
    against the root schema, which reports the required property [a]
    missing.  Validated at its own path [a] it has no error. *)
Theorem nested_close_uses_root_path :
  exists r,
    snd (feed inner_closed_text schema_parser) = inl r
    /\ r_complete r = false
    /\ r_depth r = 1
    /\ r_completedFields r = [""; "a"]
    /\ map (fun e => (e_keyword e, e_path e, e_message e)) (r_errors r)
       = [("required", [], "Missing required property: a")]
    /\ validate (newSchemaValidator plain_runtime outer_schema None None) 64
         (VObj []) ["a"] = Some [].
Proof.
  eexists. split; [vm_compute; reflexivity|].
  vm_compute. repeat split; reflexivity.
Qed.

(* ================================================================== *)
(** * Chunking: the tokenizer *)

Lemma skip_spaces_length : forall s, List.length (skip_spaces s) <= List.length s.
Proof.
  induction s as [|c r IH]; simpl; [lia|].
  destruct (isWhitespace c); simpl; lia.
Qed.

Lemma skip_spaces_head : forall s c r,
    skip_spaces s = c :: r -> isWhitespace c = false.
Proof.
  induction s as [|a s IH]; intros c r H; simpl in H; [discriminate|].
  destruct (isWhitespace a) eqn:E; [eauto|].
  inversion H; subst. exact E.
Qed.

Lemma skip_spaces_idem : forall s, skip_spaces (skip_spaces s) = skip_spaces s.
Proof.
  induction s as [|a s IH]; simpl; [reflexivity|].
  destruct (isWhitespace a) eqn:E; [exact IH|].
  simpl. rewrite E. reflexivity.
Qed.

(** [processNextToken] against [lexStep]. *)
Lemma processNextToken_end : forall t,
    skip_spaces (t_buffer t) = [] ->
    exists t', processNextToken t = (false, t')
               /\ t_buffer t' = [] /\ t_tokens t' = t_tokens t
               /\ t_expectingKey t' = t_expectingKey t
               /\ t_options t' = t_options t.
Proof.
  intros t H. unfold processNextToken, skipWhitespace. cbn [t_buffer seek].
  rewrite H. eexists. split; [reflexivity|]. simpl. auto.
Qed.

Ltac sync_with_lexStep Hstep :=
  repeat match type of Hstep with
         | match ?b with _ => _ end = _ => destruct b eqn:?; try discriminate
         | (let (_, _) := ?b in _) = _ => destruct b eqn:?; try discriminate
         end.

Ltac unfold_processNextToken Hs Hk Hq Hl :=
  unfold processNextToken, skipWhitespace, processString, processNumber,
    processKeyword;
  cbn [t_buffer seek tl t_options t_position t_expectingKey];
  rewrite ?Hs;
  cbn [t_buffer seek tl t_options t_position t_expectingKey];
  rewrite ?Hk, ?Hq, ?Hl;
  cbn [negb andb]; rewrite ?andb_true_r.

Lemma processNextToken_more : forall t,
    strictTokenizer t ->
    skip_spaces (t_buffer t) <> [] ->
    lexStep (skip_spaces (t_buffer t)) = LexMore ->
    exists t', processNextToken t = (false, t')
               /\ t_buffer t' = skip_spaces (t_buffer t)
               /\ t_tokens t' = t_tokens t
               /\ t_expectingKey t' = t_expectingKey t
               /\ t_options t' = t_options t.
Proof.
  intros t [Hk [Hq Hl]] Hne Hstep.
  destruct (skip_spaces (t_buffer t)) as [|c r] eqn:Hs; [contradiction|].
  unfold_processNextToken Hs Hk Hq Hl.
  unfold lexStep in Hstep.
  sync_with_lexStep Hstep;
    eexists; (split; [reflexivity|]); simpl; auto.
Qed.

Lemma matchKeyword_types : forall s kw ty v,
    matchKeyword keywords s = Some (kw, (ty, v)) ->
    ty = TkBoolean \/ ty = TkNull.
Proof.
  intros s kw ty v H. unfold keywords in H. simpl in H.
  repeat match type of H with
         | match ?b with _ => _ end = _ => destruct b; try discriminate
         end; inversion H; auto.
Qed.

Lemma processNextToken_token : forall t type value rest,
    strictTokenizer t ->
    lexStep (skip_spaces (t_buffer t)) = LexToken type value rest ->
    exists t' tok,
      processNextToken t = (true, t')
      /\ t_buffer t' = rest
      /\ t_tokens t' = t_tokens t ++ [tok]
      /\ tk_type tok = actualType (t_expectingKey t) type
      /\ tk_value tok = value
      /\ t_expectingKey t' = flagAfter (t_expectingKey t) type
      /\ t_options t' = t_options t.
Proof.
  intros t type value rest [Hk [Hq Hl]] Hstep.
  destruct (skip_spaces (t_buffer t)) as [|c r] eqn:Hs; [discriminate|].
  unfold_processNextToken Hs Hk Hq Hl.
  unfold lexStep in Hstep.
  sync_with_lexStep Hstep;
    inversion Hstep; subst;
    try match goal with
        | H : matchKeyword keywords _ = Some (_, (?ty, _)) |- _ =>
            destruct (matchKeyword_types _ _ _ _ H); subst ty
        end;
    destruct (t_expectingKey t) eqn:Hflag;
    do 2 eexists; (split; [reflexivity|]); simpl; rewrite ?Hflag;
    repeat split; reflexivity.
Qed.

(** ** Extending the buffer *)

Lemma skip_spaces_app_nonblank : forall s x,
    skip_spaces s <> [] -> skip_spaces (s ++ x) = skip_spaces s ++ x.
Proof.
  induction s as [|a s IH]; intros x H; simpl in *; [contradiction|].
  destruct (isWhitespace a); [apply IH; exact H | reflexivity].
Qed.

Lemma skip_spaces_app_blank : forall s x,
    skip_spaces s = [] -> skip_spaces (s ++ x) = skip_spaces x.
Proof.
  induction s as [|a s IH]; intros x H; simpl in *; [reflexivity|].
  destruct (isWhitespace a); [apply IH; exact H | discriminate].
Qed.

Lemma skip_spaces_fixed : forall c r,
    isWhitespace c = false -> skip_spaces (c :: r) = c :: r.
Proof. intros c r H. simpl. rewrite H. reflexivity. Qed.

Lemma scanString_app : forall quote rest value raw escaped x v w r,
    scanString quote value raw escaped rest = Some (v, w, r) ->
    scanString quote value raw escaped (rest ++ x) = Some (v, w, r ++ x).
Proof.
  intros quote rest. induction rest as [|c rest IH];
    intros value raw escaped x v w r H; simpl in *; [discriminate|].
  destruct escaped; [eauto|].
  destruct (Ascii.eqb c backslash); [eauto|].
  destruct (Ascii.eqb c quote); [|eauto].
  inversion H; subst. reflexivity.
Qed.

Lemma scanString_app_none : forall quote rest value raw escaped x,
    scanString quote value raw escaped (rest ++ x) = None ->
    scanString quote value raw escaped rest = None.
Proof.
  intros quote rest value raw escaped x H.
  destruct (scanString quote value raw escaped rest) as [[[v w] r]|] eqn:E;
    [|reflexivity].
  rewrite (scanString_app _ _ _ _ _ x _ _ _ E) in H. discriminate.
Qed.

Lemma span_app_stop : forall p s raw c rest x,
    span p s = (raw, c :: rest) -> span p (s ++ x) = (raw, c :: rest ++ x).
Proof.
  intros p s. induction s as [|a s IH]; intros raw c rest x H; simpl in *;
    [discriminate|].
  destruct (p a).
  - destruct (span p s) as [a' b'] eqn:E. inversion H; subst.
    rewrite (IH _ _ _ x eq_refl). reflexivity.
  - inversion H; subst. reflexivity.
Qed.

Lemma span_all : forall p s raw, span p s = (raw, []) -> raw = s.
Proof.
  intros p s. induction s as [|a s IH]; intros raw H; simpl in *.
  - inversion H. reflexivity.
  - destruct (p a); [|discriminate].
    destruct (span p s) as [a' b'] eqn:E. inversion H; subst.
    rewrite (IH a' eq_refl). reflexivity.
Qed.

Lemma span_app_all : forall p s x,
    span p s = (s, []) ->
    span p (s ++ x) = (s ++ fst (span p x), snd (span p x)).
Proof.
  intros p s. induction s as [|a s IH]; intros x H; simpl in *.
  - destruct (span p x); reflexivity.
  - destruct (p a); [|discriminate].
    destruct (span p s) as [a' b'] eqn:E. inversion H; subst.
    rewrite (IH x eq_refl). reflexivity.
Qed.

Lemma starts_with_app_cases : forall kw s x,
    starts_with kw (s ++ x) = true ->
    starts_with kw s = true
    \/ (starts_with s kw = true /\ List.length s < List.length kw).
Proof.
  induction kw as [|k kw IH]; intros s x H; [left; reflexivity|].
  destruct s as [|c s]; [right; split; [reflexivity | simpl; lia]|].
  simpl in *. apply andb_true_iff in H. destruct H as [Hc Hrest].
  rewrite Hc. simpl.
  destruct (IH s x Hrest) as [Hl|[Hp Hlen]]; [left; exact Hl|].
  right. apply Ascii.eqb_eq in Hc. subst c.
  rewrite Ascii.eqb_refl. simpl. split; [exact Hp | lia].
Qed.

Lemma starts_with_app : forall kw s x,
    starts_with kw s = true -> starts_with kw (s ++ x) = true.
Proof.
  induction kw as [|k kw IH]; intros s x H; [reflexivity|].
  destruct s as [|c s]; [discriminate|].
  simpl in *. apply andb_true_iff in H. destruct H as [Hc Hrest].
  rewrite Hc. simpl. apply IH. exact Hrest.
Qed.

Lemma starts_with_length : forall kw s,
    starts_with kw s = true -> List.length kw <= List.length s.
Proof.
  induction kw as [|k kw IH]; intros s H; simpl; [lia|].
  destruct s as [|c s]; [discriminate|].
  simpl in *. apply andb_true_iff in H. destruct H as [_ H].
  apply IH in H. lia.
Qed.

Lemma skipn_app_le : forall (A : Type) n (s x : list A),
    n <= List.length s -> skipn n (s ++ x) = skipn n s ++ x.
Proof.
  intros A n. induction n as [|n IH]; intros s x H; [reflexivity|].
  destruct s as [|a s]; simpl in *; [lia|]. apply IH. lia.
Qed.

(** ** Keywords *)

Lemma keywords_cases : forall kw info,
    In (kw, info) keywords ->
    (kw = ["t"; "r"; "u"; "e"]%char /\ info = (TkBoolean, VBool true))
    \/ (kw = ["f"; "a"; "l"; "s"; "e"]%char /\ info = (TkBoolean, VBool false))
    \/ (kw = ["n"; "u"; "l"; "l"]%char /\ info = (TkNull, VNull)).
Proof.
  intros kw info H. unfold keywords in H. simpl in H.
  destruct H as [H|[H|[H|[]]]]; inversion H; subst; auto.
Qed.

Lemma starts_with_cons : forall k kw c s,
    starts_with (k :: kw) (c :: s) = true -> c = k /\ starts_with kw s = true.
Proof.
  intros k kw c s H. simpl in H. apply andb_true_iff in H.
  destruct H as [H1 H2]. apply Ascii.eqb_eq in H1. auto.
Qed.

Lemma matchKeyword_in : forall kws s kw info,
    matchKeyword kws s = Some (kw, info) ->
    In (kw, info) kws /\ starts_with kw s = true /\ keywordEnds kw s.
Proof.
  induction kws as [|[k i] more IH]; intros s kw info H; [discriminate|].
  cbn [matchKeyword] in H.
  destruct (starts_with k s) eqn:Hst.
  - destruct (skipn (List.length k) s) as [|nc rest] eqn:Hsk.
    + inversion H; subst. split; [left; reflexivity|]. split; [exact Hst|].
      unfold keywordEnds. rewrite Hsk. exact I.
    + destruct (isWordChar nc) eqn:Hw.
      * destruct (IH _ _ _ H) as (H1 & H2 & H3). split; [right; exact H1|]. auto.
      * inversion H; subst. split; [left; reflexivity|]. split; [exact Hst|].
        unfold keywordEnds. rewrite Hsk. exact Hw.
  - destruct (IH _ _ _ H) as (H1 & H2 & H3). split; [right; exact H1|]. auto.
Qed.

Lemma matchKeyword_some : forall s kw info,
    matchKeyword keywords s = Some (kw, info) ->
    In (kw, info) keywords /\ starts_with kw s = true /\ keywordEnds kw s.
Proof. intros. apply matchKeyword_in. assumption. Qed.

Lemma keywords_unique : forall s kw info kw' info',
    In (kw, info) keywords -> starts_with kw s = true ->
    In (kw', info') keywords -> starts_with kw' s = true ->
    (kw', info') = (kw, info).
Proof.
  intros s kw info kw' info' H1 S1 H2 S2.
  apply keywords_cases in H1. apply keywords_cases in H2.
  destruct s as [|c s];
    [destruct H1 as [[-> _]|[[-> _]|[-> _]]]; discriminate|].
  destruct H1 as [[-> ->]|[[-> ->]|[-> ->]]];
    destruct H2 as [[-> ->]|[[-> ->]|[-> ->]]]; try reflexivity;
    apply starts_with_cons in S1; destruct S1 as [-> _];
    apply starts_with_cons in S2; destruct S2 as [S2 _]; discriminate.
Qed.

Lemma matchKeyword_intro_gen : forall kws s kw info,
    In (kw, info) kws ->
    starts_with kw s = true ->
    keywordEnds kw s ->
    (forall kw' info', In (kw', info') kws -> starts_with kw' s = true ->
                       (kw', info') = (kw, info)) ->
    matchKeyword kws s = Some (kw, info).
Proof.
  induction kws as [|[k i] more IH]; intros s kw info Hin Hst Hend Huniq;
    [contradiction|].
  cbn [matchKeyword].
  destruct (starts_with k s) eqn:Hk.
  - assert (E : (k, i) = (kw, info)) by (apply Huniq; [left; reflexivity|exact Hk]).
    inversion E; subst. unfold keywordEnds in Hend.
    destruct (skipn (List.length kw) s) as [|nc rest]; [reflexivity|].
    rewrite Hend. reflexivity.
  - destruct Hin as [E|Hin]; [inversion E; subst; congruence|].
    apply IH; auto. intros. apply Huniq; auto. right. assumption.
Qed.

Lemma matchKeyword_intro : forall s kw info,
    In (kw, info) keywords ->
    starts_with kw s = true ->
    keywordEnds kw s ->
    matchKeyword keywords s = Some (kw, info).
Proof.
  intros s kw info Hin Hst Hend. apply matchKeyword_intro_gen; auto.
  intros. eapply keywords_unique; eauto.
Qed.

Lemma matchKeyword_none_gen : forall kws s,
    (forall kw info, In (kw, info) kws -> starts_with kw s = false) ->
    matchKeyword kws s = None.
Proof.
  induction kws as [|[k i] more IH]; intros s H; [reflexivity|].
  cbn [matchKeyword]. rewrite (H k i) by (left; reflexivity).
  apply IH. intros. eapply H. right. eassumption.
Qed.

Lemma matchKeyword_partial : forall s kw info,
    In (kw, info) keywords ->
    starts_with s kw = true ->
    List.length s < List.length kw ->
    matchKeyword keywords s = None /\ isPartialKeyword s = true.
Proof.
  intros s kw info Hin Hpre Hlen.
  assert (Hk5 : List.length kw <= 5).
  { apply keywords_cases in Hin.
    destruct Hin as [[-> _]|[[-> _]|[-> _]]]; simpl; lia. }
  split.
  - apply matchKeyword_none_gen. intros kw' info' Hin'.
    destruct (starts_with kw' s) eqn:E; [|reflexivity].
    exfalso.
    assert (Hlen' : List.length kw' <= List.length s)
      by (apply starts_with_length; exact E).
    apply keywords_cases in Hin. apply keywords_cases in Hin'.
    destruct Hin as [[-> _]|[[-> _]|[-> _]]];
      destruct Hin' as [[-> _]|[[-> _]|[-> _]]];
      simpl in Hlen, Hlen'; try lia;
      (destruct s as [|c s]; [simpl in Hlen'; lia|]);
      apply starts_with_cons in E; destruct E as [-> _];
      apply starts_with_cons in Hpre; destruct Hpre as [Hpre _]; discriminate.
  - unfold isPartialKeyword.
    replace (Nat.leb (List.length s) 4) with true
      by (symmetry; apply Nat.leb_le; lia).
    rewrite andb_true_l. apply existsb_exists. exists (kw, info).
    split; [exact Hin|]. simpl fst. rewrite Hpre. simpl.
    apply Nat.ltb_lt. lia.
Qed.

Lemma starts_with_app_l : forall s x kw,
    starts_with (s ++ x) kw = true -> starts_with s kw = true.
Proof.
  induction s as [|c s IH]; intros x kw H; [reflexivity|].
  destruct kw as [|k kw]; [discriminate|].
  simpl in *. apply andb_true_iff in H. destruct H as [H1 H2].
  rewrite H1. simpl. eapply IH. eassumption.
Qed.

Lemma isPartialKeyword_app : forall s x,
    isPartialKeyword (s ++ x) = true ->
    matchKeyword keywords s = None /\ isPartialKeyword s = true.
Proof.
  intros s x H. unfold isPartialKeyword in H.
  apply andb_true_iff in H. destruct H as [_ H].
  apply existsb_exists in H. destruct H as [[kw info] [Hin H]].
  apply andb_true_iff in H. destruct H as [H1 H2]. simpl fst in *.
  apply Nat.ltb_lt in H2. rewrite length_app in H2.
  apply (matchKeyword_partial s kw info); auto.
  - eapply starts_with_app_l. eassumption.
  - lia.
Qed.

(** ** A buffer and its extensions *)

(** A token read from an extended buffer is read from the buffer itself,
    unless the buffer ends before the token does. *)
Lemma lexStep_app_token : forall s x type value rest',
    s <> [] ->
    lexStep (s ++ x) = LexToken type value rest' ->
    lexStep s = LexMore
    \/ exists rest, lexStep s = LexToken type value rest /\ rest' = rest ++ x.
Proof.
  intros s x type value rest' Hne H.
  destruct s as [|c r]; [contradiction|].
  rewrite <- app_comm_cons in H. unfold lexStep in *.
  repeat match type of H with
         | (if Ascii.eqb c ?k then _ else _) = _ =>
             destruct (Ascii.eqb c k) eqn:?;
             [inversion H; subst; right; eexists; split; reflexivity|]
         end.
  destruct (Ascii.eqb c dquote || Ascii.eqb c squote) eqn:Hq.
  { destruct (Ascii.eqb c squote); [discriminate|].
    destruct (scanString c [] [c] false r) as [[[v w] r1]|] eqn:Hs; [|left; reflexivity].
    rewrite (scanString_app _ _ _ _ _ x _ _ _ Hs) in H.
    inversion H; subst. right. eexists. split; reflexivity. }
  destruct (isNumberStart c) eqn:Hn.
  { rewrite app_comm_cons in H.
    destruct (span isNumberChar (c :: r)) as [raw rest] eqn:Hsp.
    destruct rest as [|y ys]; [left; reflexivity|].
    rewrite (span_app_stop _ _ _ _ _ x Hsp) in H.
    destruct (negb (isEmpty raw) && isIncompleteNumberEnd (last raw "0"%char));
      [discriminate|].
    destruct (parseFloat raw); [|discriminate].
    inversion H; subst. right. eexists. split; reflexivity. }
  destruct (Ascii.eqb c "t" || Ascii.eqb c "f" || Ascii.eqb c "n") eqn:Hk;
    [|discriminate].
  rewrite app_comm_cons in H.
  destruct (matchKeyword keywords ((c :: r) ++ x)) as [[kw [ty v]]|] eqn:Hm.
  - inversion H; subst. clear H.
    apply matchKeyword_some in Hm. destruct Hm as (Hin & Hst & Hend).
    destruct (starts_with_app_cases _ _ _ Hst) as [Hs|[Hs Hl]].
    + right. assert (Hlen := starts_with_length _ _ Hs).
      rewrite (matchKeyword_intro (c :: r) kw (type, value) Hin Hs).
      * eexists. split; [reflexivity|].
        apply (skipn_app_le _ _ (c :: r) x). exact Hlen.
      * unfold keywordEnds in *. rewrite skipn_app_le in Hend by exact Hlen.
        destruct (skipn (List.length kw) (c :: r)); [exact I|exact Hend].
    + left. destruct (matchKeyword_partial _ _ _ Hin Hs Hl) as [-> ->]. reflexivity.
  - destruct (isPartialKeyword ((c :: r) ++ x)); discriminate.
Qed.

(** A buffer that an extension leaves waiting was waiting already. *)
Lemma lexStep_app_more : forall s x,
    s <> [] ->
    lexStep (s ++ x) = LexMore ->
    lexStep s = LexMore.
Proof.
  intros s x Hne H.
  destruct s as [|c r]; [contradiction|].
  rewrite <- app_comm_cons in H. unfold lexStep in *.
  repeat match type of H with
         | (if Ascii.eqb c ?k then _ else _) = _ =>
             destruct (Ascii.eqb c k) eqn:?; [discriminate|]
         end.
  destruct (Ascii.eqb c dquote || Ascii.eqb c squote) eqn:Hq.
  { destruct (Ascii.eqb c squote); [discriminate|].
    destruct (scanString c [] [c] false (r ++ x)) as [[[v w] r1]|] eqn:Hs;
      [discriminate|].
    rewrite (scanString_app_none _ _ _ _ _ _ Hs). reflexivity. }
  destruct (isNumberStart c) eqn:Hn.
  { rewrite app_comm_cons in H.
    destruct (span isNumberChar (c :: r)) as [raw rest] eqn:Hsp.
    destruct rest as [|y ys]; [reflexivity|].
    rewrite (span_app_stop _ _ _ _ _ x Hsp) in H.
    destruct (negb (isEmpty raw) && isIncompleteNumberEnd (last raw "0"%char));
      [reflexivity|].
    destruct (parseFloat raw); discriminate. }
  destruct (Ascii.eqb c "t" || Ascii.eqb c "f" || Ascii.eqb c "n") eqn:Hk;
    [|discriminate].
  rewrite app_comm_cons in H.
  destruct (matchKeyword keywords ((c :: r) ++ x)) as [[kw [ty v]]|] eqn:Hm;
    [discriminate|].
  destruct (isPartialKeyword ((c :: r) ++ x)) eqn:Hp; [|discriminate].
  destruct (isPartialKeyword_app _ _ Hp) as [-> ->]. reflexivity.
Qed.

Lemma skip_spaces_nonblank_head : forall s,
    skip_spaces s <> [] ->
    forall x, skip_spaces (skip_spaces s ++ x) = skip_spaces s ++ x.
Proof.
  intros s Hne x. destruct (skip_spaces s) as [|c r] eqn:E; [contradiction|].
  simpl. apply skip_spaces_fixed. eapply skip_spaces_head. eassumption.
Qed.

(** Lexing a buffer cut in two: the first part is lexed up to a carry,
    and the carry followed by the second part gives the rest. *)
Lemma Lexes_split : forall s toks carry,
    Lexes s toks carry ->
    forall a b, s = a ++ b ->
    exists toks1 toks2 carry1,
      Lexes a toks1 carry1
      /\ Lexes (carry1 ++ b) toks2 carry
      /\ toks = toks1 ++ toks2.
Proof.
  induction 1 as [s Hs|s Hne Hm|s type value rest toks carry Hstep Hrest IH];
    intros a b ->.
  - exists [], [], []. split; [|split].
    + apply lexes_end. destruct (skip_spaces a) eqn:E; [reflexivity|].
      rewrite skip_spaces_app_nonblank in Hs by congruence.
      rewrite E in Hs. discriminate.
    + simpl. apply lexes_end. destruct (skip_spaces a) eqn:E.
      * rewrite skip_spaces_app_blank in Hs by exact E. exact Hs.
      * rewrite skip_spaces_app_nonblank in Hs by congruence.
        rewrite E in Hs. discriminate.
    + reflexivity.
  - destruct (skip_spaces a) as [|c r] eqn:E.
    + exists [], [], []. split; [apply lexes_end; exact E|]. split; [|reflexivity].
      simpl. rewrite skip_spaces_app_blank in * by exact E.
      apply lexes_more; assumption.
    + assert (Ha : skip_spaces a <> []) by congruence.
      rewrite skip_spaces_app_nonblank in * by exact Ha.
      exists [], [], (skip_spaces a). split; [|split; [|reflexivity]].
      * apply lexes_more; [exact Ha|]. eapply lexStep_app_more; eassumption.
      * pattern (skip_spaces a ++ b) at 2.
        rewrite <- (skip_spaces_nonblank_head a Ha b).
        apply lexes_more; rewrite (skip_spaces_nonblank_head a Ha b); assumption.
  - destruct (skip_spaces a) as [|c r] eqn:E.
    + exists [], ((type, value) :: toks), []. split; [apply lexes_end; exact E|].
      split; [|reflexivity]. simpl.
      rewrite skip_spaces_app_blank in Hstep by exact E.
      eapply lexes_token; eassumption.
    + assert (Ha : skip_spaces a <> []) by congruence.
      rewrite skip_spaces_app_nonblank in Hstep by exact Ha.
      destruct (lexStep_app_token _ _ _ _ _ Ha Hstep) as [Hm|[rest0 [Ht ->]]].
      * exists [], ((type, value) :: toks), (skip_spaces a).
        split; [apply lexes_more; assumption|]. split; [|reflexivity].
        eapply lexes_token; [|eassumption].
        rewrite (skip_spaces_nonblank_head a Ha b). exact Hstep.
      * destruct (IH rest0 b eq_refl) as (t1 & t2 & c1 & H1 & H2 & ->).
        exists ((type, value) :: t1), t2, c1. split; [|split; [assumption|reflexivity]].
        eapply lexes_token; eassumption.
Qed.

(** ** The loop of [feed] *)

Lemma scanString_length : forall quote rest value raw escaped v w r,
    scanString quote value raw escaped rest = Some (v, w, r) ->
    List.length r < List.length rest.
Proof.
  induction rest as [|c rest IH]; intros value raw escaped v w r H;
    [discriminate|].
  cbn [scanString] in H. simpl.
  destruct escaped.
  - apply IH in H. lia.
  - destruct (Ascii.eqb c backslash); [apply IH in H; lia|].
    destruct (Ascii.eqb c quote); [inversion H; subst; lia|].
    apply IH in H. lia.
Qed.

Lemma span_length : forall p s raw rest,
    span p s = (raw, rest) -> List.length s = List.length raw + List.length rest.
Proof.
  induction s as [|c s IH]; intros raw rest H; simpl in H.
  - inversion H; reflexivity.
  - destruct (p c).
    + destruct (span p s) as [a b] eqn:E. inversion H; subst.
      simpl. rewrite (IH a rest eq_refl). reflexivity.
    + inversion H; subst. reflexivity.
Qed.

(** Every token takes at least one character. *)
Lemma lexStep_consumes : forall s type value rest,
    lexStep s = LexToken type value rest -> List.length rest < List.length s.
Proof.
  intros s type value rest H. destruct s as [|c r]; [discriminate|].
  unfold lexStep in H.
  repeat match type of H with
         | (if Ascii.eqb c ?k then _ else _) = _ =>
             destruct (Ascii.eqb c k) eqn:?;
             [inversion H; subst; simpl; lia|]
         end.
  destruct (Ascii.eqb c dquote || Ascii.eqb c squote).
  { destruct (Ascii.eqb c squote); [discriminate|].
    destruct (scanString c [] [c] false r) as [[[v w] r1]|] eqn:Hs; [|discriminate].
    inversion H; subst. apply scanString_length in Hs. simpl. lia. }
  destruct (isNumberStart c).
  { destruct (span isNumberChar (c :: r)) as [raw rest0] eqn:Hsp.
    destruct rest0 as [|y ys]; [discriminate|].
    destruct (negb (isEmpty raw) && isIncompleteNumberEnd (last raw "0"%char));
      [discriminate|].
    destruct raw as [|d raw]; [discriminate|].
    destruct (parseFloat (d :: raw)); [|discriminate].
    inversion H; subst. apply span_length in Hsp. rewrite Hsp. simpl. lia. }
  destruct (Ascii.eqb c "t" || Ascii.eqb c "f" || Ascii.eqb c "n"); [|discriminate].
  destruct (matchKeyword keywords (c :: r)) as [[kw [ty v]]|] eqn:Hm.
  - inversion H; subst. apply matchKeyword_some in Hm.
    destruct Hm as (Hin & Hst & _). apply starts_with_length in Hst.
    rewrite length_skipn.
    apply keywords_cases in Hin.
    destruct Hin as [[-> _]|[[-> _]|[-> _]]]; simpl in *; lia.
  - destruct (isPartialKeyword (c :: r)); discriminate.
Qed.

Lemma feed_loop_lexes : forall s toks carry,
    Lexes s toks carry ->
    forall fuel t,
      t_buffer t = s ->
      strictTokenizer t ->
      List.length s < fuel ->
      exists emitted,
        t_buffer (feed_loop fuel t) = carry
        /\ t_tokens (feed_loop fuel t) = t_tokens t ++ emitted
        /\ map coreOf emitted = retype (t_expectingKey t) toks
        /\ t_options (feed_loop fuel t) = t_options t.
Proof.
  induction 1 as [s Hs|s Hne Hm|s type value rest toks carry Hstep Hrest IH];
    intros fuel t Hbuf Hstrict Hfuel; subst s;
    (destruct fuel as [|fuel]; [lia|]); cbn [feed_loop].
  - destruct (isEmpty (t_buffer t)) eqn:He.
    + exists []. rewrite app_nil_r. destruct (t_buffer t); [auto|discriminate].
    + destruct (processNextToken_end t Hs) as (t' & -> & Hb & Ht & _ & Ho).
      exists []. rewrite app_nil_r. auto.
  - destruct (isEmpty (t_buffer t)) eqn:He.
    + destruct (t_buffer t); [contradiction|discriminate].
    + destruct (processNextToken_more t Hstrict Hne Hm) as (t' & -> & Hb & Ht & _ & Ho).
      exists []. rewrite app_nil_r. auto.
  - destruct (isEmpty (t_buffer t)) eqn:He.
    + destruct (t_buffer t); [discriminate|discriminate].
    + destruct (processNextToken_token t _ _ _ Hstrict Hstep)
        as (t' & tok & -> & Hb & Ht & Hty & Hv & Hf & Ho).
      assert (Hlen := lexStep_consumes _ _ _ _ Hstep).
      assert (Hsk := skip_spaces_length (t_buffer t)).
      destruct (IH fuel t' Hb) as (emitted & E1 & E2 & E3 & E4).
      { unfold strictTokenizer in *. rewrite Ho. exact Hstrict. }
      { lia. }
      exists (tok :: emitted). split; [exact E1|]. split; [|split].
      * rewrite E2, Ht, <- app_assoc. reflexivity.
      * cbn [map retype]. unfold coreOf at 1. rewrite Hty, Hv, E3, Hf. reflexivity.
      * congruence.
Qed.

(** [tokenizer.feed(chunk)] on a strict tokenizer: the tokens of the old
    carry followed by the chunk, and the new carry. *)
Lemma tokenizer_feed_lexes : forall chunk t toks carry,
    strictTokenizer t ->
    Lexes (t_buffer t ++ chunk) toks carry ->
    t_buffer (tokenizer_feed chunk t) = carry
    /\ map coreOf (t_tokens (tokenizer_feed chunk t)) = retype (t_expectingKey t) toks
    /\ t_options (tokenizer_feed chunk t) = t_options t.
Proof.
  intros chunk t toks carry Hstrict Hlex. unfold tokenizer_feed.
  match goal with
  | |- context [feed_loop ?f ?t1] =>
      destruct (feed_loop_lexes _ _ _ Hlex f t1 eq_refl Hstrict (Nat.lt_succ_diag_r _))
        as (emitted & E1 & E2 & E3 & E4)
  end.
  cbn [t_buffer t_tokens t_options seek] in *.
  unfold seek. cbn [t_buffer t_tokens t_options].
  rewrite E1, E2, E4. simpl. auto.
Qed.

(** ** Lexing is a function of the buffer *)

Lemma lexStep_nil : lexStep [] = LexMore.
Proof. reflexivity. Qed.

Lemma Lexes_fun : forall s toks carry,
    Lexes s toks carry ->
    forall toks' carry', Lexes s toks' carry' -> toks = toks' /\ carry = carry'.
Proof.
  induction 1 as [s Hs|s Hne Hm|s type value rest toks carry Hstep Hrest IH];
    intros toks' carry' H'; inversion H'; subst; auto;
    try contradiction; try congruence.
  - rewrite Hs in *. discriminate.
  - rewrite H in Hstep. discriminate.
  - rewrite H in Hstep. inversion Hstep; subst.
    destruct (IH _ _ H0) as [-> ->]. auto.
Qed.

(** What is carried over waits for more input. *)
Lemma Lexes_carry : forall s toks carry,
    Lexes s toks carry -> Lexes carry [] carry.
Proof.
  induction 1 as [s Hs|s Hne Hm|s type value rest toks carry Hstep Hrest IH].
  - apply lexes_end. reflexivity.
  - pattern (skip_spaces s) at 2. rewrite <- skip_spaces_idem.
    apply lexes_more; rewrite skip_spaces_idem; assumption.
  - exact IH.
Qed.

(* ------------------------------------------------------------------ *)
(** ** Rendered documents are lexed into their tokens *)

Ltac each_char c :=
  destruct c as [[|] [|] [|] [|] [|] [|] [|] [|]].

Lemma jsonSpace_whitespace : forall c, isJsonSpace c = true -> isWhitespace c = true.
Proof. intros c; each_char c; vm_compute; congruence. Qed.

Lemma delimiter_ends_number : forall c, isDelimiter c = true -> isNumberChar c = false.
Proof. intros c; each_char c; vm_compute; congruence. Qed.

Lemma delimiter_ends_word : forall c, isDelimiter c = true -> isWordChar c = false.
Proof. intros c; each_char c; vm_compute; congruence. Qed.

Lemma digit_numberChar : forall c, isDigit c = true -> isNumberChar c = true.
Proof. intros c; each_char c; vm_compute; congruence. Qed.

Lemma digit_complete : forall c, isDigit c = true -> isIncompleteNumberEnd c = false.
Proof. intros c; each_char c; vm_compute; congruence. Qed.

Lemma digit_not_sign : forall c,
    isDigit c = true ->
    Ascii.eqb c "-" = false /\ Ascii.eqb c "+" = false /\ Ascii.eqb c "." = false.
Proof. intros c; each_char c; vm_compute; intuition congruence. Qed.

Lemma exponent_letter : forall c,
    Ascii.eqb c "e" || Ascii.eqb c "E" = true ->
    isNumberChar c = true /\ isDigit c = false /\ Ascii.eqb c "." = false.
Proof. intros c; each_char c; vm_compute; intuition congruence. Qed.

Lemma numberStart_tests : forall c,
    isNumberStart c = true ->
    isWhitespace c = false
    /\ Ascii.eqb c "{" = false /\ Ascii.eqb c "}" = false
    /\ Ascii.eqb c "[" = false /\ Ascii.eqb c "]" = false
    /\ Ascii.eqb c ":" = false /\ Ascii.eqb c "," = false
    /\ Ascii.eqb c dquote || Ascii.eqb c squote = false.
Proof. intros c; each_char c; vm_compute; intuition congruence. Qed.

Lemma escape_decoded : forall e v, escapeValue e = Some v -> getEscapedChar e = v.
Proof. intros e v; each_char e; vm_compute; congruence. Qed.

Lemma skip_spaces_blank : forall w s, isBlank w = true -> skip_spaces (w ++ s) = skip_spaces s.
Proof.
  induction w as [|c w IH]; intros s H; [reflexivity|].
  simpl in H. apply andb_true_iff in H. destruct H as [H1 H2].
  simpl. rewrite (jsonSpace_whitespace _ H1). apply IH. exact H2.
Qed.

Lemma Lexes_skip : forall s s' toks carry,
    skip_spaces s = skip_spaces s' -> Lexes s toks carry -> Lexes s' toks carry.
Proof.
  intros s s' toks carry E H. inversion H; subst.
  - apply lexes_end. congruence.
  - rewrite E. apply lexes_more; rewrite <- E; assumption.
  - eapply lexes_token; [rewrite <- E|]; eassumption.
Qed.

Lemma Lexes_blank : forall w s toks carry,
    isBlank w = true -> Lexes s toks carry -> Lexes (w ++ s) toks carry.
Proof.
  intros w s toks carry Hw H. eapply Lexes_skip; [|exact H].
  symmetry. apply skip_spaces_blank. exact Hw.
Qed.

Lemma delimited_blank : forall w c r,
    isBlank w = true -> isDelimiter c = true -> delimited (w ++ c :: r).
Proof.
  intros w c r Hw Hc. destruct w as [|b w]; [exact Hc|].
  simpl in *. apply andb_true_iff in Hw. destruct Hw as [Hb _].
  unfold isDelimiter. rewrite Hb. reflexivity.
Qed.

(** *** Strings *)

Lemma scanString_items : forall items value raw rest,
    forallb wf_item items = true ->
    exists raw',
      scanString dquote value raw false (flat_map render_item items ++ dquote :: rest)
      = Some (value ++ map decode_item items, raw', rest).
Proof.
  induction items as [|it items IH]; intros value raw rest Hwf.
  - cbn [flat_map app scanString map].
    replace (Ascii.eqb dquote backslash) with false by reflexivity.
    rewrite Ascii.eqb_refl, app_nil_r. eexists. reflexivity.
  - simpl in Hwf. apply andb_true_iff in Hwf. destruct Hwf as [Hit Hrest].
    destruct it as [c|e].
    + simpl in Hit. apply andb_true_iff in Hit. destruct Hit as [Hit Hb].
      apply andb_true_iff in Hit. destruct Hit as [_ Hq].
      apply negb_true_iff in Hb. apply negb_true_iff in Hq.
      cbn [flat_map render_item app scanString]. rewrite Hb, Hq.
      destruct (IH (value ++ [c]) (raw ++ [c]) rest Hrest) as [raw' ->].
      eexists. cbn [map decode_item]. rewrite <- app_assoc. reflexivity.
    + cbn [wf_item] in Hit.
      destruct (escapeValue e) as [v|] eqn:He; [|discriminate].
      cbn [flat_map render_item app scanString].
      rewrite Ascii.eqb_refl.
      destruct (IH (value ++ [getEscapedChar e]) ((raw ++ [backslash]) ++ [e]) rest Hrest)
        as [raw' ->].
      eexists. cbn [map decode_item]. rewrite He, (escape_decoded _ _ He).
      rewrite <- app_assoc. reflexivity.
Qed.

Lemma lexStep_string : forall items rest,
    forallb wf_item items = true ->
    lexStep (render_string items ++ rest)
    = LexToken TkString (VStr (string_value items)) rest.
Proof.
  intros items rest Hwf. unfold render_string.
  rewrite <- app_comm_cons, <- app_assoc. cbn [app].
  destruct (scanString_items items [] [dquote] rest Hwf) as [raw' Hs].
  unfold lexStep.
  replace (Ascii.eqb dquote "{") with false by reflexivity.
  replace (Ascii.eqb dquote "}") with false by reflexivity.
  replace (Ascii.eqb dquote "[") with false by reflexivity.
  replace (Ascii.eqb dquote "]") with false by reflexivity.
  replace (Ascii.eqb dquote ":") with false by reflexivity.
  replace (Ascii.eqb dquote ",") with false by reflexivity.
  replace (Ascii.eqb dquote squote) with false by reflexivity.
  rewrite Ascii.eqb_refl. cbn [orb]. rewrite Hs. reflexivity.
Qed.

Lemma string_not_blank : forall items rest,
    skip_spaces (render_string items ++ rest) = render_string items ++ rest.
Proof. intros. reflexivity. Qed.

(** *** Numbers *)

Lemma take_digits_app : forall ds acc tail,
    forallb isDigit ds = true ->
    starts_with_digit tail = false ->
    take_digits acc (ds ++ tail)
    = (fold_left (fun a c => (10 * a + digit_value c)%Z) ds acc, tail).
Proof.
  induction ds as [|d ds IH]; intros acc tail Hd Ht.
  - simpl. destruct tail as [|c r]; [reflexivity|].
    simpl in *. rewrite Ht. reflexivity.
  - simpl in Hd. apply andb_true_iff in Hd. destruct Hd as [H1 H2].
    simpl. rewrite H1. apply IH; assumption.
Qed.

Lemma take_digits_all : forall ds acc,
    forallb isDigit ds = true ->
    take_digits acc ds = (fold_left (fun a c => (10 * a + digit_value c)%Z) ds acc, []).
Proof.
  intros ds acc H. rewrite <- (app_nil_r ds) at 1.
  apply take_digits_app; [exact H|reflexivity].
Qed.

Lemma isDigits_inv : forall ds,
    isDigits ds = true ->
    forallb isDigit ds = true /\ exists d r, ds = d :: r /\ isDigit d = true.
Proof.
  intros ds H. unfold isDigits in H. apply andb_true_iff in H.
  destruct H as [H1 H2]. split; [exact H2|].
  destruct ds as [|d r]; [discriminate|]. exists d, r. split; [reflexivity|].
  simpl in H2. apply andb_true_iff in H2. tauto.
Qed.

Lemma read_exponent_render : forall e,
    wf_exp e = true -> read_exponent (render_exp e) = exp_value e.
Proof.
  intros [[[letter s] ds]|] H; [|reflexivity].
  simpl in H. apply andb_true_iff in H. destruct H as [Hl Hd].
  apply isDigits_inv in Hd. destruct Hd as [Hall (d & r & -> & Hd)].
  cbn [render_exp read_exponent]. rewrite Hl.
  destruct (digit_not_sign _ Hd) as (Hm & Hp & _).
  destruct s as [[|]|]; cbn [render_sign app exp_value].
  - replace (Ascii.eqb "-" "-") with true by reflexivity.
    cbn [starts_with_digit]. rewrite Hd, (take_digits_all _ _ Hall). reflexivity.
  - replace (Ascii.eqb "+" "-") with false by reflexivity.
    replace (Ascii.eqb "+" "+") with true by reflexivity.
    cbn [starts_with_digit]. rewrite Hd, (take_digits_all _ _ Hall). reflexivity.
  - rewrite Hm, Hp.
    cbn [starts_with_digit]. rewrite Hd, (take_digits_all _ _ Hall). reflexivity.
Qed.

Lemma exp_no_digit : forall e,
    wf_exp e = true ->
    starts_with_digit (render_exp e) = false
    /\ match render_exp e with c :: _ => Ascii.eqb c "." = false | [] => True end.
Proof.
  intros [[[letter s] ds]|] H; [|split; [reflexivity|exact I]].
  simpl in H. apply andb_true_iff in H. destruct H as [Hl _].
  destruct (exponent_letter _ Hl) as (_ & H1 & H2). simpl. auto.
Qed.

Lemma render_number_shape : forall lit,
    render_number lit
    = (if n_neg lit then ["-"%char] else [])
      ++ n_int lit
      ++ match n_frac lit with Some ds => "."%char :: ds | None => [] end
      ++ render_exp (n_exp lit).
Proof. intros. unfold render_number, render_exp. reflexivity. Qed.

Lemma parseFloat_body : forall ints frac e,
    isDigits ints = true ->
    match frac with Some ds => isDigits ds | None => true end = true ->
    wf_exp e = true ->
    let tail := match frac with Some ds => "."%char :: ds | None => [] end
                ++ render_exp e in
    let fracDigits := match frac with Some ds => ds | None => [] end in
    forall neg : bool,
      (let (ip, afterInt) := take_digits 0 (ints ++ tail) in
       let intDigits := List.length (ints ++ tail) - List.length afterInt in
       let '(mant, fracDigits, afterFrac) :=
         match afterInt with
         | c :: r =>
             if Ascii.eqb c "."%char then
               let (m, r') := take_digits ip r in
               (m, List.length r - List.length r', r')
             else (ip, 0, afterInt)
         | [] => (ip, 0, afterInt)
         end in
       if Nat.eqb (intDigits + fracDigits) 0 then None
       else
         let ex := (read_exponent afterFrac - Z.of_nat fracDigits)%Z in
         let q := Qred (inject_Z mant * Qpower (inject_Z 10) ex) in
         Some (if neg then Qred (- q) else q))
      = Some (let m := Qred (inject_Z (digits_value (ints ++ fracDigits))
                             * Qpower (inject_Z 10)
                                 (exp_value e - Z.of_nat (List.length fracDigits))) in
              if neg then Qred (- m) else m).
Proof.
  intros ints frac e Hi Hf He tail fracDigits neg.
  apply isDigits_inv in Hi. destruct Hi as [Hall (d & r & Ei & Hd)].
  destruct (exp_no_digit e He) as [Hnd Hdot].
  assert (Htail : starts_with_digit tail = false).
  { unfold tail. destruct frac; [reflexivity|exact Hnd]. }
  rewrite (take_digits_app _ _ _ Hall Htail).
  assert (Hlen : List.length (ints ++ tail) - List.length tail = List.length ints).
  { rewrite length_app. lia. }
  cbv zeta. rewrite Hlen.
  assert (Hpos : forall k, Nat.eqb (List.length ints + k) 0 = false).
  { intros k. subst ints. reflexivity. }
  unfold tail, fracDigits. destruct frac as [ds|].
  - apply isDigits_inv in Hf. destruct Hf as [Hfall _].
    cbn [app]. replace (Ascii.eqb "." ".") with true by reflexivity.
    rewrite (take_digits_app _ _ _ Hfall Hnd).
    rewrite Hpos, (read_exponent_render _ He).
    replace (List.length (ds ++ render_exp e) - List.length (render_exp e))
      with (List.length ds) by (rewrite length_app; lia).
    unfold digits_value. rewrite fold_left_app. reflexivity.
  - cbn [app]. rewrite app_nil_r.
    assert (Hre := read_exponent_render _ He).
    destruct (render_exp e) as [|c rest].
    + rewrite Hpos, Hre. reflexivity.
    + rewrite Hdot, Hpos, Hre. reflexivity.
Qed.

Lemma parseFloat_render : forall lit,
    wf_number lit = true ->
    parseFloat (render_number lit) = Some (number_value lit).
Proof.
  intros [neg ints frac e] H. unfold wf_number in H. cbn [n_neg n_int n_frac n_exp] in H.
  apply andb_true_iff in H. destruct H as [H He].
  apply andb_true_iff in H. destruct H as [H Hf].
  apply andb_true_iff in H. destruct H as [Hi _].
  rewrite render_number_shape. cbn [n_neg n_int n_frac n_exp].
  unfold number_value. cbn [n_neg n_int n_frac n_exp].
  change (match e with
          | Some (_, s, ds) =>
              match s with Some true => (- digits_value ds)%Z | _ => digits_value ds end
          | None => 0%Z
          end) with (exp_value e).
  assert (B := parseFloat_body ints frac e Hi Hf He).
  cbv zeta in B. unfold parseFloat.
  destruct neg.
  - cbn [app]. replace (Ascii.eqb "-" "-") with true by reflexivity.
    exact (B true).
  - cbn [app].
    destruct (isDigits_inv _ Hi) as [_ (d & r & -> & Hd)].
    destruct (digit_not_sign _ Hd) as (Hm & Hp & _).
    cbn [app]. rewrite Hm, Hp. exact (B false).
Qed.

Lemma span_prefix : forall p raw c rest,
    forallb p raw = true -> p c = false ->
    span p (raw ++ c :: rest) = (raw, c :: rest).
Proof.
  induction raw as [|d raw IH]; intros c rest Hall Hc.
  - simpl. rewrite Hc. reflexivity.
  - simpl in Hall. apply andb_true_iff in Hall. destruct Hall as [H1 H2].
    simpl. rewrite H1, (IH c rest H2 Hc). reflexivity.
Qed.

Lemma digits_numberChars : forall ds,
    forallb isDigit ds = true -> forallb isNumberChar ds = true.
Proof.
  induction ds as [|d ds IH]; intros H; [reflexivity|].
  simpl in *. apply andb_true_iff in H. destruct H as [H1 H2].
  rewrite (digit_numberChar _ H1). apply IH. exact H2.
Qed.

Lemma render_number_chars : forall lit,
    wf_number lit = true -> forallb isNumberChar (render_number lit) = true.
Proof.
  intros [neg ints frac e] H. unfold wf_number in H. cbn [n_neg n_int n_frac n_exp] in H.
  apply andb_true_iff in H. destruct H as [H He].
  apply andb_true_iff in H. destruct H as [H Hf].
  apply andb_true_iff in H. destruct H as [Hi _].
  apply isDigits_inv in Hi. destruct Hi as [Hi _].
  unfold render_number. cbn [n_neg n_int n_frac n_exp].
  rewrite !forallb_app. apply andb_true_iff. split; [destruct neg; reflexivity|].
  apply andb_true_iff. split; [apply digits_numberChars; exact Hi|].
  apply andb_true_iff. split.
  - destruct frac as [ds|]; [|reflexivity].
    apply isDigits_inv in Hf. destruct Hf as [Hf _].
    simpl. apply digits_numberChars. exact Hf.
  - destruct e as [[[letter s] ds]|]; [|reflexivity].
    apply andb_true_iff in He. destruct He as [Hl Hd].
    apply isDigits_inv in Hd. destruct Hd as [Hd _].
    destruct (exponent_letter _ Hl) as (Hn & _).
    cbn [forallb]. rewrite Hn. rewrite forallb_app.
    rewrite (digits_numberChars _ Hd).
    destruct s as [[|]|]; reflexivity.
Qed.

Lemma last_digits : forall ds pre x,
    isDigits ds = true ->
    isDigit (last (pre ++ ds) x) = true.
Proof.
  intros ds pre x H. apply isDigits_inv in H.
  destruct H as [Hall (d & r & -> & _)].
  destruct (exists_last (l := d :: r)) as (front & z & E); [discriminate|].
  rewrite E in *. rewrite app_assoc, last_last.
  rewrite forallb_app in Hall. apply andb_true_iff in Hall.
  destruct Hall as [_ Hz]. simpl in Hz. apply andb_true_iff in Hz. tauto.
Qed.

Lemma render_number_last : forall lit x,
    wf_number lit = true ->
    isDigit (last (render_number lit) x) = true.
Proof.
  intros [neg ints frac e] x H. unfold wf_number in H.
  cbn [n_neg n_int n_frac n_exp] in H.
  apply andb_true_iff in H. destruct H as [H He].
  apply andb_true_iff in H. destruct H as [H Hf].
  apply andb_true_iff in H. destruct H as [Hi _].
  unfold render_number. cbn [n_neg n_int n_frac n_exp].
  destruct e as [[[letter s] ds]|].
  - apply andb_true_iff in He. destruct He as [_ Hd].
    replace ((if neg then ["-"%char] else []) ++ ints
             ++ match frac with Some ds0 => "."%char :: ds0 | None => [] end
             ++ letter :: render_sign s ++ ds)
      with (((if neg then ["-"%char] else []) ++ ints
             ++ match frac with Some ds0 => "."%char :: ds0 | None => [] end
             ++ letter :: render_sign s) ++ ds)
      by (rewrite <- !app_assoc; cbn [app]; rewrite <- ?app_assoc;
          reflexivity).
    apply last_digits. exact Hd.
  - rewrite app_nil_r. destruct frac as [ds|].
    + replace ((if neg then ["-"%char] else []) ++ ints ++ "."%char :: ds)
        with (((if neg then ["-"%char] else []) ++ ints ++ ["."%char]) ++ ds)
        by (rewrite <- !app_assoc; reflexivity).
      apply last_digits. exact Hf.
    + rewrite app_nil_r. apply last_digits. exact Hi.
Qed.

Lemma render_number_head : forall lit,
    wf_number lit = true ->
    exists c r, render_number lit = c :: r /\ isNumberStart c = true.
Proof.
  intros [neg ints frac e] H. unfold wf_number in H.
  cbn [n_neg n_int n_frac n_exp] in H.
  apply andb_true_iff in H. destruct H as [H _].
  apply andb_true_iff in H. destruct H as [H _].
  apply andb_true_iff in H. destruct H as [Hi _].
  apply isDigits_inv in Hi. destruct Hi as [_ (d & r & -> & Hd)].
  unfold render_number. cbn [n_neg n_int n_frac n_exp].
  destruct neg; cbn [app]; do 2 eexists; (split; [reflexivity|]).
  - reflexivity.
  - unfold isNumberStart. rewrite Hd. apply orb_true_r.
Qed.

Lemma lexStep_number : forall lit rest,
    wf_number lit = true ->
    delimited rest ->
    skip_spaces (render_number lit ++ rest) = render_number lit ++ rest
    /\ lexStep (render_number lit ++ rest)
       = LexToken TkNumber (VNum (number_value lit)) rest.
Proof.
  intros lit rest Hwf Hdel.
  destruct rest as [|d rest]; [contradiction|]. simpl in Hdel.
  assert (Hspan := span_prefix isNumberChar (render_number lit) d rest
                     (render_number_chars lit Hwf) (delimiter_ends_number d Hdel)).
  assert (Hlast := render_number_last lit "0"%char Hwf).
  assert (Hpf := parseFloat_render lit Hwf).
  destruct (render_number_head lit Hwf) as (c & r & E & Hc).
  rewrite E in *.
  destruct (numberStart_tests c Hc) as (W & T1 & T2 & T3 & T4 & T5 & T6 & T7).
  split; [simpl; rewrite W; reflexivity|].
  rewrite <- app_comm_cons. unfold lexStep.
  rewrite T1, T2, T3, T4, T5, T6, T7, Hc.
  rewrite app_comm_cons, Hspan.
  rewrite (digit_complete _ Hlast), andb_false_r, Hpf. reflexivity.
Qed.

(** *** Keywords *)

Lemma lexStep_true : forall rest,
    delimited rest ->
    lexStep (text "true" ++ rest) = LexToken TkBoolean (VBool true) rest.
Proof.
  intros [|d rest] H; [contradiction|]. simpl in H.
  apply delimiter_ends_word in H.
  unfold lexStep, text. cbn. rewrite H. reflexivity.
Qed.

Lemma lexStep_false : forall rest,
    delimited rest ->
    lexStep (text "false" ++ rest) = LexToken TkBoolean (VBool false) rest.
Proof.
  intros [|d rest] H; [contradiction|]. simpl in H.
  apply delimiter_ends_word in H.
  unfold lexStep, text. cbn. rewrite H. reflexivity.
Qed.

Lemma lexStep_null : forall rest,
    delimited rest ->
    lexStep (text "null" ++ rest) = LexToken TkNull VNull rest.
Proof.
  intros [|d rest] H; [contradiction|]. simpl in H.
  apply delimiter_ends_word in H.
  unfold lexStep, text. cbn. rewrite H. reflexivity.
Qed.

(** *** Documents *)

Lemma Lexes_step : forall s type value rest toks carry,
    skip_spaces s = s ->
    lexStep s = LexToken type value rest ->
    Lexes rest toks carry ->
    Lexes s ((type, value) :: toks) carry.
Proof.
  intros s type value rest toks carry Hs Hstep H.
  eapply lexes_token; [rewrite Hs; exact Hstep|exact H].
Qed.


Lemma list_max_bound : forall l n, list_max l <= n -> Forall (fun k => k <= n) l.
Proof.
  induction l as [|k l IH]; intros n H; constructor; simpl in H; [lia|].
  apply IH. lia.
Qed.

Lemma elements_wf : forall n pad elements,
    wf (JArray pad elements) = true ->
    nesting (JArray pad elements) <= S n ->
    isBlank pad = true /\ Forall (wf_element n) elements.
Proof.
  intros n pad elements Hwf Hn. cbn [wf nesting] in *.
  apply andb_true_iff in Hwf. destruct Hwf as [Hp Hall]. split; [exact Hp|].
  apply le_S_n in Hn. apply list_max_bound in Hn.
  induction elements as [|[[b v] a] es IH]; constructor.
  - simpl in Hall. apply andb_true_iff in Hall. destruct Hall as [H _].
    apply andb_true_iff in H. destruct H as [H Ha].
    apply andb_true_iff in H. destruct H as [Hb Hv].
    inversion Hn; subst. simpl. auto.
  - apply IH.
    + simpl in Hall. apply andb_true_iff in Hall. tauto.
    + inversion Hn; assumption.
Qed.

Lemma members_wf : forall n pad members,
    wf (JObject pad members) = true ->
    nesting (JObject pad members) <= S n ->
    isBlank pad = true /\ Forall (wf_member n) members.
Proof.
  intros n pad members Hwf Hn. cbn [wf nesting] in *.
  apply andb_true_iff in Hwf. destruct Hwf as [Hp Hall]. split; [exact Hp|].
  apply le_S_n in Hn. apply list_max_bound in Hn.
  induction members as [|[[[[[w1 name] w2] w3] v] w4] ms IH]; constructor.
  - simpl in Hall. apply andb_true_iff in Hall. destruct Hall as [H _].
    repeat (apply andb_true_iff in H;
            let H' := fresh "H" in destruct H as [H H']).
    inversion Hn; subst. simpl. auto 10.
  - apply IH.
    + simpl in Hall. apply andb_true_iff in Hall. tauto.
    + inversion Hn; assumption.
Qed.

Section RenderLexes.

Variable n : nat.

Hypothesis values_lex : forall j rest toks carry,
    nesting j <= n ->
    wf j = true ->
    isContainer j = true \/ delimited rest ->
    Lexes rest toks carry ->
    Lexes (render j ++ rest) (tokensOf j ++ toks) carry.

Lemma elements_lex : forall es closer rest toksEnd carry,
    es <> [] ->
    Forall (wf_element n) es ->
    isDelimiter closer = true ->
    Lexes (closer :: rest) toksEnd carry ->
    Lexes (join [","%char]
             (map (fun e => match e with
                            | (before, v, after) => before ++ render v ++ after
                            end) es) ++ closer :: rest)
          (join [(TkComma, VNull)]
             (map (fun e => match e with (_, v, _) => tokensOf v end) es) ++ toksEnd)
          carry.
Proof.
  induction es as [|[[b v] a] es IH]; intros closer rest toksEnd carry Hne Hall Hc Hend;
    [contradiction|].
  inversion Hall as [|x l He Hrest]; subst.
  cbn [wf_element] in He. destruct He as [Hb [Hv [Ha Hn]]].
  destruct es as [|e2 es].
  - cbn [map join]. rewrite <- !app_assoc.
    apply Lexes_blank; [exact Hb|].
    apply values_lex; auto.
    + right. apply delimited_blank; assumption.
    + apply Lexes_blank; assumption.
  - change (join [","%char] (map ?f ((b, v, a) :: e2 :: es)))
      with ((b ++ render v ++ a) ++ [","%char] ++ join [","%char] (map f (e2 :: es))).
    change (join [(TkComma, VNull)] (map ?f ((b, v, a) :: e2 :: es)))
      with (tokensOf v ++ [(TkComma, VNull)]
            ++ join [(TkComma, VNull)] (map f (e2 :: es))).
    rewrite <- !app_assoc. cbn [app].
    apply Lexes_blank; [exact Hb|].
    apply values_lex; auto.
    + right. apply delimited_blank; [exact Ha|reflexivity].
    + apply Lexes_blank; [exact Ha|].
      eapply Lexes_step; [reflexivity|reflexivity|].
      apply IH; auto. discriminate.
Qed.

Lemma members_lex : forall ms closer rest toksEnd carry,
    ms <> [] ->
    Forall (wf_member n) ms ->
    isDelimiter closer = true ->
    Lexes (closer :: rest) toksEnd carry ->
    Lexes (join [","%char]
             (map (fun m => match m with
                            | (w1, name, w2, w3, v, w4) =>
                                w1 ++ render_string name ++ w2 ++ [":"%char]
                                ++ w3 ++ render v ++ w4
                            end) ms) ++ closer :: rest)
          (join [(TkComma, VNull)]
             (map (fun m => match m with
                            | (_, name, _, _, v, _) =>
                                (TkString, VStr (string_value name))
                                :: (TkColon, VNull) :: tokensOf v
                            end) ms) ++ toksEnd)
          carry.
Proof.
  induction ms as [|[[[[[w1 name] w2] w3] v] w4] ms IH];
    intros closer rest toksEnd carry Hne Hall Hc Hend; [contradiction|].
  inversion Hall as [|x l Hm Hrest]; subst.
  cbn [wf_member] in Hm. destruct Hm as (H1 & Hname & H2 & H3 & Hv & H4 & Hn).
  assert (Hmember : forall tail toks,
             delimited (w4 ++ tail) ->
             Lexes (w4 ++ tail) toks carry ->
             Lexes (w1 ++ render_string name ++ w2 ++ ":"%char :: w3
                    ++ render v ++ w4 ++ tail)
                   ((TkString, VStr (string_value name)) :: (TkColon, VNull)
                    :: tokensOf v ++ toks) carry).
  { intros tail toks Hd Ht.
    apply Lexes_blank; [exact H1|].
    eapply Lexes_step;
      [apply string_not_blank|apply lexStep_string; exact Hname|].
    apply Lexes_blank; [exact H2|].
    eapply Lexes_step; [reflexivity|reflexivity|].
    apply Lexes_blank; [exact H3|].
    apply values_lex; auto. }
  destruct ms as [|m2 ms].
  - cbn [map join]. rewrite <- !app_assoc. cbn [app]. rewrite <- ?app_assoc.
    apply Hmember.
    + apply delimited_blank; assumption.
    + apply Lexes_blank; assumption.
  - change (join [","%char] (map ?f ((w1, name, w2, w3, v, w4) :: m2 :: ms)))
      with ((w1 ++ render_string name ++ w2 ++ [":"%char] ++ w3 ++ render v ++ w4)
            ++ [","%char] ++ join [","%char] (map f (m2 :: ms))).
    change (join [(TkComma, VNull)] (map ?f ((w1, name, w2, w3, v, w4) :: m2 :: ms)))
      with (((TkString, VStr (string_value name)) :: (TkColon, VNull) :: tokensOf v)
            ++ [(TkComma, VNull)]
            ++ join [(TkComma, VNull)] (map f (m2 :: ms))).
    rewrite <- !app_assoc. cbn [app]. rewrite <- ?app_assoc.
    apply Hmember.
    + apply delimited_blank; [exact H4|reflexivity].
    + apply Lexes_blank; [exact H4|].
      eapply Lexes_step; [reflexivity|reflexivity|].
      apply IH; auto. discriminate.
Qed.

End RenderLexes.

(** The tokenizer's view of a well-formed value followed by [rest]. *)
Lemma render_lexes : forall n j rest toks carry,
    nesting j <= n ->
    wf j = true ->
    isContainer j = true \/ delimited rest ->
    Lexes rest toks carry ->
    Lexes (render j ++ rest) (tokensOf j ++ toks) carry.
Proof.
  induction n as [|n IH]; intros j rest toks carry Hn Hwf Hd Hrest.
  - destruct j as [|b|lit|items|pad es|pad ms]; cbn [nesting] in Hn; try lia;
      (destruct Hd as [Hd|Hd]; [discriminate|]); cbn [render tokensOf app].
    + eapply Lexes_step; [reflexivity|apply lexStep_null; exact Hd|exact Hrest].
    + destruct b.
      * eapply Lexes_step; [reflexivity|apply lexStep_true; exact Hd|exact Hrest].
      * eapply Lexes_step; [reflexivity|apply lexStep_false; exact Hd|exact Hrest].
    + destruct (lexStep_number lit rest Hwf Hd) as [Hs Hl].
      eapply Lexes_step; eassumption.
    + eapply Lexes_step;
        [apply string_not_blank|apply lexStep_string; exact Hwf|exact Hrest].
  - destruct j as [|b|lit|items|pad es|pad ms];
      try (apply (IH _ rest toks carry); [cbn [nesting]; lia|assumption..]).
    + destruct (elements_wf n pad es Hwf Hn) as [Hp Hall].
      cbn [render tokensOf]. rewrite <- !app_comm_cons.
      eapply Lexes_step; [reflexivity|reflexivity|].
      rewrite <- !app_assoc. cbn [app].
      destruct es as [|e es].
      * cbn [map join app]. apply Lexes_blank; [exact Hp|].
        eapply Lexes_step; [reflexivity|reflexivity|exact Hrest].
      * apply (elements_lex n IH); auto; [discriminate|].
        eapply Lexes_step; [reflexivity|reflexivity|exact Hrest].
    + destruct (members_wf n pad ms Hwf Hn) as [Hp Hall].
      cbn [render tokensOf]. rewrite <- !app_comm_cons.
      eapply Lexes_step; [reflexivity|reflexivity|].
      rewrite <- !app_assoc. cbn [app].
      destruct ms as [|m ms].
      * cbn [map join app]. apply Lexes_blank; [exact Hp|].
        eapply Lexes_step; [reflexivity|reflexivity|exact Hrest].
      * apply (members_lex n IH); auto; [discriminate|].
        eapply Lexes_step; [reflexivity|reflexivity|exact Hrest].
Qed.
(* ------------------------------------------------------------------ *)
(** ** The handlers on the tokens of a document *)

Lemma sameSetup_refl : forall p, sameSetup p p.
Proof. intros p. unfold sameSetup. auto. Qed.

Lemma sameSetup_trans : forall p q r, sameSetup p q -> sameSetup q r -> sameSetup p r.
Proof.
  unfold sameSetup. intros p q r (A1 & A2 & A3 & A4 & A5) (B1 & B2 & B3 & B4 & B5).
  repeat split; congruence.
Qed.

Lemma strictSetup_same : forall su p p',
    strictSetup su p -> sameSetup p p' -> strictSetup su p'.
Proof.
  unfold strictSetup, sameSetup.
  intros su p p' (A1 & A2 & A3 & A4) (B1 & B2 & B3 & _). rewrite B1, B2, B3. auto.
Qed.

Lemma frame_segment_shape : forall isLast frame,
    frame_segment isLast false frame = shape_segment isLast (shape_of frame).
Proof.
  intros isLast frame. unfold frame_segment, shape_segment, shape_of.
  cbn [sh_type sh_key sh_index]. rewrite orb_false_r. reflexivity.
Qed.

Lemma getCurrentPath_shapes : forall p,
    getCurrentPath false p = shapesPath (map shape_of (p_stack p)).
Proof.
  intros p. unfold getCurrentPath, shapesPath.
  destruct (p_stack p) as [|top below]; [reflexivity|]. cbn [map].
  rewrite frame_segment_shape. f_equal.
  rewrite <- map_rev. induction (rev below) as [|fr l IH]; [reflexivity|].
  cbn [map flat_map]. rewrite frame_segment_shape, IH. reflexivity.
Qed.

Lemma startContainer_ideal : forall su kind next p v',
    strictSetup su p ->
    openV su kind next (view p) = Some v' ->
    exists p',
      (startContainer kind >> modify (set_state next)) p = (p', None)
      /\ view p' = v' /\ sameSetup p p'.
Proof.
  intros su kind next p v' (Hval & Hfuel & Hllm & Hmax) H.
  unfold openV, view in H. cbn [v_stack v_result v_errors] in H.
  rewrite length_map, <- Hmax in H.
  destruct (lengthReaches (List.length (p_stack p)) (o_maxDepth (p_options p))) eqn:Hd;
    [discriminate|].
  rewrite <- getCurrentPath_shapes, <- Hval, <- Hfuel in H.
  unfold andThen, startContainer, depthExceeded. rewrite Hd. cbv zeta.
  unfold checkOpening in H.
  destruct (p_validator p) as [V|] eqn:HV.
  - destruct (getSchemaAtPath V (stack_limit (p_rt p)) (getCurrentPath false p))
      as [s|]; [|discriminate].
    cbn [obind] in H |- *.
    destruct kind;
      (match goal with
       | H : context [canBeType ?a ?b ?c ?d] |- _ =>
           destruct (canBeType a b c d) as [[|]|]; [| |discriminate]
       end);
      cbn [obind] in H |- *; inversion H; subst; clear H;
      (eexists; split; [reflexivity|]; split;
       [unfold view; cbn; rewrite ?app_nil_r; reflexivity
       |unfold sameSetup; cbn; auto]).
  - inversion H; subst; clear H.
    eexists. split; [reflexivity|]. split.
    + unfold view. cbn. rewrite app_nil_r. reflexivity.
    + unfold sameSetup. cbn. auto.
Qed.

Lemma assignValue_ideal : forall value p stack result,
    assignV value (map shape_of (p_stack p)) (p_result p) = Some (stack, result) ->
    exists p',
      assignValue value p = (p', None)
      /\ view p' = mkView (p_state p) stack result (p_errors p) /\ sameSetup p p'.
Proof.
  intros value [rt tkz val opts st stk res errs bytes comp pend] stack result H.
  cbn [p_stack p_result p_state p_errors] in *.
  unfold assignValue, currentFrame. cbn [p_stack hd_error].
  destruct stk as [|fr below]; cbn [map assignV hd_error] in *.
  - inversion H; subst. eexists. split; [reflexivity|].
    split; [reflexivity|unfold sameSetup; cbn; auto].
  - unfold shape_of in H. cbn [sh_type sh_key sh_data sh_index] in H.
    destruct (f_type fr) eqn:Ht.
    + destruct (truthy_key (f_currentKey fr)) as [key|] eqn:Hk; [|discriminate].
      inversion H; subst. eexists. split; [reflexivity|].
      split; [|unfold sameSetup; cbn; auto].
      unfold view, shape_of. cbn. rewrite ?Ht. reflexivity.
    + inversion H; subst. eexists. split; [reflexivity|].
      split; [|unfold sameSetup; cbn; auto].
      unfold view, shape_of. cbn. rewrite ?Ht. reflexivity.
Qed.

(** The parser's [validateValue] appends what the validator returns. *)
Lemma validateValue_ideal : forall su value path p new,
    strictSetup su p ->
    checkValue (su_validator su) (su_fuel su) value path = Some new ->
    exists errors,
      parser_validateValue value path p = (set_errors errors p, None)
      /\ errors = p_errors p ++ new.
Proof.
  intros su value path p new (Hval & Hfuel & _) H.
  unfold checkValue in H. rewrite <- Hval, <- Hfuel in H.
  unfold parser_validateValue.
  destruct (p_validator p) as [V|].
  - rewrite H. eexists. split; reflexivity.
  - inversion H; subst. exists (p_errors p). rewrite app_nil_r. split; [|reflexivity].
    destruct p; reflexivity.
Qed.

Lemma valuePath_shapes : forall p frame below,
    p_stack p = frame :: below ->
    valuePath (map shape_of (p_stack p))
    = getCurrentPath false p
      ++ match f_type frame with
         | FObject => match truthy_key (f_currentKey frame) with
                      | Some key => [key]
                      | None => []
                      end
         | FArray => [string_of_nat (f_arrayIndex frame)]
         end.
Proof.
  intros p frame below Hs. rewrite getCurrentPath_shapes, Hs. reflexivity.
Qed.

Lemma setValue_ideal : forall su value p stack result new,
    strictSetup su p ->
    assignV value (map shape_of (p_stack p)) (p_result p) = Some (stack, result) ->
    checkValue (su_validator su) (su_fuel su) value
      (valuePath (map shape_of (p_stack p))) = Some new ->
    exists p',
      setValue value p = (p', None)
      /\ view p' = mkView (p_state p) stack result (p_errors p ++ new)
      /\ sameSetup p p'.
Proof.
  intros su value p stack result new Hs H Hc.
  destruct (p_stack p) as [|fr below] eqn:Hstk.
  - cbn [map assignV valuePath] in *. inversion H; subst; clear H.
    unfold setValue, currentFrame. rewrite Hstk. cbn [hd_error].
    destruct (validateValue_ideal su value [] (set_result (Some value) p) new)
      as (errors & E & ->); [exact Hs|exact Hc|].
    rewrite E. eexists. split; [reflexivity|].
    split; [unfold view; cbn; rewrite Hstk; reflexivity|unfold sameSetup; cbn; auto].
  - rewrite <- Hstk in Hc. rewrite (valuePath_shapes p fr below Hstk) in Hc.
    cbn [map assignV] in H. unfold shape_of at 1 2 3 4 in H.
    cbn [sh_type sh_key sh_data sh_index] in H.
    unfold setValue, pushArrayValue, currentFrame. rewrite Hstk. cbn [hd_error].
    destruct (f_type fr) eqn:Ht.
    + destruct (truthy_key (f_currentKey fr)) as [key|] eqn:Hk; [|discriminate].
      inversion H; subst; clear H. cbv zeta.
      unfold andThen at 1 2. unfold modify at 1.
      match goal with
      | |- context [parser_validateValue ?v ?path ?q] =>
          destruct (validateValue_ideal su v path q new) as (errors & E & ->);
          [exact Hs|exact Hc|]
      end.
      rewrite E. unfold modify, currentFrame, replace_top.
      cbn. rewrite Hstk. cbn.
      eexists. split; [reflexivity|].
      split; [|unfold sameSetup; cbn; auto].
      unfold view, shape_of. cbn. rewrite ?Ht. reflexivity.
    + inversion H; subst; clear H. cbv zeta.
      unfold andThen at 1 2. unfold modify at 1.
      match goal with
      | |- context [parser_validateValue ?v ?path ?q] =>
          destruct (validateValue_ideal su v path q new) as (errors & E & ->);
          [exact Hs|exact Hc|]
      end.
      rewrite E. unfold modify, currentFrame, replace_top.
      cbn. rewrite Hstk. cbn.
      eexists. split; [reflexivity|].
      split; [|unfold sameSetup; cbn; auto].
      unfold view, shape_of. cbn. rewrite ?Ht. reflexivity.
Qed.

Lemma endContainer_ideal : forall su kind p v',
    strictSetup su p ->
    closeV su kind (view p) = Some v' ->
    exists p',
      endContainer kind p = (p', None) /\ view p' = v' /\ sameSetup p p'.
Proof.
  intros su kind p v' Hs H.
  unfold closeV, view in H. cbn [v_stack v_result v_errors] in H.
  destruct (p_stack p) as [|fr below] eqn:Hstk; [discriminate|].
  cbn [map] in H. change (sh_type (shape_of fr)) with (f_type fr) in H.
  change (sh_data (shape_of fr)) with (f_data fr) in H.
  destruct (frameType_eqb (f_type fr) kind) eqn:Hk; [|discriminate].
  destruct (checkValue (su_validator su) (su_fuel su) (f_data fr)
              (shapesPath (map shape_of below))) as [new|] eqn:Hc; [|discriminate].
  destruct (assignV (f_data fr) (map shape_of below) (p_result p))
    as [[stack result]|] eqn:Ha; [|discriminate].
  inversion H; subst; clear H.
  unfold endContainer. rewrite Hstk, Hk. cbn [negb]. cbv zeta.
  unfold andThen at 1 2 3. unfold modify at 1.
  assert (Hpath : getCurrentPath false (set_stack below p)
                  = shapesPath (map shape_of below))
    by (rewrite getCurrentPath_shapes; reflexivity).
  rewrite Hpath.
  match goal with
  | |- context [parser_validateValue ?v ?path ?q] =>
      destruct (validateValue_ideal su v path q new) as (errors & E & ->);
      [exact Hs|exact Hc|]
  end.
  rewrite E.
  match goal with
  | |- context [assignValue ?v ?q] =>
      destruct (assignValue_ideal v q stack result) as (p' & E' & Hv & Hsame);
      [exact Ha|]
  end.
  rewrite E'. assert (Hv' := Hv). unfold view in Hv'.
  injection Hv' as Hst Hstk' Hres Herr.
  assert (Hempty : isEmpty (p_stack p') = isEmpty stack).
  { rewrite <- Hstk'. destruct (p_stack p'); reflexivity. }
  rewrite Hempty.
  destruct Hsame as (S1 & S2 & S3 & S4 & S5). cbn in S1, S2, S3, S4, S5.
  cbn in Herr.
  destruct (isEmpty stack); eexists; (split; [reflexivity|]);
    (split; [unfold view; cbn; rewrite Hstk', Hres, Herr; reflexivity|]);
    unfold sameSetup; cbn; auto.
Qed.

Lemma openV_state : forall su kind next v v',
    openV su kind next v = Some v' -> v_state v' = next.
Proof.
  intros su kind next v v' H. unfold openV in H.
  destruct (lengthReaches _ _); [discriminate|].
  destruct (checkOpening _ _ _ _); [|discriminate].
  inversion H; reflexivity.
Qed.

Lemma hintFits_false : forall v, hintFits false v.
Proof. intros v H. discriminate. Qed.

Lemma hint_off : forall expecting p,
    hintFits expecting (view p) ->
    p_state p <> ExpectingKey -> p_state p <> Initial -> p_state p <> Complete ->
    expecting = false.
Proof.
  intros [|] p H H1 H2 H3; [|reflexivity].
  destruct (H eq_refl) as [E|[E|E]]; cbn in E; contradiction.
Qed.

Lemma scalar_ideal : forall su value p v',
    strictSetup su p ->
    scalarV su value (view p) = Some v' ->
    exists p',
      (setValue value >> modify (set_state ExpectingCommaOrEnd)) p = (p', None)
      /\ view p' = v' /\ sameSetup p p'.
Proof.
  intros su value p v' Hs H. unfold scalarV in H.
  cbn [view v_stack v_result v_errors] in H.
  destruct (assignV value (map shape_of (p_stack p)) (p_result p))
    as [[stack result]|] eqn:Ha; [|discriminate].
  destruct (checkValue (su_validator su) (su_fuel su) value
              (valuePath (map shape_of (p_stack p)))) as [new|] eqn:Hc;
    [|discriminate].
  inversion H; subst; clear H.
  destruct (setValue_ideal su value p stack result new Hs Ha Hc) as (p' & E & V & S).
  unfold andThen, modify. rewrite E.
  eexists. split; [reflexivity|].
  unfold view in V. injection V as V1 V2 V3 V4.
  split; [unfold view; cbn; rewrite V2, V3, V4; reflexivity|].
  destruct S as (S1 & S2 & S3 & S4 & S5). unfold sameSetup. cbn. auto.
Qed.

Lemma setValue_array : forall value p frame below,
    p_stack p = frame :: below ->
    f_type frame = FArray ->
    pushArrayValue value p = setValue value p.
Proof.
  intros value p frame below Hs Ht. unfold setValue, currentFrame.
  rewrite Hs. cbn [hd_error]. rewrite Ht. reflexivity.
Qed.

Lemma push_ideal : forall value p frame below su v',
    p_stack p = frame :: below ->
    f_type frame = FArray ->
    strictSetup su p ->
    scalarV su value (view p) = Some v' ->
    exists p',
      (pushArrayValue value >> modify (set_state ExpectingCommaOrEnd)) p = (p', None)
      /\ view p' = v' /\ sameSetup p p'.
Proof.
  intros value p frame below su v' Hs Ht Hval H.
  destruct (scalar_ideal su value p v' Hval H) as (p' & E & V & S).
  exists p'. split; [|auto]. unfold andThen in *.
  rewrite (setValue_array value p frame below Hs Ht). exact E.
Qed.

Lemma root_scalar_ideal : forall su value p new,
    strictSetup su p ->
    checkValue (su_validator su) (su_fuel su) value [] = Some new ->
    exists p',
      (modify (set_result (Some value)) >> parser_validateValue value []
       >> modify (set_state Complete)) p = (p', None)
      /\ view p' = mkView Complete (map shape_of (p_stack p)) (Some value)
                     (p_errors p ++ new)
      /\ sameSetup p p'.
Proof.
  intros su value p new Hs Hc.
  unfold andThen at 1 2. unfold modify at 1.
  destruct (validateValue_ideal su value [] (set_result (Some value) p) new)
    as (errors & E & ->); [exact Hs|exact Hc|].
  rewrite E. unfold modify.
  eexists. split; [reflexivity|]. split; [reflexivity|].
  unfold sameSetup. cbn. auto.
Qed.

Ltac use_ideal lemma Hval H :=
  let p' := fresh "p'" in
  let E := fresh "E" in
  let V := fresh "V" in
  let S := fresh "S" in
  destruct lemma as (p' & E & V & S);
  [exact Hval|exact H|];
  exists p'; split; [exact E|]; split; [exact V|]; split; [exact S|].

Lemma processToken_ideal : forall su p token expecting type value v',
    strictSetup su p ->
    hintFits expecting (view p) ->
    idealStep su (view p) (type, value) = Some v' ->
    tk_type token = actualType expecting type ->
    tk_value token = value ->
    exists p',
      processToken token p = (p', None)
      /\ view p' = v'
      /\ sameSetup p p'
      /\ hintFits (flagAfter expecting type) v'.
Proof.
  intros su p token expecting type value v' Hval Hfit H Hty Hv.
  subst value.
  unfold idealStep in H. unfold processToken.
  assert (Hview : forall st, p_state p = st ->
                             mkView st (map shape_of (p_stack p)) (p_result p)
                               (p_errors p) = view p)
    by (intros st <-; reflexivity).
  destruct (p_state p) eqn:Hst;
    unfold view in H; cbn [v_state v_stack v_result v_errors] in H; rewrite Hst in H;
    try discriminate; rewrite ?(Hview _ eq_refl) in H.
  - (* Initial *)
    destruct type; try discriminate; cbn [actualType] in Hty; rewrite Hty;
      unfold handleInitialState; rewrite Hty.
    + use_ideal (startContainer_ideal su FObject ExpectingKey p v') Hval H.
      intros _. left. eapply openV_state. exact H.
    + use_ideal (startContainer_ideal su FArray InArray p v') Hval H.
      apply hintFits_false.
    + destruct (checkValue (su_validator su) (su_fuel su) (tk_value token) [])
        as [new|] eqn:Hc; [|discriminate].
      inversion H; subst; clear H.
      destruct (root_scalar_ideal su (tk_value token) p new Hval Hc)
        as (p' & E & V & S).
      exists p'. split; [exact E|]. split; [exact V|]. split; [exact S|].
      intros _. right. right. reflexivity.
    + destruct (checkValue (su_validator su) (su_fuel su) (tk_value token) [])
        as [new|] eqn:Hc; [|discriminate].
      inversion H; subst; clear H.
      destruct (root_scalar_ideal su (tk_value token) p new Hval Hc)
        as (p' & E & V & S).
      exists p'. split; [exact E|]. split; [exact V|]. split; [exact S|].
      intros _. right. right. reflexivity.
    + destruct (checkValue (su_validator su) (su_fuel su) (tk_value token) [])
        as [new|] eqn:Hc; [|discriminate].
      inversion H; subst; clear H.
      destruct (root_scalar_ideal su (tk_value token) p new Hval Hc)
        as (p' & E & V & S).
      exists p'. split; [exact E|]. split; [exact V|]. split; [exact S|].
      intros _. right. right. reflexivity.
  - (* InArray *)
    assert (expecting = false) by (apply (hint_off _ p Hfit); congruence).
    subst expecting.
    destruct (p_stack p) as [|fr below] eqn:Hstk; [discriminate|].
    cbn [map] in H. change (sh_type (shape_of fr)) with (f_type fr) in H.
    destruct (f_type fr) eqn:Hft; [discriminate|].
    unfold handleArrayState, currentFrame. rewrite Hstk. cbn [hd_error]. rewrite Hft.
    destruct type; try discriminate; cbn [actualType] in Hty; rewrite Hty;
      cbn [flagAfter].
    + use_ideal (startContainer_ideal su FObject ExpectingKey p v') Hval H.
      intros _. left. eapply openV_state. exact H.
    + use_ideal (startContainer_ideal su FArray InArray p v') Hval H.
      apply hintFits_false.
    + use_ideal (endContainer_ideal su FArray p v') Hval H. apply hintFits_false.
    + use_ideal (push_ideal (tk_value token) p fr below su v' Hstk Hft) Hval H. apply hintFits_false.
    + use_ideal (push_ideal (tk_value token) p fr below su v' Hstk Hft) Hval H. apply hintFits_false.
    + use_ideal (push_ideal (tk_value token) p fr below su v' Hstk Hft) Hval H. apply hintFits_false.
    + use_ideal (push_ideal (tk_value token) p fr below su v' Hstk Hft) Hval H. apply hintFits_false.
  - (* ExpectingKey *)
    destruct (p_stack p) as [|fr below] eqn:Hstk; [discriminate|].
    cbn [map] in H. change (sh_type (shape_of fr)) with (f_type fr) in H.
    destruct (f_type fr) eqn:Hft; [|discriminate].
    unfold handleObjectState, currentFrame. rewrite Hstk. cbn [hd_error]. rewrite Hft.
    destruct type; try discriminate; cbn [actualType] in Hty.
    + rewrite Hty.
      use_ideal (endContainer_ideal su FObject p v') Hval H. apply hintFits_false.
    + inversion H; subst; clear H.
      assert (Hkey : exists p',
                 (set_state ExpectingColon
                    (addPending
                       (join_path (getCurrentPath false
                          (replace_top (frame_setKey (token_string token) fr) p)))
                       (replace_top (frame_setKey (token_string token) fr) p)), None)
                 = (p', @None Exn)
                 /\ view p' = mkView ExpectingColon
                      (mkShape FObject (sh_data (shape_of fr))
                         (Some (core_string (tk_value token)))
                         (sh_index (shape_of fr)) :: map shape_of below)
                      (p_result p) (p_errors p)
                 /\ sameSetup p p').
      { eexists. split; [reflexivity|]. split; [|unfold sameSetup; cbn; auto].
        unfold view. cbn. rewrite Hstk. cbn. unfold shape_of at 1. cbn.
        rewrite Hft. reflexivity. }
      destruct Hkey as (p' & E & V & S).
      exists p'. split; [|split; [exact V|split; [exact S|apply hintFits_false]]].
      rewrite Hty. destruct expecting; exact E.
  - (* ExpectingColon *)
    assert (expecting = false) by (apply (hint_off _ p Hfit); congruence).
    subst expecting.
    destruct type; try discriminate; cbn [actualType] in Hty; rewrite Hty.
    unfold handleColonState. rewrite Hty. inversion H; subst; clear H.
    eexists. split; [reflexivity|]. split; [reflexivity|].
    split; [unfold sameSetup; cbn; auto|apply hintFits_false].
  - (* ExpectingValue *)
    assert (expecting = false) by (apply (hint_off _ p Hfit); congruence).
    subst expecting.
    unfold handleValueState.
    destruct type; try discriminate; cbn [actualType] in Hty; rewrite Hty;
      cbn [flagAfter].
    + use_ideal (startContainer_ideal su FObject ExpectingKey p v') Hval H.
      intros _. left. eapply openV_state. exact H.
    + use_ideal (startContainer_ideal su FArray InArray p v') Hval H.
      apply hintFits_false.
    + use_ideal (scalar_ideal su (tk_value token) p v') Hval H. apply hintFits_false.
    + use_ideal (scalar_ideal su (tk_value token) p v') Hval H. apply hintFits_false.
    + use_ideal (scalar_ideal su (tk_value token) p v') Hval H. apply hintFits_false.
    + use_ideal (scalar_ideal su (tk_value token) p v') Hval H. apply hintFits_false.
  - (* ExpectingCommaOrEnd *)
    assert (expecting = false) by (apply (hint_off _ p Hfit); congruence).
    subst expecting.
    destruct (p_stack p) as [|fr below] eqn:Hstk; [discriminate|].
    cbn [map] in H. change (sh_type (shape_of fr)) with (f_type fr) in H.
    unfold handleCommaOrEndState, currentFrame. rewrite Hstk. cbn [hd_error].
    destruct type; try discriminate; cbn [actualType] in Hty; rewrite Hty;
      cbn [flagAfter].
    + destruct (f_type fr) eqn:Hft; [|discriminate].
      use_ideal (endContainer_ideal su FObject p v') Hval H. apply hintFits_false.
    + destruct (f_type fr) eqn:Hft; [discriminate|].
      use_ideal (endContainer_ideal su FArray p v') Hval H. apply hintFits_false.
    + inversion H; subst; clear H.
      destruct (f_type fr) eqn:Hft; eexists; (split; [reflexivity|]);
        (split; [unfold view; cbn; rewrite Hstk; cbn; reflexivity|]);
        (split; [unfold sameSetup; cbn; auto|apply hintFits_false]).
Qed.

(** ** The tokens of a document, one value after the other *)

Lemma elements_named : forall n pad elements,
    namesAssignable (JArray pad elements) = true ->
    nesting (JArray pad elements) <= S n ->
    Forall (named_element n) elements.
Proof.
  intros n pad elements Hnm Hn. cbn [namesAssignable nesting] in *.
  apply le_S_n in Hn. apply list_max_bound in Hn.
  induction elements as [|[[b v] a] es IH]; constructor.
  - simpl in Hnm. apply andb_true_iff in Hnm. destruct Hnm as [H _].
    inversion Hn; subst. simpl. auto.
  - apply IH.
    + simpl in Hnm. apply andb_true_iff in Hnm. tauto.
    + inversion Hn; assumption.
Qed.

Lemma members_named : forall n pad members,
    namesAssignable (JObject pad members) = true ->
    nesting (JObject pad members) <= S n ->
    Forall (named_member n) members.
Proof.
  intros n pad members Hnm Hn. cbn [namesAssignable nesting] in *.
  apply le_S_n in Hn. apply list_max_bound in Hn.
  induction members as [|[[[[[w1 name] w2] w3] v] w4] ms IH]; constructor.
  - simpl in Hnm. apply andb_true_iff in Hnm. destruct Hnm as [H _].
    apply andb_true_iff in H. destruct H as [H1 H2].
    inversion Hn; subst. simpl. auto.
  - apply IH.
    + simpl in Hnm. apply andb_true_iff in Hnm. tauto.
    + inversion Hn; assumption.
Qed.

Lemma assignable_truthy : forall key,
    assignable key = true ->
    truthy_key (Some key) = Some key
    /\ forall value kvs, data_set key value (VObj kvs) = VObj (assoc_set key value kvs).
Proof.
  intros key H. unfold assignable in H. apply andb_true_iff in H.
  destruct H as [H1 H2]. apply negb_true_iff in H1, H2.
  split.
  - unfold truthy_key. rewrite H1. reflexivity.
  - intros value kvs. unfold data_set. rewrite H2. reflexivity.
Qed.

(** ** Paths from the frames and from the places *)

Lemma segment_place : forall shape,
    (sh_type shape = FObject ->
     truthy_key (sh_key shape) = sh_key shape /\ sh_key shape <> None) ->
    shape_segment false shape = place_segment false (place_of shape).
Proof.
  intros [ty data key idx] H. unfold shape_segment, place_of.
  cbn [sh_type sh_key sh_index] in *.
  destruct ty; [|reflexivity].
  destruct (H eq_refl) as [Ht Hk]. rewrite Ht.
  destruct key as [k|]; [reflexivity|contradiction].
Qed.

Lemma segment_place_top : forall shape,
    shape_segment true shape = place_segment true (place_of shape).
Proof.
  intros [ty data key idx]. unfold shape_segment, place_of.
  cbn [sh_type sh_key sh_index].
  destruct ty; [|reflexivity].
  destruct (truthy_key key); reflexivity.
Qed.

Lemma keyed_segments : forall stack,
    keyed stack ->
    flat_map (shape_segment false) (rev stack)
    = flat_map (place_segment false) (rev (map place_of stack)).
Proof.
  intros stack H. rewrite <- map_rev.
  assert (Hr : Forall (fun shape => sh_type shape = FObject ->
                                    truthy_key (sh_key shape) = sh_key shape
                                    /\ sh_key shape <> None) (rev stack))
    by (apply Forall_rev; exact H).
  induction Hr as [|shape l Hs Hl IH]; [reflexivity|].
  cbn [map flat_map]. rewrite (segment_place shape Hs), IH. reflexivity.
Qed.

Lemma shapesPath_places : forall stack,
    keyed (tl stack) -> shapesPath stack = framesPath (map place_of stack).
Proof.
  intros [|top below] H; [reflexivity|]. cbn [tl] in H.
  unfold shapesPath, framesPath. cbn [map].
  rewrite (keyed_segments below H), segment_place_top. reflexivity.
Qed.

Lemma valuePath_places : forall stack,
    keyed stack -> valuePath stack = scalarPath (map place_of stack).
Proof.
  intros [|top below] H; [reflexivity|].
  unfold valuePath, scalarPath. cbn [map].
  change (place_of top :: map place_of below) with (map place_of (top :: below)).
  rewrite <- shapesPath_places by (inversion H; assumption).
  inversion H as [|x l Htop Hbelow]; subst.
  unfold place_of at 1.
  destruct top as [ty data key idx]. cbn [sh_type sh_key sh_index] in *.
  destruct ty; [|reflexivity].
  destruct (Htop eq_refl) as [Ht Hk]. rewrite Ht.
  destruct key as [k|]; [reflexivity|contradiction].
Qed.

Lemma lengthReaches_fits : forall limit total k,
    fitsDepth total limit = true -> k < total -> lengthReaches k limit = false.
Proof.
  intros limit [|t] k H Hk; [lia|]. cbn [fitsDepth] in H.
  apply negb_true_iff in H.
  apply (lengthReaches_below limit t k); [lia|exact H].
Qed.

Lemma fitsDepth_below : forall limit total total',
    fitsDepth total limit = true -> total' <= total -> fitsDepth total' limit = true.
Proof.
  intros limit total [|t'] H Hle; [reflexivity|]. cbn [fitsDepth].
  apply negb_true_iff. apply (lengthReaches_fits limit total); [exact H|lia].
Qed.

(** ** Single steps *)

Lemma ready_scalar_step : forall su j v type value,
    ready j v ->
    isContainer j = false ->
    isScalarToken type = true ->
    (type = TkString -> v_state v <> Initial) ->
    idealStep su v (type, value)
    = match checkValue (su_validator su) (su_fuel su) value
              (scalarPath (map place_of (v_stack v))) with
      | Some new => afterValue new value v
      | None => None
      end.
Proof.
  intros su j [st stack res errs] type value [Hk Hr] Hc Hs Hstr.
  cbn [v_state v_stack] in *. unfold idealStep. cbn [v_state v_stack].
  destruct st; try contradiction.
  - destruct Hr as [-> Hroot]. cbn [map scalarPath].
    unfold afterValue. cbn [v_stack v_result v_errors assignV isEmpty].
    destruct type; try discriminate; try reflexivity.
    exfalso. apply Hstr; reflexivity.
  - destruct stack as [|fr below]; [contradiction|]. rewrite Hr.
    rewrite <- valuePath_places by exact Hk.
    assert (E : scalarV su value (mkView InArray (fr :: below) res errs)
                = match checkValue (su_validator su) (su_fuel su) value
                          (valuePath (fr :: below)) with
                  | Some new => afterValue new value
                                  (mkView InArray (fr :: below) res errs)
                  | None => None
                  end).
    { unfold scalarV, afterValue. cbn [v_stack v_result v_errors assignV].
      rewrite Hr.
      destruct (checkValue _ _ _ _); reflexivity. }
    destruct type; try discriminate; exact E.
  - destruct stack as [|fr below]; [contradiction|].
    rewrite <- valuePath_places by exact Hk.
    assert (E : scalarV su value (mkView ExpectingValue (fr :: below) res errs)
                = match checkValue (su_validator su) (su_fuel su) value
                          (valuePath (fr :: below)) with
                  | Some new => afterValue new value
                                  (mkView ExpectingValue (fr :: below) res errs)
                  | None => None
                  end).
    { unfold scalarV, afterValue. cbn [v_stack v_result v_errors assignV].
      rewrite Hr.
      destruct (truthy_key (sh_key fr)); destruct (checkValue _ _ _ _); reflexivity. }
    destruct type; try discriminate; exact E.
Qed.

Lemma ready_open : forall su j v kind next type,
    ready j v ->
    lengthReaches (List.length (v_stack v)) (su_limit su) = false ->
    (kind = FObject /\ next = ExpectingKey /\ type = TkObjectStart)
    \/ (kind = FArray /\ next = InArray /\ type = TkArrayStart) ->
    idealStep su v (type, VNull)
    = match checkOpening (su_validator su) (su_fuel su) kind
              (framesPath (map place_of (v_stack v))) with
      | Some new =>
          Some (mkView next
                  (mkShape kind
                     (match kind with FObject => VObj [] | FArray => VArr [] end)
                     None 0 :: v_stack v)
                  (v_result v) (v_errors v ++ new))
      | None => None
      end.
Proof.
  intros su j [st stack res errs] kind next type [Hkeyed Hr] Hd Hk.
  cbn [v_state v_stack v_result v_errors] in *.
  assert (Hopen : openV su kind next (mkView st stack res errs)
                  = match checkOpening (su_validator su) (su_fuel su) kind
                            (framesPath (map place_of stack)) with
                    | Some new =>
                        Some (mkView next
                                (mkShape kind (match kind with
                                               | FObject => VObj [] | FArray => VArr []
                                               end) None 0 :: stack) res (errs ++ new))
                    | None => None
                    end).
  { unfold openV. cbn [v_stack v_result v_errors]. rewrite Hd.
    rewrite shapesPath_places; [reflexivity|].
    destruct stack; [constructor|inversion Hkeyed; assumption]. }
  unfold idealStep. cbn [v_state v_stack].
  destruct st; try contradiction.
  - destruct Hk as [(-> & -> & ->)|(-> & -> & ->)]; exact Hopen.
  - destruct stack as [|fr below]; [contradiction|]. rewrite Hr.
    destruct Hk as [(-> & -> & ->)|(-> & -> & ->)]; exact Hopen.
  - destruct Hk as [(-> & -> & ->)|(-> & -> & ->)]; exact Hopen.
Qed.

Lemma closeV_after : forall su kind st data key idx stack result errs,
    keyed stack ->
    closeV su kind (mkView st (mkShape kind data key idx :: stack) result errs)
    = match checkValue (su_validator su) (su_fuel su) data
              (framesPath (map place_of stack)) with
      | Some new => afterValue new data (mkView st stack result errs)
      | None => None
      end.
Proof.
  intros su kind st data key idx stack result errs Hk. unfold closeV, afterValue.
  cbn [v_stack v_result v_errors sh_type sh_data].
  rewrite shapesPath_places by (destruct stack; [constructor|inversion Hk; assumption]).
  destruct kind; cbn [frameType_eqb];
    destruct (checkValue _ _ _ _); try reflexivity;
    destruct (assignV _ _ _) as [[s r]|]; reflexivity.
Qed.

Lemma afterValue_errors : forall new value v more,
    match afterValue new value v with
    | Some v' => Some (withErrors more v')
    | None => None
    end = afterValue (new ++ more) value v.
Proof.
  intros new value v more. unfold afterValue, withErrors.
  destruct (assignV _ _ _) as [[s r]|]; [|reflexivity].
  cbn. rewrite app_assoc. reflexivity.
Qed.

Section IdealRun.

Variable su : Setup.
Variable n : nat.

Hypothesis values_run : forall j v rest errs,
    nesting j <= n ->
    namesAssignable j = true ->
    ready j v ->
    fitsDepth (List.length (v_stack v) + nesting j) (su_limit su) = true ->
    reports (su_validator su) (su_fuel su) (map place_of (v_stack v)) j = Some errs ->
    idealRun su v (tokensOf j ++ rest)
    = match afterValue errs (denote j) v with
      | Some v' => idealRun su v' rest
      | None => None
      end.

Lemma elements_run : forall d es xs key idx stack result errors tail errs,
    es <> [] ->
    d <= n ->
    Forall (named_element d) es ->
    keyed stack ->
    fitsDepth (S (List.length stack) + d) (su_limit su) = true ->
    elementReports (reports (su_validator su) (su_fuel su)) (map place_of stack)
      es idx = Some errs ->
    idealRun su
      (mkView InArray (mkShape FArray (VArr xs) key idx :: stack) result errors)
      (join [(TkComma, VNull)]
         (map (fun e => match e with (_, v, _) => tokensOf v end) es) ++ tail)
    = idealRun su
        (mkView ExpectingCommaOrEnd
           (mkShape FArray
              (VArr (xs ++ map (fun e => match e with (_, v, _) => denote v end) es))
              key (idx + List.length es) :: stack) result (errors ++ errs))
        tail.
Proof.
  intros d.
  induction es as [|[[b v] a] es IH];
    intros xs key idx stack result errors tail errs Hne Hdn Hall Hk Hd Hrep;
    [contradiction|].
  inversion Hall as [|x l He Hrest]; subst.
  cbn [named_element] in He. destruct He as [Hnm Hn].
  cbn [elementReports] in Hrep.
  apply obind_some in Hrep. destruct Hrep as (e & He & Hrep).
  apply obind_some in Hrep. destruct Hrep as (more & Hmore & Hrep).
  inversion Hrep; subst errs; clear Hrep.
  assert (Hv : forall rest,
             idealRun su
               (mkView InArray (mkShape FArray (VArr xs) key idx :: stack) result errors)
               (tokensOf v ++ rest)
             = idealRun su
                 (mkView ExpectingCommaOrEnd
                    (mkShape FArray (VArr (xs ++ [denote v])) key (S idx) :: stack)
                    result (errors ++ e))
                 rest).
  { intros rest.
    rewrite (values_run v _ rest e); [reflexivity|lia|assumption| | |exact He].
    - split; [|reflexivity]. constructor; [discriminate|exact Hk].
    - cbn [v_stack List.length].
      apply (fitsDepth_below _ _ _ Hd). lia. }
  destruct es as [|e2 es].
  - cbn [map join]. rewrite Hv. cbn [elementReports] in Hmore.
    inversion Hmore; subst more. rewrite app_nil_r.
    cbn [List.length]. rewrite Nat.add_1_r. reflexivity.
  - change (join [(TkComma, VNull)] (map ?f ((b, v, a) :: e2 :: es)))
      with (tokensOf v ++ [(TkComma, VNull)]
            ++ join [(TkComma, VNull)] (map f (e2 :: es))).
    rewrite <- !app_assoc. rewrite Hv. cbn [app idealRun].
    cbn [idealStep v_state v_stack v_result v_errors sh_type].
    rewrite (IH _ _ _ _ _ _ _ more); [|discriminate|assumption..].
    cbn [map List.length]. rewrite <- !app_assoc. cbn [app].
    replace (S idx + S (List.length es)) with (idx + S (S (List.length es))) by lia.
    reflexivity.
Qed.

Lemma members_run : forall d ms kvs key idx stack result errors tail errs,
    ms <> [] ->
    d <= n ->
    Forall (named_member d) ms ->
    keyed stack ->
    fitsDepth (S (List.length stack) + d) (su_limit su) = true ->
    memberReports (reports (su_validator su) (su_fuel su)) (map place_of stack)
      ms = Some errs ->
    idealRun su
      (mkView ExpectingKey (mkShape FObject (VObj kvs) key idx :: stack) result errors)
      (join [(TkComma, VNull)]
         (map (fun m => match m with
                        | (_, name, _, _, v, _) =>
                            (TkString, VStr (string_value name))
                            :: (TkColon, VNull) :: tokensOf v
                        end) ms) ++ tail)
    = idealRun su
        (mkView ExpectingCommaOrEnd
           (mkShape FObject
              (VObj (fold_left (fun acc kv => assoc_set (fst kv) (snd kv) acc)
                       (map (fun m => match m with
                                      | (_, name, _, _, v, _) =>
                                          (string_value name, denote v)
                                      end) ms) kvs))
              None idx :: stack) result (errors ++ errs))
        tail.
Proof.
  intros d.
  induction ms as [|[[[[[w1 name] w2] w3] v] w4] ms IH];
    intros kvs key idx stack result errors tail errs Hne Hdn Hall Hk Hd Hrep;
    [contradiction|].
  inversion Hall as [|x l Hm Hrest]; subst.
  cbn [named_member] in Hm. destruct Hm as (Hname & Hnm & Hn).
  destruct (assignable_truthy _ Hname) as [Htruthy Hset].
  cbn [memberReports] in Hrep.
  apply obind_some in Hrep. destruct Hrep as (e & He & Hrep).
  apply obind_some in Hrep. destruct Hrep as (more & Hmore & Hrep).
  inversion Hrep; subst errs; clear Hrep.
  assert (Hv : forall rest,
             idealRun su
               (mkView ExpectingKey (mkShape FObject (VObj kvs) key idx :: stack)
                  result errors)
               ((TkString, VStr (string_value name)) :: (TkColon, VNull)
                :: tokensOf v ++ rest)
             = idealRun su
                 (mkView ExpectingCommaOrEnd
                    (mkShape FObject
                       (VObj (assoc_set (string_value name) (denote v) kvs)) None idx
                     :: stack) result (errors ++ e))
                 rest).
  { intros rest. cbn [idealRun idealStep v_state v_stack v_result v_errors sh_type
                      sh_data sh_index core_string].
    rewrite (values_run v _ rest e); [|lia|assumption| | |exact He].
    - unfold afterValue.
      cbn [v_stack v_result v_errors assignV sh_type sh_key sh_data sh_index].
      rewrite Htruthy, Hset. reflexivity.
    - split; [|reflexivity]. constructor; [|exact Hk].
      intros _. cbn [sh_key]. rewrite Htruthy. split; [reflexivity|discriminate].
    - cbn [v_stack List.length].
      apply (fitsDepth_below _ _ _ Hd). lia. }
  destruct ms as [|m2 ms].
  - cbn [map join app]. rewrite Hv. cbn [memberReports] in Hmore.
    inversion Hmore; subst more. rewrite app_nil_r. reflexivity.
  - change (join [(TkComma, VNull)] (map ?f ((w1, name, w2, w3, v, w4) :: m2 :: ms)))
      with (((TkString, VStr (string_value name)) :: (TkColon, VNull) :: tokensOf v)
            ++ [(TkComma, VNull)]
            ++ join [(TkComma, VNull)] (map f (m2 :: ms))).
    rewrite <- !app_assoc. rewrite <- !app_comm_cons. rewrite Hv. cbn [app idealRun].
    cbn [idealStep v_state v_stack v_result v_errors sh_type].
    rewrite (IH _ _ _ _ _ _ _ more); [|discriminate|assumption..].
    rewrite <- !app_assoc. reflexivity.
Qed.

End IdealRun.

(** The token handlers on the tokens of a value, from a point where a
    value may begin: the value is taken in and the errors of [reports]
    are reported. *)
Lemma value_run : forall su n j v rest errs,
    nesting j <= n ->
    namesAssignable j = true ->
    ready j v ->
    fitsDepth (List.length (v_stack v) + nesting j) (su_limit su) = true ->
    reports (su_validator su) (su_fuel su) (map place_of (v_stack v)) j = Some errs ->
    idealRun su v (tokensOf j ++ rest)
    = match afterValue errs (denote j) v with
      | Some v' => idealRun su v' rest
      | None => None
      end.
Proof.
  intros su. induction n as [|n IH]; intros j v rest errs Hn Hnm Hr Hd Hrep.
  - destruct j as [|b|lit|items|pad es|pad ms]; cbn [nesting] in Hn; try lia;
      cbn [tokensOf app idealRun denote]; cbn [reports denote] in Hrep;
      match goal with
      | |- context [idealStep _ _ (?ty, ?val)] =>
          rewrite (ready_scalar_step su _ v ty val Hr eq_refl eq_refl)
      end;
      try (rewrite Hrep; reflexivity);
      try (intros Habs; discriminate Habs).
    intros _ Hst. destruct Hr as [_ Hr]. rewrite Hst in Hr. tauto.
  - destruct j as [|b|lit|items|pad es|pad ms];
      try (apply IH; [cbn [nesting]; lia|assumption..]).
    + assert (Hall := elements_named _ pad es Hnm (Nat.le_refl _)).
      cbn [nesting] in Hd, Hn, Hall. apply le_S_n in Hn.
      cbn [reports] in Hrep.
      apply obind_some in Hrep. destruct Hrep as (opening & Hopen & Hrep).
      apply obind_some in Hrep. destruct Hrep as (inner & Hinner & Hrep).
      apply obind_some in Hrep. destruct Hrep as (closing & Hclose & Hrep).
      inversion Hrep; subst errs; clear Hrep.
      cbn [tokensOf]. rewrite <- app_comm_cons. cbn [idealRun].
      rewrite (ready_open su _ v FArray InArray TkArrayStart Hr);
        [|apply (lengthReaches_fits _ _ _ Hd); lia|right; auto].
      rewrite Hopen.
      destruct Hr as [Hk Hr].
      destruct v as [st stack result errors]. cbn [v_stack v_result v_errors] in *.
      rewrite <- app_assoc. cbn [app].
      destruct es as [|e es].
      * cbn [elementReports] in Hinner. inversion Hinner; subst inner.
        cbn [map join app idealRun idealStep v_state v_stack sh_type].
        rewrite closeV_after by exact Hk.
        cbn [denote map] in Hclose |- *. rewrite Hclose.
        unfold afterValue. cbn [v_stack v_result v_errors].
        destruct (assignV _ _ _) as [[s r]|]; [|reflexivity].
        rewrite <- !app_assoc. reflexivity.
      * rewrite (elements_run su n IH _ (e :: es) _ _ _ _ _ _ _ inner
                   (ltac:(discriminate)) Hn Hall Hk);
          [| |exact Hinner].
        2:{ apply (fitsDepth_below _ _ _ Hd). lia. }
        cbn [idealRun idealStep v_state v_stack sh_type app].
        rewrite closeV_after by exact Hk.
        cbn [denote] in Hclose |- *. cbn [app]. rewrite Hclose.
        unfold afterValue. cbn [v_stack v_result v_errors].
        destruct (assignV _ _ _) as [[s r]|]; [|reflexivity].
        rewrite <- !app_assoc. reflexivity.
    + assert (Hall := members_named _ pad ms Hnm (Nat.le_refl _)).
      cbn [nesting] in Hd, Hn, Hall. apply le_S_n in Hn.
      cbn [reports] in Hrep.
      apply obind_some in Hrep. destruct Hrep as (opening & Hopen & Hrep).
      apply obind_some in Hrep. destruct Hrep as (inner & Hinner & Hrep).
      apply obind_some in Hrep. destruct Hrep as (closing & Hclose & Hrep).
      inversion Hrep; subst errs; clear Hrep.
      cbn [tokensOf]. rewrite <- app_comm_cons. cbn [idealRun].
      rewrite (ready_open su _ v FObject ExpectingKey TkObjectStart Hr);
        [|apply (lengthReaches_fits _ _ _ Hd); lia|left; auto].
      rewrite Hopen.
      destruct Hr as [Hk Hr].
      destruct v as [st stack result errors]. cbn [v_stack v_result v_errors] in *.
      rewrite <- app_assoc. cbn [app].
      destruct ms as [|m ms].
      * cbn [memberReports] in Hinner. inversion Hinner; subst inner.
        cbn [map join app idealRun idealStep v_state v_stack sh_type].
        rewrite closeV_after by exact Hk.
        cbn [denote map fold_left] in Hclose |- *. rewrite Hclose.
        unfold afterValue. cbn [v_stack v_result v_errors].
        destruct (assignV _ _ _) as [[s r]|]; [|reflexivity].
        rewrite <- !app_assoc. reflexivity.
      * rewrite (members_run su n IH _ (m :: ms) _ _ _ _ _ _ _ inner
                   (ltac:(discriminate)) Hn Hall Hk);
          [| |exact Hinner].
        2:{ apply (fitsDepth_below _ _ _ Hd). lia. }
        cbn [idealRun idealStep v_state v_stack sh_type app].
        rewrite closeV_after by exact Hk.
        cbn [denote] in Hclose |- *. rewrite Hclose.
        unfold afterValue. cbn [v_stack v_result v_errors].
        destruct (assignV _ _ _) as [[s r]|]; [|reflexivity].
        rewrite <- !app_assoc. reflexivity.
Qed.

(** The tokens of a document take the parser from the start to the end,
    with the document's value and the errors of [reports]. *)
Lemma document_run : forall su j errs,
    match j with JString _ => False | _ => True end ->
    namesAssignable j = true ->
    fitsDepth (nesting j) (su_limit su) = true ->
    reports (su_validator su) (su_fuel su) [] j = Some errs ->
    idealRun su (mkView Initial [] None []) (tokensOf j)
    = Some (mkView Complete [] (Some (denote j)) errs).
Proof.
  intros su j errs Hroot Hnm Hd Hrep.
  rewrite <- (app_nil_r (tokensOf j)).
  rewrite (value_run su (nesting j) j _ [] errs); auto.
  split; [constructor|]. cbn. auto.
Qed.

Lemma idealRun_app : forall su t1 t2 v v',
    idealRun su v (t1 ++ t2) = Some v' ->
    exists v1, idealRun su v t1 = Some v1 /\ idealRun su v1 t2 = Some v'.
Proof.
  induction t1 as [|tok t1 IH]; intros t2 v v' H.
  - exists v. auto.
  - cbn [app idealRun] in *. destruct (idealStep su v tok); [|discriminate].
    apply IH. exact H.
Qed.

Lemma processTokens_ideal : forall su toks p tokens expecting v',
    strictSetup su p ->
    hintFits expecting (view p) ->
    idealRun su (view p) toks = Some v' ->
    map coreOf tokens = retype expecting toks ->
    exists p',
      processTokens tokens p = (p', None) /\ view p' = v' /\ sameSetup p p'.
Proof.
  intros su. induction toks as [|[type value] toks IH];
    intros p tokens expecting v' Hs Hfit Hrun Hmap.
  - destruct tokens; [|discriminate]. inversion Hrun; subst.
    exists p. split; [reflexivity|]. split; [reflexivity|apply sameSetup_refl].
  - destruct tokens as [|token tokens]; [discriminate|].
    cbn [map retype] in Hmap. unfold coreOf at 1 in Hmap.
    injection Hmap as Hty Hv Hmap.
    cbn [idealRun] in Hrun.
    destruct (idealStep su (view p) (type, value)) as [v1|] eqn:Hstep;
      [|discriminate].
    destruct (processToken_ideal su p token expecting type value v1
                Hs Hfit Hstep Hty Hv) as (p1 & E1 & V1 & S1 & F1).
    subst v1.
    destruct (IH p1 tokens _ v' (strictSetup_same _ _ _ Hs S1) F1 Hrun Hmap)
      as (p' & E & V & S).
    exists p'. split; [|split; [exact V|eapply sameSetup_trans; eassumption]].
    cbn [processTokens]. unfold andThen. rewrite E1. exact E.
Qed.

Lemma handlePartialToken_view : forall token p,
    view (handlePartialToken token p) = view p
    /\ sameSetup p (handlePartialToken token p).
Proof.
  intros token p. unfold handlePartialToken.
  destruct (tk_type token); try (split; [reflexivity|apply sameSetup_refl]);
    (destruct (currentFrame p) as [fr|];
     [|split; [reflexivity|apply sameSetup_refl]];
     destruct (f_type fr);
     [destruct (truthy_key (f_currentKey fr))|];
     split; try reflexivity; try apply sameSetup_refl;
     unfold sameSetup; cbn; auto).
Qed.

(** One [feed] on a strict parser: the tokens of the carry followed by
    the chunk are handled, the new carry is kept. *)
Lemma feed_ideal : forall su p chunk toks carry v',
    strictSetup su p ->
    strictTokenizer (p_tokenizer p) ->
    Lexes (t_buffer (p_tokenizer p) ++ chunk) toks carry ->
    idealRun su (view p) toks = Some v' ->
    exists p',
      feed chunk p = (p', inl (buildResult p'))
      /\ view p' = v'
      /\ strictSetup su p'
      /\ strictTokenizer (p_tokenizer p')
      /\ t_buffer (p_tokenizer p') = carry.
Proof.
  intros su p chunk toks carry v' Hs Hstrict Hlex Hrun.
  unfold feed.
  set (p1 := set_bytesProcessed (p_bytesProcessed p + List.length chunk) p).
  set (expecting := state_eqb (p_state p1) ExpectingKey
                    || state_eqb (p_state p1) Initial && isEmpty (p_stack p1)).
  set (tk0 := setExpectingKey expecting (p_tokenizer p1)).
  assert (Hstrict0 : strictTokenizer tk0) by exact Hstrict.
  destruct (tokenizer_feed_lexes chunk tk0 toks carry Hstrict0 Hlex)
    as (Hbuf & Hmap & Hopt).
  set (tk := tokenizer_feed chunk tk0) in *.
  assert (Hs2 : strictSetup su (set_tokenizer tk p1)) by exact Hs.
  assert (Hfit : hintFits expecting (view (set_tokenizer tk p1))).
  { intros He. unfold expecting in He. cbn [view v_state set_tokenizer p_state p1
                                             set_bytesProcessed] in *.
    destruct (p_state p); cbn in He; try discriminate; auto. }
  destruct (processTokens_ideal su toks (set_tokenizer tk p1) (t_tokens tk)
              expecting v' Hs2 Hfit Hrun Hmap) as (p3 & E & V & S).
  rewrite E.
  assert (Hs3 := strictSetup_same _ _ _ Hs2 S).
  destruct S as (S1 & S2 & S3 & S4 & S5).
  cbn [set_tokenizer p_tokenizer p_errors p_validator p_options p_rt p1
       set_bytesProcessed] in S1, S2, S3, S4, S5.
  assert (Hpart : forall p4,
             view p4 = view p3 -> sameSetup p3 p4 ->
             view p4 = v' /\ strictSetup su p4
             /\ strictTokenizer (p_tokenizer p4)
             /\ t_buffer (p_tokenizer p4) = carry).
  { intros p4 V4 S4'. split; [congruence|].
    split; [eapply strictSetup_same; eassumption|].
    destruct S4' as (Q1 & Q2 & Q3 & Q4 & Q5).
    split; [|congruence].
    unfold strictTokenizer in *. rewrite Q5, S5, Hopt. exact Hstrict0. }
  destruct (getPartialToken (p_tokenizer p3)) as [partialToken|].
  - destruct (handlePartialToken_view partialToken p3) as [V4 S4'].
    eexists. split; [reflexivity|]. apply Hpart; assumption.
  - eexists. split; [reflexivity|]. apply Hpart; [reflexivity|apply sameSetup_refl].
Qed.

Lemma finalSnapshot_cons : forall r rs,
    finalSnapshot (r :: rs)
    = match finalSnapshot rs with Some r' => Some r' | None => Some r end.
Proof.
  intros r rs. unfold finalSnapshot. cbn [map].
  destruct rs as [|r2 rs]; [reflexivity|].
  cbn [map]. change (last (Some r :: Some r2 :: map Some rs) None)
    with (last (Some r2 :: map Some rs) None).
  destruct (last (Some r2 :: map Some rs) None) eqn:E; [reflexivity|].
  exfalso. revert E. generalize r2. induction rs as [|r3 rs IH]; intros r0 E.
  - discriminate.
  - apply (IH r3). exact E.
Qed.

(** Feeding the chunks of a lexable text whose tokens the handlers
    accept: every call returns, and the last leaves the final view. *)
Lemma feedAll_ideal : forall su vfinal chunks p toks,
    strictSetup su p ->
    strictTokenizer (p_tokenizer p) ->
    Lexes (t_buffer (p_tokenizer p)) [] (t_buffer (p_tokenizer p)) ->
    Lexes (t_buffer (p_tokenizer p) ++ List.concat chunks) toks [] ->
    idealRun su (view p) toks = Some vfinal ->
    exists q rs,
      feedAll chunks p = (q, rs, None)
      /\ List.length rs = List.length chunks
      /\ view q = vfinal
      /\ (chunks <> [] -> finalSnapshot rs = Some (buildResult q)).
Proof.
  intros su vfinal. induction chunks as [|c chunks IH];
    intros p toks Hs Hstrict Hcarry Hlex Hrun.
  - cbn [List.concat] in Hlex. rewrite app_nil_r in Hlex.
    destruct (Lexes_fun _ _ _ Hlex _ _ Hcarry) as [-> _].
    inversion Hrun; subst.
    exists p, []. repeat split; auto. intros H; contradiction.
  - cbn [List.concat] in Hlex. rewrite app_assoc in Hlex.
    destruct (Lexes_split _ _ _ Hlex _ _ eq_refl) as (t1 & t2 & c1 & L1 & L2 & ->).
    destruct (idealRun_app _ _ _ _ _ Hrun) as (v1 & R1 & R2).
    destruct (feed_ideal su p c t1 c1 v1 Hs Hstrict L1 R1)
      as (p1 & E1 & V1 & S1 & T1 & B1).
    subst v1. rewrite <- B1 in L2.
    destruct (IH p1 t2 S1 T1) as (q & rs & E & Hlen & V & Hfin).
    { rewrite B1. eapply Lexes_carry. exact L1. }
    { exact L2. }
    { exact R2. }
    exists q, (buildResult p1 :: rs).
    cbn [feedAll]. rewrite E1, E.
    split; [reflexivity|]. split; [cbn; lia|]. split; [exact V|].
    intros _.
    rewrite finalSnapshot_cons.
    destruct chunks as [|c2 chunks].
    + cbn [feedAll] in E. inversion E; subst. reflexivity.
    + rewrite Hfin by discriminate. reflexivity.
Qed.

Lemma fresh_parser_setup : forall rt options,
    strictMode options ->
    let p := newStreamingJSONParser rt options in
    strictSetup (mkSetup (p_validator p) (stack_limit rt)
                   (o_maxDepth (mergeOptions options))) p
    /\ strictTokenizer (p_tokenizer p)
    /\ t_buffer (p_tokenizer p) = []
    /\ view p = mkView Initial [] None [].
Proof.
  intros rt options Hllm p.
  assert (Hl : o_llmMode (mergeOptions options) = false).
  { unfold strictMode in Hllm. unfold mergeOptions. cbn.
    destruct (llmMode options) as [[|]|]; [contradiction|..]; reflexivity. }
  split.
  - unfold strictSetup. cbn [su_validator su_fuel su_limit].
    split; [reflexivity|]. split; [reflexivity|]. split; [exact Hl|reflexivity].
  - split; [|auto].
    unfold p, newStreamingJSONParser. cbn [p_tokenizer].
    unfold strictTokenizer, newStreamingTokenizer. rewrite Hl. cbn. auto.
Qed.

(** Without a validator nothing is reported. *)
Lemma reports_without_validator : forall fuel n j places,
    nesting j <= n -> reports None fuel places j = Some [].
Proof.
  intros fuel. induction n as [|n IH]; intros j places Hn.
  - destruct j; cbn [nesting] in Hn; try lia; reflexivity.
  - destruct j as [|b|lit|items|pad es|pad ms]; try reflexivity.
    + cbn [nesting] in Hn. apply le_S_n in Hn. apply list_max_bound in Hn.
      cbn [reports checkOpening checkValue obind].
      assert (E : forall idx, elementReports (reports None fuel) places es idx
                              = Some []).
      { induction es as [|[[b v] a] es IHes]; intros idx; [reflexivity|].
        cbn [map] in Hn. inversion Hn; subst.
        cbn [elementReports]. rewrite IH by assumption. cbn [obind].
        rewrite IHes by assumption. reflexivity. }
      rewrite E. reflexivity.
    + cbn [nesting] in Hn. apply le_S_n in Hn. apply list_max_bound in Hn.
      cbn [reports checkOpening checkValue obind].
      assert (E : memberReports (reports None fuel) places ms = Some []).
      { induction ms as [|[[[[[w1 name] w2] w3] v] w4] ms IHms]; [reflexivity|].
        cbn [map] in Hn. inversion Hn; subst.
        cbn [memberReports]. rewrite IH by assumption. cbn [obind].
        rewrite IHms by assumption. reflexivity. }
      rewrite E. reflexivity.
Qed.
(* ------------------------------------------------------------------ *)
(** ** Chunked documents *)

Lemma render_nonempty : forall j, wf j = true -> render j <> [].
Proof.
  intros [|[|]|lit|items|pad es|pad ms] H; try discriminate.
  cbn [render wf] in *. unfold wf_number, isDigits in H. unfold render_number.
  destruct (n_int lit); [discriminate|].
  destruct (n_neg lit); discriminate.
Qed.

(** The tokenizer's view of a document with blanks around it. *)
Lemma document_lexes : forall j lead trail,
    wf j = true ->
    rootParses j trail ->
    isBlank lead = true ->
    isBlank trail = true ->
    Lexes (lead ++ render j ++ trail) (tokensOf j) [].
Proof.
  intros j lead trail Hwf Hroot Hlead Htrail.
  apply Lexes_blank; [exact Hlead|].
  assert (Hend : Lexes trail [] []).
  { apply lexes_end. rewrite <- (app_nil_r trail).
    rewrite skip_spaces_blank by exact Htrail. reflexivity. }
  assert (Hdel : trail <> [] -> delimited trail).
  { destruct trail as [|c r]; [contradiction|]. intros _. cbn [delimited].
    cbn [isBlank forallb] in Htrail. apply andb_true_iff in Htrail.
    unfold isDelimiter. destruct Htrail as [-> _]. reflexivity. }
  assert (Hkey : forall b,
             Lexes (render (JBool b) ++ []) (tokensOf (JBool b) ++ []) []
             /\ Lexes (render JNull ++ []) (tokensOf JNull ++ []) []).
  { intros b. split; [destruct b|];
      (eapply lexes_token; [reflexivity|apply lexes_end; reflexivity]). }
  rewrite <- (app_nil_r (tokensOf j)).
  destruct j as [|b|lit|items|pad es|pad ms]; cbn [rootParses] in Hroot.
  - destruct trail as [|c r]; [exact (proj2 (Hkey true))|].
    apply (render_lexes 0); [cbn; lia|exact Hwf| |exact Hend].
    right. apply Hdel. discriminate.
  - destruct trail as [|c r]; [exact (proj1 (Hkey b))|].
    apply (render_lexes 0); [cbn; lia|exact Hwf| |exact Hend].
    right. apply Hdel. discriminate.
  - apply (render_lexes 0); [cbn; lia|exact Hwf| |exact Hend].
    right. apply Hdel. exact Hroot.
  - contradiction.
  - apply (render_lexes (nesting (JArray pad es)));
      [lia|exact Hwf|left; reflexivity|exact Hend].
  - apply (render_lexes (nesting (JObject pad ms)));
      [lia|exact Hwf|left; reflexivity|exact Hend].
Qed.




(* ------------------------------------------------------------------ *)
(** ** The outcome of the token handlers *)

Lemma calm_refl : forall p, calm p p.
Proof.
  intros p. unfold calm. repeat split; try reflexivity.
  exists []. rewrite app_nil_r. split; [reflexivity|]. intros H. contradiction.
Qed.

Lemma calm_trans : forall a b c, calm a b -> calm b c -> calm a c.
Proof.
  unfold calm.
  intros a b c (A1 & A2 & A3 & A4 & A5 & x & Ax & Ac)
               (B1 & B2 & B3 & B4 & B5 & y & By & Bc).
  repeat split; try congruence.
  exists (x ++ y). split; [rewrite By, Ax, app_assoc; reflexivity|].
  intros H. destruct x as [|e x].
  - simpl in H. rewrite <- A3, <- A2. apply Bc. exact H.
  - apply Ac. discriminate.
Qed.

(** An update of the fields that [calm] does not mention. *)
Lemma calm_fields : forall p q,
    p_rt q = p_rt p ->
    p_options q = p_options p ->
    p_validator q = p_validator p ->
    p_bytesProcessed q = p_bytesProcessed p ->
    t_options (p_tokenizer q) = t_options (p_tokenizer p) ->
    p_errors q = p_errors p ->
    calm p q.
Proof.
  intros p q H1 H2 H3 H4 H5 H6. unfold calm. repeat split; try assumption.
  exists []. rewrite app_nil_r. split; [assumption|]. intros H. contradiction.
Qed.

Ltac calm_update := apply calm_fields; reflexivity.

Lemma calm_set_state : forall s p, calm p (set_state s p).
Proof. intros. calm_update. Qed.

Lemma calm_set_stack : forall st p, calm p (set_stack st p).
Proof. intros. calm_update. Qed.

Lemma calm_set_result : forall r p, calm p (set_result r p).
Proof. intros. calm_update. Qed.

Lemma calm_replace_top : forall fr p, calm p (replace_top fr p).
Proof. intros. calm_update. Qed.

Lemma calm_markComplete : forall x p, calm p (markComplete x p).
Proof. intros. calm_update. Qed.

Lemma calm_addPending : forall x p, calm p (addPending x p).
Proof. intros. calm_update. Qed.

Lemma calm_set_completedPaths : forall c p, calm p (set_completedPaths c p).
Proof. intros. calm_update. Qed.

Lemma calm_expecting : forall b p,
    calm p (set_tokenizer (setExpectingKey b (p_tokenizer p)) p).
Proof. intros. calm_update. Qed.

Lemma calm_errors : forall e p,
    p_validator p <> None \/ o_llmMode (p_options p) = true ->
    calm p (set_errors (p_errors p ++ e) p).
Proof.
  intros e p H. unfold calm. repeat split; try reflexivity.
  exists e. split; [reflexivity|]. intros _. exact H.
Qed.

Lemma outcome_ret : forall p q, calm p q -> outcome p (q, None).
Proof.
  intros p q H. unfold outcome. split; [exact H|].
  split; [intros m E; discriminate|intros E; discriminate].
Qed.

Lemma outcome_pre : forall p p1 x, calm p p1 -> outcome p1 x -> outcome p x.
Proof.
  intros p p1 x Hc (C & Hp & Hr). unfold outcome.
  split; [eapply calm_trans; eassumption|].
  destruct Hc as (_ & O & V & _).
  split.
  - intros m E. destruct (Hp m E) as [S L]. rewrite <- O. auto.
  - intros E. rewrite <- V. auto.
Qed.

Lemma outcome_andThen : forall a b p,
    outcome p (a p) -> (forall q, outcome q (b q)) -> outcome p ((a >> b) p).
Proof.
  intros a b p Ha Hb. unfold andThen.
  destruct (a p) as [p' [e|]] eqn:E; [exact Ha|].
  destruct Ha as (C & _). eapply outcome_pre; [exact C|apply Hb].
Qed.

Lemma behaves_andThen : forall a b, behaves a -> behaves b -> behaves (a >> b).
Proof. intros a b Ha Hb p. apply outcome_andThen; [apply Ha|exact Hb]. Qed.

Lemma behaves_modify : forall f, (forall p, calm p (f p)) -> behaves (modify f).
Proof. intros f H p. apply outcome_ret. apply H. Qed.

Lemma behaves_setError : forall msg, behaves (setError msg).
Proof.
  intros msg p. unfold setError.
  destruct (o_llmMode (p_options p)) eqn:L.
  - apply outcome_ret. apply calm_set_state.
  - unfold outcome. cbn [fst snd]. split; [apply calm_set_state|].
    split; [intros m _; split; [reflexivity|exact L]|intros E; discriminate].
Qed.

Lemma behaves_parser_validateValue : forall v path,
    behaves (parser_validateValue v path).
Proof.
  intros v path p. unfold parser_validateValue.
  destruct (p_validator p) as [V|] eqn:HV; [|apply outcome_ret, calm_refl].
  destruct (validate V (stack_limit (p_rt p)) v path).
  - apply outcome_ret. apply calm_errors. left. congruence.
  - unfold outcome. cbn [fst snd]. split; [apply calm_refl|].
    split; [intros m E; discriminate|intros _; congruence].
Qed.

Lemma behaves_startContainer : forall kind, behaves (startContainer kind).
Proof.
  intros kind p. unfold startContainer.
  destruct (depthExceeded p); [apply behaves_setError|].
  destruct (p_validator p) as [V|] eqn:HV.
  - match goal with
    | |- outcome p match ?l with _ => _ end => destruct l as [[fs ok]|]
    end.
    + apply outcome_ret. destruct ok.
      * calm_update.
      * match goal with
        | |- calm p (addPending _ (set_stack _ (set_errors ?e p))) =>
            apply (calm_trans _ (set_errors e p));
              [apply calm_errors; left; congruence|calm_update]
        end.
    + unfold outcome. cbn [fst snd]. split; [apply calm_refl|].
      split; [intros m E; discriminate|intros _; congruence].
  - apply outcome_ret. calm_update.
Qed.

Lemma behaves_assignValue : forall v, behaves (assignValue v).
Proof.
  intros v p. unfold assignValue.
  destruct (currentFrame p) as [fr|]; [|apply outcome_ret, calm_set_result].
  destruct (f_type fr).
  - destruct (truthy_key (f_currentKey fr)) as [key|]; [|apply behaves_setError].
    apply outcome_ret. calm_update.
  - apply outcome_ret. calm_update.
Qed.

Lemma behaves_endContainer : forall kind, behaves (endContainer kind).
Proof.
  intros kind p. unfold endContainer.
  destruct (p_stack p) as [|fr below]; [apply behaves_setError|].
  destruct (negb (frameType_eqb (f_type fr) kind)).
  - eapply outcome_pre; [apply (calm_set_stack below)|apply behaves_setError].
  - eapply outcome_pre; [apply (calm_set_stack below)|].
    repeat apply behaves_andThen.
    + apply behaves_modify. intros q. apply calm_markComplete.
    + apply behaves_parser_validateValue.
    + apply behaves_assignValue.
    + intros q. destruct (isEmpty (p_stack q)); apply outcome_ret, calm_set_state.
Qed.

Lemma behaves_bump : forall f : StackFrame -> StackFrame,
    behaves (modify (fun q => match currentFrame q with
                              | Some fr => replace_top (f fr) q
                              | None => q
                              end)).
Proof.
  intros f. apply behaves_modify. intros q.
  destruct (currentFrame q); [apply calm_replace_top|apply calm_refl].
Qed.

Lemma behaves_pushArrayValue : forall v, behaves (pushArrayValue v).
Proof.
  intros v p. unfold pushArrayValue.
  destruct (currentFrame p) as [fr|]; [|apply behaves_setError].
  destruct (f_type fr); [apply behaves_setError|].
  cbv zeta.
  match goal with
  | |- outcome p (_ ?p1) => apply (outcome_pre p p1); [apply calm_replace_top|]
  end.
  repeat apply behaves_andThen.
  - apply behaves_modify. intros q. apply calm_markComplete.
  - apply behaves_parser_validateValue.
  - apply (behaves_bump (fun fr => mkFrame (f_type fr) (f_data fr) (f_currentKey fr)
                                     (f_schema fr) (f_completedKeys fr)
                                     (S (f_arrayIndex fr)))).
Qed.

Lemma behaves_setValue : forall v, behaves (setValue v).
Proof.
  intros v p. unfold setValue.
  destruct (currentFrame p) as [fr|].
  - destruct (f_type fr); [|apply behaves_pushArrayValue].
    destruct (truthy_key (f_currentKey fr)); [|apply behaves_setError].
    cbv zeta.
    match goal with
    | |- outcome p (_ ?p1) => apply (outcome_pre p p1); [apply calm_replace_top|]
    end.
    repeat apply behaves_andThen.
    + apply behaves_modify. intros q. apply calm_markComplete.
    + apply behaves_parser_validateValue.
    + apply (behaves_bump (fun fr => mkFrame (f_type fr) (f_data fr) None
                                       (f_schema fr) (f_completedKeys fr)
                                       (f_arrayIndex fr))).
  - eapply outcome_pre; [apply calm_set_result|apply behaves_parser_validateValue].
Qed.

Lemma behaves_set_state : forall s, behaves (modify (set_state s)).
Proof. intros s. apply behaves_modify. intros p. apply calm_set_state. Qed.

Lemma behaves_open : forall kind s,
    behaves (startContainer kind >> modify (set_state s)).
Proof.
  intros kind s. apply behaves_andThen;
    [apply behaves_startContainer|apply behaves_set_state].
Qed.

Lemma behaves_handleInitialState : forall token, behaves (handleInitialState token).
Proof.
  intros token. unfold handleInitialState.
  destruct (tk_type token); try apply behaves_setError; try apply behaves_open.
  all: repeat apply behaves_andThen;
    [ apply behaves_modify; intros p; apply calm_set_result
    | apply behaves_parser_validateValue
    | apply behaves_set_state ].
Qed.

Lemma behaves_handleObjectState : forall token, behaves (handleObjectState token).
Proof.
  intros token p. unfold handleObjectState.
  destruct (currentFrame p) as [fr|]; [|apply behaves_setError].
  destruct (f_type fr); [|apply behaves_setError].
  destruct (tk_type token); try apply behaves_setError.
  - apply behaves_endContainer.
  - apply outcome_ret. calm_update.
  - apply outcome_ret. calm_update.
  - apply outcome_ret. calm_update.
Qed.

Lemma behaves_scalar : forall v,
    behaves (setValue v >> modify (set_state ExpectingCommaOrEnd)).
Proof.
  intros v. apply behaves_andThen; [apply behaves_setValue|apply behaves_set_state].
Qed.

Lemma behaves_element : forall v,
    behaves (pushArrayValue v >> modify (set_state ExpectingCommaOrEnd)).
Proof.
  intros v. apply behaves_andThen;
    [apply behaves_pushArrayValue|apply behaves_set_state].
Qed.

Lemma behaves_handleValueState : forall token, behaves (handleValueState token).
Proof.
  intros token p. unfold handleValueState.
  destruct (tk_type token); try apply behaves_setError; try apply behaves_open;
    try apply behaves_scalar.
  - destruct (currentFrame p) as [fr|]; [|apply behaves_setError].
    destruct (o_llmMode (p_options p)) eqn:L.
    + destruct (f_type fr); [apply behaves_endContainer|apply outcome_ret, calm_refl].
    + apply behaves_setError.
  - destruct (currentFrame p) as [fr|]; [|apply behaves_setError].
    destruct (o_llmMode (p_options p)) eqn:L.
    + destruct (f_type fr); [apply outcome_ret, calm_refl|apply behaves_endContainer].
    + apply behaves_setError.
Qed.

Lemma behaves_handleColonState : forall token, behaves (handleColonState token).
Proof.
  intros token p. unfold handleColonState.
  destruct (tk_type token); try (apply outcome_ret, calm_set_state).
  all: destruct (o_llmMode (p_options p)) eqn:L; [|apply behaves_setError].
  all: eapply outcome_pre;
    [apply (calm_set_state ExpectingValue)|apply behaves_handleValueState].
Qed.

Lemma behaves_handleArrayState : forall token, behaves (handleArrayState token).
Proof.
  intros token p. unfold handleArrayState.
  destruct (currentFrame p) as [fr|]; [|apply behaves_setError].
  destruct (f_type fr); [apply behaves_setError|].
  destruct (tk_type token); try apply behaves_setError; try apply behaves_open;
    try apply behaves_element.
  - apply behaves_endContainer.
  - destruct (o_allowTrailingCommas (p_options p) || o_llmMode (p_options p)) eqn:L;
      [apply outcome_ret, calm_refl|apply behaves_setError].
Qed.

Lemma behaves_handleCommaOrEndState : forall token,
    behaves (handleCommaOrEndState token).
Proof.
  intros token p. unfold handleCommaOrEndState.
  destruct (currentFrame p) as [fr|]; [|apply outcome_ret, calm_set_state].
  assert (Hretry :
    outcome p (if o_llmMode (p_options p)
               then match f_type fr with
                    | FObject => handleObjectState token (set_state ExpectingKey p)
                    | FArray => handleArrayState token (set_state InArray p)
                    end
               else setError ("Expected , or end of container, got "
                              +++ tokenType_name (tk_type token)) p)).
  { destruct (o_llmMode (p_options p)) eqn:L; [|apply behaves_setError].
    destruct (f_type fr);
      (eapply outcome_pre; [apply calm_set_state|]);
      [apply behaves_handleObjectState|apply behaves_handleArrayState]. }
  destruct (tk_type token) eqn:Ht; try exact Hretry.
  - destruct (f_type fr); [apply behaves_endContainer|apply behaves_setError].
  - destruct (f_type fr); [apply behaves_setError|apply behaves_endContainer].
  - destruct (f_type fr); apply outcome_ret; calm_update.
Qed.

Lemma behaves_handleError : forall token, behaves (handleError token).
Proof.
  intros token p. unfold handleError.
  destruct (o_llmMode (p_options p)) eqn:L; [|apply behaves_setError].
  apply outcome_ret. apply calm_errors. right. exact L.
Qed.

Lemma behaves_tryRecover : forall token, behaves (tryRecover token).
Proof.
  intros token p. unfold tryRecover.
  destruct (tk_type token); try (apply outcome_ret, calm_refl);
    try apply behaves_open.
  all: destruct (negb (isEmpty (p_stack p))); [|apply outcome_ret, calm_refl].
  all: eapply outcome_pre; [apply (calm_set_state ExpectingCommaOrEnd)
                           |apply behaves_handleCommaOrEndState].
Qed.

Lemma behaves_processToken : forall token, behaves (processToken token).
Proof.
  intros token p. unfold processToken.
  destruct (tk_type token) eqn:Ht; try apply behaves_handleError.
  all: destruct (p_state p);
    first [ apply behaves_handleInitialState | apply behaves_handleObjectState
          | apply behaves_handleColonState | apply behaves_handleValueState
          | apply behaves_handleArrayState | apply behaves_handleCommaOrEndState
          | apply outcome_ret, calm_refl | idtac ].
  all: destruct (o_llmMode (p_options p)) eqn:L;
    [apply behaves_tryRecover|apply outcome_ret, calm_refl].
Qed.

Lemma behaves_processTokens : forall tokens, behaves (processTokens tokens).
Proof.
  induction tokens as [|t ts IH]; cbn [processTokens].
  - intros p. apply outcome_ret, calm_refl.
  - apply behaves_andThen; [apply behaves_processToken|exact IH].
Qed.

Lemma calm_handlePartialToken : forall token p, calm p (handlePartialToken token p).
Proof.
  intros token p. unfold handlePartialToken.
  destruct (tk_type token); try apply calm_refl.
  all: destruct (currentFrame p) as [fr|]; [|apply calm_refl].
  all: destruct (f_type fr); [|apply calm_addPending].
  all: destruct (truthy_key (f_currentKey fr)); [apply calm_addPending|apply calm_refl].
Qed.

(** ** What [feed] leaves alone, and how it fails *)

Lemma feed_outcome : forall chunk p,
    p_rt (fst (feed chunk p)) = p_rt p
    /\ p_options (fst (feed chunk p)) = p_options p
    /\ p_validator (fst (feed chunk p)) = p_validator p
    /\ t_options (p_tokenizer (fst (feed chunk p))) = t_options (p_tokenizer p)
    /\ p_bytesProcessed (fst (feed chunk p)) = p_bytesProcessed p + List.length chunk
    /\ (exists extra,
           p_errors (fst (feed chunk p)) = p_errors p ++ extra
           /\ (extra <> [] ->
               p_validator p <> None \/ o_llmMode (p_options p) = true))
    /\ (forall m, snd (feed chunk p) = inr (ParseError m) ->
                  p_state (fst (feed chunk p)) = Error
                  /\ o_llmMode (p_options p) = false)
    /\ (snd (feed chunk p) = inr RangeError -> p_validator p <> None).
Proof.
  intros chunk p. unfold feed.
  match goal with
  | |- context [processTokens ?ts ?p2] =>
      pose proof (behaves_processTokens ts p2) as H;
      destruct (processTokens ts p2) as [p3 e] eqn:E
  end.
  destruct H as ((C1 & C2 & C3 & C4 & C5 & extra & Cx & Cc) & Hp & Hr).
  cbn [fst snd set_tokenizer set_bytesProcessed p_rt p_options p_validator
       p_bytesProcessed p_tokenizer p_errors] in C1, C2, C3, C4, C5, Cx, Cc, Hp, Hr.
  rewrite tokenizer_feed_options in C5. cbn [setExpectingKey t_options] in C5.
  destruct e as [e|].
  - cbn [fst snd].
    do 5 (split; [assumption|]).
    split; [exists extra; auto|].
    split.
    + intros m0 Em. injection Em as ->. apply (Hp m0 eq_refl).
    + intros Em. injection Em as ->. apply Hr. reflexivity.
  - assert (Hpart : forall p4, calm p3 p4 ->
               p_rt p4 = p_rt p /\ p_options p4 = p_options p
               /\ p_validator p4 = p_validator p
               /\ t_options (p_tokenizer p4) = t_options (p_tokenizer p)
               /\ p_bytesProcessed p4 = p_bytesProcessed p + List.length chunk
               /\ exists extra0,
                    p_errors p4 = p_errors p ++ extra0
                    /\ (extra0 <> [] ->
                        p_validator p <> None \/ o_llmMode (p_options p) = true)).
    { intros p4 (D1 & D2 & D3 & D4 & D5 & y & Dy & Dc).
      do 5 (split; [congruence|]).
      exists (extra ++ y). split; [rewrite Dy, Cx, app_assoc; reflexivity|].
      intros Hne. destruct extra as [|e0 extra].
      - simpl in Hne. rewrite <- C3, <- C2. apply Dc. exact Hne.
      - apply Cc. discriminate. }
    destruct (getPartialToken (p_tokenizer p3)) as [tok|]; cbn [fst snd].
    + destruct (Hpart _ (calm_handlePartialToken tok p3))
        as (A1 & A2 & A3 & A4 & A5 & A6).
      do 6 (split; [assumption|]). split; [intros m0 Em|intros Em]; discriminate.
    + destruct (Hpart _ (calm_refl p3)) as (A1 & A2 & A3 & A4 & A5 & A6).
      do 6 (split; [assumption|]). split; [intros m0 Em|intros Em]; discriminate.
Qed.

Lemma feedAll_final : forall chunks p q rs,
    feedAll chunks p = (q, rs, None) ->
    List.length rs = List.length chunks
    /\ (chunks <> [] -> finalSnapshot rs = Some (buildResult q)).
Proof.
  induction chunks as [|c chunks IH]; intros p q rs H; cbn [feedAll] in H.
  - inversion H; subst. split; [reflexivity|]. intros E; contradiction.
  - destruct (feed c p) as [p1 [r1|e1]] eqn:Hf; [|discriminate].
    destruct (feedAll chunks p1) as [[q0 rs0] e0] eqn:Hrest.
    inversion H; subst. destruct (IH _ _ _ Hrest) as [Hlen Hfin].
    split; [cbn; lia|]. intros _.
    rewrite finalSnapshot_cons.
    destruct chunks as [|c2 chunks].
    + cbn [feedAll] in Hrest. inversion Hrest; subst.
      rewrite (feed_snapshot _ _ _ _ Hf). reflexivity.
    + rewrite Hfin by discriminate. reflexivity.
Qed.

Lemma feedAll_bytes : forall chunks p q rs,
    feedAll chunks p = (q, rs, None) ->
    p_bytesProcessed q = p_bytesProcessed p + List.length (List.concat chunks).
Proof.
  induction chunks as [|c chunks IH]; intros p q rs H; cbn [feedAll] in H.
  - inversion H; subst. cbn. lia.
  - destruct (feed_outcome c p) as (_ & _ & _ & _ & Hb & _).
    destruct (feed c p) as [p1 [r1|e1]] eqn:Hf; [|discriminate].
    destruct (feedAll chunks p1) as [[q0 rs0] e0] eqn:Hrest.
    inversion H; subst. rewrite (IH _ _ _ Hrest). cbn [fst] in Hb.
    rewrite Hb. cbn [List.concat]. rewrite length_app. lia.
Qed.

(** X1.  [bytesProcessed] counts the input: when every [feed] of a
    sequence of chunks returns, the last snapshot's [bytesProcessed] is
    the count before the first chunk plus the length of all the chunks,
    in either mode and with or without schema. *)
Theorem bytesProcessed_counts_input :
  forall (chunks : list (list ascii)) (p q : StreamingJSONParser)
         (rs : list ParseResult) (r : ParseResult),
    feedAll chunks p = (q, rs, None) ->
    finalSnapshot rs = Some r ->
    r_bytesProcessed r
    = p_bytesProcessed p + List.length (List.concat chunks).
Proof.
  intros chunks p q rs r H Hfin.
  destruct (feedAll_final _ _ _ _ H) as [Hlen Hlast].
  destruct chunks as [|c chunks].
  - cbn [feedAll] in H. inversion H; subst. discriminate.
  - rewrite Hlast in Hfin by discriminate. inversion Hfin; subst.
    cbn [buildResult r_bytesProcessed]. eapply feedAll_bytes. exact H.
Qed.

Lemma bytesProcessed_counts_input_witness :
  r_bytesProcessed (buildResult (fst (fst sample_run)))
  = p_bytesProcessed strict_parser + List.length (List.concat sample_chunks).
Proof.
  apply (bytesProcessed_counts_input sample_chunks strict_parser
           (fst (fst sample_run)) (snd (fst sample_run))
           (buildResult (fst (fst sample_run)))).
  - vm_compute. reflexivity.
  - vm_compute. reflexivity.
Defined.

(** ** Errors are never retracted *)

Lemma feedAll_errors : forall chunks p q rs e,
    feedAll chunks p = (q, rs, e) ->
    (exists extra, p_errors q = p_errors p ++ extra)
    /\ forall r, In r rs -> exists extra, r_errors r = p_errors p ++ extra.
Proof.
  induction chunks as [|c chunks IH]; intros p q rs e H; cbn [feedAll] in H.
  - inversion H; subst. split; [exists []; rewrite app_nil_r; reflexivity|].
    intros r [].
  - destruct (feed_outcome c p) as (_ & _ & _ & _ & _ & (x & Hx & _) & _).
    destruct (feed c p) as [p1 [r1|e1]] eqn:Hf; cbn [fst] in Hx.
    + destruct (feedAll chunks p1) as [[q0 rs0] e0] eqn:Hrest.
      inversion H; subst. destruct (IH _ _ _ _ Hrest) as [(y & Hy) Hrs].
      split; [exists (x ++ y); rewrite Hy, Hx, app_assoc; reflexivity|].
      intros r [Hr|Hr].
      * subst r. rewrite (feed_snapshot _ _ _ _ Hf). exists x. exact Hx.
      * destruct (Hrs r Hr) as (z & Hz). exists (x ++ z).
        rewrite Hz, Hx, app_assoc. reflexivity.
    + inversion H; subst. split; [exists x; exact Hx|]. intros r [].
Qed.

(** X2.  Within one parse the list of errors only grows at its end: the
    [errors] of the snapshot returned by one [feed] are a prefix of the
    [errors] of the snapshot returned by every later [feed] on the same
    parser. *)
Theorem errors_only_grow :
  forall (p p1 p2 : StreamingJSONParser) (chunk : list ascii)
         (later : list (list ascii)) (r1 r : ParseResult)
         (rs : list ParseResult) (e : option Exn),
    feed chunk p = (p1, inl r1) ->
    feedAll later p1 = (p2, rs, e) ->
    In r rs ->
    exists extra, r_errors r = r_errors r1 ++ extra.
Proof.
  intros p p1 p2 chunk later r1 r rs e Hfirst Hlater Hin.
  rewrite (feed_snapshot _ _ _ _ Hfirst). cbn [buildResult r_errors].
  destruct (feedAll_errors _ _ _ _ _ Hlater) as [_ H].
  apply H. exact Hin.
Qed.

Lemma errors_only_grow_witness :
  let p1 := fst (feed wrong_type_chunk number_schema_parser) in
  let p2 := fst (feed wrong_type_rest p1) in
  exists extra, r_errors (buildResult p2) = r_errors (buildResult p1) ++ extra.
Proof.
  cbv zeta.
  apply (errors_only_grow number_schema_parser
           (fst (feed wrong_type_chunk number_schema_parser))
           (fst (feed wrong_type_rest
                   (fst (feed wrong_type_chunk number_schema_parser))))
           wrong_type_chunk [wrong_type_rest]
           (buildResult (fst (feed wrong_type_chunk number_schema_parser)))
           (buildResult
              (fst (feed wrong_type_rest
                      (fst (feed wrong_type_chunk number_schema_parser)))))
           [buildResult
              (fst (feed wrong_type_rest
                      (fst (feed wrong_type_chunk number_schema_parser))))]
           None).
  - vm_compute. reflexivity.
  - vm_compute. reflexivity.
  - left. reflexivity.
Defined.

(** ** Parsers as they were created *)

Lemma reachable_configured : forall rt options p,
    Reachable rt options p -> configuredAs rt options p.
Proof.
  intros rt options p H. induction H as [|p chunk H IH|p H IH].
  - unfold configuredAs. auto.
  - destruct IH as (I1 & I2 & I3 & I4).
    destruct (feed_outcome chunk p) as (A1 & A2 & A3 & A4 & _).
    unfold configuredAs. repeat split; congruence.
  - destruct IH as (I1 & I2 & I3 & I4).
    unfold configuredAs, reset. cbn [p_rt p_options p_validator p_tokenizer
                                       tokenizer_reset t_options].
    auto.
Qed.

(** X3.  [reset()] gives back the parser as it was created: after any
    sequence of [feed] and [reset] calls, whether they returned or threw,
    the parser that [reset] leaves is the one
    [new StreamingJSONParser(options)] builds. *)
Theorem reset_restores_fresh_parser :
  forall (rt : Runtime) (options : ParserOptions) (p : StreamingJSONParser),
    Reachable rt options p ->
    reset p = newStreamingJSONParser rt options.
Proof.
  intros rt options p H.
  destruct (reachable_configured rt options p H) as (H1 & H2 & H3 & H4).
  unfold reset, tokenizer_reset. rewrite H1, H2, H3, H4. reflexivity.
Qed.

Lemma reset_restores_fresh_parser_witness :
  reset (fst (feed open_chunk (newStreamingJSONParser plain_runtime (strictOptions 1))))
  = newStreamingJSONParser plain_runtime (strictOptions 1).
Proof.
  apply (reset_restores_fresh_parser plain_runtime (strictOptions 1)
           (fst (feed open_chunk
                   (newStreamingJSONParser plain_runtime (strictOptions 1))))).
  apply reach_feed. apply reach_new.
Defined.

(** ** Where errors and exceptions come from *)

Lemma strict_schemaless_setup : forall rt options p,
    strictNoSchema options ->
    configuredAs rt options p ->
    p_validator p = None /\ o_llmMode (p_options p) = false.
Proof.
  intros rt options p [Hs Hl] (_ & Ho & Hv & _).
  rewrite Hv, Ho. unfold newStreamingJSONParser, mergeOptions.
  cbn [p_validator o_schema o_llmMode]. rewrite Hs. split; [reflexivity|].
  destruct (llmMode options) as [[|]|]; [contradiction Hl|..]; reflexivity.
Qed.

Lemma reachable_strict_no_errors : forall rt options p,
    strictNoSchema options ->
    Reachable rt options p ->
    p_errors p = [].
Proof.
  intros rt options p Hopt H. induction H as [|p chunk H IH|p H IH].
  - reflexivity.
  - destruct (strict_schemaless_setup rt options p Hopt
                (reachable_configured _ _ _ H)) as [Hv Hl].
    destruct (feed_outcome chunk p) as (_ & _ & _ & _ & _ & (x & Hx & Hc) & _).
    rewrite Hx, IH. destruct x as [|e x]; [reflexivity|].
    destruct Hc as [Hc|Hc]; [discriminate|contradiction|congruence].
  - reflexivity.
Qed.

(** X4.  A strict parser without schema reports no errors: after any
    sequence of [feed] and [reset] calls, every snapshot a [feed] returns
    has [errors = []] and [valid = true].  Malformed input makes such a
    parser throw; it is never recorded in [errors]. *)
Theorem strict_schemaless_reports_nothing :
  forall (rt : Runtime) (options : ParserOptions) (p p' : StreamingJSONParser)
         (chunk : list ascii) (r : ParseResult),
    strictNoSchema options ->
    Reachable rt options p ->
    feed chunk p = (p', inl r) ->
    r_errors r = [] /\ r_valid r = true.
Proof.
  intros rt options p p' chunk r Hopt Hreach Hfeed.
  assert (Hp' : Reachable rt options p').
  { replace p' with (fst (feed chunk p)) by (rewrite Hfeed; reflexivity).
    apply reach_feed. exact Hreach. }
  rewrite (feed_snapshot _ _ _ _ Hfeed). cbn [buildResult r_errors r_valid].
  rewrite (reachable_strict_no_errors rt options p' Hopt Hp'). auto.
Qed.

Lemma strict_schemaless_reports_nothing_witness :
  let p' := fst (feed open_chunk (newStreamingJSONParser plain_runtime noOptions)) in
  r_errors (buildResult p') = [] /\ r_valid (buildResult p') = true.
Proof.
  cbv zeta.
  apply (strict_schemaless_reports_nothing plain_runtime noOptions
           (newStreamingJSONParser plain_runtime noOptions)
           (fst (feed open_chunk (newStreamingJSONParser plain_runtime noOptions)))
           open_chunk
           (buildResult
              (fst (feed open_chunk (newStreamingJSONParser plain_runtime noOptions))))).
  - split; [reflexivity|discriminate].
  - apply reach_new.
  - vm_compute. reflexivity.
Defined.

(** X5.  A [ParseError] thrown by [feed] comes from a strict parser and
    leaves it in the Error state, with the chunk counted in
    [bytesProcessed]: for every parser, chunk and message, if [feed]
    throws [ParseError] then [llmMode] is off, [getState()] is Error
    afterwards and [isComplete()] is false. *)
Theorem parse_error_is_strict_and_final :
  forall (p p' : StreamingJSONParser) (chunk : list ascii) (message : string),
    feed chunk p = (p', inr (ParseError message)) ->
    o_llmMode (p_options p) = false
    /\ getState p' = Error
    /\ isComplete p' = false
    /\ p_bytesProcessed p' = p_bytesProcessed p + List.length chunk.
Proof.
  intros p p' chunk message H.
  destruct (feed_outcome chunk p) as (_ & _ & _ & _ & Hb & _ & Hp & _).
  rewrite H in Hb, Hp. cbn [fst snd] in Hb, Hp.
  destruct (Hp message eq_refl) as [Hs Hl].
  unfold getState, isComplete. rewrite Hs. auto.
Qed.

Lemma parse_error_is_strict_and_final_witness :
  let p := newStreamingJSONParser plain_runtime (strictOptions 1) in
  let p' := fst (feed nested_text p) in
  o_llmMode (p_options p) = false
  /\ getState p' = Error
  /\ isComplete p' = false
  /\ p_bytesProcessed p' = p_bytesProcessed p + List.length nested_text.
Proof.
  cbv zeta.
  apply (parse_error_is_strict_and_final
           (newStreamingJSONParser plain_runtime (strictOptions 1))
           (fst (feed nested_text
                   (newStreamingJSONParser plain_runtime (strictOptions 1))))
           nested_text "Maximum depth exceeded").
  vm_compute. reflexivity.
Defined.

(** X6.  A lenient parser without schema never throws: after any
    sequence of [feed] and [reset] calls, [feed] returns a snapshot for
    every chunk, whatever the text. *)
Theorem lenient_schemaless_never_throws :
  forall (rt : Runtime) (options : ParserOptions) (p : StreamingJSONParser)
         (chunk : list ascii),
    lenientNoSchema options ->
    Reachable rt options p ->
    exists p' r, feed chunk p = (p', inl r).
Proof.
  intros rt options p chunk [Hs Hl] Hreach.
  destruct (reachable_configured rt options p Hreach) as (_ & Ho & Hv & _).
  assert (Hval : p_validator p = None).
  { rewrite Hv. unfold newStreamingJSONParser, mergeOptions.
    cbn [p_validator o_schema]. rewrite Hs. reflexivity. }
  assert (Hllm : o_llmMode (p_options p) = true).
  { rewrite Ho. unfold mergeOptions. cbn [o_llmMode]. rewrite Hl. reflexivity. }
  destruct (feed_outcome chunk p) as (_ & _ & _ & _ & _ & _ & Hp & Hr).
  destruct (feed chunk p) as [p' [r|e]] eqn:E; [exists p', r; reflexivity|].
  cbn [fst snd] in Hp, Hr. exfalso. destruct e as [m|].
  - destruct (Hp m eq_refl) as [_ Hf]. congruence.
  - apply Hr; [reflexivity|exact Hval].
Qed.

Lemma lenient_schemaless_never_throws_witness :
  exists p' r,
    feed double_comma_text
      (newStreamingJSONParser plain_runtime (lenientOptions 100))
    = (p', inl r).
Proof.
  apply (lenient_schemaless_never_throws plain_runtime (lenientOptions 100)
           (newStreamingJSONParser plain_runtime (lenientOptions 100))
           double_comma_text).
  - split; reflexivity.
  - apply reach_new.
Defined.

(** X7.  A complete snapshot is final and closed: after any sequence of
    [feed] and [reset] calls, if the snapshot a [feed] returns has
    [complete = true], then its [depth] is 0, [isComplete()] is true and
    [getResult()] returns, without throwing, the snapshot's [data]. *)
Theorem complete_snapshot_is_result :
  forall (rt : Runtime) (options : ParserOptions) (p p' : StreamingJSONParser)
         (chunk : list ascii) (r : ParseResult),
    Reachable rt options p ->
    feed chunk p = (p', inl r) ->
    r_complete r = true ->
    r_depth r = 0 /\ isComplete p' = true /\ getResult p' = inl (r_data r).
Proof.
  intros rt options p p' chunk r Hreach Hfeed Hc.
  assert (Hp' : Reachable rt options p').
  { replace p' with (fst (feed chunk p)) by (rewrite Hfeed; reflexivity).
    apply reach_feed. exact Hreach. }
  pose proof (reachable_settled rt options p' Hp') as Hs.
  rewrite (feed_snapshot _ _ _ _ Hfeed) in *.
  cbn [buildResult r_complete r_depth r_data] in *.
  unfold getResult, isComplete. rewrite Hc.
  unfold settled in Hs. destruct (p_state p'); try discriminate.
  unfold getCurrentData. rewrite Hs. auto.
Qed.

Lemma complete_snapshot_is_result_witness :
  let p := newStreamingJSONParser plain_runtime noOptions in
  let p' := fst (feed nested_text p) in
  r_depth (buildResult p') = 0 /\ isComplete p' = true
  /\ getResult p' = inl (r_data (buildResult p')).
Proof.
  cbv zeta.
  apply (complete_snapshot_is_result plain_runtime noOptions
           (newStreamingJSONParser plain_runtime noOptions)
           (fst (feed nested_text (newStreamingJSONParser plain_runtime noOptions)))
           nested_text
           (buildResult
              (fst (feed nested_text
                      (newStreamingJSONParser plain_runtime noOptions))))).
  - apply reach_new.
  - vm_compute. reflexivity.
  - vm_compute. reflexivity.
Defined.

(* ------------------------------------------------------------------ *)
(** ** The tokenizer's loop in every mode *)

Lemma span_nonempty : forall p c r raw rest,
    p c = true -> span p (c :: r) = (raw, rest) -> raw <> [].
Proof.
  intros p c r raw rest Hc H. simpl in H. rewrite Hc in H.
  destruct (span p r). inversion H; subst. discriminate.
Qed.

Lemma numberStart_numberChar : forall c, isNumberStart c = true -> isNumberChar c = true.
Proof. intros c; each_char c; vm_compute; congruence. Qed.

(** What one round does to the buffer and to the tokens: when it asks
    for another round, at least one character is gone; at most one token
    is added. *)
Lemma processNextToken_round : forall t,
    roundOf t (processNextToken t).
Proof.
  intros t. unfold processNextToken.
  assert (Hskip := skip_spaces_length (t_buffer t)).
  set (buf := skip_spaces (t_buffer t)) in *.
  assert (Hb1 : t_buffer (skipWhitespace t) = buf) by reflexivity.
  assert (Ht1 : t_tokens (skipWhitespace t) = t_tokens t) by reflexivity.
  generalize dependent (skipWhitespace t). intros t1 Hb1 Ht1.
  assert (Hnone : forall t2 : StreamingTokenizer,
             t_buffer t2 = buf -> t_tokens t2 = t_tokens t ->
             roundOf t (false, t2)).
  { intros t2 E1 E2. unfold roundOf. cbn [fst snd]. split; [discriminate|].
    rewrite E1. split; [exact Hskip|]. exists []. rewrite app_nil_r. auto. }
  assert (Hsome : forall (t2 : StreamingTokenizer) added,
             List.length (t_buffer t2) < List.length buf ->
             t_tokens t2 = t_tokens t ++ added -> List.length added <= 1 ->
             roundOf t (true, t2)).
  { intros t2 added E1 E2 E3. unfold roundOf. cbn [fst snd].
    split; [intros _; lia|]. split; [lia|]. exists added. auto. }
  rewrite Hb1. clearbody buf.
  destruct buf as [|c r].
  { apply Hnone; assumption. }
  cbn [List.length] in Hskip, Hsome.
  assert (Hkey : forall tt,
             t_buffer tt = c :: r -> t_tokens tt = t_tokens t ->
             roundOf t (processUnquotedKey tt)).
  { intros tt E1 E2. unfold processUnquotedKey. rewrite E1.
    destruct (span isUnquotedKeyChar (c :: r)) as [key rest] eqn:Hsp.
    pose proof (span_length _ _ _ _ Hsp) as Hlen. cbn [List.length] in Hlen.
    destruct key as [|k key]; cbn [isEmpty negb].
    - apply Hnone; [|exact E2]. cbn [seek t_buffer].
      apply span_all in Hsp || idtac.
      destruct (isUnquotedKeyChar c) eqn:Hc.
      + simpl in Hsp. rewrite Hc in Hsp. destruct (span isUnquotedKeyChar r).
        discriminate.
      + simpl in Hsp. rewrite Hc in Hsp. inversion Hsp. reflexivity.
    - destruct rest as [|n rest];
        [|destruct (Ascii.eqb n ":" || isWhitespace n)];
        (eapply Hsome; [|cbn; rewrite E2; reflexivity|simpl; lia]);
        cbn; simpl in Hlen; lia. }
  repeat match goal with
         | |- roundOf t (if Ascii.eqb c ?k then _ else _) =>
             destruct (Ascii.eqb c k);
             [eapply Hsome;
              [|cbn; rewrite Ht1; reflexivity|simpl; lia];
              cbn; rewrite ?Hb1; simpl; lia|]
         end.
  destruct (Ascii.eqb c dquote || Ascii.eqb c squote).
  { destruct (Ascii.eqb c squote && negb (to_allowSingleQuotes (t_options t1))).
    - eapply Hsome; [|cbn; rewrite Ht1; reflexivity|simpl; lia].
      cbn; rewrite ?Hb1; simpl; lia.
    - unfold processString. rewrite Hb1. cbn [tl].
      destruct (scanString c [] [c] false r) as [[[v w] rest]|] eqn:Hs.
      + apply scanString_length in Hs.
        destruct (t_expectingKey t1);
          (eapply Hsome; [|cbn; rewrite Ht1; reflexivity|simpl; lia]);
          cbn; simpl; lia.
      + apply Hnone; [exact Hb1|exact Ht1]. }
  destruct (isNumberStart c) eqn:Hn.
  { unfold processNumber. rewrite Hb1.
    destruct (span isNumberChar (c :: r)) as [raw rest] eqn:Hsp.
    pose proof (span_length _ _ _ _ Hsp) as Hlen. cbn [List.length] in Hlen.
    pose proof (span_nonempty _ _ _ _ _ (numberStart_numberChar _ Hn) Hsp) as Hraw.
    destruct rest as [|y ys]; [apply Hnone; assumption|].
    destruct (negb (isEmpty raw) && isIncompleteNumberEnd (last raw "0"%char));
      [apply Hnone; assumption|].
    destruct raw as [|d raw]; [contradiction|].
    destruct (parseFloat (d :: raw));
      (eapply Hsome; [|cbn; rewrite Ht1; reflexivity|simpl; lia]);
      cbn; simpl in Hlen; lia. }
  destruct (Ascii.eqb c "t" || Ascii.eqb c "f" || Ascii.eqb c "n").
  { unfold processKeyword. rewrite Hb1.
    destruct (matchKeyword keywords (c :: r)) as [[kw [ty v]]|] eqn:Hm.
    - apply matchKeyword_some in Hm. destruct Hm as (Hin & Hst & _).
      apply starts_with_length in Hst.
      eapply Hsome; [|cbn; rewrite Ht1; reflexivity|simpl; lia].
      cbn [t_buffer pushToken seek]. rewrite length_skipn.
      apply keywords_cases in Hin.
      destruct Hin as [[-> _]|[[-> _]|[-> _]]]; simpl in *; lia.
    - destruct (isPartialKeyword (c :: r)); [apply Hnone; assumption|].
      destruct (to_allowUnquotedKeys (t_options t1) && t_expectingKey t1).
      + apply Hkey; assumption.
      + eapply Hsome; [|cbn; rewrite Ht1; reflexivity|simpl; lia].
        cbn; rewrite ?Hb1; simpl; lia. }
  destruct (to_allowUnquotedKeys (t_options t1) && t_expectingKey t1
            && isUnquotedKeyChar c).
  { apply Hkey; assumption. }
  destruct (to_llmMode (t_options t1)).
  - apply (Hsome _ []);
      [cbn; rewrite ?Hb1; simpl; lia|cbn; rewrite ?Ht1, app_nil_r; reflexivity|simpl; lia].
  - eapply Hsome; [|cbn; rewrite Ht1; reflexivity|simpl; lia].
    cbn; rewrite ?Hb1; simpl; lia.
Qed.

Lemma feed_loop_fuel : forall n fuel1 fuel2 t,
    List.length (t_buffer t) <= n ->
    List.length (t_buffer t) < fuel1 ->
    List.length (t_buffer t) < fuel2 ->
    feed_loop fuel1 t = feed_loop fuel2 t.
Proof.
  induction n as [|n IH]; intros fuel1 fuel2 t Hn H1 H2;
    (destruct fuel1 as [|f1]; [lia|]); (destruct fuel2 as [|f2]; [lia|]);
    cbn [feed_loop].
  - destruct (t_buffer t); [reflexivity|simpl in Hn; lia].
  - destruct (isEmpty (t_buffer t)); [reflexivity|].
    destruct (processNextToken_round t) as (Hlt & _).
    destruct (processNextToken t) as [[|] t']; [|reflexivity].
    cbn [fst snd] in Hlt. specialize (Hlt eq_refl).
    apply IH; lia.
Qed.

Lemma feed_loop_bounds : forall fuel t,
    List.length (t_buffer (feed_loop fuel t)) <= List.length (t_buffer t)
    /\ List.length (t_tokens (feed_loop fuel t))
       <= List.length (t_tokens t) + List.length (t_buffer t)
    /\ exists added, t_tokens (feed_loop fuel t) = t_tokens t ++ added.
Proof.
  induction fuel as [|f IH]; intros t; cbn [feed_loop].
  - split; [lia|]. split; [lia|]. exists []. rewrite app_nil_r. reflexivity.
  - destruct (isEmpty (t_buffer t)) eqn:He.
    + split; [lia|]. split; [lia|]. exists []. rewrite app_nil_r. reflexivity.
    + assert (Hpos : 1 <= List.length (t_buffer t))
        by (destruct (t_buffer t); [discriminate|simpl; lia]).
      destruct (processNextToken_round t) as (Hlt & Hle & added & Ha & Hl).
      destruct (processNextToken t) as [[|] t']; cbn [fst snd] in *.
      * specialize (Hlt eq_refl). destruct (IH t') as (B1 & B2 & more & B3).
        split; [lia|]. rewrite Ha in B2. rewrite length_app in B2.
        split; [lia|]. exists (added ++ more). rewrite B3, Ha, app_assoc.
        reflexivity.
      * split; [exact Hle|]. rewrite Ha, length_app.
        split; [lia|exists added; reflexivity].
Qed.

(** X8.  The loop of the tokenizer's [feed] ends, in every mode: a
    round that asks for another one has consumed at least one character,
    so the rounds are fewer than the characters of the carry and the
    chunk, and allowing more rounds changes nothing.  A call emits at
    most one token per character and leaves a carry no longer than what
    it was given. *)
Theorem tokenizer_loop_ends :
  forall (chunk : list ascii) (t : StreamingTokenizer) (rounds : nat),
    List.length (t_buffer t ++ chunk) < rounds ->
    feed_loop rounds (appended chunk t)
    = feed_loop (S (List.length (t_buffer t ++ chunk))) (appended chunk t)
    /\ t_tokens (tokenizer_feed chunk t) = t_tokens (feed_loop rounds (appended chunk t))
    /\ t_buffer (tokenizer_feed chunk t) = t_buffer (feed_loop rounds (appended chunk t))
    /\ List.length (t_tokens (tokenizer_feed chunk t))
       <= List.length (t_buffer t ++ chunk)
    /\ List.length (t_buffer (tokenizer_feed chunk t))
       <= List.length (t_buffer t ++ chunk).
Proof.
  intros chunk t rounds H.
  assert (E : feed_loop rounds (appended chunk t)
              = feed_loop (S (List.length (t_buffer t ++ chunk))) (appended chunk t)).
  { apply (feed_loop_fuel (List.length (t_buffer t ++ chunk)));
      cbn [appended t_buffer]; lia. }
  split; [exact E|]. rewrite E.
  destruct (feed_loop_bounds (S (List.length (t_buffer t ++ chunk)))
              (appended chunk t)) as (B1 & B2 & _).
  cbn [appended t_buffer t_tokens List.length] in B1, B2.
  unfold tokenizer_feed. cbv zeta. cbn [seek t_tokens t_buffer].
  fold (appended chunk t). cbn [appended t_buffer].
  repeat split; try reflexivity; lia.
Qed.

Lemma tokenizer_loop_ends_witness :
  feed_loop 100 (appended open_chunk strict_tokenizer)
  = feed_loop (S (List.length (t_buffer strict_tokenizer ++ open_chunk)))
      (appended open_chunk strict_tokenizer)
  /\ t_tokens (tokenizer_feed open_chunk strict_tokenizer)
     = t_tokens (feed_loop 100 (appended open_chunk strict_tokenizer))
  /\ t_buffer (tokenizer_feed open_chunk strict_tokenizer)
     = t_buffer (feed_loop 100 (appended open_chunk strict_tokenizer))
  /\ List.length (t_tokens (tokenizer_feed open_chunk strict_tokenizer))
     <= List.length (t_buffer strict_tokenizer ++ open_chunk)
  /\ List.length (t_buffer (tokenizer_feed open_chunk strict_tokenizer))
     <= List.length (t_buffer strict_tokenizer ++ open_chunk).
Proof.
  apply (tokenizer_loop_ends open_chunk strict_tokenizer 100).
  vm_compute. lia.
Defined.

(** ** Strings *)

Lemma scanString_decoded : forall quote s value raw escaped v w rest,
    scanString quote value raw escaped s = Some (v, w, rest) ->
    exists body,
      s = body ++ quote :: rest
      /\ w = raw ++ body ++ [quote]
      /\ v = value ++ (if escaped then unescapeString (backslash :: body)
                       else unescapeString body).
Proof.
  intros quote. induction s as [|c s IH]; intros value raw escaped v w rest H;
    [discriminate|].
  cbn [scanString] in H.
  destruct escaped.
  - destruct (IH _ _ _ _ _ _ H) as (body & -> & -> & ->).
    exists (c :: body). split; [reflexivity|].
    split; [rewrite <- !app_assoc; reflexivity|].
    cbn [unescapeString]. rewrite Ascii.eqb_refl, <- app_assoc. reflexivity.
  - destruct (Ascii.eqb c backslash) eqn:Hb.
    + apply Ascii.eqb_eq in Hb. subst c.
      destruct (IH _ _ _ _ _ _ H) as (body & -> & -> & ->).
      exists (backslash :: body). split; [reflexivity|].
      split; [rewrite <- !app_assoc; reflexivity|reflexivity].
    + destruct (Ascii.eqb c quote) eqn:Hq.
      * apply Ascii.eqb_eq in Hq. subst c. inversion H; subst.
        exists []. split; [reflexivity|]. split; [reflexivity|].
        cbn. rewrite app_nil_r. reflexivity.
      * destruct (IH _ _ _ _ _ _ H) as (body & -> & -> & ->).
        exists (c :: body). split; [reflexivity|].
        split; [rewrite <- !app_assoc; reflexivity|].
        cbn [unescapeString]. rewrite Hb, <- app_assoc. reflexivity.
Qed.

(** X9.  A string token carries the text it was read from: when
    [processString] completes a string that opens the buffer, the
    token's [raw] is the consumed text, from the opening to the closing
    quote, the buffer goes on right after it, the position advances by
    the length of [raw], and the token's value is [unescapeString] of
    the text between the quotes; the token is a Key under the
    expecting-key hint and a String otherwise. *)
Theorem string_token_is_consumed_text :
  forall (quote : ascii) (t t' : StreamingTokenizer),
    hd_error (t_buffer t) = Some quote ->
    processString quote t = (true, t') ->
    exists token body,
      t_tokens t' = t_tokens t ++ [token]
      /\ t_buffer t = tk_raw token ++ t_buffer t'
      /\ tk_raw token = quote :: body ++ [quote]
      /\ tk_value token = VStr (string_of_list_ascii (unescapeString body))
      /\ tk_type token = (if t_expectingKey t then TkKey else TkString)
      /\ tk_position token = t_position t
      /\ t_position t' = t_position t + List.length (tk_raw token)
      /\ tk_isPartial token = false.
Proof.
  intros quote t t' Hhd H. unfold processString in H.
  destruct (t_buffer t) as [|c s] eqn:Hb; [discriminate|].
  injection Hhd as ->. cbn [tl] in H.
  destruct (scanString quote [] [quote] false s) as [[[v w] rest]|] eqn:Hs;
    [|discriminate].
  destruct (scanString_decoded _ _ _ _ _ _ _ _ Hs) as (body & -> & -> & ->).
  injection H as <-.
  destruct (t_expectingKey t) eqn:He;
    eexists; exists body;
    (split; [cbn; reflexivity|]);
    cbn [setExpectingKey pushToken seek t_tokens t_buffer t_position
         tk_raw tk_value tk_type tk_position tk_isPartial app];
    (split; [rewrite <- app_assoc; reflexivity|]);
    repeat split; reflexivity.
Qed.

Lemma string_token_is_consumed_text_witness :
  let t := appended (text (q "a\nb" +++ ":1")) strict_tokenizer in
  exists token body,
    t_tokens (snd (processString dquote t)) = t_tokens t ++ [token]
    /\ t_buffer t = tk_raw token ++ t_buffer (snd (processString dquote t))
    /\ tk_raw token = dquote :: body ++ [dquote]
    /\ tk_value token = VStr (string_of_list_ascii (unescapeString body))
    /\ tk_type token = (if t_expectingKey t then TkKey else TkString)
    /\ tk_position token = t_position t
    /\ t_position (snd (processString dquote t))
       = t_position t + List.length (tk_raw token)
    /\ tk_isPartial token = false.
Proof.
  cbv zeta.
  apply (string_token_is_consumed_text dquote
           (appended (text (q "a\nb" +++ ":1")) strict_tokenizer)
           (snd (processString dquote
                   (appended (text (q "a\nb" +++ ":1")) strict_tokenizer)))).
  - reflexivity.
  - vm_compute. reflexivity.
Defined.

(** ** What is held back at the end of the buffer, and what is not *)

Lemma span_all_true : forall p s, forallb p s = true -> span p s = (s, []).
Proof.
  induction s as [|c s IH]; intros H; [reflexivity|].
  simpl in H. apply andb_true_iff in H. destruct H as [H1 H2].
  simpl. rewrite H1, (IH H2). reflexivity.
Qed.

Lemma feed_loop_once : forall fuel t t',
    t_buffer t <> [] ->
    processNextToken t = (false, t') ->
    feed_loop (S fuel) t = t'.
Proof.
  intros fuel t t' Hne H. cbn [feed_loop].
  destruct (t_buffer t); [contradiction|]. cbn [isEmpty]. rewrite H. reflexivity.
Qed.

Lemma skip_spaces_nonempty : forall s, skip_spaces s <> [] -> s <> [].
Proof. intros [|c s] H; [contradiction|discriminate]. Qed.

(** X10.  A number is held back until a character that ends it arrives,
    in every mode: when what is left of the carry and the chunk after
    leading blanks is a run of number characters that begins with a
    digit or a minus sign, [feed] emits no token and keeps the run as
    the carry. *)
Theorem number_at_end_is_held_back :
  forall (chunk : list ascii) (t : StreamingTokenizer) (c : ascii) (r : list ascii),
    skip_spaces (t_buffer t ++ chunk) = c :: r ->
    isNumberStart c = true ->
    forallb isNumberChar r = true ->
    t_tokens (tokenizer_feed chunk t) = []
    /\ t_buffer (tokenizer_feed chunk t) = c :: r.
Proof.
  intros chunk t c r Hs Hc Hr.
  unfold tokenizer_feed. cbv zeta. fold (appended chunk t).
  cbn [seek t_tokens t_buffer].
  assert (Hstep : processNextToken (appended chunk t)
                  = (false, skipWhitespace (appended chunk t))).
  { assert (Hb : t_buffer (skipWhitespace (appended chunk t)) = c :: r) by exact Hs.
    unfold processNextToken. rewrite Hb.
    destruct (numberStart_tests c Hc) as (_ & T1 & T2 & T3 & T4 & T5 & T6 & T7).
    rewrite T1, T2, T3, T4, T5, T6, T7, Hc.
    unfold processNumber. rewrite Hb.
    rewrite (span_all_true isNumberChar (c :: r)); [reflexivity|].
    cbn [forallb]. rewrite (numberStart_numberChar c Hc), Hr. reflexivity. }
  assert (Hne : t_buffer (appended chunk t) <> []).
  { apply skip_spaces_nonempty. cbn [appended t_buffer]. rewrite Hs. discriminate. }
  rewrite (feed_loop_once _ _ _ Hne Hstep).
  cbn [skipWhitespace appended seek t_tokens t_buffer]. auto.
Qed.

Lemma number_at_end_is_held_back_witness :
  t_tokens (tokenizer_feed (text " -12.5e3") strict_tokenizer) = []
  /\ t_buffer (tokenizer_feed (text " -12.5e3") strict_tokenizer) = text "-12.5e3".
Proof.
  apply (number_at_end_is_held_back (text " -12.5e3") strict_tokenizer "-"%char
           (text "12.5e3")).
  - reflexivity.
  - reflexivity.
  - reflexivity.
Defined.

Lemma keyChar_tests : forall c,
    isUnquotedKeyChar c = true ->
    isWhitespace c = false
    /\ Ascii.eqb c "{" = false /\ Ascii.eqb c "}" = false
    /\ Ascii.eqb c "[" = false /\ Ascii.eqb c "]" = false
    /\ Ascii.eqb c ":" = false /\ Ascii.eqb c "," = false
    /\ Ascii.eqb c dquote || Ascii.eqb c squote = false.
Proof. intros c; each_char c; vm_compute; intuition congruence. Qed.

(** X11.  An unquoted key is not held back: with [allowUnquotedKeys]
    and the expecting-key hint set, when what is left of the carry and
    the chunk after leading blanks is a run of key characters that does
    not begin with a digit or with one of [t], [f], [n], [feed] emits the
    whole run as one Key token at once and leaves an empty carry, so a
    key cut by the end of a chunk arrives as two tokens. *)
Theorem unquoted_key_emitted_at_buffer_end :
  forall (chunk : list ascii) (t : StreamingTokenizer) (k : ascii) (key : list ascii),
    to_allowUnquotedKeys (t_options t) = true ->
    t_expectingKey t = true ->
    skip_spaces (t_buffer t ++ chunk) = k :: key ->
    forallb isUnquotedKeyChar (k :: key) = true ->
    isNumberStart k = false ->
    Ascii.eqb k "t" || Ascii.eqb k "f" || Ascii.eqb k "n" = false ->
    map coreOf (t_tokens (tokenizer_feed chunk t))
    = [(TkKey, VStr (string_of_list_ascii (k :: key)))]
    /\ t_buffer (tokenizer_feed chunk t) = []
    /\ t_expectingKey (tokenizer_feed chunk t) = false.
Proof.
  intros chunk t k key Ha He Hs Hall Hn Hk.
  unfold tokenizer_feed. cbv zeta. fold (appended chunk t).
  cbn [seek t_tokens t_buffer t_expectingKey].
  assert (Hk1 : isUnquotedKeyChar k = true)
    by (cbn [forallb] in Hall; apply andb_true_iff in Hall; tauto).
  destruct (processNextToken (appended chunk t)) as [b t1] eqn:Hstep.
  assert (Hres : b = true /\ t_buffer t1 = []
                 /\ map coreOf (t_tokens t1)
                    = [(TkKey, VStr (string_of_list_ascii (k :: key)))]
                 /\ t_expectingKey t1 = false).
  { assert (Hb : t_buffer (skipWhitespace (appended chunk t)) = k :: key) by exact Hs.
    assert (Ho : to_allowUnquotedKeys (t_options (skipWhitespace (appended chunk t)))
                 = true) by exact Ha.
    assert (Hx : t_expectingKey (skipWhitespace (appended chunk t)) = true)
      by exact He.
    unfold processNextToken in Hstep. rewrite Hb in Hstep.
    destruct (keyChar_tests k Hk1) as (_ & T1 & T2 & T3 & T4 & T5 & T6 & T7).
    rewrite T1, T2, T3, T4, T5, T6, T7, Hn, Hk, Ho, Hx, Hk1 in Hstep.
    cbn [andb] in Hstep. unfold processUnquotedKey in Hstep.
    rewrite Hb, (span_all_true _ _ Hall) in Hstep. cbn [isEmpty negb] in Hstep.
    inversion Hstep; subst. cbn. auto. }
  destruct Hres as (-> & Hb & Ht & Hf).
  assert (Hloop : feed_loop (S (List.length (t_buffer (appended chunk t))))
                    (appended chunk t) = t1).
  { cbn [feed_loop].
    destruct (t_buffer (appended chunk t)) as [|x xs] eqn:Hbuf.
    - cbn [appended t_buffer] in Hbuf. rewrite Hbuf in Hs. discriminate.
    - cbn [isEmpty]. rewrite Hstep.
      destruct (List.length (x :: xs)); cbn [feed_loop]; [reflexivity|].
      rewrite Hb. reflexivity. }
  rewrite Hloop. auto.
Qed.

Lemma unquoted_key_emitted_at_buffer_end_witness :
  map coreOf (t_tokens (tokenizer_feed (text " user") lenient_tokenizer))
  = [(TkKey, VStr "user")]
  /\ t_buffer (tokenizer_feed (text " user") lenient_tokenizer) = []
  /\ t_expectingKey (tokenizer_feed (text " user") lenient_tokenizer) = false.
Proof.
  apply (unquoted_key_emitted_at_buffer_end (text " user") lenient_tokenizer
           "u"%char (text "ser")).
  - reflexivity.
  - reflexivity.
  - reflexivity.
  - reflexivity.
  - reflexivity.
  - reflexivity.
Defined.

(** ** The strict tokenizer does not depend on how the text is cut *)

Lemma retype_app : forall x y expecting,
    retype expecting (x ++ y)
    = retype expecting x ++ retype (hintAfter expecting x) y.
Proof.
  induction x as [|[ty v] x IH]; intros y expecting; [reflexivity|].
  cbn [app retype hintAfter fold_left fst]. rewrite IH. reflexivity.
Qed.

Lemma feed_loop_hint : forall s toks carry,
    Lexes s toks carry ->
    forall fuel t,
      t_buffer t = s ->
      strictTokenizer t ->
      List.length s < fuel ->
      t_expectingKey (feed_loop fuel t) = hintAfter (t_expectingKey t) toks.
Proof.
  induction 1 as [s Hs|s Hne Hm|s type value rest toks carry Hstep Hrest IH];
    intros fuel t Hbuf Hstrict Hfuel; subst s;
    (destruct fuel as [|fuel]; [lia|]); cbn [feed_loop].
  - destruct (isEmpty (t_buffer t)) eqn:He; [reflexivity|].
    destruct (processNextToken_end t Hs) as (t' & -> & _ & _ & Hx & _). exact Hx.
  - destruct (isEmpty (t_buffer t)) eqn:He.
    + destruct (t_buffer t); [contradiction|discriminate].
    + destruct (processNextToken_more t Hstrict Hne Hm) as (t' & -> & _ & _ & Hx & _).
      exact Hx.
  - destruct (isEmpty (t_buffer t)) eqn:He.
    + destruct (t_buffer t); [discriminate|discriminate].
    + destruct (processNextToken_token t _ _ _ Hstrict Hstep)
        as (t' & tok & -> & Hb & Ht & Hty & Hv & Hf & Ho).
      assert (Hlen := lexStep_consumes _ _ _ _ Hstep).
      assert (Hsk := skip_spaces_length (t_buffer t)).
      rewrite (IH fuel t' Hb); [|unfold strictTokenizer in *; rewrite Ho; exact Hstrict|lia].
      cbn [hintAfter fold_left fst]. rewrite Hf. reflexivity.
Qed.

Lemma tokenizer_feed_hint : forall chunk t toks carry,
    strictTokenizer t ->
    Lexes (t_buffer t ++ chunk) toks carry ->
    t_expectingKey (tokenizer_feed chunk t) = hintAfter (t_expectingKey t) toks.
Proof.
  intros chunk t toks carry Hstrict Hlex. unfold tokenizer_feed. cbv zeta.
  cbn [seek t_expectingKey].
  match goal with
  | |- context [feed_loop ?f ?t1] =>
      rewrite (feed_loop_hint _ _ _ Hlex f t1 eq_refl Hstrict (Nat.lt_succ_diag_r _))
  end.
  reflexivity.
Qed.

Lemma processNextToken_error : forall t,
    strictTokenizer t ->
    lexStep (skip_spaces (t_buffer t)) = LexError ->
    exists t' tok,
      processNextToken t = (true, t')
      /\ t_tokens t' = t_tokens t ++ [tok]
      /\ tk_type tok = TkError.
Proof.
  intros t [Hk [Hq Hl]] Hstep.
  destruct (skip_spaces (t_buffer t)) as [|c r] eqn:Hs; [discriminate|].
  unfold_processNextToken Hs Hk Hq Hl.
  unfold lexStep in Hstep.
  sync_with_lexStep Hstep;
    do 2 eexists; (split; [reflexivity|]); simpl; split; reflexivity.
Qed.

Lemma strictTokenizer_options : forall t t',
    t_options t' = t_options t -> strictTokenizer t -> strictTokenizer t'.
Proof. intros t t' H. unfold strictTokenizer. rewrite H. auto. Qed.

(** A strict tokenizer either lexes its buffer or emits an Error token. *)
Lemma feed_loop_lexes_or_error : forall n fuel t,
    List.length (t_buffer t) <= n ->
    List.length (t_buffer t) < fuel ->
    strictTokenizer t ->
    (exists toks carry, Lexes (t_buffer t) toks carry)
    \/ exists added tok,
         t_tokens (feed_loop fuel t) = t_tokens t ++ added
         /\ In tok added /\ tk_type tok = TkError.
Proof.
  induction n as [|n IH]; intros fuel t Hn Hfuel Hstrict.
  - left. exists [], []. apply lexes_end.
    destruct (t_buffer t); [reflexivity|simpl in Hn; lia].
  - destruct (skip_spaces (t_buffer t)) as [|c r] eqn:Hs.
    { left. exists [], []. apply lexes_end. exact Hs. }
    assert (Hne : skip_spaces (t_buffer t) <> []) by (rewrite Hs; discriminate).
    assert (Hbuf : isEmpty (t_buffer t) = false).
    { destruct (t_buffer t); [discriminate|reflexivity]. }
    assert (Hsk := skip_spaces_length (t_buffer t)).
    destruct (lexStep (skip_spaces (t_buffer t))) as [type value rest| |] eqn:Hstep.
    + destruct (processNextToken_token t _ _ _ Hstrict Hstep)
        as (t' & tok & E & Hb & Ht & _ & _ & _ & Ho).
      assert (Hlen := lexStep_consumes _ _ _ _ Hstep).
      destruct fuel as [|fuel]; [lia|].
      destruct (IH fuel t') as [(toks & carry & L)|(added & bad & Ha & Hin & Hbad)].
      * rewrite Hb. lia.
      * rewrite Hb. lia.
      * eapply strictTokenizer_options; eassumption.
      * left. exists ((type, value) :: toks), carry.
        eapply lexes_token; [exact Hstep|]. rewrite <- Hb. exact L.
      * right. exists (tok :: added), bad.
        cbn [feed_loop]. rewrite Hbuf, E, Ha, Ht, <- app_assoc.
        split; [reflexivity|]. split; [right; exact Hin|exact Hbad].
    + left. exists [], (skip_spaces (t_buffer t)). apply lexes_more; assumption.
    + destruct (processNextToken_error t Hstrict Hstep) as (t' & tok & E & Ht & Hty).
      right. destruct fuel as [|fuel]; [lia|].
      destruct (feed_loop_bounds fuel t') as (_ & _ & more & Hmore).
      exists (tok :: more), tok.
      cbn [feed_loop]. rewrite Hbuf, E, Hmore, Ht, <- app_assoc.
      split; [reflexivity|]. split; [left; reflexivity|exact Hty].
Qed.

(** X12.  A strict tokenizer does not depend on where the text is cut,
    as long as the text gives no Error token: if feeding a text in one
    call emits no Error token, then feeding it in two calls, cut
    anywhere, emits tokens of the same types and values in the same
    order, and ends with the same carry and the same expecting-key
    hint. *)
Theorem strict_tokenizer_chunk_invariant :
  forall (a b : list ascii) (t : StreamingTokenizer),
    strictTokenizer t ->
    noErrorToken (t_tokens (tokenizer_feed (a ++ b) t)) ->
    map coreOf (t_tokens (tokenizer_feed a t)
                ++ t_tokens (tokenizer_feed b (tokenizer_feed a t)))
    = map coreOf (t_tokens (tokenizer_feed (a ++ b) t))
    /\ t_buffer (tokenizer_feed b (tokenizer_feed a t))
       = t_buffer (tokenizer_feed (a ++ b) t)
    /\ t_expectingKey (tokenizer_feed b (tokenizer_feed a t))
       = t_expectingKey (tokenizer_feed (a ++ b) t).
Proof.
  intros a b t Hstrict Hclean.
  assert (Hlex : exists toks carry, Lexes (t_buffer t ++ a ++ b) toks carry).
  { destruct (feed_loop_lexes_or_error
                (List.length (t_buffer (appended (a ++ b) t)))
                (S (List.length (t_buffer (appended (a ++ b) t))))
                (appended (a ++ b) t) (Nat.le_refl _) (Nat.lt_succ_diag_r _) Hstrict)
      as [H|(added & tok & Ha & Hin & Hbad)]; [exact H|].
    exfalso. unfold noErrorToken, tokenizer_feed in Hclean. cbv zeta in Hclean.
    cbn [seek t_tokens] in Hclean. fold (appended (a ++ b) t) in Hclean.
    rewrite Ha in Hclean. cbn [appended t_tokens app] in Hclean.
    rewrite Forall_forall in Hclean. exact (Hclean tok Hin Hbad). }
  destruct Hlex as (toks & carry & Hlex).
  assert (Hone := Hlex). rewrite app_assoc in Hlex.
  destruct (Lexes_split _ _ _ Hlex _ _ eq_refl) as (t1 & t2 & c1 & L1 & L2 & ->).
  destruct (tokenizer_feed_lexes a t t1 c1 Hstrict L1) as (B1 & M1 & O1).
  pose proof (tokenizer_feed_hint a t t1 c1 Hstrict L1) as F1.
  assert (Hstrict1 : strictTokenizer (tokenizer_feed a t))
    by (eapply strictTokenizer_options; eassumption).
  rewrite <- B1 in L2.
  destruct (tokenizer_feed_lexes b _ t2 carry Hstrict1 L2) as (B2 & M2 & O2).
  pose proof (tokenizer_feed_hint b _ t2 carry Hstrict1 L2) as F2.
  destruct (tokenizer_feed_lexes (a ++ b) t (t1 ++ t2) carry Hstrict Hone)
    as (B & M & O).
  pose proof (tokenizer_feed_hint (a ++ b) t (t1 ++ t2) carry Hstrict Hone) as F.
  split; [|split].
  - rewrite map_app, M1, M2, M, F1, retype_app. reflexivity.
  - congruence.
  - rewrite F2, F, F1. unfold hintAfter. rewrite fold_left_app. reflexivity.
Qed.

Lemma strict_tokenizer_chunk_invariant_witness :
  map coreOf (t_tokens (tokenizer_feed first_chunk strict_tokenizer)
              ++ t_tokens (tokenizer_feed second_chunk
                             (tokenizer_feed first_chunk strict_tokenizer)))
  = map coreOf (t_tokens (tokenizer_feed (first_chunk ++ second_chunk)
                            strict_tokenizer))
  /\ t_buffer (tokenizer_feed second_chunk
                 (tokenizer_feed first_chunk strict_tokenizer))
     = t_buffer (tokenizer_feed (first_chunk ++ second_chunk) strict_tokenizer)
  /\ t_expectingKey (tokenizer_feed second_chunk
                       (tokenizer_feed first_chunk strict_tokenizer))
     = t_expectingKey (tokenizer_feed (first_chunk ++ second_chunk)
                         strict_tokenizer).
Proof.
  apply (strict_tokenizer_chunk_invariant first_chunk second_chunk strict_tokenizer).
  - repeat split; reflexivity.
  - vm_compute. repeat constructor; discriminate.
Defined.

Lemma keyword_prefixes : forall kw rest more,
    In kw (map fst keywords) -> kw = rest ++ more -> rest <> [] -> more <> [] ->
    In rest (map text ["t"; "tr"; "tru"; "f"; "fa"; "fal"; "fals"; "n"; "nu"; "nul"]).
Proof.
  intros kw rest more Hin E Hr Hm.
  cbn [keywords map fst] in Hin.
  destruct Hin as [<-|[<-|[<-|[]]]];
    repeat (destruct rest as [|? rest];
            [first [contradiction
                   | cbn [app] in E; subst more; cbn; tauto]
            | cbn [app] in E; try discriminate E;
              injection E as <- E]);
    try (destruct rest; [|discriminate E]; cbn [app] in E; subst more;
         contradiction).
Qed.

Lemma keyword_prefix_round : forall t rest,
    t_buffer (skipWhitespace t) = rest ->
    In rest (map text ["t"; "tr"; "tru"; "f"; "fa"; "fal"; "fals"; "n"; "nu"; "nul"]) ->
    processNextToken t = (false, skipWhitespace t).
Proof.
  intros t rest Hb Hin. unfold processNextToken. cbv zeta.
  cbn [map] in Hin.
  repeat (destruct Hin as [<-|Hin];
          [rewrite Hb; cbn; unfold processKeyword; rewrite Hb; reflexivity|]).
  destruct Hin.
Qed.

(** X18.  A keyword cut by the end of the input is held back, in every
    mode: when what is left of the carry and the chunk after leading
    blanks is a proper, non-empty prefix of [true], [false] or [null],
    [feed] emits no token and keeps the prefix as the carry. *)
Theorem keyword_prefix_is_held_back :
  forall (chunk : list ascii) (t : StreamingTokenizer)
         (keyword rest more : list ascii),
    In keyword (map fst keywords) ->
    keyword = rest ++ more ->
    rest <> [] ->
    more <> [] ->
    skip_spaces (t_buffer t ++ chunk) = rest ->
    t_tokens (tokenizer_feed chunk t) = []
    /\ t_buffer (tokenizer_feed chunk t) = rest.
Proof.
  intros chunk t keyword rest more Hin E Hr Hm Hs.
  unfold tokenizer_feed. cbv zeta. fold (appended chunk t).
  cbn [seek t_tokens t_buffer].
  assert (Hstep : processNextToken (appended chunk t)
                  = (false, skipWhitespace (appended chunk t))).
  { apply (keyword_prefix_round _ rest); [exact Hs|].
    apply (keyword_prefixes keyword rest more); assumption. }
  assert (Hne : t_buffer (appended chunk t) <> []).
  { apply skip_spaces_nonempty. cbn [appended t_buffer]. rewrite Hs. exact Hr. }
  rewrite (feed_loop_once _ _ _ Hne Hstep).
  cbn [skipWhitespace appended seek t_tokens t_buffer]. auto.
Qed.

Lemma keyword_prefix_is_held_back_witness :
  t_tokens (tokenizer_feed (text " fal") lenient_tokenizer) = []
  /\ t_buffer (tokenizer_feed (text " fal") lenient_tokenizer) = text "fal".
Proof.
  apply (keyword_prefix_is_held_back (text " fal") lenient_tokenizer
           (text "false") (text "fal") (text "se")).
  - right. left. reflexivity.
  - reflexivity.
  - discriminate.
  - discriminate.
  - reflexivity.
Defined.

(* ------------------------------------------------------------------ *)
(** ** Further properties of the validator *)

Lemma collect_none : forall (A E : Type) (f : A -> option (list E)) l,
    (forall x, In x l -> f x = Some []) -> collect f l = Some [].
Proof.
  intros A E f. induction l as [|x l IH]; intros H; [reflexivity|].
  cbn [collect]. rewrite (H x (or_introl eq_refl)). cbn [obind].
  rewrite IH by (intros y Hy; apply H; right; exact Hy). reflexivity.
Qed.

(** X13.  The empty schema accepts everything: a validator built for
    [{}] returns no error for any value at any path, whatever its
    options, as soon as the stack allows two nested calls. *)
Theorem empty_schema_accepts_everything :
  forall (rt : Runtime) (o_early o_all : option bool) (fuel : nat)
         (value : Value) (path : list string),
    2 <= fuel ->
    validate (newSchemaValidator rt emptySchema o_early o_all) fuel value path
    = Some [].
Proof.
  intros rt o_early o_all fuel value path Hfuel.
  destruct fuel as [|[|f]]; try lia.
  unfold validate. destruct path as [|seg rest]; cbn [isEmpty obind].
  - cbn [validateValue c_schema newSchemaValidator v_definitions v_rt v_options].
    rewrite resolveRef_step. cbn [emptySchema s_ref obind s_type isEmpty negb andb].
    cbn [s_const s_enum s_allOf s_anyOf s_oneOf s_not s_if].
    destruct value as [|b|x|s|xs|kvs]; reflexivity.
  - unfold getSchemaAtPath. cbn [getSchemaAtPath_from newSchemaValidator
                                  v_definitions v_schema].
    rewrite resolveRef_step. reflexivity.
Qed.

Lemma empty_schema_accepts_everything_witness :
  validate (newSchemaValidator plain_runtime emptySchema None None) 2
    items_value ["a"; "0"]
  = Some [].
Proof.
  apply (empty_schema_accepts_everything plain_runtime None None 2 items_value
           ["a"; "0"]).
  lia.
Defined.

(** ** Errors are attributed below the validated path *)

Lemma underPath_here : forall ctx keyword message value,
    underPath (c_path ctx) (createError ctx keyword message value).
Proof. intros. exists []. cbn. rewrite app_nil_r. reflexivity. Qed.

Lemma underPath_segment : forall path seg e,
    underPath (path ++ [seg]) e -> underPath path e.
Proof.
  intros path seg e [below H]. exists (seg :: below).
  rewrite H, <- app_assoc. reflexivity.
Qed.

Lemma Forall_check_bound : forall path bound violated mk,
    (forall b, underPath path (mk b)) ->
    Forall (underPath path) (check_bound bound violated mk).
Proof.
  intros path [b|] violated mk H; cbn [check_bound]; [|constructor].
  destruct (violated b); [constructor; [apply H|constructor]|constructor].
Qed.

Lemma collect_Forall : forall (A : Type) (P : ValidationError -> Prop)
    (f : A -> option (list ValidationError)) l errs,
    (forall x e, In x l -> f x = Some e -> Forall P e) ->
    collect f l = Some errs -> Forall P errs.
Proof.
  intros A P f. induction l as [|x l IH]; intros errs H E; cbn [collect] in E.
  - inversion E; constructor.
  - apply obind_some in E. destruct E as (e & Ex & E).
    apply obind_some in E. destruct E as (es & Es & E).
    inversion E; subst. apply Forall_app. split.
    + apply (H x); [left; reflexivity|exact Ex].
    + apply IH; [|exact Es]. intros y e' Hy. apply H. right. exact Hy.
Qed.

Ltac here := first [apply underPath_here | constructor].

Section PathsOfContainers.

Variable rt : Runtime.
Variable rec : Value -> ValidationContext -> option (list ValidationError).

Hypothesis rec_paths : forall v ctx errs,
    rec v ctx = Some errs -> Forall (underPath (c_path ctx)) errs.

Lemma rec_same_path : forall v ctx s errs,
    rec v (with_schema ctx s) = Some errs -> Forall (underPath (c_path ctx)) errs.
Proof. intros v ctx s errs H. apply (rec_paths _ _ _ H). Qed.

Lemma rec_segment : forall v ctx seg s errs,
    rec v (with_segment ctx seg s) = Some errs ->
    Forall (underPath (c_path ctx)) errs.
Proof.
  intros v ctx seg s errs H. apply rec_paths in H. cbn [with_segment c_path] in H.
  eapply Forall_impl; [|exact H]. intros e. apply underPath_segment.
Qed.

Lemma validateArray_paths : forall value sch ctx errs,
    validateArray rt rec value sch ctx = Some errs ->
    Forall (underPath (c_path ctx)) errs.
Proof.
  intros value sch ctx errs H. unfold validateArray in H.
  apply obind_some in H. destruct H as (e2 & E2 & H).
  apply obind_some in H. destruct H as (e3 & E3 & H).
  inversion H; subst; clear H.
  repeat (apply Forall_app; split).
  - apply Forall_check_bound. intros b. apply underPath_here.
  - apply Forall_check_bound. intros b. apply underPath_here.
  - destruct (s_uniqueItems sch) as [[|]|]; try constructor.
    destruct (nodup_strings _); repeat here.
  - destruct (s_items sch) as [[s|tuple]|].
    + eapply collect_Forall; [|exact E2]. intros [i v] e _ He. cbv beta iota in He.
      eapply rec_segment. exact He.
    + eapply collect_Forall; [|exact E2]. intros [i v] e _ He. cbv beta iota in He.
      destruct (nth_error tuple i) as [s|].
      * eapply rec_segment. exact He.
      * destruct (s_additionalItems sch) as [[s|[|]]|];
          try (eapply rec_segment; exact He);
          try (inversion He; subst; constructor).
        destruct (Nat.leb (List.length tuple) i); inversion He; subst; repeat here.
    + inversion E2; subst; constructor.
  - destruct (s_contains sch) as [c|]; [|inversion E3; subst; constructor].
    apply obind_some in E3. destruct E3 as (ok & _ & E3).
    inversion E3; subst. destruct ok; repeat here.
Qed.

Lemma validateObject_paths : forall value sch ctx errs,
    validateObject rt rec value sch ctx = Some errs ->
    Forall (underPath (c_path ctx)) errs.
Proof.
  intros value sch ctx errs H. unfold validateObject in H.
  apply obind_some in H. destruct H as (e2 & E2 & H).
  apply obind_some in H. destruct H as (e3 & E3 & H).
  apply obind_some in H. destruct H as (e4 & E4 & H).
  apply obind_some in H. destruct H as (e5 & E5 & H).
  inversion H; subst; clear H.
  repeat (apply Forall_app; split).
  - apply Forall_check_bound. intros b. apply underPath_here.
  - apply Forall_check_bound. intros b. apply underPath_here.
  - apply Forall_flat_map. apply Forall_forall. intros r _.
    destruct (has_key value r); repeat here.
  - eapply collect_Forall; [|exact E2]. intros [k s] e _ He. cbn [fst snd] in He.
    destruct (assoc_get k value); [eapply rec_segment; exact He|].
    inversion He; subst; constructor.
  - eapply collect_Forall; [|exact E3]. intros [pat s] e _ He. cbn [fst snd] in He.
    eapply collect_Forall; [|exact He]. intros key e' _ He'. cbv beta in He'.
    destruct (regexp_test rt pat false key); [|inversion He'; subst; constructor].
    destruct (assoc_get key value); [eapply rec_segment; exact He'|].
    inversion He'; subst; constructor.
  - destruct (s_additionalProperties sch) as [[s|[|]]|];
      try (inversion E4; subst; constructor).
    + eapply collect_Forall; [|exact E4]. intros key e _ He. cbv beta in He.
      destruct (assoc_get key value); [eapply rec_segment; exact He|].
      inversion He; subst; constructor.
    + inversion E4; subst. apply Forall_forall. intros e He.
      apply in_map_iff in He. destruct He as (key & <- & _). apply underPath_here.
  - destruct (s_propertyNames sch) as [pn|]; [|inversion E5; subst; constructor].
    eapply collect_Forall; [|exact E5]. intros key e _ He. cbv beta in He.
    apply obind_some in He. destruct He as (ok & _ & He).
    inversion He; subst. destruct ok; repeat here.
Qed.

End PathsOfContainers.

Lemma validateType_paths : forall value ty ctx,
    Forall (underPath (c_path ctx)) (validateType value ty ctx).
Proof.
  intros. unfold validateType. cbv zeta.
  repeat match goal with
         | |- context [if ?b then _ else _] => destruct b
         end; repeat here.
Qed.

Lemma validateString_paths : forall rt value sch ctx,
    Forall (underPath (c_path ctx)) (validateString rt value sch ctx).
Proof.
  intros. unfold validateString.
  repeat (apply Forall_app; split);
    try (apply Forall_check_bound; intros b; apply underPath_here).
  - destruct (s_pattern sch); [|constructor].
    destruct (regexp_test _ _ _ _); repeat here.
  - destruct (s_format sch); [|constructor].
    destruct (validateFormat _ _ _); repeat here.
Qed.

Lemma validateNumber_paths : forall rt value sch ctx,
    Forall (underPath (c_path ctx)) (validateNumber rt value sch ctx).
Proof.
  intros. unfold validateNumber.
  repeat (apply Forall_app; split);
    apply Forall_check_bound; intros b; apply underPath_here.
Qed.

Lemma validateValue_paths : forall V fuel value ctx errs,
    validateValue V fuel value ctx = Some errs ->
    Forall (underPath (c_path ctx)) errs.
Proof.
  intros V. induction fuel as [|f IH]; intros value ctx errs H; [discriminate|].
  cbn [validateValue] in H. cbv zeta in H.
  apply obind_some in H. destruct H as (sch & _ & H).
  assert (Hty : Forall (underPath (c_path ctx))
                  match s_type sch with
                  | Some ty => validateType value ty ctx
                  | None => []
                  end).
  { destruct (s_type sch); [apply validateType_paths|constructor]. }
  destruct (negb _ && earlyReject _).
  { inversion H; subst. exact Hty. }
  apply obind_some in H. destruct H as (e_kind & Ek & H).
  apply obind_some in H. destruct H as (e_all & Eall & H).
  apply obind_some in H. destruct H as (e_any & Eany & H).
  apply obind_some in H. destruct H as (e_one & Eone & H).
  apply obind_some in H. destruct H as (e_not & Enot & H).
  apply obind_some in H. destruct H as (e_if & Eif & H).
  inversion H; subst; clear H.
  repeat (apply Forall_app; split).
  - exact Hty.
  - destruct (s_const sch); [|constructor].
    destruct (deepEqual _ _); repeat here.
  - destruct (s_enum sch); [|constructor].
    destruct (existsb _ _); repeat here.
  - destruct value; try (inversion Ek; subst; constructor).
    + inversion Ek; subst. apply validateNumber_paths.
    + inversion Ek; subst. apply validateString_paths.
    + eapply validateArray_paths; [|exact Ek]. exact (IH).
    + eapply validateObject_paths; [|exact Ek]. exact (IH).
  - destruct (s_allOf sch); [|inversion Eall; subst; constructor].
    eapply collect_Forall; [|exact Eall]. intros s e _ He. cbv beta in He.
    exact (IH _ _ _ He).
  - destruct (s_anyOf sch); [|inversion Eany; subst; constructor].
    apply obind_some in Eany. destruct Eany as (ok & _ & E).
    inversion E; subst. destruct ok; repeat here.
  - destruct (s_oneOf sch); [|inversion Eone; subst; constructor].
    apply obind_some in Eone. destruct Eone as (n & _ & E).
    inversion E; subst. destruct (Nat.eqb n 1); repeat here.
  - destruct (s_not sch); [|inversion Enot; subst; constructor].
    apply obind_some in Enot. destruct Enot as (ok & _ & E).
    inversion E; subst. destruct ok; repeat here.
  - destruct (s_if sch); [|inversion Eif; subst; constructor].
    apply obind_some in Eif. destruct Eif as (ok & _ & E).
    destruct ok.
    + destruct (s_then sch); [exact (IH _ _ _ E)|inversion E; subst; constructor].
    + destruct (s_else sch); [exact (IH _ _ _ E)|inversion E; subst; constructor].
Qed.

(** X14.  Every error that [validate(value, path)] returns is attributed
    to the validated path or to a place below it: the path of the error
    starts with [path].  The same holds for [validatePartial]. *)
Theorem validation_errors_lie_below_path :
  forall (V : SchemaValidator) (fuel : nat) (value : Value)
         (completedPaths path : list string) (errs : list ValidationError),
    validate V fuel value path = Some errs
    \/ validatePartial V fuel value completedPaths path = Some errs ->
    Forall (underPath path) errs.
Proof.
  intros V fuel value completedPaths path errs H.
  destruct H as [H|H].
  - unfold validate in H.
    apply obind_some in H. destruct H as ([s|] & _ & H).
    + apply validateValue_paths in H. exact H.
    + inversion H; subst. constructor.
  - unfold validatePartial in H. cbv zeta in H.
    destruct (_ || _).
    + apply validateValue_paths in H. exact H.
    + inversion H; subst. constructor.
Qed.

Lemma validation_errors_lie_below_path_witness :
  List.length (opt_list (validate rows_validator 3 items_value ["r"])) = 2
  /\ Forall (underPath ["r"])
       (opt_list (validate rows_validator 3 items_value ["r"])).
Proof.
  split; [reflexivity|].
  apply (validation_errors_lie_below_path rows_validator 3 items_value [] ["r"]
           (opt_list (validate rows_validator 3 items_value ["r"]))).
  left. vm_compute. reflexivity.
Defined.

(** ** Structural equality *)

Lemma Value_deep_ind : forall P : Value -> Prop,
    P VNull -> (forall b, P (VBool b)) -> (forall q, P (VNum q)) ->
    (forall s, P (VStr s)) ->
    (forall xs, Forall P xs -> P (VArr xs)) ->
    (forall kvs, Forall (fun kv => P (snd kv)) kvs -> P (VObj kvs)) ->
    forall v, P v.
Proof.
  intros P Hnull Hbool Hnum Hstr Harr Hobj.
  refine (fix IH (v : Value) : P v :=
            match v with
            | VNull => Hnull
            | VBool b => Hbool b
            | VNum q => Hnum q
            | VStr s => Hstr s
            | VArr xs =>
                Harr xs ((fix all (l : list Value) : Forall P l :=
                            match l with
                            | [] => Forall_nil _
                            | x :: r => Forall_cons _ (IH x) (all r)
                            end) xs)
            | VObj kvs =>
                Hobj kvs
                  ((fix all (l : list (string * Value))
                      : Forall (fun kv => P (snd kv)) l :=
                      match l with
                      | [] => Forall_nil _
                      | kv :: r => Forall_cons _ (IH (snd kv)) (all r)
                      end) kvs)
            end).
Qed.

Lemma string_of_nat_inj : forall i j, string_of_nat i = string_of_nat j -> i = j.
Proof.
  intros i j H. unfold string_of_nat in H.
  assert (E : Some (Nat.to_uint i) = Some (Nat.to_uint j)).
  { rewrite <- !NilEmpty.usu. rewrite H. reflexivity. }
  injection E as E.
  rewrite <- (DecimalNat.Unsigned.of_to i), <- (DecimalNat.Unsigned.of_to j).
  rewrite E. reflexivity.
Qed.

Lemma string_of_nat_not_length : forall i,
    String.eqb (string_of_nat i) "length" = false.
Proof.
  intros i. apply String.eqb_neq. intros H.
  assert (E : NilEmpty.uint_of_string (string_of_nat i) = None).
  { rewrite H. reflexivity. }
  unfold string_of_nat in E. rewrite NilEmpty.usu in E. discriminate.
Qed.

Lemma index_get_nth : forall l i j v,
    nth_error l j = Some v -> index_get (string_of_nat (i + j)) i l = Some v.
Proof.
  induction l as [|x l IH]; intros i j v H; [destruct j; discriminate|].
  cbn [index_get]. destruct j as [|j]; cbn [nth_error] in H.
  - rewrite Nat.add_0_r, String.eqb_refl. exact H.
  - replace (String.eqb (string_of_nat (i + S j)) (string_of_nat i)) with false.
    + rewrite <- Nat.add_succ_comm. apply IH. exact H.
    + symmetry. apply String.eqb_neq. intros E.
      apply string_of_nat_inj in E. lia.
Qed.

Lemma assoc_get_none : forall (A : Type) k (l : list (string * A)),
    str_in k (map fst l) = false -> assoc_get k l = None.
Proof.
  intros A k. induction l as [|[k' v] l IH]; intros H; [reflexivity|].
  cbn [map fst str_in existsb] in H. unfold str_in in IH.
  apply orb_false_iff in H. destruct H as [H1 H2].
  cbn [assoc_get]. rewrite H1. apply IH. exact H2.
Qed.

Lemma assoc_get_unique : forall (A : Type) (l : list (string * A)) k v,
    nodup_strings (map fst l) = true -> In (k, v) l -> assoc_get k l = Some v.
Proof.
  intros A. induction l as [|[k' v'] l IH]; intros k v Hn Hin; [destruct Hin|].
  cbn [map fst nodup_strings] in Hn. apply andb_true_iff in Hn.
  destruct Hn as [Hfresh Hn]. apply negb_true_iff in Hfresh.
  cbn [assoc_get]. destruct Hin as [E|Hin].
  - injection E as -> ->. rewrite String.eqb_refl. reflexivity.
  - destruct (String.eqb k k') eqn:Ek.
    + apply String.eqb_eq in Ek. subst k'.
      apply assoc_get_none in Hfresh. rewrite (IH k v Hn Hin) in Hfresh.
      discriminate.
    + apply IH; assumption.
Qed.

Lemma deepEqual_refl : forall v, uniqueKeys v = true -> deepEqual v v = true.
Proof.
  induction v as [|b|x|s|xs IH|kvs IH] using Value_deep_ind; intros Hu.
  - reflexivity.
  - cbn. apply Bool.eqb_reflx.
  - cbn. apply Qeq_bool_iff. reflexivity.
  - cbn. apply String.eqb_refl.
  - cbn [uniqueKeys] in Hu. cbn [deepEqual is_objectish own_keys andb].
    rewrite length_map, length_seq, Nat.eqb_refl. cbn [andb].
    assert (G : forall l i,
               (forall j v, nth_error l j = Some v ->
                            nth_error xs (i + j) = Some v) ->
               Forall (fun v => uniqueKeys v = true -> deepEqual v v = true) l ->
               forallb uniqueKeys l = true ->
               (fix every (l : list Value) (i : nat) {struct l} : bool :=
                  match l with
                  | [] => true
                  | v :: r =>
                      match prop_get (VArr xs) (string_of_nat i) with
                      | Some w => deepEqual v w
                      | None => false
                      end && every r (S i)
                  end) l i = true).
    { induction l as [|v r IHr]; intros i Hnth Hall Hur; [reflexivity|].
      cbn [forallb] in Hur. apply andb_true_iff in Hur. destruct Hur as [Hv Hr].
      inversion Hall as [|? ? Pv Pr]; subst.
      cbn [prop_get]. rewrite string_of_nat_not_length.
      assert (E := index_get_nth xs 0 i v). cbn [Nat.add] in E.
      rewrite E by (rewrite <- (Nat.add_0_r i); apply Hnth; reflexivity).
      rewrite (Pv Hv). cbn [andb]. apply IHr; [|exact Pr|exact Hr].
      intros j w Hj. rewrite Nat.add_succ_comm. apply Hnth. exact Hj. }
    apply G; [intros j v Hj; exact Hj|exact IH|exact Hu].
  - cbn [uniqueKeys] in Hu. apply andb_true_iff in Hu. destruct Hu as [Hn Hu].
    cbn [deepEqual is_objectish own_keys andb].
    rewrite length_map, Nat.eqb_refl. cbn [andb].
    assert (G : forall l,
               incl l kvs ->
               Forall (fun kv => uniqueKeys (snd kv) = true ->
                                 deepEqual (snd kv) (snd kv) = true) l ->
               forallb (fun kv => match kv with (_, w) => uniqueKeys w end) l
               = true ->
               (fix every (l : list (string * Value)) {struct l} : bool :=
                  match l with
                  | [] => true
                  | (k, v) :: r =>
                      match prop_get (VObj kvs) k with
                      | Some w => deepEqual v w
                      | None => false
                      end && every r
                  end) l = true).
    { induction l as [|[k v] r IHr]; intros Hincl Hall Hur; [reflexivity|].
      cbn [forallb] in Hur. apply andb_true_iff in Hur. destruct Hur as [Hv Hr].
      inversion Hall as [|? ? Pv Pr]; subst. cbn [snd] in Pv.
      cbn [prop_get].
      rewrite (assoc_get_unique _ kvs k v Hn (Hincl _ (or_introl eq_refl))).
      rewrite (Pv Hv). cbn [andb]. apply IHr; [|exact Pr|exact Hr].
      intros kv Hkv. apply Hincl. right. exact Hkv. }
    apply G; [apply incl_refl|exact IH|exact Hu].
Qed.



Lemma assoc_get_index : forall (l : list Value) i j v,
    nth_error l j = Some v ->
    assoc_get (string_of_nat (i + j))
      (combine (map string_of_nat (seq i (List.length l))) l) = Some v.
Proof.
  induction l as [|x l IH]; intros i j v H; [destruct j; discriminate|].
  cbn [List.length seq map combine assoc_get].
  destruct j as [|j]; cbn [nth_error] in H.
  - rewrite Nat.add_0_r, String.eqb_refl. exact H.
  - replace (String.eqb (string_of_nat (i + S j)) (string_of_nat i)) with false.
    + rewrite <- Nat.add_succ_comm. apply IH. exact H.
    + symmetry. apply String.eqb_neq. intros E.
      apply string_of_nat_inj in E. lia.
Qed.

Lemma length_indexObject : forall (xs : list Value) i,
    List.length (combine (map string_of_nat (seq i (List.length xs))) xs)
    = List.length xs.
Proof.
  intros. rewrite length_combine, length_map, length_seq. apply Nat.min_id.
Qed.



(** ** The options of the validator *)

Lemma obind_ext : forall (A B : Type) (m1 m2 : option A) (k1 k2 : A -> option B),
    m1 = m2 -> (forall x, k1 x = k2 x) -> obind m1 k1 = obind m2 k2.
Proof. intros A B m1 m2 k1 k2 <- H. destruct m1; [apply H|reflexivity]. Qed.

Lemma collect_ext : forall (A E : Type) (f g : A -> option (list E)) l,
    (forall x, f x = g x) -> collect f l = collect g l.
Proof.
  intros A E f g l H. induction l as [|x l IH]; [reflexivity|].
  cbn [collect]. rewrite H, IH. reflexivity.
Qed.

Lemma someM_ext : forall (A : Type) (f g : A -> option bool) l,
    (forall x, f x = g x) -> someM f l = someM g l.
Proof.
  intros A f g l H. induction l as [|x l IH]; [reflexivity|].
  cbn [someM]. rewrite H, IH. reflexivity.
Qed.

Lemma countM_ext : forall (A : Type) (f g : A -> option bool) l,
    (forall x, f x = g x) -> countM f l = countM g l.
Proof.
  intros A f g l H. induction l as [|x l IH]; [reflexivity|].
  cbn [countM]. rewrite H, IH. reflexivity.
Qed.

Ltac same_calls H :=
  repeat first
    [ reflexivity
    | apply H
    | match goal with
      | |- obind _ _ = obind _ _ => apply obind_ext; [|intros ?]
      | |- collect _ _ = collect _ _ => apply collect_ext; intros ?
      | |- someM _ _ = someM _ _ => apply someM_ext; intros ?
      | |- countM _ _ = countM _ _ => apply countM_ext; intros ?
      | |- passes _ _ _ _ = passes _ _ _ _ => unfold passes
      | |- match ?x with _ => _ end = match ?x with _ => _ end => destruct x
      end ].

Lemma validateArray_ext : forall rt rec1 rec2 value sch ctx,
    (forall v c, rec1 v c = rec2 v c) ->
    validateArray rt rec1 value sch ctx = validateArray rt rec2 value sch ctx.
Proof. intros rt rec1 rec2 value sch ctx H. unfold validateArray. same_calls H. Qed.

Lemma validateObject_ext : forall rt rec1 rec2 value sch ctx,
    (forall v c, rec1 v c = rec2 v c) ->
    validateObject rt rec1 value sch ctx = validateObject rt rec2 value sch ctx.
Proof. intros rt rec1 rec2 value sch ctx H. unfold validateObject. same_calls H. Qed.

Lemma validateValue_options : forall V1 V2,
    v_rt V1 = v_rt V2 ->
    v_definitions V1 = v_definitions V2 ->
    earlyReject (v_options V1) = earlyReject (v_options V2) ->
    forall fuel value ctx,
      validateValue V1 fuel value ctx = validateValue V2 fuel value ctx.
Proof.
  intros V1 V2 Hrt Hdefs Hearly.
  induction fuel as [|f IH]; intros value ctx; [reflexivity|].
  cbn [validateValue]. cbv zeta. rewrite Hrt, Hdefs, Hearly.
  apply obind_ext; [reflexivity|]. intros s.
  destruct (_ && _); [reflexivity|].
  apply obind_ext.
  { destruct value; try reflexivity.
    - apply validateArray_ext. exact IH.
    - apply validateObject_ext. exact IH. }
  intros e_kind. same_calls IH.
Qed.

(** X17.  The option [allErrors] is never read: two validators for the
    same schema that differ only in it return the same errors from
    [validate] and from [validatePartial]. *)
Theorem allErrors_has_no_effect :
  forall (rt : Runtime) (sch : JSONSchema) (o_early all1 all2 : option bool)
         (fuel : nat) (value : Value) (completedPaths path : list string),
    validate (newSchemaValidator rt sch o_early all1) fuel value path
    = validate (newSchemaValidator rt sch o_early all2) fuel value path
    /\ validatePartial (newSchemaValidator rt sch o_early all1) fuel value
         completedPaths path
       = validatePartial (newSchemaValidator rt sch o_early all2) fuel value
           completedPaths path.
Proof.
  intros rt sch o_early all1 all2 fuel value completedPaths path.
  assert (E : forall v ctx,
             validateValue (newSchemaValidator rt sch o_early all1) fuel v ctx
             = validateValue (newSchemaValidator rt sch o_early all2) fuel v ctx).
  { intros v ctx. apply validateValue_options; reflexivity. }
  split.
  - unfold validate, getSchemaAtPath.
    cbn [newSchemaValidator v_schema v_definitions].
    apply obind_ext; [reflexivity|]. intros [s|]; [apply E|reflexivity].
  - unfold validatePartial. cbv zeta.
    cbn [newSchemaValidator v_schema v_definitions].
    destruct (_ || _); [apply E|reflexivity].
Qed.
